(** * The object-dependency engine of the catalog (src/backend/catalog/dependency.c)

    A shallow embedding of the address lists ([ObjectAddresses]), the
    class registry ([object_classes], [getObjectClass], [doDeletion]) and the
    cascading deletion machinery ([findAutoDeletableObjects],
    [recursiveDeletion], [deleteDependentObjects], [performDeletion],
    [performMultipleDeletions], [deleteWhatDependsOn]), followed by the
    properties of the specification that are stated about them. *)

From stdpp Require Import base decidable numbers option list sets gmap sorting.
From Stdlib Require Import ZArith Lia Ascii.

Set Default Proof Using "Type".
#[global] Set Warnings "-clear-no-such-hyp".

(* ===================================================================== *)
(** * Part I.  Definitions                                                *)
(* ===================================================================== *)

(** ** Scalars *)

(** [Oid] is an unsigned 32-bit integer, [int32] a signed one; both are
    carried as [Z]. *)
Definition Oid := Z.

Definition is_int32 (x : Z) : Prop := (- 2 ^ 31 <= x < 2 ^ 31)%Z.

(** The C cast [(unsigned int) x] of an [int32]. *)
Definition to_unsigned (x : Z) : Z := (x mod 2 ^ 32)%Z.

(** ** Object addresses *)

Record ObjectAddress := mkObjectAddress {
  classId : Oid;        (* class Id from pg_class *)
  objectId : Oid;       (* OID of the object *)
  objectSubId : Z       (* int32: subitem within the object, 0 = whole *)
}.

Arguments mkObjectAddress (_ _ _)%_Z.

#[global] Instance ObjectAddress_eq_dec : EqDecision ObjectAddress.
Proof. solve_decision. Defined.

(** [struct ObjectAddresses]: the live prefix [refs[0 .. numrefs-1]] of the
    expansible array.  [maxrefs] only drives reallocation and is not
    observable, so the array is the list of its first [numrefs] cells. *)
Definition ObjectAddresses := list ObjectAddress.

Definition new_object_addresses : ObjectAddresses := [].

(** [add_exact_object_address]: store at [refs + numrefs], then [numrefs++]. *)
Definition add_exact_object_address (object : ObjectAddress)
    (addrs : ObjectAddresses) : ObjectAddresses :=
  addrs ++ [object].

(** The body of the [for (i = numrefs - 1; i >= 0; i--)] loop of
    [object_address_present], over the cells from the top down. *)
Fixpoint object_address_present_loop (object : ObjectAddress)
    (top_down : list ObjectAddress) : bool :=
  match top_down with
  | [] => false
  | thisobj :: below =>
      if (classId object =? classId thisobj)%Z
         && (objectId object =? objectId thisobj)%Z
      then
        if (objectSubId object =? objectSubId thisobj)%Z
           || (objectSubId thisobj =? 0)%Z
        then true
        else object_address_present_loop object below
      else object_address_present_loop object below
  end.

Definition object_address_present (object : ObjectAddress)
    (addrs : ObjectAddresses) : bool :=
  object_address_present_loop object (reverse addrs).

(** ** Sorting and duplicate elimination *)

(** [object_address_comparator]: -1, 0 or 1. *)
Definition object_address_comparator (obja objb : ObjectAddress) : Z :=
  if (classId obja <? classId objb)%Z then (-1)%Z
  else if (classId obja >? classId objb)%Z then 1%Z
  else if (objectId obja <? objectId objb)%Z then (-1)%Z
  else if (objectId obja >? objectId objb)%Z then 1%Z
  else if (to_unsigned (objectSubId obja) <? to_unsigned (objectSubId objb))%Z
       then (-1)%Z
  else if (to_unsigned (objectSubId obja) >? to_unsigned (objectSubId objb))%Z
       then 1%Z
  else 0%Z.

(** The order [qsort] is asked to establish: [a] may precede [b]. *)
Definition comparator_le (cmp : ObjectAddress -> ObjectAddress -> Z)
    (a b : ObjectAddress) : Prop := (cmp a b <= 0)%Z.

#[global] Instance comparator_le_dec cmp a b : Decision (comparator_le cmp a b).
Proof. unfold comparator_le. apply _. Defined.

(** [qsort(refs, numrefs, sizeof(ObjectAddress), cmp)].  The C library
    routine is any comparison sort; it is rendered by a merge sort.  (For
    [object_address_comparator] the sorted array does not depend on the
    algorithm: see [sorted_array_unique].) *)
Definition qsort (cmp : ObjectAddress -> ObjectAddress -> Z)
    (refs : list ObjectAddress) : list ObjectAddress :=
  merge_sort (comparator_le cmp) refs.

(** The "Remove dups" loop of [eliminate_duplicate_dependencies].
    [priorobj] is the last cell of the output written so far and
    [remaining] the cells [refs[oldref ..]] still to be read.  The loop
    writes only at or below the cell it reads, so the cells still to be
    read are those of the sorted array.  Advancing [priorobj] freezes the
    previous output cell. *)
Fixpoint remove_dups (priorobj : ObjectAddress)
    (remaining : list ObjectAddress) : list ObjectAddress :=
  match remaining with
  | [] => [priorobj]
  | thisobj :: remaining' =>
      if (classId priorobj =? classId thisobj)%Z
         && (objectId priorobj =? objectId thisobj)%Z
      then
        if (objectSubId priorobj =? objectSubId thisobj)%Z
        then remove_dups priorobj remaining'      (* identical, drop thisobj *)
        else if (objectSubId priorobj =? 0)%Z
        then (* replace whole ref with partial *)
          remove_dups {| classId := classId priorobj;
                         objectId := objectId priorobj;
                         objectSubId := objectSubId thisobj |} remaining'
        else priorobj :: remove_dups thisobj remaining'
      else priorobj :: remove_dups thisobj remaining'
  end.

Definition eliminate_duplicate_dependencies (addrs : ObjectAddresses)
    : ObjectAddresses :=
  if (length addrs <=? 1)%nat then addrs      (* nothing to do *)
  else
    match qsort object_address_comparator addrs with
    | [] => []
    | first :: others => remove_dups first others
    end.

(** ** Object classes and the class registry *)

(** [enum ObjectClass], in the order of the [object_classes] table. *)
Inductive ObjectClass :=
| OCLASS_CLASS | OCLASS_PROC | OCLASS_TYPE | OCLASS_CAST | OCLASS_CONSTRAINT
| OCLASS_CONVERSION | OCLASS_DEFAULT | OCLASS_LANGUAGE | OCLASS_OPERATOR
| OCLASS_OPCLASS | OCLASS_REWRITE | OCLASS_TRIGGER | OCLASS_SCHEMA
| OCLASS_ROLE | OCLASS_DATABASE | OCLASS_TBLSPACE | OCLASS_FILESPACE
| OCLASS_FILESYSTEM | OCLASS_FDW | OCLASS_FOREIGN_SERVER
| OCLASS_USER_MAPPING | OCLASS_EXTPROTOCOL | OCLASS_COMPRESSION.

#[global] Instance ObjectClass_eq_dec : EqDecision ObjectClass.
Proof. solve_decision. Defined.

Definition all_object_classes : list ObjectClass :=
  [OCLASS_CLASS; OCLASS_PROC; OCLASS_TYPE; OCLASS_CAST; OCLASS_CONSTRAINT;
   OCLASS_CONVERSION; OCLASS_DEFAULT; OCLASS_LANGUAGE; OCLASS_OPERATOR;
   OCLASS_OPCLASS; OCLASS_REWRITE; OCLASS_TRIGGER; OCLASS_SCHEMA;
   OCLASS_ROLE; OCLASS_DATABASE; OCLASS_TBLSPACE; OCLASS_FILESPACE;
   OCLASS_FILESYSTEM; OCLASS_FDW; OCLASS_FOREIGN_SERVER;
   OCLASS_USER_MAPPING; OCLASS_EXTPROTOCOL; OCLASS_COMPRESSION].

(** The catalog OIDs named by the [*RelationId] macros.  Their values come
    from the catalog headers, which dependency.c only includes; they are
    taken as a parameter. *)
Record CatalogOids := {
  RelationRelationId : Oid;
  ProcedureRelationId : Oid;
  TypeRelationId : Oid;
  CastRelationId : Oid;
  ConstraintRelationId : Oid;
  ConversionRelationId : Oid;
  AttrDefaultRelationId : Oid;
  LanguageRelationId : Oid;
  OperatorRelationId : Oid;
  OperatorClassRelationId : Oid;
  RewriteRelationId : Oid;
  TriggerRelationId : Oid;
  NamespaceRelationId : Oid;
  AuthIdRelationId : Oid;
  DatabaseRelationId : Oid;
  TableSpaceRelationId : Oid;
  FileSpaceRelationId : Oid;
  FileSystemRelationId : Oid;
  ForeignDataWrapperRelationId : Oid;
  ForeignServerRelationId : Oid;
  UserMappingRelationId : Oid;
  ExtprotocolRelationId : Oid;
  CompressionRelationId : Oid
}.

(** [static const Oid object_classes[MAX_OCLASS]]. *)
Definition object_classes (ids : CatalogOids) (oclass : ObjectClass) : Oid :=
  match oclass with
  | OCLASS_CLASS => RelationRelationId ids
  | OCLASS_PROC => ProcedureRelationId ids
  | OCLASS_TYPE => TypeRelationId ids
  | OCLASS_CAST => CastRelationId ids
  | OCLASS_CONSTRAINT => ConstraintRelationId ids
  | OCLASS_CONVERSION => ConversionRelationId ids
  | OCLASS_DEFAULT => AttrDefaultRelationId ids
  | OCLASS_LANGUAGE => LanguageRelationId ids
  | OCLASS_OPERATOR => OperatorRelationId ids
  | OCLASS_OPCLASS => OperatorClassRelationId ids
  | OCLASS_REWRITE => RewriteRelationId ids
  | OCLASS_TRIGGER => TriggerRelationId ids
  | OCLASS_SCHEMA => NamespaceRelationId ids
  | OCLASS_ROLE => AuthIdRelationId ids
  | OCLASS_DATABASE => DatabaseRelationId ids
  | OCLASS_TBLSPACE => TableSpaceRelationId ids
  | OCLASS_FILESPACE => FileSpaceRelationId ids
  | OCLASS_FILESYSTEM => FileSystemRelationId ids
  | OCLASS_FDW => ForeignDataWrapperRelationId ids
  | OCLASS_FOREIGN_SERVER => ForeignServerRelationId ids
  | OCLASS_USER_MAPPING => UserMappingRelationId ids
  | OCLASS_EXTPROTOCOL => ExtprotocolRelationId ids
  | OCLASS_COMPRESSION => CompressionRelationId ids
  end.

(** The OIDs the registry knows, in table order. *)
Definition registered_class_oids (ids : CatalogOids) : list Oid :=
  map (object_classes ids) all_object_classes.

(** The case labels of a C [switch] are pairwise distinct. *)
Definition distinct_case_labels (ids : CatalogOids) : Prop :=
  NoDup (registered_class_oids ids).

(** [add_object_address]: as [add_exact_object_address], the class given
    by its [ObjectClass]. *)
Definition add_object_address (ids : CatalogOids) (oclass : ObjectClass)
    (objectId : Oid) (subId : Z) (addrs : ObjectAddresses) : ObjectAddresses :=
  addrs ++ [ {| classId := object_classes ids oclass;
                objectId := objectId;
                objectSubId := subId |} ].

(** ** pg_depend *)

(** [DependencyType]; [DEPENDENCY_unrecognized] stands for any other
    character found in the [deptype] column (the [default:] branches). *)
Inductive DependencyType :=
| DEPENDENCY_NORMAL
| DEPENDENCY_AUTO
| DEPENDENCY_INTERNAL
| DEPENDENCY_PIN
| DEPENDENCY_unrecognized (tag : ascii).

#[global] Instance DependencyType_eq_dec : EqDecision DependencyType.
Proof. solve_decision. Defined.

Inductive DropBehavior := DROP_RESTRICT | DROP_CASCADE.

#[global] Instance DropBehavior_eq_dec : EqDecision DropBehavior.
Proof. solve_decision. Defined.

(** [FormData_pg_depend]: one tuple of pg_depend. *)
Record FormData_pg_depend := {
  classid : Oid;        (* the dependent object *)
  objid : Oid;
  objsubid : Z;
  refclassid : Oid;     (* the referenced object *)
  refobjid : Oid;
  refobjsubid : Z;
  deptype : DependencyType
}.

Definition depender (foundDep : FormData_pg_depend) : ObjectAddress :=
  {| classId := classid foundDep;
     objectId := objid foundDep;
     objectSubId := objsubid foundDep |}.

Definition referenced (foundDep : FormData_pg_depend) : ObjectAddress :=
  {| classId := refclassid foundDep;
     objectId := refobjid foundDep;
     objectSubId := refobjsubid foundDep |}.

(** The two shapes of scan.  With [objectSubId != 0] the query has three
    key columns, else two ("when dropping a whole object, find the records
    for its sub-objects too"). *)
Inductive ScanKey := SCAN_BY_DEPENDER | SCAN_BY_REFERENCE.

Definition depender_matches (object : ObjectAddress)
    (tup : FormData_pg_depend) : bool :=
  (classid tup =? classId object)%Z && (objid tup =? objectId object)%Z
  && (if (objectSubId object =? 0)%Z then true
      else (objsubid tup =? objectSubId object)%Z).

Definition reference_matches (object : ObjectAddress)
    (tup : FormData_pg_depend) : bool :=
  (refclassid tup =? classId object)%Z && (refobjid tup =? objectId object)%Z
  && (if (objectSubId object =? 0)%Z then true
      else (refobjsubid tup =? objectSubId object)%Z).

Definition scan_matches (key : ScanKey) : ObjectAddress ->
    FormData_pg_depend -> bool :=
  match key with
  | SCAN_BY_DEPENDER => depender_matches
  | SCAN_BY_REFERENCE => reference_matches
  end.

(** ** The environment of the engine *)

Inductive GpRoleValue := GP_ROLE_UTILITY | GP_ROLE_DISPATCH | GP_ROLE_EXECUTE.

#[global] Instance GpRoleValue_eq_dec : EqDecision GpRoleValue.
Proof. solve_decision. Defined.

(** The catalogs in which [getObjectDescription] looks an object up, each
    by OID. *)
Inductive DescribedCatalog :=
| pg_class | pg_cast | pg_constraint | pg_conversion | pg_attrdef
| pg_language | pg_opclass | pg_am | pg_rewrite | pg_trigger | pg_namespace
| pg_database | pg_tablespace | pg_filespace | pg_filesystem
| pg_user_mapping.

#[global] Instance DescribedCatalog_eq_dec : EqDecision DescribedCatalog.
Proof. solve_decision. Defined.

(** What the engine reads but never writes: the catalog OIDs, the pg_class
    lookup used by [doDeletion], the global [Gp_role], whether [Assert] is
    compiled in, the tuples of pg_depend by heap position, and the order in
    which a scan returns the tuples that match its key ([scan_rank key
    object i] is the position of tuple [i] in that order; ties are returned
    in heap order).  For [getObjectDescription]: whether a catalog has a
    tuple with a given OID ([has_tuple]), and the columns of that tuple
    from which the description goes on to another lookup. *)
Record Catalog := {
  oids : CatalogOids;
  rel_is_index : Oid -> bool;   (* get_rel_relkind(..) == RELKIND_INDEX *)
  Gp_role : GpRoleValue;
  assert_checking : bool;
  pg_depend : list FormData_pg_depend;
  scan_rank : ScanKey -> ObjectAddress -> nat -> nat;
  has_tuple : DescribedCatalog -> Oid -> bool;
  conrelid : Oid -> Oid;        (* pg_constraint: the constrained relation *)
  adrelid : Oid -> Oid;         (* pg_attrdef: the relation of the column *)
  adnum : Oid -> Z;             (* pg_attrdef: the number of the column *)
  opcamid : Oid -> Oid;         (* pg_opclass: the access method *)
  ev_class : Oid -> Oid;        (* pg_rewrite: the relation of the rule *)
  tgrelid : Oid -> Oid          (* pg_trigger: the relation of the trigger *)
}.

(** ** Messages, errors and external calls *)

Inductive elevel := DEBUG2 | DEBUG1 | NOTICE | ERROR.

#[global] Instance elevel_eq_dec : EqDecision elevel.
Proof. solve_decision. Defined.

(** The string built by [getObjectDescription] is a function of the case
    taken, of the address and of the names found in the catalogs; it is
    kept symbolic: [Describe oclass object] is the text that the case
    [oclass] builds for [object]. *)
Record Description := Describe {
  described_class : ObjectClass;
  described : ObjectAddress
}.

#[global] Instance Description_eq_dec : EqDecision Description.
Proof. solve_decision. Defined.

Inductive Message :=
| MSG_drop_auto_cascades_to (other : Description)
| MSG_depends_on (other object : Description)      (* "%s depends on %s" *)
| MSG_drop_cascades_to (other : Description)
| MSG_not_yet_implemented           (* "dependency: not yet implemented!" *)
| MSG_NOT_YET_IMPLEMENTED.          (* "NOT YET IMPLEMENTED" *)

Inductive Error :=
| ERR_other_objects_depend (object : Description)
    (* "cannot drop %s because other objects depend on it" *)
| ERR_required_by_system (object : Description)
    (* "cannot drop %s because it is required by the database system" *)
| ERR_requires_it (object other : Description)
    (* "cannot drop %s because %s requires it" *)
| ERR_failed_to_drop_all (object : Description)
    (* "failed to drop all objects depending on %s" *)
| ERR_multiple_internal (object : Description)
| ERR_incorrect_pin (object : Description)
| ERR_unrecognized_deptype (tag : ascii) (object : Description)
| ERR_unrecognized_object_class (class : Oid)
| ERR_cache_lookup_failed (catalog : DescribedCatalog) (o : Oid)
    (* "cache lookup failed for relation %u", "... for conversion %u",
       "... for language %u", "... for opclass %u",
       "... for access method %u", "... for namespace %u",
       "... for database %u", "... for tablespace %u",
       "... for filespace %u", "... for filesystem %u",
       "... for user mapping %u" *)
| ERR_could_not_find_tuple (catalog : DescribedCatalog) (o : Oid)
    (* "could not find tuple for cast %u", "... for constraint %u",
       "... for attrdef %u", "... for rule %u", "... for trigger %u" *)
| ERR_reported (m : Message)        (* ereport(msglevel, ..), msglevel = ERROR *)
| TRAP_failed_assertion.

Arguments ERR_unrecognized_object_class _%_Z.
Arguments ERR_cache_lookup_failed _ _%_Z.
Arguments ERR_could_not_find_tuple _ _%_Z.

Inductive SqlState :=
| ERRCODE_DEPENDENT_OBJECTS_STILL_EXIST
| ERRCODE_INTERNAL_ERROR.

Definition errcode (e : Error) : SqlState :=
  match e with
  | ERR_other_objects_depend _ | ERR_required_by_system _
  | ERR_requires_it _ _ | ERR_failed_to_drop_all _ =>
      ERRCODE_DEPENDENT_OBJECTS_STILL_EXIST
  | _ => ERRCODE_INTERNAL_ERROR
  end.

Inductive Hint :=
| HINT_use_drop_cascade   (* "Use DROP ... CASCADE to drop the dependent objects too." *)
| HINT_drop_instead (other : Description).     (* "You may drop %s instead." *)

Definition errhint (e : Error) : option Hint :=
  match e with
  | ERR_other_objects_depend _ => Some HINT_use_drop_cascade
  | ERR_requires_it _ other => Some (HINT_drop_instead other)
  | _ => None
  end.

(** Calls that leave dependency.c: the per-class destructors and the two
    clean-up routines of step 3. *)
Inductive ExternalCall :=
| index_drop (o : Oid)
| RemoveAttributeById (o : Oid) (attnum : Z)
| heap_drop_with_catalog (o : Oid)
| RemoveFunctionById (o : Oid)
| RemoveTypeById (o : Oid)
| DropCastById (o : Oid)
| RemoveConstraintById (o : Oid)
| RemoveConversionById (o : Oid)
| RemoveAttrDefaultById (o : Oid)
| DropProceduralLanguageById (o : Oid)
| RemoveOperatorById (o : Oid)
| RemoveOpClassById (o : Oid)
| RemoveRewriteRuleById (o : Oid)
| RemoveTriggerById (o : Oid)
| RemoveSchemaById (o : Oid)
| RemoveFileSpaceById (o : Oid)
| RemoveFileSystemById (o : Oid)
| RemoveForeignDataWrapperById (o : Oid)
| RemoveForeignServerById (o : Oid)
| RemoveUserMappingById (o : Oid)
| RemoveExtProtocolById (o : Oid)
| DeleteComments (o class : Oid) (subid : Z)
| deleteSharedDependencyRecordsFor (class o : Oid).

Arguments index_drop _%_Z.
Arguments heap_drop_with_catalog _%_Z.
Arguments RemoveFunctionById _%_Z.
Arguments RemoveTypeById _%_Z.
Arguments DropCastById _%_Z.
Arguments RemoveConstraintById _%_Z.
Arguments RemoveConversionById _%_Z.
Arguments RemoveAttrDefaultById _%_Z.
Arguments DropProceduralLanguageById _%_Z.
Arguments RemoveOperatorById _%_Z.
Arguments RemoveOpClassById _%_Z.
Arguments RemoveRewriteRuleById _%_Z.
Arguments RemoveTriggerById _%_Z.
Arguments RemoveSchemaById _%_Z.
Arguments RemoveFileSpaceById _%_Z.
Arguments RemoveFileSystemById _%_Z.
Arguments RemoveForeignDataWrapperById _%_Z.
Arguments RemoveForeignServerById _%_Z.
Arguments RemoveUserMappingById _%_Z.
Arguments RemoveExtProtocolById _%_Z.
Arguments RemoveAttributeById (_ _)%_Z.
Arguments DeleteComments (_ _ _)%_Z.
Arguments deleteSharedDependencyRecordsFor (_ _)%_Z.

(** ** The state the engine changes *)

(** [dead]: the pg_depend tuples whose deletion is visible to scans.
    [pending]: the tuples deleted since the last [CommandCounterIncrement],
    which scans still see.  [dropped]: the objects [doDeletion] has
    returned for, newest first.  [alreadyDeleted]: the list behind the
    [alreadyDeleted] pointer, [None] for [NULL].  [scans] counts
    [caql_beginscan]. *)
Record DB := mkDB {
  dead : gset nat;
  pending : gset nat;
  dropped : list ObjectAddress;
  external : list ExternalCall;
  messages : list (elevel * Message);
  alreadyDeleted : option ObjectAddresses;
  scans : nat
}.

Definition initial_DB : DB :=
  {| dead := ∅; pending := ∅; dropped := []; external := [];
     messages := []; alreadyDeleted := None; scans := 0 |}.

Inductive Res (A : Type) :=
| Ok (a : A)
| Err (e : Error)
| OutOfFuel.
Arguments Ok {A} a.
Arguments Err {A} e.
Arguments OutOfFuel {A}.

Definition M (A : Type) : Type := DB -> Res (A * DB).

Definition ret {A} (a : A) : M A := fun st => Ok (a, st).

Definition raise {A} (e : Error) : M A := fun _ => Err e.

Definition bind {A B} (m : M A) (k : A -> M B) : M B :=
  fun st =>
    match m st with
    | Ok (a, st') => k a st'
    | Err e => Err e
    | OutOfFuel => OutOfFuel
    end.

Definition lift {A} (r : Res A) : M A :=
  fun st =>
    match r with
    | Ok a => Ok (a, st)
    | Err e => Err e
    | OutOfFuel => OutOfFuel
    end.

Notation "x <- m ;; k" := (bind m (fun x => k))
  (at level 20, m at level 99, k at level 200, only parsing).
Notation "m ;; k" := (bind m (fun _ => k))
  (at level 100, k at level 200, only parsing, right associativity).

(** ** State transformers *)

(** [caql_delete_current]: the tuple is deleted, but stays visible until
    the next [CommandCounterIncrement]. *)
Definition caql_delete_current (i : nat) : M unit :=
  fun st =>
    Ok (tt, {| dead := dead st; pending := {[ i ]} ∪ pending st;
               dropped := dropped st; external := external st;
               messages := messages st;
               alreadyDeleted := alreadyDeleted st; scans := scans st |}).

(** [CommandCounterIncrement]: make the preceding changes visible. *)
Definition CommandCounterIncrement : M unit :=
  fun st =>
    Ok (tt, {| dead := pending st ∪ dead st; pending := ∅;
               dropped := dropped st; external := external st;
               messages := messages st;
               alreadyDeleted := alreadyDeleted st; scans := scans st |}).

Definition call (c : ExternalCall) : M unit :=
  fun st =>
    Ok (tt, {| dead := dead st; pending := pending st;
               dropped := dropped st; external := c :: external st;
               messages := messages st;
               alreadyDeleted := alreadyDeleted st; scans := scans st |}).

Definition note_dropped (object : ObjectAddress) : M unit :=
  fun st =>
    Ok (tt, {| dead := dead st; pending := pending st;
               dropped := object :: dropped st; external := external st;
               messages := messages st;
               alreadyDeleted := alreadyDeleted st; scans := scans st |}).

Definition set_alreadyDeleted (l : option ObjectAddresses) : M unit :=
  fun st =>
    Ok (tt, {| dead := dead st; pending := pending st;
               dropped := dropped st; external := external st;
               messages := messages st;
               alreadyDeleted := l; scans := scans st |}).

Definition get_alreadyDeleted : M (option ObjectAddresses) :=
  fun st => Ok (alreadyDeleted st, st).

(** [ereport(elevel, (errmsg(..)))]: below [ERROR] the message is emitted
    and control returns; at [ERROR] it does not return.  Every message is
    taken to be let through (as when the server logs from DEBUG2 up), so
    that the arguments of [errmsg] are evaluated at every level. *)
Definition ereport (lvl : elevel) (m : Message) : M unit :=
  fun st =>
    match lvl with
    | ERROR => Err (ERR_reported m)
    | _ =>
        Ok (tt, {| dead := dead st; pending := pending st;
                   dropped := dropped st; external := external st;
                   messages := (lvl, m) :: messages st;
                   alreadyDeleted := alreadyDeleted st; scans := scans st |})
    end.

Section Engine.
Context (E : Catalog).

(** ** Scans of pg_depend *)

(** Heap positions of the tuples that satisfy the scan key. *)
Definition matching_tuples (key : ScanKey) (object : ObjectAddress)
    : list nat :=
  List.filter (fun i => match pg_depend E !! i with
                        | Some tup => scan_matches key object tup
                        | None => false
                        end)
              (seq 0 (length (pg_depend E))).

Definition rank_le (key : ScanKey) (object : ObjectAddress) (i j : nat)
    : Prop := scan_rank E key object i <= scan_rank E key object j.

#[global] Instance rank_le_dec key object i j :
  Decision (rank_le key object i j).
Proof. unfold rank_le. apply _. Defined.

(** [caql_beginscan]: the tuples the scan will go through, in scan order. *)
Definition caql_beginscan (key : ScanKey) (object : ObjectAddress)
    : M (list nat) :=
  fun st =>
    Ok (merge_sort (rank_le key object) (matching_tuples key object),
        {| dead := dead st; pending := pending st;
           dropped := dropped st; external := external st;
           messages := messages st;
           alreadyDeleted := alreadyDeleted st; scans := S (scans st) |}).

(** The tuple at heap position [i], if a scan can see it in state [st]. *)
Definition visible_tuple (st : DB) (i : nat) : option FormData_pg_depend :=
  if bool_decide (i ∈ dead st) then None else pg_depend E !! i.

(** [caql_getnext] when the scan has come to heap position [i]: the tuple,
    if it is (still) visible. *)
Definition caql_getnext (i : nat) : M (option FormData_pg_depend) :=
  fun st => Ok (visible_tuple st i, st).

(** ** getObjectClass, getObjectDescription, doDeletion *)

(** [Assert(cond)]: a trap when assertions are compiled in. *)
Definition Assert (cond : bool) : Res unit :=
  if assert_checking E && negb cond then Err TRAP_failed_assertion
  else Ok tt.

Definition getObjectClass (object : ObjectAddress) : Res ObjectClass :=
  match List.find (fun oclass =>
                (classId object =? object_classes (oids E) oclass)%Z)
             all_object_classes with
  | Some OCLASS_CLASS => Ok OCLASS_CLASS   (* caller must check objectSubId *)
  | Some oclass =>
      match Assert (objectSubId object =? 0)%Z with
      | Ok _ => Ok oclass
      | Err e => Err e
      | OutOfFuel => OutOfFuel
      end
  | None => Err (ERR_unrecognized_object_class (classId object))
  end.

(** [OidIsValid]: not [InvalidOid]. *)
Definition OidIsValid (o : Oid) : bool := negb (o =? 0)%Z.

(** [getRelationDescription]: the text appended to the buffer depends on
    relkind, relstorage and the name of the relation; what is modelled is
    the lookup of the pg_class tuple. *)
Definition getRelationDescription (relid : Oid) : Res unit :=
  if has_tuple E pg_class relid then Ok tt
  else Err (ERR_cache_lookup_failed pg_class relid).

(** The lookup by OID that opens most cases of [getObjectDescription]. *)
Definition lookup_or (failure : DescribedCatalog -> Oid -> Error)
    (catalog : DescribedCatalog) (o : Oid) : Res unit :=
  if has_tuple E catalog o then Ok tt else Err (failure catalog o).

(** The body of [getObjectDescription]; [recurse] is the function itself,
    called for the column of a default.  The routines that only format a
    name ([format_procedure], [format_type_be], [format_operator],
    [get_relid_attribute_name], [GetUserNameFromId],
    [GetForeignDataWrapper], [GetForeignServer],
    [ExtProtocolGetNameByOid], [quote_qualified_identifier]) are not part
    of this file and, like the destructors, are taken to return.  The
    [default:] branch of the switch is not reached: [getObjectClass] has
    raised before. *)
Definition describe_object (recurse : ObjectAddress -> M Description)
    (object : ObjectAddress) : M Description :=
  oclass <- lift (getObjectClass object) ;;
  match oclass with
  | OCLASS_CLASS =>
      (* " column %s" is appended when objectSubId != 0 *)
      lift (getRelationDescription (objectId object))
  | OCLASS_PROC | OCLASS_TYPE | OCLASS_OPERATOR => ret tt
  | OCLASS_CAST =>
      lift (lookup_or ERR_could_not_find_tuple pg_cast (objectId object))
  | OCLASS_CONSTRAINT =>
      lift (lookup_or ERR_could_not_find_tuple pg_constraint
                      (objectId object)) ;;
      if OidIsValid (conrelid E (objectId object))
      then lift (getRelationDescription (conrelid E (objectId object)))
      else ret tt
  | OCLASS_CONVERSION =>
      lift (lookup_or ERR_cache_lookup_failed pg_conversion
                      (objectId object))
  | OCLASS_DEFAULT =>
      lift (lookup_or ERR_could_not_find_tuple pg_attrdef
                      (objectId object)) ;;
      let colobject :=
        {| classId := RelationRelationId (oids E);
           objectId := adrelid E (objectId object);
           objectSubId := adnum E (objectId object) |} in
      recurse colobject ;;
      ret tt
  | OCLASS_LANGUAGE =>
      lift (lookup_or ERR_cache_lookup_failed pg_language (objectId object))
  | OCLASS_OPCLASS =>
      lift (lookup_or ERR_cache_lookup_failed pg_opclass (objectId object)) ;;
      lift (lookup_or ERR_cache_lookup_failed pg_am
                      (opcamid E (objectId object)))
  | OCLASS_REWRITE =>
      lift (lookup_or ERR_could_not_find_tuple pg_rewrite (objectId object)) ;;
      lift (getRelationDescription (ev_class E (objectId object)))
  | OCLASS_TRIGGER =>
      lift (lookup_or ERR_could_not_find_tuple pg_trigger (objectId object)) ;;
      lift (getRelationDescription (tgrelid E (objectId object)))
  | OCLASS_SCHEMA =>
      lift (lookup_or ERR_cache_lookup_failed pg_namespace (objectId object))
  | OCLASS_ROLE => ret tt
  | OCLASS_DATABASE =>
      lift (lookup_or ERR_cache_lookup_failed pg_database (objectId object))
  | OCLASS_TBLSPACE =>
      lift (lookup_or ERR_cache_lookup_failed pg_tablespace
                      (objectId object))
  | OCLASS_FDW | OCLASS_FOREIGN_SERVER => ret tt
  | OCLASS_FILESPACE =>
      lift (lookup_or ERR_cache_lookup_failed pg_filespace (objectId object))
  | OCLASS_FILESYSTEM =>
      lift (lookup_or ERR_cache_lookup_failed pg_filesystem
                      (objectId object))
  | OCLASS_USER_MAPPING =>
      lift (lookup_or ERR_cache_lookup_failed pg_user_mapping
                      (objectId object))
  | OCLASS_EXTPROTOCOL => ret tt
  | OCLASS_COMPRESSION => ereport NOTICE MSG_NOT_YET_IMPLEMENTED
  end ;;
  ret (Describe oclass object).

(** [getObjectDescription].  The call of the function on itself is made
    on a pg_class address, whose case makes no further call: two levels
    are all there is (see [getObjectDescription_unfold]). *)
Definition getObjectDescription (object : ObjectAddress) : M Description :=
  describe_object (describe_object (fun _ _ => OutOfFuel)) object.

(** The [switch] of [doDeletion]. *)
Definition doDeletion_dispatch (oclass : ObjectClass)
    (object : ObjectAddress) : M unit :=
  match oclass with
  | OCLASS_CLASS =>
      if rel_is_index E (objectId object) then
        lift (Assert (objectSubId object =? 0)%Z) ;;
        call (index_drop (objectId object))
      else if negb (objectSubId object =? 0)%Z then
        call (RemoveAttributeById (objectId object) (objectSubId object))
      else call (heap_drop_with_catalog (objectId object))
  | OCLASS_PROC => call (RemoveFunctionById (objectId object))
  | OCLASS_TYPE => call (RemoveTypeById (objectId object))
  | OCLASS_CAST => call (DropCastById (objectId object))
  | OCLASS_CONSTRAINT => call (RemoveConstraintById (objectId object))
  | OCLASS_CONVERSION => call (RemoveConversionById (objectId object))
  | OCLASS_DEFAULT => call (RemoveAttrDefaultById (objectId object))
  | OCLASS_LANGUAGE => call (DropProceduralLanguageById (objectId object))
  | OCLASS_OPERATOR => call (RemoveOperatorById (objectId object))
  | OCLASS_OPCLASS => call (RemoveOpClassById (objectId object))
  | OCLASS_REWRITE => call (RemoveRewriteRuleById (objectId object))
  | OCLASS_TRIGGER => call (RemoveTriggerById (objectId object))
  | OCLASS_SCHEMA => call (RemoveSchemaById (objectId object))
  | OCLASS_FILESPACE => call (RemoveFileSpaceById (objectId object))
  | OCLASS_FILESYSTEM => call (RemoveFileSystemById (objectId object))
  | OCLASS_FDW => call (RemoveForeignDataWrapperById (objectId object))
  | OCLASS_FOREIGN_SERVER => call (RemoveForeignServerById (objectId object))
  | OCLASS_USER_MAPPING => call (RemoveUserMappingById (objectId object))
  | OCLASS_EXTPROTOCOL => call (RemoveExtProtocolById (objectId object))
  | OCLASS_COMPRESSION => ereport NOTICE MSG_not_yet_implemented
  | OCLASS_ROLE | OCLASS_DATABASE | OCLASS_TBLSPACE =>
      (* intentionally not handled: the default branch *)
      raise (ERR_unrecognized_object_class (classId object))
  end.

(** [doDeletion]; when it returns, the object is entered in [dropped]. *)
Definition doDeletion (object : ObjectAddress) : M unit :=
  oclass <- lift (getObjectClass object) ;;
  doDeletion_dispatch oclass object ;;
  note_dropped object.

(** ** The messages of the deletion pass *)

Definition report_depends_on (msglevel : elevel)
    (other object : Description) : M unit :=
  if bool_decide (msglevel = NOTICE)
     && bool_decide (Gp_role E = GP_ROLE_EXECUTE)
  then ereport DEBUG1 (MSG_depends_on other object)
  else ereport msglevel (MSG_depends_on other object).

Definition report_drop_cascades_to (msglevel : elevel)
    (other : Description) : M unit :=
  if bool_decide (Gp_role E = GP_ROLE_EXECUTE)
  then ereport DEBUG1 (MSG_drop_cascades_to other)
  else ereport msglevel (MSG_drop_cascades_to other).

(** The three-way test made before recursing to [otherObject], both for
    an owning object and for a NORMAL dependent.  The value is [false]
    when the test sets [ok = false]. *)
Definition complain (otherObject : ObjectAddress)
    (objDescription : Description) (behavior : DropBehavior)
    (msglevel : elevel) (oktodelete : ObjectAddresses) : M bool :=
  otherDesc <- getObjectDescription otherObject ;;
  if object_address_present otherObject oktodelete then
    ereport DEBUG2 (MSG_drop_auto_cascades_to otherDesc) ;; ret true
  else
    match behavior with
    | DROP_RESTRICT =>
        report_depends_on msglevel otherDesc objDescription ;; ret false
    | DROP_CASCADE =>
        report_drop_cascades_to msglevel otherDesc ;; ret true
    end.

(** ** Step 1 of recursiveDeletion: the scan of the outgoing records *)

(** Case 2 of the INTERNAL branch: we are recursing from the other end of
    the dependency, or from the whole object that has it as a component. *)
Definition called_from (callingObject otherObject : ObjectAddress) : bool :=
  (classId callingObject =? classId otherObject)%Z
  && (objectId callingObject =? objectId otherObject)%Z
  && ((objectSubId callingObject =? objectSubId otherObject)%Z
      || (objectSubId callingObject =? 0)%Z).

(** The [while] loop of step 1.  [owner] is [Some owningObject] once
    [amOwned] is set. *)
Fixpoint sever_outgoing (objDescription : Description)
    (callingObject : option ObjectAddress) (scan : list nat)
    (owner : option ObjectAddress) : M (option ObjectAddress) :=
  match scan with
  | [] => ret owner
  | i :: scan' =>
      tup <- caql_getnext i ;;
      match tup with
      | None => sever_outgoing objDescription callingObject scan' owner
      | Some foundDep =>
          let otherObject := referenced foundDep in
          match deptype foundDep with
          | DEPENDENCY_NORMAL | DEPENDENCY_AUTO =>
              (* no problem *)
              caql_delete_current i ;;
              sever_outgoing objDescription callingObject scan' owner
          | DEPENDENCY_INTERNAL =>
              match callingObject with
              | None =>
                  (* 1. at the outermost level, disallow the DROP *)
                  otherObjDesc <- getObjectDescription otherObject ;;
                  raise (ERR_requires_it objDescription otherObjDesc)
              | Some caller =>
                  if called_from caller otherObject then
                    (* 2. recursing from the other end *)
                    caql_delete_current i ;;
                    sever_outgoing objDescription callingObject scan' owner
                  else
                    (* 3. recursing from anyplace else *)
                    match owner with
                    | Some _ => raise (ERR_multiple_internal objDescription)
                    | None =>
                        (* "continue" bypasses the delete *)
                        sever_outgoing objDescription callingObject scan'
                                       (Some otherObject)
                    end
              end
          | DEPENDENCY_PIN => raise (ERR_incorrect_pin objDescription)
          | DEPENDENCY_unrecognized tag =>
              raise (ERR_unrecognized_deptype tag objDescription)
          end
      end
  end.

(** ** Step 2: deleteDependentObjects *)

(** The [while] loop of [deleteDependentObjects]; [recurse] is
    [recursiveDeletion] with the fuel left to it. *)
Fixpoint delete_dependents
    (recurse : ObjectAddress -> option ObjectAddress -> M bool)
    (object : ObjectAddress) (objDescription : Description)
    (behavior : DropBehavior) (msglevel : elevel)
    (oktodelete : ObjectAddresses) (scan : list nat) (ok : bool) : M bool :=
  match scan with
  | [] => ret ok
  | i :: scan' =>
      tup <- caql_getnext i ;;
      match tup with
      | None =>
          delete_dependents recurse object objDescription behavior msglevel
                            oktodelete scan' ok
      | Some foundDep =>
          let otherObject := depender foundDep in
          match deptype foundDep with
          | DEPENDENCY_NORMAL =>
              quiet <- complain otherObject objDescription behavior msglevel
                                oktodelete ;;
              done <- recurse otherObject (Some object) ;;
              delete_dependents recurse object objDescription behavior
                                msglevel oktodelete scan'
                                (ok && quiet && done)
          | DEPENDENCY_AUTO | DEPENDENCY_INTERNAL =>
              otherDesc <- getObjectDescription otherObject ;;
              ereport DEBUG2 (MSG_drop_auto_cascades_to otherDesc) ;;
              done <- recurse otherObject (Some object) ;;
              delete_dependents recurse object objDescription behavior
                                msglevel oktodelete scan' (ok && done)
          | DEPENDENCY_PIN => raise (ERR_required_by_system objDescription)
          | DEPENDENCY_unrecognized tag =>
              raise (ERR_unrecognized_deptype tag objDescription)
          end
      end
  end.

Definition deleteDependentObjects_with
    (recurse : ObjectAddress -> option ObjectAddress -> M bool)
    (object : ObjectAddress) (objDescription : Description)
    (behavior : DropBehavior) (msglevel : elevel)
    (oktodelete : ObjectAddresses) : M bool :=
  scan <- caql_beginscan SCAN_BY_REFERENCE object ;;
  delete_dependents recurse object objDescription behavior msglevel
                    oktodelete scan true.

(** Step 3, after [doDeletion]: save the object in [alreadyDeleted] if the
    caller keeps such a list. *)
Definition save_deleted (object : ObjectAddress) : M unit :=
  l <- get_alreadyDeleted ;;
  match l with
  | None => ret tt
  | Some deleted =>
      if object_address_present object deleted then ret tt
      else set_alreadyDeleted (Some (add_exact_object_address object deleted))
  end.

(** Step 3 of [recursiveDeletion]: delete the object itself. *)
Definition delete_object_itself (object : ObjectAddress) : M unit :=
  doDeletion object ;;
  save_deleted object ;;
  call (DeleteComments (objectId object) (classId object)
                       (objectSubId object)) ;;
  (if (objectSubId object =? 0)%Z
   then call (deleteSharedDependencyRecordsFor (classId object)
                                               (objectId object))
   else ret tt) ;;
  CommandCounterIncrement.

(** ** recursiveDeletion *)

Fixpoint recursiveDeletion (fuel : nat) (object : ObjectAddress)
    (behavior : DropBehavior) (msglevel : elevel)
    (callingObject : option ObjectAddress)
    (oktodelete : ObjectAddresses) : M bool :=
  match fuel with
  | O => fun _ => OutOfFuel
  | S fuel' =>
      objDescription <- getObjectDescription object ;;
      (* Step 1 *)
      scan <- caql_beginscan SCAN_BY_DEPENDER object ;;
      owner <- sever_outgoing objDescription callingObject scan None ;;
      CommandCounterIncrement ;;
      match owner with
      | Some owningObject =>
          quiet <- complain owningObject objDescription behavior msglevel
                            oktodelete ;;
          done <- recursiveDeletion fuel' owningObject behavior msglevel
                                    (Some object) oktodelete ;;
          ret (quiet && done)
      | None =>
          (* Step 2 *)
          ok <- deleteDependentObjects_with
                  (fun other caller =>
                     recursiveDeletion fuel' other behavior msglevel caller
                                       oktodelete)
                  object objDescription behavior msglevel oktodelete ;;
          (* Step 3 *)
          delete_object_itself object ;;
          ret ok
      end
  end.

Definition deleteDependentObjects (fuel : nat) (object : ObjectAddress)
    (objDescription : Description) (behavior : DropBehavior)
    (msglevel : elevel) (oktodelete : ObjectAddresses) : M bool :=
  deleteDependentObjects_with
    (fun other caller =>
       recursiveDeletion fuel other behavior msglevel caller oktodelete)
    object objDescription behavior msglevel oktodelete.

(** ** findAutoDeletableObjects *)

(** The [while] loop of [findAutoDeletableObjects]; [recurse] is the
    function itself with the fuel left to it, called with [addself = true]. *)
Fixpoint find_auto_scan
    (recurse : ObjectAddress -> ObjectAddresses -> M ObjectAddresses)
    (object : ObjectAddress) (scan : list nat)
    (oktodelete : ObjectAddresses) : M ObjectAddresses :=
  match scan with
  | [] => ret oktodelete
  | i :: scan' =>
      tup <- caql_getnext i ;;
      match tup with
      | None => find_auto_scan recurse object scan' oktodelete
      | Some foundDep =>
          match deptype foundDep with
          | DEPENDENCY_NORMAL =>
              (* ignore *)
              find_auto_scan recurse object scan' oktodelete
          | DEPENDENCY_AUTO | DEPENDENCY_INTERNAL =>
              oktodelete' <- recurse (depender foundDep) oktodelete ;;
              find_auto_scan recurse object scan' oktodelete'
          | DEPENDENCY_PIN =>
              objDescription <- getObjectDescription object ;;
              raise (ERR_required_by_system objDescription)
          | DEPENDENCY_unrecognized tag =>
              objDescription <- getObjectDescription object ;;
              raise (ERR_unrecognized_deptype tag objDescription)
          end
      end
  end.

(** The list [oktodelete] points to is updated in place; the updated list
    is the result. *)
Fixpoint findAutoDeletableObjects (fuel : nat) (object : ObjectAddress)
    (oktodelete : ObjectAddresses) (addself : bool) : M ObjectAddresses :=
  match fuel with
  | O => fun _ => OutOfFuel
  | S fuel' =>
      if object_address_present object oktodelete then ret oktodelete
      else
        let oktodelete :=
          if addself then add_exact_object_address object oktodelete
          else oktodelete in
        scan <- caql_beginscan SCAN_BY_REFERENCE object ;;
        find_auto_scan
          (fun other okt => findAutoDeletableObjects fuel' other okt true)
          object scan oktodelete
  end.

(** ** The entry points *)

Definition performDeletion (fuel : nat) (object : ObjectAddress)
    (behavior : DropBehavior) : M unit :=
  objDescription <- getObjectDescription object ;;
  oktodelete <- findAutoDeletableObjects fuel object new_object_addresses
                                         true ;;
  set_alreadyDeleted None ;;
  ok <- recursiveDeletion fuel object behavior NOTICE None oktodelete ;;
  if ok then ret tt
  else raise (ERR_other_objects_depend objDescription).

(** [performDeletionWithList]; the value is the [oktodelete] list as the
    call leaves it.  The [alreadyDeleted] list is the one in the state. *)
Definition performDeletionWithList (fuel : nat) (object : ObjectAddress)
    (oktodelete : ObjectAddresses) (behavior : DropBehavior)
    : M ObjectAddresses :=
  objDescription <- getObjectDescription object ;;
  oktodelete' <- findAutoDeletableObjects fuel object oktodelete true ;;
  ok <- recursiveDeletion fuel object behavior NOTICE None oktodelete' ;;
  if ok then ret oktodelete'
  else raise (ERR_other_objects_depend objDescription).

(** First loop of [performMultipleDeletions]: collect [implicit]. *)
Fixpoint collect_implicit (fuel : nat) (objects : list ObjectAddress)
    (implicit : ObjectAddresses) : M ObjectAddresses :=
  match objects with
  | [] => ret implicit
  | obj :: objects' =>
      if object_address_present obj implicit
      then collect_implicit fuel objects' implicit
      else
        implicit' <- findAutoDeletableObjects fuel obj implicit false ;;
        collect_implicit fuel objects' implicit'
  end.

(** Second loop: "Do the deletion." *)
Fixpoint delete_each (fuel : nat) (objects : list ObjectAddress)
    (implicit : ObjectAddresses) (behavior : DropBehavior) : M unit :=
  match objects with
  | [] => ret tt
  | obj :: objects' =>
      deleted <- get_alreadyDeleted ;;
      if object_address_present obj (default [] deleted)
      then delete_each fuel objects' implicit behavior
      else if object_address_present obj implicit
      then delete_each fuel objects' implicit behavior
      else
        implicit' <- performDeletionWithList fuel obj implicit behavior ;;
        delete_each fuel objects' implicit' behavior
  end.

Definition performMultipleDeletions (fuel : nat) (objects : ObjectAddresses)
    (behavior : DropBehavior) : M unit :=
  set_alreadyDeleted (Some new_object_addresses) ;;
  implicit <- collect_implicit fuel objects new_object_addresses ;;
  delete_each fuel objects implicit behavior.

Definition deleteWhatDependsOn (fuel : nat) (object : ObjectAddress)
    (showNotices : bool) : M unit :=
  objDescription <- getObjectDescription object ;;
  oktodelete <- findAutoDeletableObjects fuel object new_object_addresses
                                         true ;;
  set_alreadyDeleted None ;;
  ok <- deleteDependentObjects fuel object objDescription DROP_CASCADE
          (if showNotices then NOTICE else DEBUG2) oktodelete ;;
  if ok then ret tt
  else raise (ERR_failed_to_drop_all objDescription).

End Engine.

(** ** Sample catalogs, used by the examples below *)

(** The OIDs of the catalogs as a PostgreSQL 8.2 / HAWQ installation
    numbers them; the examples only rely on their being distinct. *)
Definition sample_oids : CatalogOids :=
  {| RelationRelationId := 1259; ProcedureRelationId := 1255;
     TypeRelationId := 1247; CastRelationId := 2605;
     ConstraintRelationId := 2606; ConversionRelationId := 2607;
     AttrDefaultRelationId := 2604; LanguageRelationId := 2612;
     OperatorRelationId := 2617; OperatorClassRelationId := 2616;
     RewriteRelationId := 2618; TriggerRelationId := 2620;
     NamespaceRelationId := 2615; AuthIdRelationId := 1260;
     DatabaseRelationId := 1262; TableSpaceRelationId := 1213;
     FileSpaceRelationId := 5009; FileSystemRelationId := 7076;
     ForeignDataWrapperRelationId := 2898;
     ForeignServerRelationId := 2899; UserMappingRelationId := 2895;
     ExtprotocolRelationId := 7175; CompressionRelationId := 3056 |}%Z.

(** A pg_depend tuple "[d] depends on [r]". *)
Definition depends_on (d r : ObjectAddress) (t : DependencyType)
    : FormData_pg_depend :=
  {| classid := classId d; objid := objectId d; objsubid := objectSubId d;
     refclassid := classId r; refobjid := objectId r;
     refobjsubid := objectSubId r; deptype := t |}.

(** The PIN entry for [r]: zeroes in the depender fields. *)
Definition pinned (r : ObjectAddress) : FormData_pg_depend :=
  {| classid := 0%Z; objid := 0%Z; objsubid := 0%Z;
     refclassid := classId r; refobjid := objectId r;
     refobjsubid := objectSubId r; deptype := DEPENDENCY_PIN |}.

(** Two scan orders: heap order and its reverse. *)
Definition heap_order : ScanKey -> ObjectAddress -> nat -> nat :=
  fun _ _ i => i.

Definition reverse_heap_order : ScanKey -> ObjectAddress -> nat -> nat :=
  fun _ _ i => 1000 - i.

(** In the sample catalogs every object that is looked up is found;
    constraints are domain constraints (no relation), and the defaults,
    rules and triggers are those of relation 16384. *)
Definition sample_catalog (tuples : list FormData_pg_depend)
    (rank : ScanKey -> ObjectAddress -> nat -> nat) : Catalog :=
  {| oids := sample_oids; rel_is_index := fun _ => false;
     Gp_role := GP_ROLE_DISPATCH; assert_checking := true;
     pg_depend := tuples; scan_rank := rank;
     has_tuple := fun _ _ => true;
     conrelid := fun _ => 0%Z;
     adrelid := fun _ => 16384%Z; adnum := fun _ => 1%Z;
     opcamid := fun _ => 403%Z;
     ev_class := fun _ => 16384%Z; tgrelid := fun _ => 16384%Z |}.

(** [E] after the tuples of catalog [gone] have been removed: nothing is
    found there any more. *)
Definition without_tuples (gone : DescribedCatalog) (E : Catalog) : Catalog :=
  {| oids := oids E; rel_is_index := rel_is_index E; Gp_role := Gp_role E;
     assert_checking := assert_checking E; pg_depend := pg_depend E;
     scan_rank := scan_rank E;
     has_tuple := fun catalog o =>
                    if decide (catalog = gone) then false
                    else has_tuple E catalog o;
     conrelid := conrelid E; adrelid := adrelid E; adnum := adnum E;
     opcamid := opcamid E; ev_class := ev_class E; tgrelid := tgrelid E |}.

Definition table (o : Oid) : ObjectAddress := mkObjectAddress 1259%Z o 0%Z.
Definition column (o : Oid) (attnum : Z) : ObjectAddress :=
  mkObjectAddress 1259%Z o attnum.
Definition function (o : Oid) : ObjectAddress := mkObjectAddress 1255%Z o 0%Z.
Definition type (o : Oid) : ObjectAddress := mkObjectAddress 1247%Z o 0%Z.
Definition compression (o : Oid) : ObjectAddress :=
  mkObjectAddress 3056%Z o 0%Z.

Definition rule (o : Oid) : ObjectAddress := mkObjectAddress 2618%Z o 0%Z.

Definition constraint (o : Oid) : ObjectAddress :=
  mkObjectAddress 2606%Z o 0%Z.

Arguments constraint _%_Z.
Arguments rule _%_Z.
Arguments table _%_Z.
Arguments column (_ _)%_Z.
Arguments function _%_Z.
Arguments type _%_Z.
Arguments compression _%_Z.

(** Scenario 3 of the specification: the relation 16400 that backs the
    composite type 16402 is an implementation detail of the type. *)
Definition composite_type_catalog : Catalog :=
  sample_catalog [depends_on (table 16400) (type 16402) DEPENDENCY_INTERNAL]
                 heap_order.

(** Scenario 1 of the specification: view 16500 reads table 16384. *)
Definition view_on_table_catalog : Catalog :=
  sample_catalog [depends_on (table 16500) (table 16384) DEPENDENCY_NORMAL]
                 heap_order.

(** Scenario 5 of the specification: a pinned built-in type (int4, OID
    23) that a function uses. *)
Definition pinned_type_catalog : Catalog :=
  sample_catalog [pinned (type 23);
                  depends_on (function 3001) (type 23) DEPENDENCY_NORMAL]
                 heap_order.

(** The backing relation 16400 of composite type 16402, used by a pinned
    function 3001. *)
Definition pinned_dependent_catalog : Catalog :=
  sample_catalog
    [depends_on (table 16400) (type 16402) DEPENDENCY_INTERNAL;
     depends_on (function 3001) (table 16400) DEPENDENCY_NORMAL;
     pinned (function 3001)]
    heap_order.

(** Two functions that call each other, and a composite type 16402 whose
    input function is function 1; relation 16400 backs the type. *)
Definition mutual_functions_catalog : Catalog :=
  sample_catalog
    [depends_on (function 1) (function 2) DEPENDENCY_NORMAL;
     depends_on (function 2) (function 1) DEPENDENCY_NORMAL;
     depends_on (table 16400) (type 16402) DEPENDENCY_INTERNAL;
     depends_on (type 16402) (function 1) DEPENDENCY_NORMAL]
    heap_order.

(** Relations rank above everything else. *)
Definition relation_rank (x : ObjectAddress) : nat :=
  if (classId x =? 1259)%Z then 1 else 0.

(** Functions 1, 2 and 3 are INTERNAL dependents of one another in a
    circle, and function 1 uses function 9. *)
Definition internal_cycle_catalog : Catalog :=
  sample_catalog
    [depends_on (function 1) (function 9) DEPENDENCY_NORMAL;
     depends_on (function 1) (function 2) DEPENDENCY_INTERNAL;
     depends_on (function 2) (function 3) DEPENDENCY_INTERNAL;
     depends_on (function 3) (function 1) DEPENDENCY_INTERNAL]
    heap_order.

(** View 16500 with its row type 16502 and its rule 16504; function 3001
    takes the row type as argument and the rule calls the function.  The
    tuples of the row type and of the function are older than the tuples
    of the rule, which were written again when the view was replaced. *)
Definition view_rule_tuples : list FormData_pg_depend :=
  [depends_on (type 16502) (table 16500) DEPENDENCY_INTERNAL;
   depends_on (function 3001) (type 16502) DEPENDENCY_NORMAL;
   depends_on (rule 16504) (table 16500) DEPENDENCY_INTERNAL;
   depends_on (rule 16504) (function 3001) DEPENDENCY_NORMAL].

Definition view_rule_catalog : Catalog :=
  sample_catalog view_rule_tuples heap_order.

(** Tables 16600 and 16700 are AUTO dependents of each other. *)
Definition auto_cycle_catalog : Catalog :=
  sample_catalog
    [depends_on (table 16600) (table 16700) DEPENDENCY_AUTO;
     depends_on (table 16700) (table 16600) DEPENDENCY_AUTO]
    heap_order.

(** Table 16500 inherits from table 16384 and has a foreign key, the
    constraint 16600, that refers to table 16384. *)
Definition foreign_key_catalog : Catalog :=
  sample_catalog
    [depends_on (table 16500) (table 16384) DEPENDENCY_NORMAL;
     depends_on (constraint 16600) (table 16500) DEPENDENCY_AUTO;
     depends_on (constraint 16600) (table 16384) DEPENDENCY_NORMAL]
    heap_order.

(** Table 16384 and function 3001 use type 16402, and column 3 of the
    table is recorded as an INTERNAL dependent of the function: a catalog
    in which the depender of an INTERNAL tuple is not a whole object. *)
Definition column_owner_catalog : Catalog :=
  sample_catalog
    [depends_on (table 16384) (type 16402) DEPENDENCY_NORMAL;
     depends_on (function 3001) (type 16402) DEPENDENCY_NORMAL;
     depends_on (column 16384 3) (function 3001) DEPENDENCY_INTERNAL]
    heap_order.

(** ** Vocabulary of the statements *)

(** [covers a q]: the stored entry [a] answers for the query [q]. *)
Definition covers (a q : ObjectAddress) : Prop :=
  classId a = classId q /\ objectId a = objectId q /\
  (objectSubId a = objectSubId q \/ objectSubId a = 0%Z).

(** The order of the comparator, spelled out: lexicographic on class,
    object and the sub-id read as unsigned. *)
Definition addr_le (a b : ObjectAddress) : Prop :=
  (classId a < classId b \/
   (classId a = classId b /\
    (objectId a < objectId b \/
     (objectId a = objectId b /\
      to_unsigned (objectSubId a) <= to_unsigned (objectSubId b)))))%Z.

Definition int32_subids (l : list ObjectAddress) : Prop :=
  Forall (fun a => is_int32 (objectSubId a)) l.

(** [survives l x]: [x] is an entry of [l] and, if it is a whole-object
    entry, [l] holds no partial entry for the same object. *)
Definition survives (l : list ObjectAddress) (x : ObjectAddress) : Prop :=
  x ∈ l /\
  (objectSubId x = 0%Z ->
   forall b, b ∈ l -> classId b = classId x -> objectId b = objectId x ->
             objectSubId b = 0%Z).

(** The notices that [getObjectDescription] emits in the case [oclass],
    newest first, and the state after them. *)
Definition notices_of (oclass : ObjectClass) : list (elevel * Message) :=
  match oclass with
  | OCLASS_COMPRESSION => [(NOTICE, MSG_NOT_YET_IMPLEMENTED)]
  | _ => []
  end.

Definition described_in (oclass : ObjectClass) (st : DB) : DB :=
  {| dead := dead st; pending := pending st; dropped := dropped st;
     external := external st;
     messages := notices_of oclass ++ messages st;
     alreadyDeleted := alreadyDeleted st; scans := scans st |}.

(** The lookups that the case [oclass] of [getObjectDescription] makes for
    [object], in order, up to the first that fails. *)
Definition description_lookups (E : Catalog) (oclass : ObjectClass)
    (object : ObjectAddress) : Res unit :=
  let o := objectId object in
  let then_relation (first : Res unit) (relid : Oid) : Res unit :=
    match first with
    | Ok _ => getRelationDescription E relid
    | failed => failed
    end in
  match oclass with
  | OCLASS_CLASS => getRelationDescription E o
  | OCLASS_CAST => lookup_or E ERR_could_not_find_tuple pg_cast o
  | OCLASS_CONSTRAINT =>
      if OidIsValid (conrelid E o)
      then then_relation (lookup_or E ERR_could_not_find_tuple pg_constraint o)
                         (conrelid E o)
      else lookup_or E ERR_could_not_find_tuple pg_constraint o
  | OCLASS_CONVERSION => lookup_or E ERR_cache_lookup_failed pg_conversion o
  | OCLASS_DEFAULT =>
      then_relation (lookup_or E ERR_could_not_find_tuple pg_attrdef o)
                    (adrelid E o)
  | OCLASS_LANGUAGE => lookup_or E ERR_cache_lookup_failed pg_language o
  | OCLASS_OPCLASS =>
      match lookup_or E ERR_cache_lookup_failed pg_opclass o with
      | Ok _ => lookup_or E ERR_cache_lookup_failed pg_am (opcamid E o)
      | failed => failed
      end
  | OCLASS_REWRITE =>
      then_relation (lookup_or E ERR_could_not_find_tuple pg_rewrite o)
                    (ev_class E o)
  | OCLASS_TRIGGER =>
      then_relation (lookup_or E ERR_could_not_find_tuple pg_trigger o)
                    (tgrelid E o)
  | OCLASS_SCHEMA => lookup_or E ERR_cache_lookup_failed pg_namespace o
  | OCLASS_DATABASE => lookup_or E ERR_cache_lookup_failed pg_database o
  | OCLASS_TBLSPACE => lookup_or E ERR_cache_lookup_failed pg_tablespace o
  | OCLASS_FILESPACE => lookup_or E ERR_cache_lookup_failed pg_filespace o
  | OCLASS_FILESYSTEM => lookup_or E ERR_cache_lookup_failed pg_filesystem o
  | OCLASS_USER_MAPPING =>
      lookup_or E ERR_cache_lookup_failed pg_user_mapping o
  | OCLASS_PROC | OCLASS_TYPE | OCLASS_OPERATOR | OCLASS_ROLE | OCLASS_FDW
  | OCLASS_FOREIGN_SERVER | OCLASS_EXTPROTOCOL | OCLASS_COMPRESSION => Ok tt
  end.

(** An error that says that a catalog has no tuple for an OID. *)
Definition lookup_failure (e : Error) : Prop :=
  match e with
  | ERR_cache_lookup_failed _ _ | ERR_could_not_find_tuple _ _ => True
  | _ => False
  end.

(** The part of the state that the deletion pass is about: visible and
    pending tuple deletions, the objects dropped, the scans begun. *)
Definition core (st : DB) : gset nat * gset nat * list ObjectAddress * nat :=
  (dead st, pending st, dropped st, scans st).

(** The errors raised below the entry points: every error but the two
    that [performDeletion], [performDeletionWithList] and
    [deleteWhatDependsOn] raise when the pass returns [false]. *)
Definition raised_inside (e : Error) : Prop :=
  match e with
  | ERR_other_objects_depend _ | ERR_failed_to_drop_all _ => False
  | _ => True
  end.

(** The objects that the messages "[other] depends on [object]" of a run
    name as [other], newest first. *)
Definition violations (st : DB) : list ObjectAddress :=
  omap (fun m => match m.2 with
                 | MSG_depends_on other _ => Some (described other)
                 | _ => None
                 end) (messages st).

(** [E] with another scan order. *)
Definition reorder (E : Catalog)
    (rank : ScanKey -> ObjectAddress -> nat -> nat) : Catalog :=
  {| oids := oids E; rel_is_index := rel_is_index E; Gp_role := Gp_role E;
     assert_checking := assert_checking E; pg_depend := pg_depend E;
     scan_rank := rank;
     has_tuple := has_tuple E; conrelid := conrelid E; adrelid := adrelid E;
     adnum := adnum E; opcamid := opcamid E; ev_class := ev_class E;
     tgrelid := tgrelid E |}.

(** The addresses of [l] are all answered for by [l']. *)
Definition all_present (l l' : list ObjectAddress) : Prop :=
  forall x, x ∈ l -> object_address_present x l' = true.

(** [dropped st'] is [dropped st] with [new] put in front. *)
Definition drops (st st' : DB) (new : list ObjectAddress) : Prop :=
  dropped st' = new ++ dropped st.

Definition silent_deptype (t : DependencyType) : Prop :=
  t = DEPENDENCY_AUTO \/ t = DEPENDENCY_INTERNAL.

Definition deletable_deptype (t : DependencyType) : Prop :=
  t = DEPENDENCY_NORMAL \/ t = DEPENDENCY_AUTO \/ t = DEPENDENCY_INTERNAL.

Section Runs.
Context (E : Catalog).

(** The tuples a scan keyed by [object] goes through, as a set. *)
Definition tuples_of (key : ScanKey) (object : ObjectAddress) : gset nat :=
  list_to_set (matching_tuples E key object).

(** [object] is referenced by a PIN entry that scans can see in [st]. *)
Definition is_pinned (st : DB) (object : ObjectAddress) : Prop :=
  exists i tup, visible_tuple E st i = Some tup /\
                deptype tup = DEPENDENCY_PIN /\
                reference_matches object tup = true.

(** An INTERNAL dependent depends on nothing but its owner: the tuple that
    records an INTERNAL dependency is the only tuple of its depender's
    class and object. *)
Definition internal_dependents_exclusive : Prop :=
  forall i j ti tj,
    pg_depend E !! i = Some ti -> pg_depend E !! j = Some tj ->
    deptype ti = DEPENDENCY_INTERNAL ->
    classid tj = classid ti -> objid tj = objid ti -> i = j.

(** The INTERNAL dependencies have no cycle: [h] ranks the objects, by at
    most [K], and the owner of an INTERNAL dependent ranks below it. *)
Definition internal_rank (h : ObjectAddress -> nat) (K : nat) : Prop :=
  (forall x, h x <= K) /\
  forall i tup x,
    pg_depend E !! i = Some tup -> deptype tup = DEPENDENCY_INTERNAL ->
    depender_matches x tup = true -> h (referenced tup) < h x.

(** How a call of [recursiveDeletion] comes about: at the outermost level,
    or from the scan of the incoming tuples of the caller. *)
Definition arrives (caller : option ObjectAddress) (object : ObjectAddress)
    : Prop :=
  match caller with
  | None => True
  | Some c =>
      exists i tup, pg_depend E !! i = Some tup /\ depender tup = object /\
                    reference_matches c tup = true
  end.

(** [reaches D root x]: [x] is [root] or depends on it, directly or not,
    through tuples outside [D]. *)
Inductive reaches (D : gset nat) (root : ObjectAddress)
    : ObjectAddress -> Prop :=
| reaches_root : reaches D root root
| reaches_step x i tup :
    reaches D root x ->
    pg_depend E !! i = Some tup -> i ∉ D ->
    reference_matches x tup = true ->
    reaches D root (depender tup).

(** The depender of an INTERNAL tuple is a whole object, not a column. *)
Definition internal_dependers_whole : Prop :=
  forall i tup,
    pg_depend E !! i = Some tup -> deptype tup = DEPENDENCY_INTERNAL ->
    objsubid tup = 0%Z.

(** [involves D root x]: the deletion of [root] involves [x], because [x]
    depends on an object involved, or because an object involved is an
    INTERNAL dependent of [x]; through tuples outside [D]. *)
Inductive involves (D : gset nat) (root : ObjectAddress)
    : ObjectAddress -> Prop :=
| involves_root : involves D root root
| involves_dependent x i tup :
    involves D root x ->
    pg_depend E !! i = Some tup -> i ∉ D ->
    reference_matches x tup = true ->
    involves D root (depender tup)
| involves_owner x i tup :
    involves D root x ->
    pg_depend E !! i = Some tup -> i ∉ D ->
    deptype tup = DEPENDENCY_INTERNAL ->
    depender_matches x tup = true ->
    involves D root (referenced tup).

(** The same through AUTO and INTERNAL tuples only. *)
Inductive auto_reaches (D : gset nat) (root : ObjectAddress)
    : ObjectAddress -> Prop :=
| auto_reaches_root : auto_reaches D root root
| auto_reaches_step x i tup :
    auto_reaches D root x ->
    pg_depend E !! i = Some tup -> i ∉ D ->
    reference_matches x tup = true ->
    silent_deptype (deptype tup) ->
    auto_reaches D root (depender tup).

(** The AUTO and INTERNAL dependents of [object] are in [oktodelete]. *)
Definition silent_dependents_present (D : gset nat)
    (oktodelete : ObjectAddresses) (object : ObjectAddress) : Prop :=
  forall i tup,
    pg_depend E !! i = Some tup -> i ∉ D ->
    reference_matches object tup = true ->
    silent_deptype (deptype tup) ->
    object_address_present (depender tup) oktodelete = true.

(** [oktodelete] is closed under AUTO and INTERNAL dependencies. *)
Definition auto_closed (D : gset nat) (oktodelete : ObjectAddresses)
    : Prop :=
  forall z, z ∈ oktodelete -> silent_dependents_present D oktodelete z.

(** What a call of [findAutoDeletableObjects] on [object] that returns
    has done: the state is untouched but for the count of scans; the
    objects added to the list depend on [object] through AUTO and INTERNAL
    tuples, have their own AUTO and INTERNAL dependents in the list, and
    are not pinned. *)
Definition prescan_post (object : ObjectAddress) (okt : ObjectAddresses)
    (st : DB) (okt' : ObjectAddresses) (st' : DB) : Prop :=
  dead st' = dead st /\ pending st' = pending st /\
  dropped st' = dropped st /\ alreadyDeleted st' = alreadyDeleted st /\
  scans st <= scans st' /\
  exists added,
    okt' = okt ++ added /\
    (forall z, z ∈ added -> auto_reaches (dead st) object z) /\
    (forall z, z ∈ added -> silent_dependents_present (dead st) okt' z) /\
    (forall z, z ∈ added -> ~ is_pinned st z).


Context (behavior : DropBehavior) (msglevel : elevel)
        (oktodelete : ObjectAddresses).

(** The runs of [recursiveDeletion] that return, as derivations:
    [Deletes object caller st ok st'] is a call on [object] from [caller]
    that starts in [st] and returns [ok] in [st'];
    [DeletesDependents object d scan ok st ok' st'] is the rest [scan] of
    the loop of [deleteDependentObjects]. *)
Inductive Deletes
    : ObjectAddress -> option ObjectAddress -> DB -> bool -> DB -> Prop :=
| Deletes_owner object caller st d sd scan st0 owningObject st1 u st2
                quiet st3 r st4 :
    getObjectDescription E object st = Ok (d, sd) ->
    caql_beginscan E SCAN_BY_DEPENDER object sd = Ok (scan, st0) ->
    sever_outgoing E d caller scan None st0 = Ok (Some owningObject, st1) ->
    CommandCounterIncrement st1 = Ok (u, st2) ->
    complain E owningObject d behavior msglevel oktodelete st2
      = Ok (quiet, st3) ->
    Deletes owningObject (Some object) st3 r st4 ->
    Deletes object caller st (quiet && r) st4
| Deletes_itself object caller st d sd scan st0 st1 u st2 scan' st3 ok st4
                 u' st5 :
    getObjectDescription E object st = Ok (d, sd) ->
    caql_beginscan E SCAN_BY_DEPENDER object sd = Ok (scan, st0) ->
    sever_outgoing E d caller scan None st0 = Ok (None, st1) ->
    CommandCounterIncrement st1 = Ok (u, st2) ->
    caql_beginscan E SCAN_BY_REFERENCE object st2 = Ok (scan', st3) ->
    DeletesDependents object d scan' true st3 ok st4 ->
    delete_object_itself E object st4 = Ok (u', st5) ->
    Deletes object caller st ok st5
with DeletesDependents
    : ObjectAddress -> Description -> list nat -> bool -> DB -> bool -> DB
      -> Prop :=
| DeletesDependents_done object d ok st :
    DeletesDependents object d [] ok st ok st
| DeletesDependents_skip object d i scan ok st ok' st' :
    visible_tuple E st i = None ->
    DeletesDependents object d scan ok st ok' st' ->
    DeletesDependents object d (i :: scan) ok st ok' st'
| DeletesDependents_normal object d i scan ok st tup quiet st1 r st2
                           ok' st' :
    visible_tuple E st i = Some tup ->
    deptype tup = DEPENDENCY_NORMAL ->
    complain E (depender tup) d behavior msglevel oktodelete st
      = Ok (quiet, st1) ->
    Deletes (depender tup) (Some object) st1 r st2 ->
    DeletesDependents object d scan (ok && quiet && r) st2 ok' st' ->
    DeletesDependents object d (i :: scan) ok st ok' st'
| DeletesDependents_silent object d i scan ok st tup od sd u st1 r st2
                           ok' st' :
    visible_tuple E st i = Some tup ->
    silent_deptype (deptype tup) ->
    getObjectDescription E (depender tup) st = Ok (od, sd) ->
    ereport DEBUG2 (MSG_drop_auto_cascades_to od) sd = Ok (u, st1) ->
    Deletes (depender tup) (Some object) st1 r st2 ->
    DeletesDependents object d scan (ok && r) st2 ok' st' ->
    DeletesDependents object d (i :: scan) ok st ok' st'.

End Runs.

Scheme Deletes_mut := Minimality for Deletes Sort Prop
  with DeletesDependents_mut := Minimality for DeletesDependents Sort Prop.
Combined Scheme Deletes_mutind from Deletes_mut, DeletesDependents_mut.

(** The pg_depend tuples that scans can still see. *)
Definition alive (E : Catalog) (st : DB) : gset nat :=
  list_to_set (seq 0 (length (pg_depend E))) ∖ dead st.

(** The objects the pre-scan can be asked to visit, other than its
    target: the dependers of the tuples. *)
Definition dependers (E : Catalog) : list ObjectAddress :=
  depender <$> pg_depend E.

(** How many dependers are not yet entries of [oktodelete]. *)
Definition unlisted (E : Catalog) (oktodelete : ObjectAddresses) : nat :=
  length (filter (fun z => z ∉ oktodelete) (dependers E)).

(** The scans of the pre-scan are paid for by the objects it lists. *)
Definition prescan_count (E : Catalog) (object : ObjectAddress) (addself : bool)
    (okt : ObjectAddresses) (st : DB) (okt' : ObjectAddresses) (st' : DB)
    : Prop :=
  exists added,
    okt' = okt ++ added /\
    scans st' <= scans st + length added + (if addself then 0 else 1) /\
    NoDup added /\
    forall z, z ∈ added -> (z ∉ okt) /\ (z = object \/ z ∈ dependers E).


(** ** Effects and reports *)

(** All of the state but the messages: what a run has done, as opposed to
    what it has said. *)
Definition effects (st : DB)
    : gset nat * gset nat * list ObjectAddress * list ExternalCall
      * option ObjectAddresses * nat :=
  (dead st, pending st, dropped st, external st, alreadyDeleted st, scans st).

(** [follows R m1 m2]: wherever [m1] returns, [m2] returns from every state
    with the same effects, with a value related by [R], and the effects of
    the two runs are the same. *)
Definition follows {A} (R : A -> A -> Prop) (m1 m2 : M A) : Prop :=
  forall st1 st2 a1 st1',
    effects st1 = effects st2 ->
    m1 st1 = Ok (a1, st1') ->
    exists a2 st2', m2 st2 = Ok (a2, st2') /\ R a1 a2 /\
                    effects st1' = effects st2'.

Definition any_value {A} (_ _ : A) : Prop := True.

(** The calls that leave dependency.c when step 3 of [recursiveDeletion]
    deletes [x], newest first. *)
Definition calls_of_drop (E : Catalog) (x : ObjectAddress)
    : list ExternalCall :=
  match delete_object_itself E x initial_DB with
  | Ok (_, st) => external st
  | _ => []
  end.


(** The classes of the objects shared across databases, which [doDeletion]
    does not handle. *)
Definition shared_class (oclass : ObjectClass) : bool :=
  match oclass with
  | OCLASS_ROLE | OCLASS_DATABASE | OCLASS_TBLSPACE => true
  | _ => false
  end.

(** [x] can be the object of a nested call of [recursiveDeletion]: it is
    the depender of a tuple, or the owner in an INTERNAL tuple, outside
    [D]. *)
Definition can_be_reached (E : Catalog) (D : gset nat) (x : ObjectAddress)
    : Prop :=
  exists i tup,
    pg_depend E !! i = Some tup /\ (i ∉ D) /\
    (depender tup = x \/
     (deptype tup = DEPENDENCY_INTERNAL /\ referenced tup = x)).

(** ** More sample catalogs *)

Definition namespace (o : Oid) : ObjectAddress := mkObjectAddress 2615%Z o 0%Z.
Definition sequence (o : Oid) : ObjectAddress := table o.

Arguments namespace _%_Z.
Arguments sequence _%_Z.

(** A [serial] column: sequence 16390 is an AUTO dependent of column 1 of
    table 16384, and the default 16392 of the column, itself an AUTO
    dependent of the column, uses the sequence. *)
Definition serial_column_catalog : Catalog :=
  sample_catalog
    [depends_on (sequence 16390) (column 16384 1) DEPENDENCY_AUTO;
     depends_on (mkObjectAddress 2604 16392 0) (column 16384 1)
                DEPENDENCY_AUTO;
     depends_on (mkObjectAddress 2604 16392 0) (sequence 16390)
                DEPENDENCY_NORMAL]
    heap_order.

(** The temporary schema 16700 holds table 16710, with its row type
    16712, and view 16720 on the table, with its row type 16722 and its
    rule 16724. *)
Definition temp_schema_catalog : Catalog :=
  sample_catalog
    [depends_on (table 16710) (namespace 16700) DEPENDENCY_NORMAL;
     depends_on (type 16712) (table 16710) DEPENDENCY_INTERNAL;
     depends_on (table 16720) (namespace 16700) DEPENDENCY_NORMAL;
     depends_on (type 16722) (table 16720) DEPENDENCY_INTERNAL;
     depends_on (rule 16724) (table 16720) DEPENDENCY_INTERNAL;
     depends_on (rule 16724) (table 16710) DEPENDENCY_NORMAL]
    heap_order.

(** ** The log of a run *)

(** What [save_deleted] does to the list behind [alreadyDeleted]. *)
Definition remember_deleted (x : ObjectAddress) (deleted : ObjectAddresses)
    : ObjectAddresses :=
  if object_address_present x deleted then deleted
  else add_exact_object_address x deleted.

(** [logged E st new st']: from [st] to [st'] the objects of [new] were
    dropped, newest first, each by a step 3 that returned; the external
    calls made are those of the drops, and the drops were entered in the
    [alreadyDeleted] list, if there is one. *)
Definition logged (E : Catalog) (st : DB) (new : list ObjectAddress)
    (st' : DB) : Prop :=
  drops st st' new /\
  external st' = flat_map (calls_of_drop E) new ++ external st /\
  alreadyDeleted st'
    = (fun deleted => foldr remember_deleted deleted new)
        <$> alreadyDeleted st /\
  Forall (fun x => exists st0 r, delete_object_itself E x st0 = Ok r) new.

(** The external calls made from [st] to [st'] are those of the objects
    dropped, in the order of the drops; every drop is of an object of a
    class that [doDeletion] handles and makes one call of [DeleteComments],
    after the destructor of the class (if the class has one) and before
    [deleteSharedDependencyRecordsFor] (for a whole object). *)
Definition calls_follow_drops (E : Catalog) (st st' : DB) : Prop :=
  exists new,
    drops st st' new /\
    external st' = flat_map (calls_of_drop E) new ++ external st /\
    forall x, x ∈ new ->
      (exists oclass, getObjectClass E x = Ok oclass /\
                      shared_class oclass = false) /\
      exists destructor,
        length destructor <= 1 /\
        calls_of_drop E x
        = (if (objectSubId x =? 0)%Z
           then [deleteSharedDependencyRecordsFor (classId x) (objectId x)]
           else [])
          ++ DeleteComments (objectId x) (classId x) (objectSubId x)
             :: destructor.


(** ** The expansible array, cell by cell *)

(** [struct ObjectAddresses] as it lies in memory: the cells of the
    palloc'd block ([None] for a cell that has never been written) and the
    two [int] fields.  The operations below follow the C text access by
    access; the value is [None] when an access falls outside the block,
    reads a cell that was never written, or an [int] overflows.  A block
    is assumed to be granted whenever it is asked for. *)
Record ObjectAddressesArray := mkArray {
  refs : list (option ObjectAddress);
  numrefs : Z;
  maxrefs : Z
}.

(** [refs[i]] read. *)
Definition load (cells : list (option ObjectAddress)) (i : Z)
    : option ObjectAddress :=
  if (0 <=? i)%Z then mjoin (cells !! Z.to_nat i) else None.

(** [refs[i] = v]. *)
Definition store (cells : list (option ObjectAddress)) (i : Z)
    (v : ObjectAddress) : option (list (option ObjectAddress)) :=
  if ((0 <=? i) && (i <? Z.of_nat (length cells)))%Z
  then Some (<[Z.to_nat i := Some v]> cells)
  else None.

(** [repalloc(refs, n * sizeof(ObjectAddress))]: a block of [n] cells that
    starts with the old contents. *)
Definition repalloc (cells : list (option ObjectAddress)) (n : Z)
    : list (option ObjectAddress) :=
  take (Z.to_nat n) cells ++ replicate (Z.to_nat n - length cells) None.

(** An [int] result. *)
Definition to_int (x : Z) : option Z :=
  if ((- 2 ^ 31 <=? x) && (x <? 2 ^ 31))%Z then Some x else None.

Definition new_object_addresses_array : ObjectAddressesArray :=
  {| refs := replicate 32 None; numrefs := 0; maxrefs := 32 |}.

(** "enlarge array if needed" *)
Definition enlarge_if_needed (addrs : ObjectAddressesArray)
    : option ObjectAddressesArray :=
  if (numrefs addrs >=? maxrefs addrs)%Z then
    m ← to_int (maxrefs addrs * 2);
    Some {| refs := repalloc (refs addrs) m; numrefs := numrefs addrs;
            maxrefs := m |}
  else Some addrs.

Definition add_exact_object_address_array (object : ObjectAddress)
    (addrs : ObjectAddressesArray) : option ObjectAddressesArray :=
  addrs ← enlarge_if_needed addrs;
  (* record this item *)
  cells ← store (refs addrs) (numrefs addrs) object;
  n ← to_int (numrefs addrs + 1);
  Some {| refs := cells; numrefs := n; maxrefs := maxrefs addrs |}.

Definition add_object_address_array (ids : CatalogOids) (oclass : ObjectClass)
    (objectId : Oid) (subId : Z) (addrs : ObjectAddressesArray)
    : option ObjectAddressesArray :=
  addrs ← enlarge_if_needed addrs;
  cells ← store (refs addrs) (numrefs addrs)
                {| classId := object_classes ids oclass;
                   objectId := objectId; objectSubId := subId |};
  n ← to_int (numrefs addrs + 1);
  Some {| refs := cells; numrefs := n; maxrefs := maxrefs addrs |}.

(** [for (i = addrs->numrefs - 1; i >= 0; i--)]; [count] is [i + 1]. *)
Fixpoint object_address_present_down (object : ObjectAddress)
    (cells : list (option ObjectAddress)) (count : nat) : option bool :=
  match count with
  | O => Some false
  | S i =>
      thisobj ← load cells (Z.of_nat i);
      if (classId object =? classId thisobj)%Z
         && (objectId object =? objectId thisobj)%Z
      then
        if (objectSubId object =? objectSubId thisobj)%Z
           || (objectSubId thisobj =? 0)%Z
        then Some true
        else object_address_present_down object cells i
      else object_address_present_down object cells i
  end.

Definition object_address_present_array (object : ObjectAddress)
    (addrs : ObjectAddressesArray) : option bool :=
  object_address_present_down object (refs addrs) (Z.to_nat (numrefs addrs)).

(** [qsort(refs, n, sizeof(ObjectAddress), cmp)] on the block: the first
    [n] cells are read, sorted and written back. *)
Definition qsort_cells (cmp : ObjectAddress -> ObjectAddress -> Z)
    (cells : list (option ObjectAddress)) (n : Z)
    : option (list (option ObjectAddress)) :=
  if ((0 <=? n) && (n <=? Z.of_nat (length cells)))%Z then
    live ← mapM id (take (Z.to_nat n) cells);
    Some ((Some <$> qsort cmp live) ++ drop (Z.to_nat n) cells)
  else None.

(** The "Remove dups" loop, on the block: [count] iterations are left,
    [priorobj] is the index [priorobj - addrs->refs]. *)
Fixpoint remove_dups_array (count : nat) (oldref priorobj newrefs : Z)
    (cells : list (option ObjectAddress))
    : option (Z * list (option ObjectAddress)) :=
  match count with
  | O => Some (newrefs, cells)
  | S count' =>
      thisobj ← load cells oldref;
      prior ← load cells priorobj;
      let add_thisobj :=
        (* Not identical, so add thisobj to output set *)
        cells' ← store cells (priorobj + 1) thisobj;
        remove_dups_array count' (oldref + 1) (priorobj + 1) (newrefs + 1)
                          cells' in
      if (classId prior =? classId thisobj)%Z
         && (objectId prior =? objectId thisobj)%Z
      then
        if (objectSubId prior =? objectSubId thisobj)%Z
        then remove_dups_array count' (oldref + 1) priorobj newrefs cells
        else if (objectSubId prior =? 0)%Z
        then
          cells' ← store cells priorobj
                         {| classId := classId prior;
                            objectId := objectId prior;
                            objectSubId := objectSubId thisobj |};
          remove_dups_array count' (oldref + 1) priorobj newrefs cells'
        else add_thisobj
      else add_thisobj
  end.

Definition eliminate_duplicate_dependencies_array
    (addrs : ObjectAddressesArray) : option ObjectAddressesArray :=
  if (numrefs addrs <=? 1)%Z then Some addrs      (* nothing to do *)
  else
    cells ← qsort_cells object_address_comparator (refs addrs)
                        (numrefs addrs);
    '(newrefs, cells') ← remove_dups_array (Z.to_nat (numrefs addrs - 1))
                                           1 0 1 cells;
    Some {| refs := cells'; numrefs := newrefs; maxrefs := maxrefs addrs |}.

(** The block of [addrs] holds the list [l] in its first [numrefs] cells,
    and [maxrefs] is the size of the block. *)
Definition represents (addrs : ObjectAddressesArray) (l : ObjectAddresses)
    : Prop :=
  numrefs addrs = Z.of_nat (length l) /\
  maxrefs addrs = Z.of_nat (length (refs addrs)) /\
  (0 < maxrefs addrs < 2 ^ 31)%Z /\
  take (length l) (refs addrs) = Some <$> l.

(** The array after the objects of [l] have been added, one by one. *)
Definition add_all (l : list ObjectAddress) (addrs : ObjectAddressesArray)
    : option ObjectAddressesArray :=
  foldl (fun acc object => acc ≫= add_exact_object_address_array object)
        (Some addrs) l.

(** A block of 32 cells with two entries, and a full block of 32. *)
Definition two_entries_array : ObjectAddressesArray :=
  {| refs := Some (table 16384) :: Some (column 16384 3) :: replicate 30 None;
     numrefs := 2; maxrefs := 32 |}.

Definition thirty_two_tables : list ObjectAddress :=
  (fun i => table (16384 + Z.of_nat i)) <$> seq 0 32.

Definition full_array : ObjectAddressesArray :=
  {| refs := Some <$> thirty_two_tables; numrefs := 32; maxrefs := 32 |}.

(** Column 2 of table 16384 twice, the table itself, and function 3001,
    with stale cells above. *)
Definition unsorted_array : ObjectAddressesArray :=
  {| refs := [Some (column 16384 2); Some (function 3001);
              Some (table 16384); Some (column 16384 2);
              Some (table 1); None; None; None];
     numrefs := 4; maxrefs := 8 |}.

(** ** Dependencies of expressions *)

(** The kinds of range-table entry that [find_expr_references_walker]
    tells apart; [RTE_other] stands for the remaining ones. *)
Inductive RTEKind :=
| RTE_RELATION | RTE_JOIN | RTE_FUNCTION | RTE_TABLEFUNCTION | RTE_other.

(** Node trees.  One constructor for each node tag that
    [find_expr_references_walker] tests, with the fields it reads, and
    [T_other] for every other tag.  [children] are the nodes that
    [expression_tree_walker] (for [T_Query]: [query_tree_walker], told to
    ignore join alias lists) hands to the walker, in order; those two
    routines are not part of dependency.c.  [varno] and [varlevelsup] are
    of the unsigned type [Index]. *)
#[local] Unset Elimination Schemes.

Inductive Node :=
| NULL_node
| T_Var (varno : N) (varattno : Z) (varlevelsup : N)
| T_Const (consttype : Oid) (constvalue : Oid) (constisnull : bool)
| T_Param (paramtype : Oid)
| T_FuncExpr (funcid : Oid) (children : list Node)
| T_OpExpr (opno : Oid) (children : list Node)
| T_DistinctExpr (opno : Oid) (children : list Node)
| T_ScalarArrayOpExpr (opno : Oid) (children : list Node)
| T_NullIfExpr (opno : Oid) (children : list Node)
| T_Aggref (aggfnoid : Oid) (children : list Node)
| T_WindowRef (winfnoid : Oid) (children : list Node)
| T_SubPlan
| T_RelabelType (resulttype : Oid) (children : list Node)
| T_ConvertRowtypeExpr (resulttype : Oid) (children : list Node)
| T_RowExpr (row_typeid : Oid) (children : list Node)
| T_RowCompareExpr (opnos opclasses : list Oid) (children : list Node)
| T_CoerceToDomain (resulttype : Oid) (children : list Node)
| T_Query (rtable : list RangeTblEntry) (children : list Node)
| T_other (children : list Node)
with RangeTblEntry :=
| mkRangeTblEntry (rtekind : RTEKind) (relid : Oid)
                  (joinaliasvars : list Node) (funccoltypes : list Oid).

#[local] Set Elimination Schemes.

Arguments T_Var _%_N _%_Z _%_N.
Arguments T_Const (_ _)%_Z _.
Arguments mkRangeTblEntry _ _%_Z _ _.

Definition rtekind (rte : RangeTblEntry) : RTEKind :=
  match rte with mkRangeTblEntry k _ _ _ => k end.
Definition relid (rte : RangeTblEntry) : Oid :=
  match rte with mkRangeTblEntry _ r _ _ => r end.
Definition joinaliasvars (rte : RangeTblEntry) : list Node :=
  match rte with mkRangeTblEntry _ _ j _ => j end.
Definition funccoltypes (rte : RangeTblEntry) : list Oid :=
  match rte with mkRangeTblEntry _ _ _ f => f end.

(** The OIDs of the OID-alias types, from pg_type.h. *)
Record AliasTypeOids := {
  REGPROCOID : Oid;
  REGPROCEDUREOID : Oid;
  REGOPEROID : Oid;
  REGOPERATOROID : Oid;
  REGCLASSOID : Oid;
  REGTYPEOID : Oid
}.

(** What the walker reads but does not write: the catalog OIDs, the OIDs
    of the OID-alias types, and [caql_getcount] on pg_proc, pg_operator,
    pg_class and pg_type ("is there a row with this oid?"). *)
Record ExprEnv := {
  class_oids : CatalogOids;
  alias_oids : AliasTypeOids;
  oid_exists : ObjectClass -> Oid -> bool
}.

(** [find_expr_references_context]. *)
Record find_expr_references_context := mkContext {
  addrs : ObjectAddresses;                (* addresses being accumulated *)
  rtables : list (list RangeTblEntry)     (* rangetables to resolve Vars *)
}.

Inductive WalkerError :=
| ERR_invalid_varlevelsup (varlevelsup : N)
| ERR_invalid_varno (varno : N)
| ERR_invalid_varattno (varattno : Z)
| ERR_already_planned_subqueries.

Inductive WRes (A : Type) :=
| Returned (a : A)
| Raised (e : WalkerError)
| NoFuelLeft.
Arguments Returned {A} a.
Arguments Raised {A} e.
Arguments NoFuelLeft {A}.

Definition W (A : Type) : Type :=
  find_expr_references_context -> WRes (A * find_expr_references_context).

Definition wret {A} (a : A) : W A := fun ctx => Returned (a, ctx).

Definition wraise {A} (e : WalkerError) : W A := fun _ => Raised e.

Definition wbind {A B} (m : W A) (k : A -> W B) : W B :=
  fun ctx =>
    match m ctx with
    | Returned (a, ctx') => k a ctx'
    | Raised e => Raised e
    | NoFuelLeft => NoFuelLeft
    end.

Notation "x <~ m ;; k" := (wbind m (fun x => k))
  (at level 20, m at level 99, k at level 200, only parsing).
Notation "m ;;; k" := (wbind m (fun _ => k))
  (at level 100, k at level 200, only parsing, right associativity).

Definition get_context : W find_expr_references_context :=
  fun ctx => Returned (ctx, ctx).

Definition set_rtables (l : list (list RangeTblEntry)) : W unit :=
  fun ctx => Returned (tt, {| addrs := addrs ctx; rtables := l |}).

Section Walker.
Context (V : ExprEnv).

(** [add_object_address(oclass, objectId, subId, context->addrs)]. *)
Definition add_to_context (oclass : ObjectClass) (objectId : Oid) (subId : Z)
    : W unit :=
  fun ctx =>
    Returned (tt, {| addrs := add_object_address (class_oids V) oclass
                                objectId subId (addrs ctx);
                     rtables := rtables ctx |}).

(** [foreach(l, oids) add_object_address(oclass, lfirst_oid(l), 0, ..)]. *)
Fixpoint add_each (oclass : ObjectClass) (l : list Oid) : W unit :=
  match l with
  | [] => wret tt
  | o :: l' => add_to_context oclass o 0 ;;; add_each oclass l'
  end.

(** The contract of [expression_tree_walker] and [query_tree_walker]: the
    walker is called on the children in order, and the walk is abandoned
    as soon as a call returns true. *)
Fixpoint walk_children (walker : Node -> W bool) (children : list Node)
    : W bool :=
  match children with
  | [] => wret false
  | child :: children' =>
      abort <~ walker child ;;
      if abort then wret true else walk_children walker children'
  end.

(** The [switch (con->consttype)] of the [Const] case. *)
Definition reference_of_alias_constant (consttype objoid : Oid) : W unit :=
  let t := alias_oids V in
  if (consttype =? REGPROCOID t)%Z || (consttype =? REGPROCEDUREOID t)%Z then
    if oid_exists V OCLASS_PROC objoid
    then add_to_context OCLASS_PROC objoid 0 else wret tt
  else if (consttype =? REGOPEROID t)%Z || (consttype =? REGOPERATOROID t)%Z
  then
    if oid_exists V OCLASS_OPERATOR objoid
    then add_to_context OCLASS_OPERATOR objoid 0 else wret tt
  else if (consttype =? REGCLASSOID t)%Z then
    if oid_exists V OCLASS_CLASS objoid
    then add_to_context OCLASS_CLASS objoid 0 else wret tt
  else if (consttype =? REGTYPEOID t)%Z then
    if oid_exists V OCLASS_TYPE objoid
    then add_to_context OCLASS_TYPE objoid 0 else wret tt
  else wret tt.

(** The [foreach(rtable, query->rtable)] loop of the [Query] case. *)
Fixpoint add_rtable_references (rtable : list RangeTblEntry) : W unit :=
  match rtable with
  | [] => wret tt
  | rte :: rtable' =>
      match rtekind rte with
      | RTE_RELATION => add_to_context OCLASS_CLASS (relid rte) 0
      | RTE_TABLEFUNCTION | RTE_FUNCTION =>
          add_each OCLASS_TYPE (funccoltypes rte)
      | _ => wret tt
      end ;;;
      add_rtable_references rtable'
  end.

Fixpoint find_expr_references_walker (fuel : nat) (node : Node) : W bool :=
  match fuel with
  | O => fun _ => NoFuelLeft
  | S fuel' =>
      let walker := find_expr_references_walker fuel' in
      match node with
      | NULL_node => wret false
      | T_Var varno varattno varlevelsup =>
          context <~ get_context ;;
          (* Find matching rtable entry, or complain if not found *)
          if (N.of_nat (length (rtables context)) <=? varlevelsup)%N
          then wraise (ERR_invalid_varlevelsup varlevelsup)
          else
            let rtable :=
              default [] (rtables context !! N.to_nat varlevelsup) in
            if (varno =? 0)%N || (N.of_nat (length rtable) <? varno)%N
            then wraise (ERR_invalid_varno varno)
            else
              match rtable !! N.to_nat (varno - 1) with
              | None => wraise (ERR_invalid_varno varno)   (* not reached *)
              | Some rte =>
                  if (varattno =? 0)%Z then wret false    (* whole-row Var *)
                  else
                    match rtekind rte with
                    | RTE_RELATION =>
                        add_to_context OCLASS_CLASS (relid rte) varattno ;;;
                        wret false
                    | RTE_JOIN =>
                        let save_rtables := rtables context in
                        set_rtables (drop (N.to_nat varlevelsup)
                                          (rtables context)) ;;;
                        if (varattno <=? 0)%Z
                           || (Z.of_nat (length (joinaliasvars rte))
                               <? varattno)%Z
                        then wraise (ERR_invalid_varattno varattno)
                        else
                          walker (default NULL_node
                                    (joinaliasvars rte
                                       !! Z.to_nat (varattno - 1))) ;;;
                          set_rtables save_rtables ;;;
                          wret false
                    | _ => wret false
                    end
              end
      | T_Const consttype constvalue constisnull =>
          (* A constant must depend on the constant's datatype *)
          add_to_context OCLASS_TYPE consttype 0 ;;;
          (if negb constisnull
           then reference_of_alias_constant consttype constvalue
           else wret tt) ;;;
          wret false
      | T_Param paramtype =>
          add_to_context OCLASS_TYPE paramtype 0 ;;;
          walk_children walker []
      | T_FuncExpr funcid children =>
          add_to_context OCLASS_PROC funcid 0 ;;;
          walk_children walker children
      | T_OpExpr opno children
      | T_DistinctExpr opno children
      | T_ScalarArrayOpExpr opno children
      | T_NullIfExpr opno children =>
          add_to_context OCLASS_OPERATOR opno 0 ;;;
          walk_children walker children
      | T_Aggref fnoid children | T_WindowRef fnoid children =>
          add_to_context OCLASS_PROC fnoid 0 ;;;
          walk_children walker children
      | T_SubPlan => wraise ERR_already_planned_subqueries
      | T_RelabelType resulttype children
      | T_ConvertRowtypeExpr resulttype children
      | T_RowExpr resulttype children
      | T_CoerceToDomain resulttype children =>
          add_to_context OCLASS_TYPE resulttype 0 ;;;
          walk_children walker children
      | T_RowCompareExpr opnos opclasses children =>
          add_each OCLASS_OPERATOR opnos ;;;
          add_each OCLASS_OPCLASS opclasses ;;;
          walk_children walker children
      | T_Query rtable children =>
          add_rtable_references rtable ;;;
          (* Examine substructure of query *)
          context <~ get_context ;;
          set_rtables (rtable :: rtables context) ;;;
          result <~ walk_children walker children ;;
          context <~ get_context ;;
          set_rtables (tail (rtables context)) ;;;
          wret result
      | T_other children => walk_children walker children
      end
  end.

(** A call of [recordMultipleDependencies(depender, refs, numrefs,
    behavior)], which is not part of dependency.c. *)
Record RecordedDependencies := mkRecorded {
  recorded_depender : ObjectAddress;
  recorded_refs : list ObjectAddress;
  recorded_behavior : DependencyType
}.

(** [recordDependencyOnExpr]; the value is the calls of
    [recordMultipleDependencies], oldest first. *)
Definition recordDependencyOnExpr (fuel : nat) (depender : ObjectAddress)
    (expr : Node) (rtable : list RangeTblEntry) (behavior : DependencyType)
    : WRes (list RecordedDependencies) :=
  let context := {| addrs := new_object_addresses; rtables := [rtable] |} in
  match find_expr_references_walker fuel expr context with
  | Returned (_, context) =>
      let refs := eliminate_duplicate_dependencies (addrs context) in
      Returned [mkRecorded depender refs behavior]
  | Raised e => Raised e
  | NoFuelLeft => NoFuelLeft
  end.

(** The loop "Separate self-dependencies" of
    [recordDependencyOnSingleRelExpr]: [kept] are the cells below
    [outobj], which the loop writes at or below the cell it reads. *)
Fixpoint separate_self_dependencies (relId : Oid)
    (remaining : list ObjectAddress) (self_addrs kept : ObjectAddresses)
    : ObjectAddresses * ObjectAddresses :=
  match remaining with
  | [] => (self_addrs, kept)
  | thisobj :: remaining' =>
      if (classId thisobj =? RelationRelationId (class_oids V))%Z
         && (objectId thisobj =? relId)%Z
      then
        (* Move this ref into self_addrs *)
        separate_self_dependencies relId remaining'
          (add_object_address (class_oids V) OCLASS_CLASS relId
                              (objectSubId thisobj) self_addrs)
          kept
      else
        (* Keep it in context.addrs *)
        separate_self_dependencies relId remaining' self_addrs
                                   (kept ++ [thisobj])
  end.

Definition recordDependencyOnSingleRelExpr (fuel : nat)
    (depender : ObjectAddress) (expr : Node) (relId : Oid)
    (behavior self_behavior : DependencyType)
    : WRes (list RecordedDependencies) :=
  (* We gin up a rather bogus rangetable list to handle Vars *)
  let rte := mkRangeTblEntry RTE_RELATION relId [] [] in
  let context := {| addrs := new_object_addresses; rtables := [[rte]] |} in
  match find_expr_references_walker fuel expr context with
  | Returned (_, context) =>
      let refs := eliminate_duplicate_dependencies (addrs context) in
      if negb (bool_decide (behavior = self_behavior))
         && (0 <? length refs)
      then
        let '(self_addrs, kept) :=
          separate_self_dependencies relId refs new_object_addresses [] in
        Returned [mkRecorded depender self_addrs self_behavior;
                  mkRecorded depender kept behavior]
      else Returned [mkRecorded depender refs behavior]
  | Raised e => Raised e
  | NoFuelLeft => NoFuelLeft
  end.

End Walker.

(** ** Vocabulary for the walker *)

(** The classes of the objects an expression can refer to. *)
Definition referenceable_classes : list ObjectClass :=
  [OCLASS_CLASS; OCLASS_TYPE; OCLASS_PROC; OCLASS_OPERATOR; OCLASS_OPCLASS].

(** [a] is a reference that the walker makes: to an object of one of the
    five classes, and to the whole object unless it is to a column of a
    relation. *)
Definition referenceable (V : ExprEnv) (a : ObjectAddress) : Prop :=
  (exists oclass, oclass ∈ referenceable_classes /\
                  classId a = object_classes (class_oids V) oclass) /\
  (objectSubId a <> 0%Z -> classId a = RelationRelationId (class_oids V)).

(** From [context] to [context'] the range tables are the same and
    references have been added at the end of the array. *)
Definition accumulated (V : ExprEnv)
    (context context' : find_expr_references_context) : Prop :=
  rtables context' = rtables context /\
  exists added, addrs context' = addrs context ++ added /\
                Forall (referenceable V) added.

(** The test of the loop "Separate self-dependencies". *)
Definition is_self_reference (V : ExprEnv) (relId : Oid) (a : ObjectAddress)
    : bool :=
  (classId a =? RelationRelationId (class_oids V))%Z
  && (objectId a =? relId)%Z.

(** Sample: the check constraint [price > 0 AND qty < limit(price)] of
    relation 16384, with [price] column 2 and [qty] column 3; the
    operators are 521 and 97, the function is 3001, and the constant is
    of type int4 (23). *)
Definition sample_env : ExprEnv :=
  {| class_oids := sample_oids;
     alias_oids := {| REGPROCOID := 24; REGPROCEDUREOID := 2202;
                      REGOPEROID := 2203; REGOPERATOROID := 2204;
                      REGCLASSOID := 2205; REGTYPEOID := 2206 |}%Z;
     oid_exists := fun _ _ => true |}.

Definition sample_check_expr : Node :=
  T_other
    [T_OpExpr 521%Z [T_Var 1 2 0; T_Const 23 0 false];
     T_OpExpr 97%Z [T_Var 1 3 0; T_FuncExpr 3001%Z [T_Var 1 2 0]]].

(* ===================================================================== *)
(** * Part II.  Address lists                                             *)
(* ===================================================================== *)

Lemma covers_refl a : covers a a.
Proof. unfold covers. tauto. Qed.

Lemma covers_trans a b c : covers a b -> covers b c -> covers a c.
Proof. unfold covers. intros (?&?&?) (?&?&?). repeat split; try congruence.
  destruct H1, H4; try (right; congruence). left; congruence. Qed.

Lemma object_address_present_loop_spec q l :
  object_address_present_loop q l = true <-> exists a, a ∈ l /\ covers a q.
Proof.
  induction l as [|t l IH]; simpl.
  - split; [discriminate|]. intros (a & Ha & _). by apply elem_of_nil in Ha.
  - destruct ((classId q =? classId t)%Z && (objectId q =? objectId t)%Z)
      eqn:Hco.
    + apply andb_true_iff in Hco as [Hc%Z.eqb_eq Ho%Z.eqb_eq].
      destruct ((objectSubId q =? objectSubId t)%Z || (objectSubId t =? 0)%Z)
        eqn:Hs.
      * split; [intros _|done]. exists t. split; [left|].
        apply orb_true_iff in Hs as [Hs%Z.eqb_eq|Hs%Z.eqb_eq];
          unfold covers; auto.
      * apply orb_false_iff in Hs as [Hs1%Z.eqb_neq Hs2%Z.eqb_neq].
        rewrite IH. split.
        -- intros (a & Ha & Hcov). exists a. split; [by right|done].
        -- intros (a & Ha & Hcov). apply elem_of_cons in Ha as [->|Ha].
           ++ destruct Hcov as (_ & _ & [?|?]); congruence.
           ++ eauto.
    + apply andb_false_iff in Hco. rewrite IH. split.
      * intros (a & Ha & Hcov). exists a. split; [by right|done].
      * intros (a & Ha & Hcov). apply elem_of_cons in Ha as [->|Ha].
        -- destruct Hcov as (Hc & Ho & _).
           destruct Hco as [H%Z.eqb_neq|H%Z.eqb_neq]; congruence.
        -- eauto.
Qed.

Lemma present_iff q S :
  object_address_present q S = true <-> exists a, a ∈ S /\ covers a q.
Proof.
  unfold object_address_present. rewrite object_address_present_loop_spec.
  split; intros (a & Ha & Hc); exists a; split; auto;
    by apply elem_of_reverse.
Qed.

Lemma not_present_iff q S :
  object_address_present q S = false <-> forall a, a ∈ S -> ~ covers a q.
Proof.
  rewrite <- not_true_iff_false, present_iff. split.
  - intros Hn a Ha Hc. apply Hn. eauto.
  - intros Hn (a & Ha & Hc). eapply Hn; eauto.
Qed.

Lemma present_exact a S : a ∈ S -> object_address_present a S = true.
Proof. intros. apply present_iff. exists a. auto using covers_refl. Qed.

Lemma present_covered a b S :
  covers a b -> object_address_present a S = true ->
  object_address_present b S = true.
Proof.
  rewrite !present_iff. intros Hab (c & Hc & Hca).
  exists c. eauto using covers_trans.
Qed.

Lemma present_mono q S S' :
  S ⊆ S' -> object_address_present q S = true ->
  object_address_present q S' = true.
Proof. rewrite !present_iff. intros HS (a & Ha & Hc). exists a. auto. Qed.

Lemma present_add q a S :
  object_address_present q (add_exact_object_address a S) = true <->
  covers a q \/ object_address_present q S = true.
Proof.
  unfold add_exact_object_address. rewrite !present_iff. split.
  - intros (b & Hb & Hc). apply elem_of_app in Hb as [Hb|Hb]; [eauto|].
    apply list_elem_of_singleton in Hb as ->. auto.
  - intros [Hc|(b & Hb & Hc)].
    + exists a. split; [|done]. apply elem_of_app. right. by left.
    + exists b. split; [|done]. apply elem_of_app. by left.
Qed.

(** C7.  [object_address_present] is true exactly when some entry of the
    list has the class and object of the query and either the same sub-id
    or sub-id 0.  In particular a stored whole object [(c,o,0)] makes every
    [(c,o,k)] present, while a stored [(c,o,k)] does not make [(c,o,0)]
    present. *)
Theorem object_address_present_characterised :
  (forall (q : ObjectAddress) (S : ObjectAddresses),
      object_address_present q S = true <->
      exists a, a ∈ S /\ classId a = classId q /\ objectId a = objectId q /\
                (objectSubId a = objectSubId q \/ objectSubId a = 0%Z)) /\
  (forall (c o k : Z) (S : ObjectAddresses),
      mkObjectAddress c o 0 ∈ S ->
      object_address_present (mkObjectAddress c o k) S = true) /\
  (exists (c o k : Z) (S : ObjectAddresses),
      mkObjectAddress c o k ∈ S /\
      object_address_present (mkObjectAddress c o 0) S = false).
Proof.
  split; [|split].
  - intros q S. apply present_iff.
  - intros c o k S HS. apply present_iff.
    exists (mkObjectAddress c o 0). split; [done|]. unfold covers; simpl. auto.
  - exists 1259%Z, 16384%Z, 3%Z, [column 16384 3]. split; [by left|].
    reflexivity.
Qed.

(** ** Sorting by [object_address_comparator] *)

Lemma to_unsigned_int32 x :
  is_int32 x ->
  to_unsigned x = (if (x <? 0)%Z then x + 2 ^ 32 else x)%Z.
Proof.
  unfold is_int32, to_unsigned. intros H. destruct (Z.ltb_spec x 0).
  - rewrite <- (Z_mod_plus_full x 1 (2 ^ 32)). rewrite Z.mod_small; lia.
  - rewrite Z.mod_small; lia.
Qed.

Lemma to_unsigned_zero x : is_int32 x -> to_unsigned x = 0%Z <-> x = 0%Z.
Proof.
  intros H. rewrite (to_unsigned_int32 x H). unfold is_int32 in H.
  destruct (Z.ltb_spec x 0); lia.
Qed.

Lemma to_unsigned_nonneg x : (0 <= to_unsigned x)%Z.
Proof. unfold to_unsigned. apply Z.mod_pos_bound. lia. Qed.

Lemma to_unsigned_inj x y :
  is_int32 x -> is_int32 y -> to_unsigned x = to_unsigned y -> x = y.
Proof.
  intros Hx Hy. rewrite (to_unsigned_int32 x Hx), (to_unsigned_int32 y Hy).
  unfold is_int32 in *.
  destruct (Z.ltb_spec x 0), (Z.ltb_spec y 0); lia.
Qed.

Lemma comparator_le_iff a b :
  comparator_le object_address_comparator a b <-> addr_le a b.
Proof.
  unfold comparator_le, object_address_comparator, addr_le.
  rewrite !Z.gtb_ltb.
  repeat match goal with
         | |- context [(?x <? ?y)%Z] => destruct (Z.ltb_spec x y)
         end; lia.
Qed.

Lemma comparator_zero_iff a b :
  object_address_comparator a b = 0%Z <->
  classId a = classId b /\ objectId a = objectId b /\
  to_unsigned (objectSubId a) = to_unsigned (objectSubId b).
Proof.
  unfold object_address_comparator. rewrite !Z.gtb_ltb.
  repeat match goal with
         | |- context [(?x <? ?y)%Z] => destruct (Z.ltb_spec x y)
         end; lia.
Qed.

#[global] Instance comparator_le_total :
  Total (comparator_le object_address_comparator).
Proof. intros a b. rewrite !comparator_le_iff. unfold addr_le. lia. Qed.

#[global] Instance comparator_le_trans :
  Transitive (comparator_le object_address_comparator).
Proof. intros a b c. rewrite !comparator_le_iff. unfold addr_le. lia. Qed.

Lemma addr_le_antisym a b :
  is_int32 (objectSubId a) -> is_int32 (objectSubId b) ->
  addr_le a b -> addr_le b a -> a = b.
Proof.
  intros Ha Hb Hab Hba. destruct a as [ca oa sa], b as [cb ob sb].
  unfold addr_le in *; simpl in *.
  assert (ca = cb) by lia. assert (oa = ob) by lia.
  assert (to_unsigned sa = to_unsigned sb) by lia.
  f_equal; auto using to_unsigned_inj.
Qed.

Lemma StronglySorted_weaken {A} (R R' : relation A) l :
  (forall a b, R a b -> R' a b) -> StronglySorted R l -> StronglySorted R' l.
Proof.
  intros HR. induction 1 as [|a l Hl IH Ha]; constructor; auto.
  eapply Forall_impl; eauto.
Qed.

Lemma qsort_sorted l :
  StronglySorted addr_le (qsort object_address_comparator l).
Proof.
  unfold qsort.
  apply (StronglySorted_weaken (comparator_le object_address_comparator)).
  - intros a b. apply comparator_le_iff.
  - apply StronglySorted_merge_sort; apply _.
Qed.

Lemma qsort_perm l : qsort object_address_comparator l ≡ₚ l.
Proof. apply merge_sort_Permutation. Qed.

(** On 32-bit sub-ids the comparator orders addresses strictly, so the
    sorted array is the same whatever sorting algorithm [qsort] runs. *)
Lemma sorted_array_unique (l1 l2 : list ObjectAddress) :
  int32_subids l1 -> l1 ≡ₚ l2 ->
  StronglySorted addr_le l1 -> StronglySorted addr_le l2 -> l1 = l2.
Proof.
  revert l2. induction l1 as [|a l1 IH]; intros l2 H32 Hp H1 H2.
  - by apply Permutation_nil_l in Hp.
  - destruct l2 as [|b l2]; [by apply Permutation_nil_r in Hp|].
    apply StronglySorted_inv in H1 as [H1 Ha], H2 as [H2 Hb].
    apply Forall_cons in H32 as [Ha32 H32].
    assert (Hb32 : is_int32 (objectSubId b)).
    { assert (b ∈ a :: l1) as Hin by (rewrite Hp; left).
      apply elem_of_cons in Hin as [->|Hin]; [done|].
      by apply (proj1 (Forall_forall _ _) H32). }
    assert (a = b) as ->.
    { assert (a ∈ b :: l2) as Hin1 by (rewrite <- Hp; left).
      assert (b ∈ a :: l1) as Hin2 by (rewrite Hp; left).
      apply elem_of_cons in Hin1 as [?|Hin1]; [done|].
      apply elem_of_cons in Hin2 as [?|Hin2]; [done|].
      apply addr_le_antisym; auto.
      - by apply (proj1 (Forall_forall _ _) Ha).
      - by apply (proj1 (Forall_forall _ _) Hb). }
    f_equal. apply IH; auto. by apply Permutation_cons_inv in Hp.
Qed.

(** ** The "Remove dups" loop *)

Lemma survives_same_elements l l' x :
  (forall y, y ∈ l <-> y ∈ l') -> survives l x <-> survives l' x.
Proof.
  intros H. unfold survives.
  split; intros [Hx Hw]; (split; [by apply H|]);
    intros Hz b Hb; apply Hw; auto; by apply H.
Qed.

Lemma sorted_head_le p l x :
  StronglySorted addr_le (p :: l) -> x ∈ l -> addr_le p x.
Proof.
  intros Hs Hx. apply StronglySorted_inv in Hs as [_ Hp].
  by apply (proj1 (Forall_forall _ _) Hp).
Qed.

Lemma int32_subids_elem l x : int32_subids l -> x ∈ l -> is_int32 (objectSubId x).
Proof. intros H Hx. by apply (proj1 (Forall_forall _ _) H). Qed.

Lemma survives_cons p l x :
  StronglySorted addr_le (p :: l) -> int32_subids (p :: l) ->
  survives l x -> survives (p :: l) x.
Proof.
  intros Hs H32 [Hx Hw]. split; [by right|].
  intros Hx0 b Hb Hc Ho. apply elem_of_cons in Hb as [->|Hb]; [|eauto].
  pose proof (sorted_head_le _ _ _ Hs Hx) as Hle.
  assert (to_unsigned (objectSubId x) = 0%Z) as Hux by (by rewrite Hx0).
  pose proof (to_unsigned_nonneg (objectSubId p)).
  apply to_unsigned_zero; [eapply int32_subids_elem; eauto; by left|].
  unfold addr_le in Hle. lia.
Qed.

Lemma survives_tail p l x : survives (p :: l) x -> x <> p -> survives l x.
Proof.
  intros [Hx Hw] Hne. apply elem_of_cons in Hx as [?|Hx]; [done|].
  split; [done|]. intros Hx0 b Hb. apply Hw; auto. by right.
Qed.

Lemma sorted_head_not_in p t l :
  StronglySorted addr_le (p :: t :: l) -> int32_subids (p :: t :: l) ->
  t <> p -> p ∉ t :: l.
Proof.
  intros Hs H32 Hne Hin. apply Hne.
  assert (addr_le p t) by (eapply sorted_head_le; eauto; by left).
  assert (addr_le t p).
  { apply elem_of_cons in Hin as [->|Hin].
    - unfold addr_le. lia.
    - apply StronglySorted_inv in Hs as [Hs _].
      eapply sorted_head_le; eauto. }
  apply addr_le_antisym; auto; eapply int32_subids_elem; eauto.
  - right; left.
  - left.
Qed.

Lemma same_fields_eq (p t : ObjectAddress) :
  classId p = classId t -> objectId p = objectId t ->
  {| classId := classId p; objectId := objectId p;
     objectSubId := objectSubId t |} = t.
Proof. destruct p, t; simpl; intros; subst; done. Qed.

Lemma survives_emit p l x :
  StronglySorted addr_le (p :: l) -> int32_subids (p :: l) ->
  survives (p :: l) p ->
  (x = p \/ survives l x) <-> survives (p :: l) x.
Proof.
  intros Hs H32 Hp. split.
  - intros [->|Hx]; [done|]. by apply survives_cons.
  - intros Hx. destruct (decide (x = p)) as [->|Hne]; [by left|].
    right. eapply survives_tail; eauto.
Qed.

Lemma remove_dups_elem rest :
  forall p, StronglySorted addr_le (p :: rest) -> int32_subids (p :: rest) ->
  forall x, x ∈ remove_dups p rest <-> survives (p :: rest) x.
Proof.
  induction rest as [|t rest IH]; intros p Hs H32 x; simpl.
  - rewrite list_elem_of_singleton. unfold survives. split.
    + intros ->. split; [by left|].
      intros ? b Hb%list_elem_of_singleton. by subst.
    + by intros [Hx%list_elem_of_singleton _].
  - pose proof Hs as [Hst Hp]%StronglySorted_inv.
    pose proof H32 as [Hp32 Ht32]%Forall_cons.
    destruct ((classId p =? classId t)%Z && (objectId p =? objectId t)%Z)
      eqn:Hco.
    + apply andb_true_iff in Hco as [Hc Ho].
      apply Z.eqb_eq in Hc, Ho.
      destruct (objectSubId p =? objectSubId t)%Z eqn:Hsub.
      * apply Z.eqb_eq in Hsub.
        assert (t = p) as -> by (destruct p, t; simpl in *; by subst).
        rewrite (IH p Hst Ht32 x). apply survives_same_elements.
        intros y. rewrite !elem_of_cons. tauto.
      * apply Z.eqb_neq in Hsub.
        destruct (objectSubId p =? 0)%Z eqn:Hz.
        -- apply Z.eqb_eq in Hz. rewrite (same_fields_eq p t Hc Ho).
           rewrite (IH t Hst Ht32 x). split.
           ++ by apply survives_cons.
           ++ intros Hsv. eapply survives_tail; eauto. intros ->.
              destruct Hsv as [_ Hw]. apply Hsub. rewrite Hz. symmetry.
              apply (Hw Hz t); auto. right; left.
        -- apply Z.eqb_neq in Hz.
           rewrite elem_of_cons, (IH t Hst Ht32 x).
           apply survives_emit; auto. split; [by left|]. intros; done.
    + rewrite elem_of_cons, (IH t Hst Ht32 x).
      apply survives_emit; auto. split; [by left|].
      intros Hz b Hb Hcb Hob.
      apply elem_of_cons in Hb as [->|Hb]; [done|].
      exfalso. apply andb_false_iff in Hco.
      assert (addr_le p t) by (eapply sorted_head_le; eauto; by left).
      assert (addr_le t b).
      { apply elem_of_cons in Hb as [->|Hb]; [unfold addr_le; lia|].
        eapply sorted_head_le; eauto. }
      unfold addr_le in *.
      destruct Hco as [H'|H']; apply Z.eqb_neq in H'; lia.
Qed.

Lemma remove_dups_NoDup rest :
  forall p, StronglySorted addr_le (p :: rest) -> int32_subids (p :: rest) ->
  NoDup (remove_dups p rest).
Proof.
  induction rest as [|t rest IH]; intros p Hs H32; simpl.
  - apply NoDup_singleton.
  - pose proof Hs as [Hst Hp]%StronglySorted_inv.
    pose proof H32 as [Hp32 Ht32]%Forall_cons.
    assert (emit : t <> p -> NoDup (p :: remove_dups t rest)).
    { intros Hne. apply NoDup_cons. split; [|by apply IH].
      rewrite remove_dups_elem by done. intros [Hin _].
      by eapply sorted_head_not_in. }
    destruct ((classId p =? classId t)%Z && (objectId p =? objectId t)%Z)
      eqn:Hco.
    + apply andb_true_iff in Hco as [Hc Ho].
      apply Z.eqb_eq in Hc, Ho.
      destruct (objectSubId p =? objectSubId t)%Z eqn:Hsub.
      * apply Z.eqb_eq in Hsub.
        assert (t = p) as -> by (destruct p, t; simpl in *; by subst).
        by apply IH.
      * apply Z.eqb_neq in Hsub.
        destruct (objectSubId p =? 0)%Z eqn:Hz.
        -- rewrite (same_fields_eq p t Hc Ho). by apply IH.
        -- apply emit. congruence.
    + apply emit. intros ->. apply andb_false_iff in Hco.
      destruct Hco as [H'|H']; by apply Z.eqb_neq in H'.
Qed.

Lemma eliminate_duplicate_dependencies_elem S x :
  int32_subids S ->
  x ∈ eliminate_duplicate_dependencies S <-> survives S x.
Proof.
  intros H32. unfold eliminate_duplicate_dependencies.
  destruct (Nat.leb_spec (length S) 1) as [Hlen|Hlen].
  - destruct S as [|a [|b S]]; simpl in Hlen; try lia.
    + unfold survives. split; [by intros ?%elem_of_nil|by intros [?%elem_of_nil _]].
    + unfold survives. split; [|tauto]. intros Hx. split; [done|].
      apply list_elem_of_singleton in Hx as ->.
      intros ? b Hb%list_elem_of_singleton. by subst.
  - pose proof (qsort_sorted S) as Hs. pose proof (qsort_perm S) as Hp.
    destruct (qsort object_address_comparator S) as [|first others] eqn:Hq.
    + apply Permutation_nil_l in Hp. subst. simpl in Hlen. lia.
    + rewrite remove_dups_elem; auto.
      * apply survives_same_elements. intros y. by rewrite Hp.
      * unfold int32_subids. by rewrite Hp.
Qed.

Lemma eliminate_duplicate_dependencies_NoDup S :
  int32_subids S -> NoDup (eliminate_duplicate_dependencies S).
Proof.
  intros H32. unfold eliminate_duplicate_dependencies.
  destruct (Nat.leb_spec (length S) 1) as [Hlen|Hlen].
  - destruct S as [|a [|b S]]; simpl in Hlen; try lia.
    + apply NoDup_nil_2.
    + apply NoDup_singleton.
  - pose proof (qsort_sorted S) as Hs. pose proof (qsort_perm S) as Hp.
    destruct (qsort object_address_comparator S) as [|first others] eqn:Hq.
    + apply NoDup_nil_2.
    + apply remove_dups_NoDup; auto. unfold int32_subids. by rewrite Hp.
Qed.

(** C6.  Deduplication law.  For a list [S] of addresses with 32-bit
    sub-ids, [eliminate_duplicate_dependencies S] (a) holds no entry
    twice, (b) holds two entries for the same class and object only if
    both have a non-zero sub-id (positive when read as unsigned), (c)
    keeps exactly the entries of [S] other than the whole-object entries
    [(c,o,0)] for which [S] also has a partial entry [(c,o,k)], so that a
    whole-object entry followed by a partial one leaves the partial one
    alone, and (d) the comparator reads the sub-id as unsigned, so
    [(c,o,0)] sorts before every [(c,o,k)] with [k <> 0]. *)
Theorem eliminate_duplicate_dependencies_law (S : ObjectAddresses) :
  int32_subids S ->
  NoDup (eliminate_duplicate_dependencies S) /\
  (forall (i j : nat) (a b : ObjectAddress),
      i <> j ->
      eliminate_duplicate_dependencies S !! i = Some a ->
      eliminate_duplicate_dependencies S !! j = Some b ->
      classId a = classId b -> objectId a = objectId b ->
      (0 < to_unsigned (objectSubId a))%Z /\
      (0 < to_unsigned (objectSubId b))%Z) /\
  (forall x : ObjectAddress,
      x ∈ eliminate_duplicate_dependencies S <->
      x ∈ S /\
      (objectSubId x = 0%Z ->
       forall b, b ∈ S -> classId b = classId x -> objectId b = objectId x ->
                 objectSubId b = 0%Z)) /\
  (forall c o k : Z,
      mkObjectAddress c o 0 ∈ S -> mkObjectAddress c o k ∈ S -> k <> 0%Z ->
      (mkObjectAddress c o 0 ∉ eliminate_duplicate_dependencies S) /\
      (mkObjectAddress c o k ∈ eliminate_duplicate_dependencies S)) /\
  (forall c o k : Z,
      is_int32 k -> k <> 0%Z ->
      object_address_comparator (mkObjectAddress c o 0)
                                (mkObjectAddress c o k) = (-1)%Z).
Proof.
  intros H32.
  pose proof (eliminate_duplicate_dependencies_NoDup S H32) as Hnd.
  pose proof (fun x => eliminate_duplicate_dependencies_elem S x H32) as Hel.
  split; [done|]. split; [|split; [done|split]].
  - intros i j a b Hij Hi Hj Hc Ho.
    assert (a <> b) as Hab.
    { intros ->. apply Hij. eapply NoDup_lookup; eauto. }
    assert (Ha : survives S a) by (apply Hel; eapply list_elem_of_lookup_2; eauto).
    assert (Hb : survives S b) by (apply Hel; eapply list_elem_of_lookup_2; eauto).
    destruct Ha as [Ha Hwa], Hb as [Hb Hwb].
    pose proof (int32_subids_elem _ _ H32 Ha) as Ha32.
    pose proof (int32_subids_elem _ _ H32 Hb) as Hb32.
    pose proof (to_unsigned_nonneg (objectSubId a)).
    pose proof (to_unsigned_nonneg (objectSubId b)).
    assert (objectSubId a <> 0%Z).
    { intros Hz. apply Hab.
      destruct a as [ca oa sa], b as [cb ob sb]; simpl in *; subst.
      f_equal. symmetry. by apply (Hwa eq_refl (mkObjectAddress cb ob sb)). }
    assert (objectSubId b <> 0%Z).
    { intros Hz. apply Hab.
      destruct a as [ca oa sa], b as [cb ob sb]; simpl in *; subst.
      f_equal. by apply (Hwb eq_refl (mkObjectAddress cb ob sa)). }
    rewrite <- (to_unsigned_zero _ Ha32) in *.
    rewrite <- (to_unsigned_zero _ Hb32) in *. lia.
  - intros c o k H0 Hk Hne. rewrite !Hel. split.
    + intros [_ Hw]. apply Hne. by apply (Hw eq_refl (mkObjectAddress c o k)).
    + split; [done|]. simpl. intros ->. done.
  - intros c o k Hk Hne.
    unfold object_address_comparator; simpl.
    rewrite !Z.ltb_irrefl, !Z.gtb_ltb, !Z.ltb_irrefl.
    pose proof (to_unsigned_nonneg k).
    assert (to_unsigned k <> 0%Z) by (by rewrite to_unsigned_zero).
    change (to_unsigned 0) with 0%Z.
    destruct (Z.ltb_spec 0 (to_unsigned k)); [done|lia].
Qed.

(** The law at a concrete list: table 16384 whole, its column 2 (twice),
    a system column -1 of the same table and function 3001. *)
Lemma eliminate_duplicate_dependencies_law_witness :
  int32_subids [column 16384 2; table 16384; function 3001;
                column 16384 (-1); column 16384 2] /\
  eliminate_duplicate_dependencies
    [column 16384 2; table 16384; function 3001;
     column 16384 (-1); column 16384 2]
  = [function 3001; column 16384 2; column 16384 (-1)] /\
  NoDup (eliminate_duplicate_dependencies
           [column 16384 2; table 16384; function 3001;
            column 16384 (-1); column 16384 2]).
Proof.
  assert (H : int32_subids [column 16384 2; table 16384; function 3001;
                            column 16384 (-1); column 16384 2]).
  { unfold int32_subids, is_int32. repeat constructor; simpl; lia. }
  split; [exact H|]. split; [vm_compute; reflexivity|].
  exact (proj1 (eliminate_duplicate_dependencies_law _ H)).
Defined.

(* ===================================================================== *)
(** * Part III.  The state monad and the primitive operations             *)
(* ===================================================================== *)

Lemma bind_Ok {A B} (m : M A) (k : A -> M B) st r :
  bind m k st = Ok r <-> exists a st1, m st = Ok (a, st1) /\ k a st1 = Ok r.
Proof.
  unfold bind. destruct (m st) as [[a st1]|e|]; split.
  - eauto.
  - intros (a' & st1' & Heq & Hk). by inversion Heq; subst.
  - discriminate.
  - intros (? & ? & ? & _). discriminate.
  - discriminate.
  - intros (? & ? & ? & _). discriminate.
Qed.

Lemma bind_Err {A B} (m : M A) (k : A -> M B) st e :
  bind m k st = Err e <->
  m st = Err e \/ exists a st1, m st = Ok (a, st1) /\ k a st1 = Err e.
Proof.
  unfold bind. destruct (m st) as [[a st1]|e'|]; split; intros H.
  - right. eauto.
  - destruct H as [?|(a' & st1' & Heq & Hk)]; [discriminate|].
    by inversion Heq; subst.
  - left. congruence.
  - destruct H as [?|(? & ? & ? & _)]; [congruence|discriminate].
  - discriminate.
  - destruct H as [?|(? & ? & ? & _)]; discriminate.
Qed.

Lemma bind_OutOfFuel {A B} (m : M A) (k : A -> M B) st :
  bind m k st = OutOfFuel <->
  m st = OutOfFuel \/ exists a st1, m st = Ok (a, st1) /\ k a st1 = OutOfFuel.
Proof.
  unfold bind. destruct (m st) as [[a st1]|e'|]; split; intros H.
  - right. eauto.
  - destruct H as [?|(a' & st1' & Heq & Hk)]; [discriminate|].
    by inversion Heq; subst.
  - discriminate.
  - destruct H as [?|(? & ? & ? & _)]; discriminate.
  - by left.
  - done.
Qed.

Lemma bind_of_Ok {A B} (m : M A) (k : A -> M B) st a st1 :
  m st = Ok (a, st1) -> bind m k st = k a st1.
Proof. unfold bind. by intros ->. Qed.

Lemma lift_Ok {A} (r : Res A) st a st' :
  lift r st = Ok (a, st') <-> r = Ok a /\ st' = st.
Proof.
  unfold lift. destruct r; split; try discriminate.
  - intros Heq. by inversion Heq.
  - intros [Heq ->]. by inversion Heq.
  - intros [? _]. discriminate.
  - intros [? _]. discriminate.
Qed.

Lemma lift_of_Ok {A} (a : A) st : lift (Ok a) st = Ok (a, st).
Proof. reflexivity. Qed.

(** Splitting a successful run at its binds. *)
Ltac split_run H :=
  repeat
    match type of H with
    | bind _ _ _ = Ok _ =>
        let a := fresh "a" in
        let st := fresh "st" in
        let H1 := fresh "Hrun" in
        apply bind_Ok in H as (a & st & H1 & H)
    end.

(** ** What the primitive operations do to the tuples and to [dropped] *)

Lemma core_eq st st' :
  core st' = core st ->
  dead st' = dead st /\ pending st' = pending st /\
  dropped st' = dropped st /\ scans st' = scans st.
Proof. unfold core. intros H. by inversion H. Qed.

Lemma ereport_Ok lvl m st u st' :
  ereport lvl m st = Ok (u, st') ->
  lvl <> ERROR /\ core st' = core st /\ external st' = external st /\
  alreadyDeleted st' = alreadyDeleted st /\
  messages st' = (lvl, m) :: messages st.
Proof.
  unfold ereport. destruct lvl; intros H; inversion H; subst; done.
Qed.

Lemma ereport_not_ERROR lvl m st :
  lvl <> ERROR ->
  exists st', ereport lvl m st = Ok (tt, st') /\ core st' = core st /\
              external st' = external st /\
              alreadyDeleted st' = alreadyDeleted st /\
              messages st' = (lvl, m) :: messages st.
Proof.
  unfold ereport. destruct lvl; intros H; try done;
    (eexists; split; [reflexivity|done]).
Qed.

Lemma call_Ok c st u st' :
  call c st = Ok (u, st') ->
  core st' = core st /\ external st' = c :: external st /\
  alreadyDeleted st' = alreadyDeleted st /\ messages st' = messages st.
Proof. unfold call. intros H; inversion H; subst; done. Qed.

Lemma CommandCounterIncrement_Ok st u st' :
  CommandCounterIncrement st = Ok (u, st') ->
  dead st' = pending st ∪ dead st /\ pending st' = ∅ /\
  dropped st' = dropped st /\ scans st' = scans st /\
  external st' = external st /\ alreadyDeleted st' = alreadyDeleted st /\
  messages st' = messages st.
Proof. unfold CommandCounterIncrement. intros H; inversion H; subst; done. Qed.

Lemma caql_delete_current_Ok i st u st' :
  caql_delete_current i st = Ok (u, st') ->
  dead st' = dead st /\ pending st' = {[ i ]} ∪ pending st /\
  dropped st' = dropped st /\ scans st' = scans st /\
  external st' = external st /\ alreadyDeleted st' = alreadyDeleted st /\
  messages st' = messages st.
Proof. unfold caql_delete_current. intros H; inversion H; subst; done. Qed.

Lemma save_deleted_Ok object st u st' :
  save_deleted object st = Ok (u, st') ->
  core st' = core st /\ external st' = external st /\
  messages st' = messages st.
Proof.
  unfold save_deleted, get_alreadyDeleted, set_alreadyDeleted, bind, ret.
  destruct (alreadyDeleted st) as [l|];
    [destruct (object_address_present object l)|];
    intros H; inversion H; subst; done.
Qed.

Section Primitives.
Context (E : Catalog).

Lemma caql_beginscan_Ok key object st scan st' :
  caql_beginscan E key object st = Ok (scan, st') ->
  scan = merge_sort (rank_le E key object) (matching_tuples E key object) /\
  dead st' = dead st /\ pending st' = pending st /\
  dropped st' = dropped st /\ scans st' = S (scans st) /\
  external st' = external st /\ alreadyDeleted st' = alreadyDeleted st /\
  messages st' = messages st.
Proof. unfold caql_beginscan. intros H; inversion H; subst; done. Qed.

Lemma elem_of_matching_tuples key object i :
  i ∈ matching_tuples E key object <->
  exists tup, pg_depend E !! i = Some tup /\
              scan_matches key object tup = true.
Proof.
  unfold matching_tuples. rewrite list_elem_of_In, filter_In.
  rewrite <- list_elem_of_In, elem_of_seq. split.
  - intros [_ H]. destruct (pg_depend E !! i) as [tup|]; [eauto|done].
  - intros (tup & Hi & Hm). rewrite Hi. split; [|done].
    apply lookup_lt_Some in Hi. lia.
Qed.

Lemma scan_order_perm key object :
  merge_sort (rank_le E key object) (matching_tuples E key object)
  ≡ₚ matching_tuples E key object.
Proof. apply merge_sort_Permutation. Qed.

Lemma elem_of_scan key object st scan st' i :
  caql_beginscan E key object st = Ok (scan, st') ->
  i ∈ scan <->
  exists tup, pg_depend E !! i = Some tup /\
              scan_matches key object tup = true.
Proof.
  intros (-> & _)%caql_beginscan_Ok.
  by rewrite scan_order_perm, elem_of_matching_tuples.
Qed.

Lemma matching_tuples_NoDup key object :
  NoDup (matching_tuples E key object).
Proof.
  unfold matching_tuples. apply NoDup_ListNoDup, List.NoDup_filter.
  apply NoDup_ListNoDup, NoDup_seq.
Qed.

Lemma visible_tuple_Some st i tup :
  visible_tuple E st i = Some tup <->
  (i ∉ dead st) /\ pg_depend E !! i = Some tup.
Proof.
  unfold visible_tuple. case_bool_decide; split; try done.
  - by intros [? _].
  - by intros [_ ?].
Qed.

Lemma visible_tuple_None st i :
  visible_tuple E st i = None <-> i ∈ dead st \/ pg_depend E !! i = None.
Proof.
  unfold visible_tuple. case_bool_decide; split; auto.
  intros [?|?]; done.
Qed.

Lemma caql_getnext_Ok i st tup st' :
  caql_getnext E i st = Ok (tup, st') <->
  tup = visible_tuple E st i /\ st' = st.
Proof.
  unfold caql_getnext. split.
  - intros H; by inversion H.
  - by intros [-> ->].
Qed.

End Primitives.

(* ===================================================================== *)
(** * Part IV.  The class registry                                        *)
(* ===================================================================== *)

Lemma all_object_classes_complete (oclass : ObjectClass) :
  oclass ∈ all_object_classes.
Proof. unfold all_object_classes. destruct oclass; set_solver. Qed.

Lemma registered_class_oids_length ids :
  length (registered_class_oids ids) = 23.
Proof. reflexivity. Qed.

Lemma object_classes_registered ids oclass :
  object_classes ids oclass ∈ registered_class_oids ids.
Proof.
  unfold registered_class_oids. apply list_elem_of_In, in_map, list_elem_of_In.
  apply all_object_classes_complete.
Qed.

Lemma object_classes_inj ids c c' :
  distinct_case_labels ids ->
  object_classes ids c = object_classes ids c' -> c = c'.
Proof.
  unfold distinct_case_labels, registered_class_oids. intros Hnd Heq.
  destruct (proj1 (list_elem_of_lookup _ _) (all_object_classes_complete c))
    as [i Hi].
  destruct (proj1 (list_elem_of_lookup _ _) (all_object_classes_complete c'))
    as [j Hj].
  assert (i = j) as ->.
  { eapply (proj1 (NoDup_alt _) Hnd _ _ (object_classes ids c)).
    - change (map (object_classes ids) all_object_classes)
        with (object_classes ids <$> all_object_classes).
      by rewrite list_lookup_fmap, Hi.
    - change (map (object_classes ids) all_object_classes)
        with (object_classes ids <$> all_object_classes).
      by rewrite list_lookup_fmap, Hj, Heq. }
  congruence.
Qed.

Section Registry.
Context (E : Catalog).

Lemma find_class_None object :
  classId object ∉ registered_class_oids (oids E) ->
  List.find (fun oclass =>
          (classId object =? object_classes (oids E) oclass)%Z)
       all_object_classes = None.
Proof.
  intros Hn.
  destruct (List.find _ _) as [c|] eqn:Hf; [|done].
  apply find_some in Hf as [_ Hc]. apply Z.eqb_eq in Hc.
  exfalso. apply Hn. rewrite Hc. apply object_classes_registered.
Qed.

Lemma find_class_Some object oclass :
  distinct_case_labels (oids E) ->
  classId object = object_classes (oids E) oclass ->
  List.find (fun oclass =>
          (classId object =? object_classes (oids E) oclass)%Z)
       all_object_classes = Some oclass.
Proof.
  intros Hnd Hc.
  destruct (List.find _ _) as [c|] eqn:Hf.
  - apply find_some in Hf as [_ Hc']. apply Z.eqb_eq in Hc'.
    f_equal. eapply object_classes_inj; eauto. congruence.
  - exfalso. eapply find_none in Hf.
    + apply Z.eqb_neq in Hf. apply Hf, Hc.
    + apply list_elem_of_In, all_object_classes_complete.
Qed.

Lemma getObjectClass_unrecognized object :
  classId object ∉ registered_class_oids (oids E) ->
  getObjectClass E object = Err (ERR_unrecognized_object_class (classId object)).
Proof. intros Hn. unfold getObjectClass. by rewrite find_class_None. Qed.

Lemma getObjectClass_relation object :
  distinct_case_labels (oids E) ->
  classId object = RelationRelationId (oids E) ->
  getObjectClass E object = Ok OCLASS_CLASS.
Proof.
  intros Hnd Hc. unfold getObjectClass.
  by rewrite (find_class_Some object OCLASS_CLASS Hnd Hc).
Qed.

Lemma getObjectClass_other object oclass :
  distinct_case_labels (oids E) ->
  classId object = object_classes (oids E) oclass ->
  oclass <> OCLASS_CLASS ->
  getObjectClass E object =
    if assert_checking E && negb (objectSubId object =? 0)%Z
    then Err TRAP_failed_assertion else Ok oclass.
Proof.
  intros Hnd Hc Hne. unfold getObjectClass, Assert.
  rewrite (find_class_Some object oclass Hnd Hc).
  destruct oclass; try done;
    by destruct (assert_checking E && negb (objectSubId object =? 0)%Z).
Qed.

(** What a normal return of [getObjectClass] tells about the address. *)
Lemma getObjectClass_Ok object oclass :
  getObjectClass E object = Ok oclass ->
  classId object = object_classes (oids E) oclass /\
  (oclass = OCLASS_CLASS \/
   assert_checking E = false \/ objectSubId object = 0%Z).
Proof.
  unfold getObjectClass, Assert.
  destruct (List.find _ _) as [c|] eqn:Hf; [|discriminate].
  apply find_some in Hf as [_ Hc]. apply Z.eqb_eq in Hc.
  destruct (assert_checking E) eqn:Ha; simpl.
  - destruct (objectSubId object =? 0)%Z eqn:Hs; simpl.
    + apply Z.eqb_eq in Hs.
      destruct c; intros H; inversion H; subst; auto.
    + destruct c; intros H; inversion H; subst; auto.
  - destruct c; intros H; inversion H; subst; auto.
Qed.

(** The column of a default is a pg_class address. *)
Lemma getObjectClass_colobject o sub :
  getObjectClass E {| classId := RelationRelationId (oids E);
                      objectId := o; objectSubId := sub |}
  = Ok OCLASS_CLASS.
Proof. unfold getObjectClass. simpl. by rewrite Z.eqb_refl. Qed.

Lemma description_lookups_Err oclass object e :
  description_lookups E oclass object = Err e -> lookup_failure e.
Proof.
  unfold description_lookups, lookup_or, getRelationDescription.
  destruct oclass; try discriminate;
    repeat match goal with
           | |- context [if ?b then _ else _] => destruct b
           end;
    intros H; inversion H; subst; done.
Qed.

Lemma description_lookups_not_OutOfFuel oclass object :
  description_lookups E oclass object <> OutOfFuel.
Proof.
  unfold description_lookups, lookup_or, getRelationDescription.
  destruct oclass; try discriminate;
    repeat match goal with
           | |- context [if ?b then _ else _] => destruct b
           end; discriminate.
Qed.

(** The case of pg_class makes no call of the function on itself. *)
Lemma describe_object_relation recurse o sub st :
  describe_object E recurse
    {| classId := RelationRelationId (oids E);
       objectId := o; objectSubId := sub |} st
  = match getRelationDescription E o with
    | Ok _ => Ok (Describe OCLASS_CLASS
                    {| classId := RelationRelationId (oids E);
                       objectId := o; objectSubId := sub |},
                  described_in OCLASS_CLASS st)
    | Err e => Err e
    | OutOfFuel => OutOfFuel
    end.
Proof.
  destruct st. unfold describe_object, bind, lift, ret.
  rewrite getObjectClass_colobject. simpl.
  by destruct (getRelationDescription E o) as [[]| |].
Qed.

(** One level of [getObjectDescription], whatever the function called for
    the column of a default is, as long as it describes a pg_class
    address as the case of pg_class does. *)
Lemma describe_object_eq recurse object st :
  (forall o sub st0,
      recurse {| classId := RelationRelationId (oids E);
                 objectId := o; objectSubId := sub |} st0
      = match getRelationDescription E o with
        | Ok _ => Ok (Describe OCLASS_CLASS
                        {| classId := RelationRelationId (oids E);
                           objectId := o; objectSubId := sub |},
                      described_in OCLASS_CLASS st0)
        | Err e => Err e
        | OutOfFuel => OutOfFuel
        end) ->
  describe_object E recurse object st
  = match getObjectClass E object with
    | Ok oclass =>
        match description_lookups E oclass object with
        | Ok _ => Ok (Describe oclass object, described_in oclass st)
        | Err e => Err e
        | OutOfFuel => OutOfFuel
        end
    | Err e => Err e
    | OutOfFuel => OutOfFuel
    end.
Proof.
  intros Hrec. destruct st.
  unfold describe_object, description_lookups, bind, lift, ret.
  destruct (getObjectClass E object) as [oclass| |]; [|done..].
  destruct oclass; simpl; try done;
    unfold lookup_or, getRelationDescription in *;
    repeat match goal with
           | |- context [if ?b then _ else _] =>
               let Hb := fresh "Hb" in destruct b eqn:Hb; simpl
           end; try done;
    rewrite Hrec;
    repeat match goal with
           | Hb : ?b = _ |- context [if ?b then _ else _] => rewrite Hb
           end; done.
Qed.

(** [getObjectDescription] in one equation: the class, then the lookups of
    the case, then the description; the state takes the notice of the case
    of compression. *)
Lemma getObjectDescription_eq object st :
  getObjectDescription E object st
  = match getObjectClass E object with
    | Ok oclass =>
        match description_lookups E oclass object with
        | Ok _ => Ok (Describe oclass object, described_in oclass st)
        | Err e => Err e
        | OutOfFuel => OutOfFuel
        end
    | Err e => Err e
    | OutOfFuel => OutOfFuel
    end.
Proof.
  unfold getObjectDescription. apply describe_object_eq.
  intros o sub st0. apply describe_object_relation.
Qed.

(** The nesting of [getObjectDescription] is the recursion of the source:
    the function is its body applied to itself. *)
Lemma getObjectDescription_unfold object st :
  getObjectDescription E object st
  = describe_object E (getObjectDescription E) object st.
Proof.
  rewrite getObjectDescription_eq. symmetry. apply describe_object_eq.
  intros o sub st0. rewrite getObjectDescription_eq.
  by rewrite getObjectClass_colobject.
Qed.

Lemma getObjectDescription_Ok object st d st' :
  getObjectDescription E object st = Ok (d, st') ->
  described d = object /\ getObjectClass E object = Ok (described_class d) /\
  description_lookups E (described_class d) object = Ok tt /\
  st' = described_in (described_class d) st.
Proof.
  rewrite getObjectDescription_eq.
  destruct (getObjectClass E object) as [oclass| |]; [|done..].
  destruct (description_lookups E oclass object) as [[]| |] eqn:Hl;
    [|done..].
  intros H; inversion H; subst; done.
Qed.

Lemma getObjectDescription_of_class object oclass st :
  getObjectClass E object = Ok oclass ->
  description_lookups E oclass object = Ok tt ->
  getObjectDescription E object st
  = Ok (Describe oclass object, described_in oclass st).
Proof. rewrite getObjectDescription_eq. by intros -> ->. Qed.

(** Whether [getObjectDescription] returns, and what, does not depend on
    the state. *)
Lemma getObjectDescription_anywhere object st d st' st2 :
  getObjectDescription E object st = Ok (d, st') ->
  getObjectDescription E object st2
  = Ok (d, described_in (described_class d) st2).
Proof.
  intros (Hd & Hc & Hl & _)%getObjectDescription_Ok.
  rewrite (getObjectDescription_of_class _ _ _ Hc Hl).
  destruct d; simpl in *; by subst.
Qed.

Lemma getObjectDescription_Err_anywhere object st e st2 :
  getObjectDescription E object st = Err e ->
  getObjectDescription E object st2 = Err e.
Proof.
  rewrite !getObjectDescription_eq.
  destruct (getObjectClass E object) as [oclass| |]; [|done..].
  by destruct (description_lookups E oclass object) as [[]| |].
Qed.


Lemma described_in_messages oclass st :
  oclass <> OCLASS_COMPRESSION ->
  messages (described_in oclass st) = messages st.
Proof. by destruct oclass. Qed.

Lemma described_in_id oclass st :
  oclass <> OCLASS_COMPRESSION -> described_in oclass st = st.
Proof. destruct st. by destruct oclass. Qed.

Lemma doDeletion_dispatch_Ok oclass object st u st' :
  doDeletion_dispatch E oclass object st = Ok (u, st') ->
  core st' = core st /\ alreadyDeleted st' = alreadyDeleted st.
Proof.
  unfold doDeletion_dispatch.
  destruct oclass;
    try (intros [? (? & ? & ?)]%call_Ok; done);
    try (intros [? (? & ? & ? & ?)]%ereport_Ok; done);
    try (unfold raise; discriminate).
  destruct (rel_is_index E (objectId object)).
  - intros H. split_run H. apply lift_Ok in Hrun as [_ ->].
    apply call_Ok in H as (? & ? & ? & ?). done.
  - destruct (negb (objectSubId object =? 0)%Z);
      intros [? (? & ? & ?)]%call_Ok; done.
Qed.

Lemma doDeletion_Ok object st u st' :
  doDeletion E object st = Ok (u, st') ->
  dead st' = dead st /\ pending st' = pending st /\
  dropped st' = object :: dropped st /\ scans st' = scans st /\
  alreadyDeleted st' = alreadyDeleted st /\
  exists oclass, getObjectClass E object = Ok oclass.
Proof.
  unfold doDeletion. intros H. split_run H.
  apply lift_Ok in Hrun as [Hc ->].
  apply doDeletion_dispatch_Ok in Hrun0 as [Hcore Had].
  unfold note_dropped in H. inversion H; subst; simpl.
  unfold core in Hcore. inversion Hcore. rewrite Had. eauto 10.
Qed.

Lemma delete_object_itself_Ok object st u st' :
  delete_object_itself E object st = Ok (u, st') ->
  dead st' = pending st ∪ dead st /\ pending st' = ∅ /\
  dropped st' = object :: dropped st /\ scans st' = scans st.
Proof.
  unfold delete_object_itself. intros H. split_run H.
  apply doDeletion_Ok in Hrun as (Hd & Hp & Hdr & Hs & _).
  apply save_deleted_Ok in Hrun0 as (Hc0 & _).
  apply call_Ok in Hrun1 as (Hc1 & _).
  assert (core st3 = core st2) as Hc2.
  { destruct (objectSubId object =? 0)%Z.
    - by apply call_Ok in Hrun2 as (? & _).
    - unfold ret in Hrun2. by inversion Hrun2. }
  apply CommandCounterIncrement_Ok in H as (Hd' & Hp' & Hdr' & Hs' & _).
  unfold core in *. inversion Hc0. inversion Hc1. inversion Hc2.
  rewrite Hd', Hp', Hdr', Hs'. repeat split; congruence.
Qed.

End Registry.

(** A description that has returned: the state after it is the state
    before it, but for the notices. *)
Ltac described H :=
  apply getObjectDescription_Ok in H as (_ & _ & _ & ->).

Ltac past_descriptions :=
  cbn [described_in dead pending dropped external alreadyDeleted scans] in *.

Lemma sample_oids_distinct : distinct_case_labels sample_oids.
Proof.
  unfold distinct_case_labels, registered_class_oids, Oid.
  apply (bool_decide_unpack (NoDup _)). vm_compute. exact I.
Qed.

(** C10.  With pairwise distinct case labels, [getObjectClass] raises
    "unrecognized object class" for every address whose class is none of
    the 23 registered catalog OIDs; it returns [OCLASS_CLASS] for pg_class
    whatever the sub-id; for every other registered class it asserts
    [objectSubId = 0]; so, with assertions compiled in, an address for
    which [doDeletion] or [getObjectDescription] returns has a registered
    class and a non-zero sub-id only if its class is pg_class. *)
Theorem getObjectClass_precondition (E : Catalog) :
  distinct_case_labels (oids E) ->
  length (registered_class_oids (oids E)) = 23 /\
  (forall a : ObjectAddress,
      classId a ∉ registered_class_oids (oids E) ->
      getObjectClass E a = Err (ERR_unrecognized_object_class (classId a))) /\
  (forall a : ObjectAddress,
      classId a = RelationRelationId (oids E) ->
      getObjectClass E a = Ok OCLASS_CLASS) /\
  (forall (a : ObjectAddress) (oclass : ObjectClass),
      classId a = object_classes (oids E) oclass ->
      oclass <> OCLASS_CLASS ->
      getObjectClass E a =
        if assert_checking E && negb (objectSubId a =? 0)%Z
        then Err TRAP_failed_assertion else Ok oclass) /\
  (assert_checking E = true ->
   forall a : ObjectAddress,
     (exists st r, doDeletion E a st = Ok r) \/
     (exists st r, getObjectDescription E a st = Ok r) ->
     classId a ∈ registered_class_oids (oids E) /\
     (objectSubId a <> 0%Z -> classId a = RelationRelationId (oids E))).
Proof.
  intros Hnd. split; [reflexivity|].
  split; [apply getObjectClass_unrecognized|].
  split; [intros; by apply getObjectClass_relation|].
  split; [intros; by apply getObjectClass_other|].
  intros Hassert a Hret.
  assert (exists oclass, getObjectClass E a = Ok oclass) as [oclass Hc].
  { destruct Hret as [(st & [u st'] & H)|(st & [d st'] & H)].
    - apply doDeletion_Ok in H as (_ & _ & _ & _ & _ & H). exact H.
    - apply getObjectDescription_Ok in H as (_ & H & _). eauto. }
  apply getObjectClass_Ok in Hc as [Hc Hsub]. split.
  - rewrite Hc. apply object_classes_registered.
  - intros Hne. destruct Hsub as [->|[?|?]]; [done|congruence|done].
Qed.

Lemma getObjectClass_precondition_witness :
  distinct_case_labels (oids (sample_catalog [] heap_order)) /\
  getObjectClass (sample_catalog [] heap_order) (mkObjectAddress 4242 1 0)
    = Err (ERR_unrecognized_object_class 4242) /\
  getObjectClass (sample_catalog [] heap_order) (column 16384 3)
    = Ok OCLASS_CLASS /\
  getObjectClass (sample_catalog [] heap_order) (mkObjectAddress 1255 3001 7)
    = Err TRAP_failed_assertion.
Proof.
  pose proof (getObjectClass_precondition (sample_catalog [] heap_order)
                sample_oids_distinct) as (_ & Hun & Hrel & Hoth & _).
  split; [exact sample_oids_distinct|]. split; [|split].
  - apply (Hun (mkObjectAddress 4242 1 0)). vm_compute.
    intros H. apply list_elem_of_In in H. simpl in H.
    repeat (destruct H as [H|H]; [discriminate|]). done.
  - apply (Hrel (column 16384 3)). reflexivity.
  - apply (Hoth (mkObjectAddress 1255 3001 7) OCLASS_PROC); done.
Defined.

(** C9.  [doDeletion] on an object of class Compression emits the notice
    "dependency: not yet implemented!" and returns: no error, no external
    destructor called, no pg_depend tuple touched.  Hence dropping such an
    object that nothing depends on succeeds, the only calls out of the
    engine being the generic clean-up of step 3; on the way
    [getObjectDescription], called by [performDeletion] and then by
    [recursiveDeletion], has emitted its own notice "NOT YET IMPLEMENTED"
    twice. *)
Theorem doDeletion_compression_not_implemented
    (E : Catalog) (object : ObjectAddress) (st : DB) :
  getObjectClass E object = Ok OCLASS_COMPRESSION ->
  (exists st',
      doDeletion E object st = Ok (tt, st') /\
      messages st' = (NOTICE, MSG_not_yet_implemented) :: messages st /\
      external st' = external st /\
      dead st' = dead st /\ pending st' = pending st) /\
  (forall st0,
      getObjectDescription E object st0
      = Ok (Describe OCLASS_COMPRESSION object,
            described_in OCLASS_COMPRESSION st0)) /\
  (matching_tuples E SCAN_BY_DEPENDER object = [] ->
   matching_tuples E SCAN_BY_REFERENCE object = [] ->
   forall (fuel : nat) (behavior : DropBehavior),
   exists st',
     performDeletion E (S fuel) object behavior st = Ok (tt, st') /\
     dropped st' = object :: dropped st /\
     messages st' = (NOTICE, MSG_not_yet_implemented)
                    :: (NOTICE, MSG_NOT_YET_IMPLEMENTED)
                    :: (NOTICE, MSG_NOT_YET_IMPLEMENTED) :: messages st /\
     external st' =
       (if (objectSubId object =? 0)%Z
        then [deleteSharedDependencyRecordsFor (classId object)
                                               (objectId object)]
        else [])
       ++ DeleteComments (objectId object) (classId object)
                         (objectSubId object) :: external st).
Proof.
  intros Hc.
  assert (forall st0,
             getObjectDescription E object st0
             = Ok (Describe OCLASS_COMPRESSION object,
                   described_in OCLASS_COMPRESSION st0)) as Hd.
  { intros st0. by apply getObjectDescription_of_class. }
  split; [|split; [exact Hd|]].
  - eexists. unfold doDeletion, bind, lift. rewrite Hc. simpl.
    split; [reflexivity|]. done.
  - intros Hout Hin fuel behavior.
    unfold performDeletion, bind. rewrite Hd.
    simpl. unfold caql_beginscan, bind. rewrite Hout, Hin.
    simpl. rewrite Hd. simpl.
    unfold deleteDependentObjects_with, delete_object_itself, doDeletion,
      caql_beginscan, bind, lift.
    rewrite Hin, Hc. simpl.
    destruct (objectSubId object =? 0)%Z; simpl;
      (eexists; split; [reflexivity|]); done.
Qed.

Lemma doDeletion_compression_not_implemented_witness :
  getObjectClass (sample_catalog [] heap_order) (compression 9001)
    = Ok OCLASS_COMPRESSION /\
  exists st',
    performDeletion (sample_catalog [] heap_order) 1 (compression 9001)
                    DROP_RESTRICT initial_DB = Ok (tt, st') /\
    dropped st' = [compression 9001] /\
    messages st' = [(NOTICE, MSG_not_yet_implemented);
                    (NOTICE, MSG_NOT_YET_IMPLEMENTED);
                    (NOTICE, MSG_NOT_YET_IMPLEMENTED)] /\
    external st' = [deleteSharedDependencyRecordsFor 3056 9001;
                    DeleteComments 9001 3056 0].
Proof.
  assert (Hc : getObjectClass (sample_catalog [] heap_order) (compression 9001)
               = Ok OCLASS_COMPRESSION) by reflexivity.
  split; [exact Hc|].
  destruct (proj2 (proj2 (doDeletion_compression_not_implemented
                            (sample_catalog [] heap_order) (compression 9001)
                            initial_DB Hc)) eq_refl eq_refl 0 DROP_RESTRICT)
    as (st' & Hrun & Hdr & Hmsg & Hext).
  exists st'. split; [exact Hrun|]. split; [exact Hdr|].
  split; [exact Hmsg|exact Hext].
Defined.

(* ===================================================================== *)
(** * Part V.  Step 1: the outgoing records                               *)
(* ===================================================================== *)

Lemma called_from_iff (caller other : ObjectAddress) :
  called_from caller other = true <->
  caller = other \/
  (classId caller = classId other /\ objectId caller = objectId other /\
   objectSubId caller = 0%Z).
Proof.
  unfold called_from.
  rewrite !andb_true_iff, orb_true_iff, !Z.eqb_eq.
  destruct caller as [c o s], other as [c' o' s']; simpl. split.
  - intros [[-> ->] [->| ->]]; auto.
  - intros [H|(-> & -> & ->)]; [inversion H; subst|]; auto.
Qed.

Lemma called_from_covers (caller other : ObjectAddress) :
  called_from caller other = true <-> covers caller other.
Proof.
  unfold called_from, covers.
  rewrite !andb_true_iff, orb_true_iff, !Z.eqb_eq. tauto.
Qed.

Lemma reference_matches_covers object tup :
  reference_matches object tup = true <-> covers object (referenced tup).
Proof.
  unfold reference_matches, covers; simpl.
  rewrite !andb_true_iff, !Z.eqb_eq.
  destruct (Z.eqb_spec (objectSubId object) 0) as [Hz|Hz].
  - split; [intros [[-> ->] _]|intros (-> & -> & _)]; auto.
  - rewrite Z.eqb_eq.
    split; [intros [[-> ->] ->]|intros (-> & -> & [->|?])]; auto; done.
Qed.

Lemma depender_matches_covers object tup :
  depender_matches object tup = true <-> covers object (depender tup).
Proof.
  unfold depender_matches, covers; simpl.
  rewrite !andb_true_iff, !Z.eqb_eq.
  destruct (Z.eqb_spec (objectSubId object) 0) as [Hz|Hz].
  - split; [intros [[-> ->] _]|intros (-> & -> & _)]; auto.
  - rewrite Z.eqb_eq.
    split; [intros [[-> ->] ->]|intros (-> & -> & [->|?])]; auto; done.
Qed.

Section Step1.
Context (E : Catalog).

Lemma sever_outgoing_cons d caller i scan owner st :
  sever_outgoing E d caller (i :: scan) owner st =
  match visible_tuple E st i with
  | None => sever_outgoing E d caller scan owner st
  | Some foundDep =>
      match deptype foundDep with
      | DEPENDENCY_NORMAL | DEPENDENCY_AUTO =>
          (caql_delete_current i ;; sever_outgoing E d caller scan owner) st
      | DEPENDENCY_INTERNAL =>
          match caller with
          | None =>
              (otherObjDesc <- getObjectDescription E
                                 (referenced foundDep) ;;
               raise (ERR_requires_it d otherObjDesc)) st
          | Some c =>
              if called_from c (referenced foundDep) then
                (caql_delete_current i ;;
                 sever_outgoing E d caller scan owner) st
              else
                match owner with
                | Some _ => Err (ERR_multiple_internal d)
                | None =>
                    sever_outgoing E d caller scan
                                   (Some (referenced foundDep)) st
                end
          end
      | DEPENDENCY_PIN => Err (ERR_incorrect_pin d)
      | DEPENDENCY_unrecognized tag => Err (ERR_unrecognized_deptype tag d)
      end
  end.
Proof.
  simpl. unfold bind at 1. unfold caql_getnext.
  destruct (visible_tuple E st i) as [foundDep|]; [|done].
  destruct (deptype foundDep); try done.
  destruct caller as [c|]; [|done].
  destruct (called_from c (referenced foundDep)); [done|].
  by destruct owner.
Qed.

(** The three ways in which the loop of step 1 gets past a tuple. *)
Lemma sever_outgoing_cons_Ok d caller i scan owner st owner' st' :
  sever_outgoing E d caller (i :: scan) owner st = Ok (owner', st') ->
  (visible_tuple E st i = None /\
   sever_outgoing E d caller scan owner st = Ok (owner', st')) \/
  (exists tup st1,
      visible_tuple E st i = Some tup /\
      (deptype tup = DEPENDENCY_NORMAL \/ deptype tup = DEPENDENCY_AUTO \/
       (deptype tup = DEPENDENCY_INTERNAL /\
        exists c, caller = Some c /\
                  called_from c (referenced tup) = true)) /\
      caql_delete_current i st = Ok (tt, st1) /\
      sever_outgoing E d caller scan owner st1 = Ok (owner', st')) \/
  (exists tup c,
      visible_tuple E st i = Some tup /\
      deptype tup = DEPENDENCY_INTERNAL /\ caller = Some c /\
      called_from c (referenced tup) = false /\ owner = None /\
      sever_outgoing E d caller scan (Some (referenced tup)) st
        = Ok (owner', st')).
Proof.
  rewrite sever_outgoing_cons. intros H.
  destruct (visible_tuple E st i) as [tup|] eqn:Hv; [|by left].
  right.
  assert (Hdel :
    (caql_delete_current i ;; sever_outgoing E d caller scan owner) st
      = Ok (owner', st') ->
    exists st1, caql_delete_current i st = Ok (tt, st1) /\
                sever_outgoing E d caller scan owner st1 = Ok (owner', st')).
  { intros Hrun. split_run Hrun. destruct a. eauto. }
  destruct (deptype tup) eqn:Ht; try discriminate.
  - left. destruct (Hdel H) as (st1 & ? & ?). exists tup, st1. auto.
  - left. destruct (Hdel H) as (st1 & ? & ?). exists tup, st1. auto 6.
  - destruct caller as [c|].
    + destruct (called_from c (referenced tup)) eqn:Hc.
      * left. destruct (Hdel H) as (st1 & ? & ?). exists tup, st1.
        split; [done|]. split; [|done]. right; right. eauto.
      * destruct owner as [o|]; [discriminate|].
        right. exists tup, c. auto 7.
    + unfold bind, raise in H.
      destruct (getObjectDescription E (referenced tup) st) as [[]| |];
        discriminate.
Qed.

Lemma visible_tuple_same_dead st st' i :
  dead st' = dead st -> visible_tuple E st' i = visible_tuple E st i.
Proof. unfold visible_tuple. by intros ->. Qed.

(** The scan of step 1 changes nothing but [pending]; in particular the
    tuples stay visible until [CommandCounterIncrement]. *)
Lemma sever_outgoing_frame d caller scan :
  forall owner st owner' st',
  sever_outgoing E d caller scan owner st = Ok (owner', st') ->
  dead st' = dead st /\ dropped st' = dropped st /\ scans st' = scans st /\
  pending st ⊆ pending st'.
Proof.
  induction scan as [|i scan IH]; intros owner st owner' st' H.
  - simpl in H. unfold ret in H. by inversion H; subst.
  - apply sever_outgoing_cons_Ok in H
      as [[_ H]|[(tup & st1 & _ & _ & Hdel & H)|(tup & c & _ & _ & _ & _ & _ & H)]].
    + eauto.
    + apply caql_delete_current_Ok in Hdel as (Hd & Hp & Hdr & Hs & _).
      apply IH in H as (Hd' & Hdr' & Hs' & Hp').
      repeat split; try congruence. rewrite Hp in Hp'. set_solver.
    + eauto.
Qed.

(** Every tuple step 1 deletes was met by the scan, visible, and not PIN. *)
Lemma sever_outgoing_deleted d caller scan :
  forall owner st owner' st' j,
  sever_outgoing E d caller scan owner st = Ok (owner', st') ->
  j ∈ pending st' ->
  j ∈ pending st \/
  (j ∈ scan /\ exists tup, visible_tuple E st j = Some tup /\
                (deptype tup = DEPENDENCY_NORMAL \/
                 deptype tup = DEPENDENCY_AUTO \/
                 deptype tup = DEPENDENCY_INTERNAL)).
Proof.
  induction scan as [|i scan IH]; intros owner st owner' st' j H Hj.
  - simpl in H. unfold ret in H. inversion H; subst. by left.
  - apply sever_outgoing_cons_Ok in H
      as [[_ H]|[(tup & st1 & Hv & Ht & Hdel & H)|(tup & c & _ & _ & _ & _ & _ & H)]].
    + destruct (IH _ _ _ _ _ H Hj) as [?|[? ?]]; [by left|].
      right. split; [by right|done].
    + apply caql_delete_current_Ok in Hdel as (Hd & Hp & _).
      destruct (IH _ _ _ _ _ H Hj) as [Hj'|[? (tup' & Hv' & Ht')]].
      * rewrite Hp in Hj'. apply elem_of_union in Hj' as [Hj'|?]; [|by left].
        apply elem_of_singleton in Hj' as ->. right. split; [by left|].
        exists tup. split; [done|]. destruct Ht as [?|[?|[? _]]]; auto.
      * right. split; [by right|]. exists tup'.
        by rewrite <- (visible_tuple_same_dead st st1 j Hd).
    + destruct (IH _ _ _ _ _ H Hj) as [?|[? ?]]; [by left|].
      right. split; [by right|done].
Qed.

(** If step 1 ends with [amOwned] unset, it was unset at the start and
    every tuple the scan could see has been deleted. *)
Lemma sever_outgoing_not_owned d caller scan :
  forall owner st st',
  sever_outgoing E d caller scan owner st = Ok (None, st') ->
  owner = None /\
  forall i tup, i ∈ scan -> visible_tuple E st i = Some tup ->
                i ∈ pending st'.
Proof.
  induction scan as [|i scan IH]; intros owner st st' H.
  - simpl in H. unfold ret in H. inversion H; subst.
    split; [done|]. intros i tup Hi. by apply elem_of_nil in Hi.
  - apply sever_outgoing_cons_Ok in H
      as [[Hv H]|[(tup & st1 & Hv & Ht & Hdel & H)|(tup & c & _ & _ & _ & _ & _ & H)]].
    + apply IH in H as [-> Hall]. split; [done|].
      intros j tup Hj Hvj. apply elem_of_cons in Hj as [->|Hj]; [congruence|].
      eauto.
    + pose proof (sever_outgoing_frame _ _ _ _ _ _ _ H) as (_ & _ & _ & Hsub).
      apply caql_delete_current_Ok in Hdel as (Hd & Hp & _).
      apply IH in H as [-> Hall]. split; [done|].
      intros j tup' Hj Hvj. apply elem_of_cons in Hj as [->|Hj].
      * apply Hsub. rewrite Hp. set_solver.
      * eapply Hall; eauto. by rewrite (visible_tuple_same_dead st st1 j Hd).
    + apply IH in H as [? _]. discriminate.
Qed.

Lemma sever_outgoing_stays_owned d caller scan :
  forall o st owner' st',
  sever_outgoing E d caller scan (Some o) st = Ok (owner', st') ->
  owner' = Some o.
Proof.
  induction scan as [|i scan IH]; intros o st owner' st' H.
  - simpl in H. unfold ret in H. by inversion H.
  - apply sever_outgoing_cons_Ok in H
      as [[_ H]|[(tup & st1 & _ & _ & _ & H)|(tup & c & _ & _ & _ & _ & ? & _)]];
      [eauto|eauto|discriminate].
Qed.

(** At the outermost level the scan does not get past a visible INTERNAL
    tuple. *)
Lemma sever_outgoing_outermost d scan :
  forall owner st i tup r,
  i ∈ scan -> visible_tuple E st i = Some tup ->
  deptype tup = DEPENDENCY_INTERNAL ->
  sever_outgoing E d None scan owner st <> Ok r.
Proof.
  induction scan as [|j scan IH]; intros owner st i tup [owner' st'] Hi Hv Ht H.
  - by apply elem_of_nil in Hi.
  - apply sever_outgoing_cons_Ok in H
      as [[Hvj H]|[(tup' & st1 & Hvj & Ht' & Hdel & H)|(tup' & c & _ & _ & ? & _)]];
      [| |discriminate].
    + apply elem_of_cons in Hi as [->|Hi]; [congruence|].
      by apply (IH owner st i tup (owner', st') Hi Hv Ht).
    + apply caql_delete_current_Ok in Hdel as (Hd & _).
      apply elem_of_cons in Hi as [->|Hi].
      * rewrite Hv in Hvj. inversion Hvj; subst.
        destruct Ht' as [?|[?|[_ (c & ? & _)]]]; congruence.
      * apply (IH owner st1 i tup (owner', st') Hi); [|done|done].
        by rewrite (visible_tuple_same_dead st st1 i Hd).
Qed.

Lemma recursiveDeletion_outermost_internal fuel object behavior msglevel
    oktodelete st i tup r :
  visible_tuple E st i = Some tup ->
  depender_matches object tup = true ->
  deptype tup = DEPENDENCY_INTERNAL ->
  recursiveDeletion E fuel object behavior msglevel None oktodelete st <> Ok r.
Proof.
  intros Hv Hm Ht H. destruct fuel as [|fuel]; [discriminate|].
  simpl in H. split_run H.
  apply getObjectDescription_Ok in Hrun as (_ & _ & _ & ->).
  pose proof Hrun0 as (_ & Hd & _)%caql_beginscan_Ok.
  eapply sever_outgoing_outermost; [| | |exact Hrun1]; eauto.
  - eapply elem_of_scan; eauto. exists tup. split; [|done].
    by apply visible_tuple_Some in Hv as [_ ?].
  - by rewrite (visible_tuple_same_dead st st1 i Hd).
Qed.

End Step1.

(** C4.  The INTERNAL branch of step 1, at a visible INTERNAL tuple
    [foundDep] met at position [i] of the scan.
    (1) At the outermost level ([callingObject = NULL]) the scan raises
        DependentObjectsStillExist "cannot drop .. because .. requires
        it", naming the referenced object, with the hint to drop that
        object instead; and [recursiveDeletion] called at the outermost
        level on an object with such a tuple never returns normally.
    (2) When recursing, the test that lets the deletion continue holds
        exactly when the caller is the referenced object or the whole
        object of which it is a part; then the tuple is deleted and the
        scan goes on.
    (3) Otherwise the object is marked owned by the referenced object and
        the tuple is not deleted (a second such tuple is an error). *)
Theorem internal_dependency_policy
    (E : Catalog) (objDescription : Description) (i : nat)
    (scan : list nat) (foundDep : FormData_pg_depend) (st : DB) :
  visible_tuple E st i = Some foundDep ->
  deptype foundDep = DEPENDENCY_INTERNAL ->
  (forall (owner : option ObjectAddress) (otherObjDesc : Description)
          (st0 : DB),
      getObjectDescription E (referenced foundDep) st
        = Ok (otherObjDesc, st0) ->
      sever_outgoing E objDescription None (i :: scan) owner st
        = Err (ERR_requires_it objDescription otherObjDesc) /\
      described otherObjDesc = referenced foundDep /\
      errcode (ERR_requires_it objDescription otherObjDesc)
        = ERRCODE_DEPENDENT_OBJECTS_STILL_EXIST /\
      errhint (ERR_requires_it objDescription otherObjDesc)
        = Some (HINT_drop_instead otherObjDesc)) /\
  (forall fuel object behavior msglevel oktodelete r,
      depender_matches object foundDep = true ->
      recursiveDeletion E fuel object behavior msglevel None oktodelete st
        <> Ok r) /\
  (forall caller : ObjectAddress,
      (called_from caller (referenced foundDep) = true <->
       caller = referenced foundDep \/
       (classId caller = classId (referenced foundDep) /\
        objectId caller = objectId (referenced foundDep) /\
        objectSubId caller = 0%Z)) /\
      (called_from caller (referenced foundDep) = true ->
       forall owner,
         sever_outgoing E objDescription (Some caller) (i :: scan) owner st
         = (caql_delete_current i ;;
            sever_outgoing E objDescription (Some caller) scan owner) st) /\
      (called_from caller (referenced foundDep) = false ->
       sever_outgoing E objDescription (Some caller) (i :: scan) None st
         = sever_outgoing E objDescription (Some caller) scan
                          (Some (referenced foundDep)) st /\
       (forall owningObject,
           sever_outgoing E objDescription (Some caller) (i :: scan)
                          (Some owningObject) st
           = Err (ERR_multiple_internal objDescription)) /\
       (forall owner' st',
           i ∉ scan -> i ∉ pending st ->
           sever_outgoing E objDescription (Some caller) (i :: scan) None st
             = Ok (owner', st') ->
           owner' = Some (referenced foundDep) /\
           (i ∉ pending st') /\ (i ∉ dead st')))).
Proof.
  intros Hv Ht. split; [|split].
  - intros owner otherObjDesc st0 Hd.
    rewrite sever_outgoing_cons, Hv, Ht. unfold bind, raise.
    rewrite Hd. apply getObjectDescription_Ok in Hd as [Hd _]. done.
  - intros fuel object behavior msglevel oktodelete r Hm.
    by eapply recursiveDeletion_outermost_internal.
  - intros caller. split; [apply called_from_iff|]. split.
    + intros Hc owner. by rewrite sever_outgoing_cons, Hv, Ht, Hc.
    + intros Hc. split; [|split].
      * by rewrite sever_outgoing_cons, Hv, Ht, Hc.
      * intros owningObject. by rewrite sever_outgoing_cons, Hv, Ht, Hc.
      * intros owner' st' Hni Hnp H.
        rewrite sever_outgoing_cons, Hv, Ht, Hc in H.
        pose proof (sever_outgoing_stays_owned _ _ _ _ _ _ _ _ H) as ->.
        split; [done|].
        pose proof (sever_outgoing_frame _ _ _ _ _ _ _ _ H) as (Hd & _).
        split.
        -- intros Hp.
           eapply sever_outgoing_deleted in Hp as [?|[? _]]; eauto.
        -- rewrite Hd. by apply visible_tuple_Some in Hv as [? _].
Qed.

(** Scenario 3: dropping the backing relation of a composite type
    directly is refused and redirected to the type. *)
Lemma internal_dependency_policy_witness :
  visible_tuple composite_type_catalog initial_DB 0
    = Some (depends_on (table 16400) (type 16402) DEPENDENCY_INTERNAL) /\
  performDeletion composite_type_catalog 5 (table 16400) DROP_CASCADE
                  initial_DB
    = Err (ERR_requires_it (Describe OCLASS_CLASS (table 16400))
                           (Describe OCLASS_TYPE (type 16402))) /\
  forall fuel r,
    recursiveDeletion composite_type_catalog fuel (table 16400) DROP_CASCADE
                      NOTICE None [] initial_DB <> Ok r.
Proof.
  split; [reflexivity|]. split; [vm_compute; reflexivity|].
  intros fuel r.
  apply (proj1 (proj2 (internal_dependency_policy
           composite_type_catalog (Describe OCLASS_CLASS (table 16400)) 0 []
           (depends_on (table 16400) (type 16402) DEPENDENCY_INTERNAL)
           initial_DB eq_refl eq_refl))).
  reflexivity.
Defined.

(* ===================================================================== *)
(** * Part VI.  Step 2 and the propagation of RESTRICT violations         *)
(* ===================================================================== *)

Section Step2.
Context (E : Catalog).

Lemma report_depends_on_Ok msglevel other object st u st' :
  report_depends_on E msglevel other object st = Ok (u, st') ->
  core st' = core st /\ external st' = external st /\
  alreadyDeleted st' = alreadyDeleted st /\
  exists lvl, messages st' = (lvl, MSG_depends_on other object) :: messages st.
Proof.
  unfold report_depends_on.
  destruct (_ && _); intros (_ & ? & ? & ? & ?)%ereport_Ok; eauto 10.
Qed.

Lemma report_drop_cascades_to_Ok msglevel other st u st' :
  report_drop_cascades_to E msglevel other st = Ok (u, st') ->
  core st' = core st /\ external st' = external st /\
  alreadyDeleted st' = alreadyDeleted st /\
  exists lvl, messages st' = (lvl, MSG_drop_cascades_to other) :: messages st.
Proof.
  unfold report_drop_cascades_to.
  destruct (bool_decide _); intros (_ & ? & ? & ? & ?)%ereport_Ok; eauto 10.
Qed.

(** [complain] only writes a message; it sets [ok = false] exactly for an
    object outside [oktodelete] under RESTRICT. *)
Lemma complain_Ok other d behavior msglevel oktodelete st quiet st' :
  complain E other d behavior msglevel oktodelete st = Ok (quiet, st') ->
  core st' = core st /\ external st' = external st /\
  alreadyDeleted st' = alreadyDeleted st /\
  (exists oclass, getObjectClass E other = Ok oclass) /\
  quiet = object_address_present other oktodelete
          || bool_decide (behavior = DROP_CASCADE).
Proof.
  unfold complain. intros H. split_run H.
  apply getObjectDescription_Ok in Hrun as (_ & Hd & _ & ->).
  destruct (object_address_present other oktodelete).
  - split_run H. apply ereport_Ok in Hrun as (_ & ? & ? & ? & _).
    unfold ret in H. inversion H; subst. eauto 10.
  - destruct behavior; split_run H.
    + apply report_depends_on_Ok in Hrun as (? & ? & ? & _).
      unfold ret in H. inversion H; subst. eauto 10.
    + apply report_drop_cascades_to_Ok in Hrun as (? & ? & ? & _).
      unfold ret in H. inversion H; subst. eauto 10.
Qed.

Lemma delete_dependents_cons recurse object d behavior msglevel oktodelete
    i scan ok st :
  delete_dependents E recurse object d behavior msglevel oktodelete
                    (i :: scan) ok st =
  match visible_tuple E st i with
  | None =>
      delete_dependents E recurse object d behavior msglevel oktodelete
                        scan ok st
  | Some foundDep =>
      match deptype foundDep with
      | DEPENDENCY_NORMAL =>
          (quiet <- complain E (depender foundDep) d behavior msglevel
                             oktodelete ;;
           done <- recurse (depender foundDep) (Some object) ;;
           delete_dependents E recurse object d behavior msglevel
                             oktodelete scan (ok && quiet && done)) st
      | DEPENDENCY_AUTO | DEPENDENCY_INTERNAL =>
          (otherDesc <- getObjectDescription E (depender foundDep) ;;
           ereport DEBUG2 (MSG_drop_auto_cascades_to otherDesc) ;;
           done <- recurse (depender foundDep) (Some object) ;;
           delete_dependents E recurse object d behavior msglevel
                             oktodelete scan (ok && done)) st
      | DEPENDENCY_PIN => Err (ERR_required_by_system d)
      | DEPENDENCY_unrecognized tag => Err (ERR_unrecognized_deptype tag d)
      end
  end.
Proof.
  simpl. unfold bind at 1. unfold caql_getnext.
  destruct (visible_tuple E st i) as [foundDep|]; [|done].
  by destruct (deptype foundDep).
Qed.

(** Once [ok] is false it stays false. *)
Lemma delete_dependents_false recurse object d behavior msglevel oktodelete
    scan :
  forall st ok' st',
  delete_dependents E recurse object d behavior msglevel oktodelete
                    scan false st = Ok (ok', st') ->
  ok' = false.
Proof.
  induction scan as [|i scan IH]; intros st ok' st' H.
  - simpl in H. unfold ret in H. by inversion H.
  - rewrite delete_dependents_cons in H.
    destruct (visible_tuple E st i) as [foundDep|]; [|eauto].
    destruct (deptype foundDep); try discriminate;
      split_run H; simpl in H; eauto.
Qed.

(** ** Which errors come from where *)

Lemma getObjectClass_Err object e :
  getObjectClass E object = Err e -> raised_inside e.
Proof.
  unfold getObjectClass, Assert.
  destruct (List.find _ _) as [c|];
    [|intros H; inversion H; subst; exact I].
  destruct (assert_checking E && negb (objectSubId object =? 0)%Z);
    destruct c; intros H; inversion H; subst; exact I.
Qed.

Lemma getObjectDescription_Err object st e :
  getObjectDescription E object st = Err e -> raised_inside e.
Proof.
  rewrite getObjectDescription_eq.
  destruct (getObjectClass E object) as [oclass| |] eqn:Hc; [| |done].
  - destruct (description_lookups E oclass object) as [[]| |] eqn:Hl;
      [done| |done].
    intros H; inversion H; subst.
    apply description_lookups_Err in Hl. by destruct e.
  - intros H; inversion H; subst. by eapply getObjectClass_Err.
Qed.

Lemma lift_Err {A} (r : Res A) st e : lift r st = Err e -> r = Err e.
Proof. unfold lift. destruct r; intros H; inversion H; done. Qed.

Lemma ereport_Err lvl m st e : ereport lvl m st = Err e -> raised_inside e.
Proof.
  unfold ereport. destruct lvl; intros H; inversion H; subst; exact I.
Qed.

Lemma complain_Err other d behavior msglevel oktodelete st e :
  complain E other d behavior msglevel oktodelete st = Err e ->
  raised_inside e.
Proof.
  unfold complain, report_depends_on, report_drop_cascades_to, ret.
  intros H. apply bind_Err in H as [H|(a & st1 & _ & H)].
  - by eapply getObjectDescription_Err.
  - destruct (object_address_present other oktodelete).
    + apply bind_Err in H as [H|(? & ? & _ & H)]; [|discriminate].
      by eapply ereport_Err.
    + destruct behavior;
        (apply bind_Err in H as [H|(? & ? & _ & H)]; [|discriminate]).
      * destruct (_ && _); by eapply ereport_Err.
      * destruct (bool_decide _); by eapply ereport_Err.
Qed.

Lemma sever_outgoing_Err d caller scan :
  forall owner st e,
  sever_outgoing E d caller scan owner st = Err e -> raised_inside e.
Proof.
  induction scan as [|i scan IH]; intros owner st e H.
  - discriminate.
  - rewrite sever_outgoing_cons in H.
    destruct (visible_tuple E st i) as [tup|]; [|eauto].
    assert (Hdel :
      (caql_delete_current i ;; sever_outgoing E d caller scan owner) st
        = Err e -> raised_inside e).
    { intros H'. apply bind_Err in H' as [H'|(? & ? & _ & H')];
        [discriminate|eauto]. }
    destruct (deptype tup); auto;
      try (inversion H; subst; exact I).
    destruct caller as [c|].
    + destruct (called_from c (referenced tup)); auto.
      destruct owner; [inversion H; subst; exact I|eauto].
    + apply bind_Err in H as [H|(? & ? & _ & H)].
      * by eapply getObjectDescription_Err.
      * inversion H; subst; exact I.
Qed.

Lemma delete_object_itself_Err object st e :
  delete_object_itself E object st = Err e -> raised_inside e.
Proof.
  unfold delete_object_itself. intros H.
  apply bind_Err in H as [H|(? & ? & _ & H)].
  - unfold doDeletion in H.
    apply bind_Err in H as [H|(oclass & ? & _ & H)].
    + apply lift_Err in H. by eapply getObjectClass_Err.
    + apply bind_Err in H as [H|(? & ? & _ & H)]; [|discriminate].
      unfold doDeletion_dispatch in H.
      destruct oclass; try discriminate;
        try (inversion H; subst; exact I).
      destruct (rel_is_index E (objectId object)).
      * apply bind_Err in H as [H|(? & ? & _ & H)]; [|discriminate].
        apply lift_Err in H. unfold Assert in H.
        destruct (_ && _); inversion H; subst; exact I.
      * destruct (negb _); discriminate.
  - apply bind_Err in H as [H|(? & ? & _ & H)].
    + unfold save_deleted, get_alreadyDeleted, set_alreadyDeleted, bind, ret
        in H.
      destruct (alreadyDeleted _) as [l|];
        [destruct (object_address_present object l)|]; discriminate.
    + apply bind_Err in H as [H|(? & ? & _ & H)]; [discriminate|].
      apply bind_Err in H as [H|(? & ? & _ & H)]; [|discriminate].
      destruct (objectSubId object =? 0)%Z; discriminate.
Qed.

Lemma delete_dependents_Err recurse object d behavior msglevel oktodelete
    scan :
  (forall other caller st e,
      recurse other caller st = Err e -> raised_inside e) ->
  forall ok st e,
  delete_dependents E recurse object d behavior msglevel oktodelete
                    scan ok st = Err e ->
  raised_inside e.
Proof.
  intros Hrec. induction scan as [|i scan IH]; intros ok st e H.
  - discriminate.
  - rewrite delete_dependents_cons in H.
    destruct (visible_tuple E st i) as [tup|]; [|eauto].
    destruct (deptype tup); try (inversion H; subst; exact I).
    + apply bind_Err in H as [H|(? & ? & _ & H)];
        [by eapply complain_Err|].
      apply bind_Err in H as [H|(? & ? & _ & H)]; eauto.
    + apply bind_Err in H as [H|(? & ? & _ & H)];
        [by eapply getObjectDescription_Err|].
      apply bind_Err in H as [H|(? & ? & _ & H)]; [by eapply ereport_Err|].
      apply bind_Err in H as [H|(? & ? & _ & H)]; eauto.
    + apply bind_Err in H as [H|(? & ? & _ & H)];
        [by eapply getObjectDescription_Err|].
      apply bind_Err in H as [H|(? & ? & _ & H)]; [by eapply ereport_Err|].
      apply bind_Err in H as [H|(? & ? & _ & H)]; eauto.
Qed.

Lemma recursiveDeletion_Err fuel :
  forall object behavior msglevel caller oktodelete st e,
  recursiveDeletion E fuel object behavior msglevel caller oktodelete st
    = Err e ->
  raised_inside e.
Proof.
  induction fuel as [|fuel IH];
    intros object behavior msglevel caller oktodelete st e H.
  - discriminate.
  - simpl in H.
    apply bind_Err in H as [H|(d & ? & _ & H)];
      [by eapply getObjectDescription_Err|].
    apply bind_Err in H as [H|(scan & ? & _ & H)]; [discriminate|].
    apply bind_Err in H as [H|(owner & ? & _ & H)];
      [by eapply sever_outgoing_Err|].
    apply bind_Err in H as [H|(? & ? & _ & H)]; [discriminate|].
    destruct owner as [owningObject|].
    + apply bind_Err in H as [H|(? & ? & _ & H)];
        [by eapply complain_Err|].
      apply bind_Err in H as [H|(? & ? & _ & H)]; [eauto|discriminate].
    + apply bind_Err in H as [H|(? & ? & _ & H)].
      * unfold deleteDependentObjects_with in H.
        apply bind_Err in H as [H|(? & ? & _ & H)]; [discriminate|].
        eapply delete_dependents_Err; [|exact H].
        intros other0 caller0 st0 e0 H0. simpl in H0. eapply IH; exact H0.
      * apply bind_Err in H as [H|(? & ? & _ & H)]; [|discriminate].
        by eapply delete_object_itself_Err.
Qed.

Lemma deleteDependentObjects_Err fuel object d behavior msglevel oktodelete
    st e :
  deleteDependentObjects E fuel object d behavior msglevel oktodelete st
    = Err e ->
  raised_inside e.
Proof.
  unfold deleteDependentObjects, deleteDependentObjects_with. intros H.
  apply bind_Err in H as [H|(? & ? & _ & H)]; [discriminate|].
  eapply delete_dependents_Err; [|exact H].
  intros other0 caller0 st0 e0 H0. simpl in H0.
  eapply recursiveDeletion_Err; exact H0.
Qed.

End Step2.

Lemma raised_inside_not_depend e d :
  raised_inside e -> e <> ERR_other_objects_depend d.
Proof. intros H ->. exact H. Qed.

Lemma report_depends_on_not_ERROR (E : Catalog) msglevel other object st :
  msglevel <> ERROR ->
  exists st' lvl,
    report_depends_on E msglevel other object st = Ok (tt, st') /\
    core st' = core st /\
    messages st' = (lvl, MSG_depends_on other object) :: messages st.
Proof.
  intros Hl. unfold report_depends_on. destruct (_ && _).
  - destruct (ereport_not_ERROR DEBUG1 (MSG_depends_on other object) st)
      as (st' & ? & ? & _ & _ & ?); [done|]. eauto 10.
  - destruct (ereport_not_ERROR msglevel (MSG_depends_on other object) st Hl)
      as (st' & ? & ? & _ & _ & ?). eauto 10.
Qed.

(* ===================================================================== *)
(** * Part VII.  The runs of recursiveDeletion that return                *)
(* ===================================================================== *)

Section RunsOfTheEngine.
Context (E : Catalog) (behavior : DropBehavior) (msglevel : elevel)
        (oktodelete : ObjectAddresses).

Lemma delete_dependents_Deletes recurse object d :
  (forall other caller st r st',
      recurse other caller st = Ok (r, st') ->
      Deletes E behavior msglevel oktodelete other caller st r st') ->
  forall scan ok st ok' st',
  delete_dependents E recurse object d behavior msglevel oktodelete
                    scan ok st = Ok (ok', st') ->
  DeletesDependents E behavior msglevel oktodelete object d scan ok st ok' st'.
Proof.
  intros Hrec. induction scan as [|i scan IH]; intros ok st ok' st' H.
  - simpl in H. unfold ret in H. inversion H; subst. constructor.
  - rewrite delete_dependents_cons in H.
    destruct (visible_tuple E st i) as [tup|] eqn:Hv.
    + destruct (deptype tup) eqn:Ht; try discriminate.
      * apply bind_Ok in H as (quiet & st1 & Hquiet & H).
        apply bind_Ok in H as (r & st2 & Hr & H).
        eapply DeletesDependents_normal; eauto.
      * apply bind_Ok in H as (od & st_d & Hd & H).
        apply bind_Ok in H as (u & st1 & Hlog & H).
        apply bind_Ok in H as (r & st2 & Hr & H).
        eapply DeletesDependents_silent; eauto. rewrite Ht. by left.
      * apply bind_Ok in H as (od & st_d & Hd & H).
        apply bind_Ok in H as (u & st1 & Hlog & H).
        apply bind_Ok in H as (r & st2 & Hr & H).
        eapply DeletesDependents_silent; eauto. rewrite Ht. by right.
    + eapply DeletesDependents_skip; eauto.
Qed.

(** Every run of [recursiveDeletion] that returns is a derivation. *)
Lemma recursiveDeletion_Deletes fuel :
  forall object caller st ok st',
  recursiveDeletion E fuel object behavior msglevel caller oktodelete st
    = Ok (ok, st') ->
  Deletes E behavior msglevel oktodelete object caller st ok st'.
Proof.
  induction fuel as [|fuel IH]; intros object caller st ok st' H.
  - discriminate.
  - simpl in H.
    apply bind_Ok in H as (d & st_d & Hd & H).
    apply bind_Ok in H as (scan & st0 & Hscan & H).
    apply bind_Ok in H as (owner & st1 & Hsever & H).
    apply bind_Ok in H as (u & st2 & Hcci & H).
    destruct owner as [owningObject|].
    + apply bind_Ok in H as (quiet & st3 & Hquiet & H).
      apply bind_Ok in H as (r & st4 & Hrec & H).
      unfold ret in H. inversion H; subst.
      eapply Deletes_owner; eauto.
    + apply bind_Ok in H as (ok0 & st4 & Hdeps & H).
      apply bind_Ok in H as (u' & st5 & Hself & H).
      unfold ret in H. inversion H; subst.
      unfold deleteDependentObjects_with in Hdeps.
      apply bind_Ok in Hdeps as (scan' & st3 & Hscan' & Hdeps).
      eapply Deletes_itself; eauto.
      eapply delete_dependents_Deletes; [|exact Hdeps].
      intros other caller0 st6 r st7 Hr. simpl in Hr. by apply IH.
Qed.

Lemma deleteDependentObjects_Deletes fuel object d st ok st' :
  deleteDependentObjects E fuel object d behavior msglevel oktodelete st
    = Ok (ok, st') ->
  exists scan st0,
    caql_beginscan E SCAN_BY_REFERENCE object st = Ok (scan, st0) /\
    DeletesDependents E behavior msglevel oktodelete object d scan true
                      st0 ok st'.
Proof.
  unfold deleteDependentObjects, deleteDependentObjects_with. intros H.
  apply bind_Ok in H as (scan & st0 & Hscan & H).
  exists scan, st0. split; [done|].
  eapply delete_dependents_Deletes; [|exact H].
  intros other caller0 st1 r st2 Hr. simpl in Hr.
  by eapply recursiveDeletion_Deletes.
Qed.

End RunsOfTheEngine.

(* ===================================================================== *)
(** * Part VIII.  What every run preserves; PIN entries                   *)
(* ===================================================================== *)

Section Frame.
Context (E : Catalog).

Lemma elem_of_tuples_of key object i :
  i ∈ tuples_of E key object <->
  exists tup, pg_depend E !! i = Some tup /\
              scan_matches key object tup = true.
Proof.
  unfold tuples_of. rewrite elem_of_list_to_set.
  apply elem_of_matching_tuples.
Qed.

(** Step 1 as a whole: the scan of the outgoing tuples, then
    [CommandCounterIncrement]. *)
Lemma step1_Ok object d caller st scan st0 owner st1 u st2 :
  caql_beginscan E SCAN_BY_DEPENDER object st = Ok (scan, st0) ->
  sever_outgoing E d caller scan None st0 = Ok (owner, st1) ->
  CommandCounterIncrement st1 = Ok (u, st2) ->
  pending st = ∅ ->
  pending st2 = ∅ /\ dropped st2 = dropped st /\ scans st2 = S (scans st) /\
  dead st ⊆ dead st2 /\
  (forall i, i ∈ dead st2 ->
     i ∈ dead st \/
     (i ∈ tuples_of E SCAN_BY_DEPENDER object /\
      exists tup, pg_depend E !! i = Some tup /\
                  deletable_deptype (deptype tup))) /\
  (owner = None -> tuples_of E SCAN_BY_DEPENDER object ⊆ dead st2).
Proof.
  intros Hscan Hsever Hcci Hp.
  pose proof (fun i => elem_of_scan E _ _ _ _ _ i Hscan) as Hin.
  apply caql_beginscan_Ok in Hscan as (_ & Hd0 & Hp0 & Hdr0 & Hs0 & _).
  pose proof (sever_outgoing_frame E _ _ _ _ _ _ _ Hsever)
    as (Hd1 & Hdr1 & Hs1 & Hp1).
  apply CommandCounterIncrement_Ok in Hcci as (Hd2 & Hp2 & Hdr2 & Hs2 & _).
  split; [done|]. split; [congruence|]. split; [congruence|].
  split; [rewrite Hd2, Hd1, Hd0; set_solver|]. split.
  - intros i Hi. rewrite Hd2, Hd1, Hd0 in Hi.
    apply elem_of_union in Hi as [Hi|Hi]; [|by left].
    eapply sever_outgoing_deleted in Hi as [Hi|(Hi & tup & Hv & Ht)];
      [| |exact Hsever].
    + rewrite Hp0, Hp in Hi. set_solver.
    + right. apply visible_tuple_Some in Hv as [_ Hv]. split.
      * apply elem_of_tuples_of. by apply Hin.
      * eauto.
  - intros ->. intros i Hi. apply elem_of_tuples_of in Hi as (tup & Hi & Hm).
    rewrite Hd2, Hd1, Hd0.
    destruct (decide (i ∈ dead st)) as [?|Hn]; [set_solver|].
    apply elem_of_union_l.
    destruct (sever_outgoing_not_owned E _ _ _ _ _ _ Hsever) as [_ Hall].
    apply (Hall i tup).
    + apply Hin. eauto.
    + apply visible_tuple_Some. by rewrite Hd0.
Qed.

Lemma visible_tuple_mono st st' i tup :
  dead st ⊆ dead st' ->
  visible_tuple E st' i = Some tup -> visible_tuple E st i = Some tup.
Proof.
  rewrite !visible_tuple_Some. intros Hsub [Hn Hi]. split; [|done].
  intros Hd. by apply Hn, Hsub.
Qed.

Context (behavior : DropBehavior) (msglevel : elevel)
        (oktodelete : ObjectAddresses).

(** Every run that returns leaves no deletion pending, only adds to
    [dead] and to [dropped], deletes only NORMAL, AUTO and INTERNAL
    tuples, and has found dead every PIN entry for the objects it
    dropped. *)
Lemma Deletes_frame :
  (forall object caller st ok st',
      Deletes E behavior msglevel oktodelete object caller st ok st' ->
      pending st = ∅ ->
      pending st' = ∅ /\ dead st ⊆ dead st' /\ scans st <= scans st' /\
      (forall i, i ∈ dead st' ->
         i ∈ dead st \/
         exists tup, pg_depend E !! i = Some tup /\
                     deletable_deptype (deptype tup)) /\
      exists new,
        drops st st' new /\
        forall x i tup,
          x ∈ new -> pg_depend E !! i = Some tup ->
          deptype tup = DEPENDENCY_PIN ->
          reference_matches x tup = true -> i ∈ dead st') /\
  (forall object d scan ok st ok' st',
      DeletesDependents E behavior msglevel oktodelete object d scan ok st
                        ok' st' ->
      pending st = ∅ ->
      pending st' = ∅ /\ dead st ⊆ dead st' /\ scans st <= scans st' /\
      (forall i, i ∈ dead st' ->
         i ∈ dead st \/
         exists tup, pg_depend E !! i = Some tup /\
                     deletable_deptype (deptype tup)) /\
      (forall i tup,
          i ∈ scan -> pg_depend E !! i = Some tup ->
          deptype tup = DEPENDENCY_PIN -> i ∈ dead st') /\
      exists new,
        drops st st' new /\
        forall x i tup,
          x ∈ new -> pg_depend E !! i = Some tup ->
          deptype tup = DEPENDENCY_PIN ->
          reference_matches x tup = true -> i ∈ dead st').
Proof.
  apply Deletes_mutind.
  - (* owner *)
    intros object caller st d sd scan st0 owningObject st1 u st2 quiet st3 r
           st4 Hd Hscan Hsever Hcci Hquiet _ IH Hp.
    described Hd.
    destruct (step1_Ok _ _ _ _ _ _ _ _ _ _ Hscan Hsever Hcci Hp)
      as (Hp2 & Hdr2 & Hs2 & Hsub2 & Hnew2 & _).
    past_descriptions.
    apply complain_Ok in Hquiet as (Hcore & _).
    apply core_eq in Hcore as (Hd3 & Hp3 & Hdr3 & Hs3).
    destruct IH as (Hp4 & Hsub4 & Hs4 & Hnew4 & new & Hdrops & Hpin);
      [congruence|].
    split; [done|]. split; [rewrite Hd3 in Hsub4; set_solver|].
    split; [lia|]. split.
    + intros i Hi. apply Hnew4 in Hi as [Hi|?]; [|by right].
      rewrite Hd3 in Hi. apply Hnew2 in Hi as [?|(_ & ?)]; auto.
    + exists new. split; [|done]. unfold drops in *. congruence.
  - (* itself *)
    intros object caller st d sd scan st0 st1 u st2 scan' st3 ok st4 u' st5
           Hd Hscan Hsever Hcci Hscan' _ IH Hself Hp.
    described Hd.
    destruct (step1_Ok _ _ _ _ _ _ _ _ _ _ Hscan Hsever Hcci Hp)
      as (Hp2 & Hdr2 & Hs2 & Hsub2 & Hnew2 & _).
    past_descriptions.
    pose proof (fun i => elem_of_scan E _ _ _ _ _ i Hscan') as Hin.
    apply caql_beginscan_Ok in Hscan' as (_ & Hd3 & Hp3 & Hdr3 & Hs3 & _).
    destruct IH as (Hp4 & Hsub4 & Hs4 & Hnew4 & Hpins & new & Hdrops & Hpin);
      [congruence|].
    apply delete_object_itself_Ok in Hself as (Hd5 & Hp5 & Hdr5 & Hs5).
    rewrite Hp4 in Hd5. rewrite union_empty_l_L in Hd5.
    split; [done|]. split; [rewrite Hd5; rewrite Hd3 in Hsub4; set_solver|].
    split; [lia|]. split.
    + intros i Hi. rewrite Hd5 in Hi. apply Hnew4 in Hi as [Hi|?]; [|by right].
      rewrite Hd3 in Hi. apply Hnew2 in Hi as [?|(_ & ?)]; auto.
    + exists (object :: new). split.
      * unfold drops in *. rewrite Hdr5, Hdrops. simpl. congruence.
      * intros x i tup Hx Hi Ht Hm. rewrite Hd5.
        apply elem_of_cons in Hx as [->|Hx]; [|eauto].
        eapply Hpins; eauto. apply Hin. eauto.
  - (* done *)
    intros object d ok st Hp. repeat split; auto.
    + intros i tup Hi. by apply elem_of_nil in Hi.
    + exists []. split; [done|]. intros x i tup Hx. by apply elem_of_nil in Hx.
  - (* skip *)
    intros object d i scan ok st ok' st' Hv _ IH Hp.
    destruct (IH Hp) as (Hp' & Hsub & Hs & Hnew & Hpins & new & Hdrops & Hpin).
    repeat split; auto.
    + intros j tup Hj Hjt Ht. apply elem_of_cons in Hj as [->|Hj]; [|eauto].
      apply visible_tuple_None in Hv as [Hv|Hv]; [auto|congruence].
    + eauto.
  - (* normal *)
    intros object d i scan ok st tup quiet st1 r st2 ok' st'
           Hv Ht Hquiet _ IH1 _ IH2 Hp.
    apply complain_Ok in Hquiet as (Hcore & _).
    apply core_eq in Hcore as (Hd1 & Hp1 & Hdr1 & Hs1).
    destruct IH1 as (Hp2 & Hsub2 & Hs2 & Hnew2 & new1 & Hdrops1 & Hpin1);
      [congruence|].
    destruct (IH2 Hp2)
      as (Hp' & Hsub' & Hs' & Hnew' & Hpins & new2 & Hdrops2 & Hpin2).
    split; [done|]. split; [rewrite Hd1 in Hsub2; set_solver|].
    split; [lia|]. split; [|split].
    + intros j Hj. apply Hnew' in Hj as [Hj|?]; [|by right].
      apply Hnew2 in Hj as [Hj|?]; [|by right]. rewrite Hd1 in Hj. by left.
    + intros j tup' Hj Hjt Ht'. apply elem_of_cons in Hj as [->|Hj]; [|eauto].
      apply visible_tuple_Some in Hv as [_ Hv]. congruence.
    + exists (new2 ++ new1). split.
      * unfold drops in *. rewrite Hdrops2, Hdrops1, Hdr1. by rewrite app_assoc.
      * intros x j tup' Hx. apply elem_of_app in Hx as [Hx|Hx]; [eauto|].
        intros. apply Hsub'. eauto.
  - (* silent *)
    intros object d i scan ok st tup od sd u st1 r st2 ok' st'
           Hv Ht Hod Hlog _ IH1 _ IH2 Hp.
    described Hod.
    apply ereport_Ok in Hlog as (_ & Hcore & _).
    apply core_eq in Hcore as (Hd1 & Hp1 & Hdr1 & Hs1).
    past_descriptions.
    destruct IH1 as (Hp2 & Hsub2 & Hs2 & Hnew2 & new1 & Hdrops1 & Hpin1);
      [congruence|].
    destruct (IH2 Hp2)
      as (Hp' & Hsub' & Hs' & Hnew' & Hpins & new2 & Hdrops2 & Hpin2).
    split; [done|]. split; [rewrite Hd1 in Hsub2; set_solver|].
    split; [lia|]. split; [|split].
    + intros j Hj. apply Hnew' in Hj as [Hj|?]; [|by right].
      apply Hnew2 in Hj as [Hj|?]; [|by right]. rewrite Hd1 in Hj. by left.
    + intros j tup' Hj Hjt Ht'. apply elem_of_cons in Hj as [->|Hj]; [|eauto].
      apply visible_tuple_Some in Hv as [_ Hv].
      destruct Ht; congruence.
    + exists (new2 ++ new1). split.
      * unfold drops in *. rewrite Hdrops2, Hdrops1, Hdr1. by rewrite app_assoc.
      * intros x j tup' Hx. apply elem_of_app in Hx as [Hx|Hx]; [eauto|].
        intros. apply Hsub'. eauto.
Qed.

End Frame.

(* ===================================================================== *)
(** * Part IX.  The pre-scan findAutoDeletableObjects                     *)
(* ===================================================================== *)

Section PreScan.
Context (E : Catalog).

Lemma find_auto_scan_cons recurse object i scan oktodelete st :
  find_auto_scan E recurse object (i :: scan) oktodelete st =
  match visible_tuple E st i with
  | None => find_auto_scan E recurse object scan oktodelete st
  | Some foundDep =>
      match deptype foundDep with
      | DEPENDENCY_NORMAL =>
          find_auto_scan E recurse object scan oktodelete st
      | DEPENDENCY_AUTO | DEPENDENCY_INTERNAL =>
          (oktodelete' <- recurse (depender foundDep) oktodelete ;;
           find_auto_scan E recurse object scan oktodelete') st
      | DEPENDENCY_PIN =>
          (objDescription <- getObjectDescription E object ;;
           raise (ERR_required_by_system objDescription)) st
      | DEPENDENCY_unrecognized tag =>
          (objDescription <- getObjectDescription E object ;;
           raise (ERR_unrecognized_deptype tag objDescription)) st
      end
  end.
Proof.
  simpl. unfold bind at 1. unfold caql_getnext.
  destruct (visible_tuple E st i) as [foundDep|]; [|done].
  by destruct (deptype foundDep).
Qed.

Lemma auto_reaches_trans D x y z :
  auto_reaches E D x y -> auto_reaches E D y z -> auto_reaches E D x z.
Proof.
  intros Hxy Hyz. induction Hyz; [done|]. eapply auto_reaches_step; eauto.
Qed.

Lemma auto_reaches_reaches D x y : auto_reaches E D x y -> reaches E D x y.
Proof. induction 1; [constructor|]. eapply reaches_step; eauto. Qed.

Lemma reaches_trans D x y z :
  reaches E D x y -> reaches E D y z -> reaches E D x z.
Proof.
  intros Hxy Hyz. induction Hyz; [done|]. eapply reaches_step; eauto.
Qed.

Lemma reaches_mono D D' x y :
  D ⊆ D' -> reaches E D' x y -> reaches E D x y.
Proof.
  intros Hsub. induction 1; [constructor|].
  eapply reaches_step; eauto.
Qed.

Lemma silent_dependents_present_mono D okt okt' z :
  okt ⊆ okt' ->
  silent_dependents_present E D okt z -> silent_dependents_present E D okt' z.
Proof.
  intros Hsub Hz i tup Hi Hn Hm Ht. eapply present_mono; eauto.
Qed.

Lemma is_pinned_same_dead st st' z :
  dead st' = dead st -> is_pinned E st' z <-> is_pinned E st z.
Proof.
  intros Hd. unfold is_pinned.
  split; intros (i & tup & Hv & H); exists i, tup;
    (split; [|done]); [rewrite <- Hv|rewrite <- Hv];
    [symmetry|]; by apply visible_tuple_same_dead.
Qed.

Lemma find_auto_scan_post recurse object :
  (forall other okt st okt' st',
      recurse other okt st = Ok (okt', st') ->
      prescan_post E other okt st okt' st' /\
      object_address_present other okt' = true) ->
  forall scan okt st okt' st',
  (forall i, i ∈ scan ->
     exists tup, pg_depend E !! i = Some tup /\
                 reference_matches object tup = true) ->
  find_auto_scan E recurse object scan okt st = Ok (okt', st') ->
  prescan_post E object okt st okt' st' /\
  (forall i tup, i ∈ scan -> visible_tuple E st i = Some tup ->
     deptype tup <> DEPENDENCY_PIN /\
     (silent_deptype (deptype tup) ->
      object_address_present (depender tup) okt' = true)).
Proof.
  intros Hrec. induction scan as [|i scan IH]; intros okt st okt' st' Hin H.
  - simpl in H. unfold ret in H. inversion H; subst. split.
    + repeat split; auto. exists []. rewrite app_nil_r.
      repeat split; auto; intros z Hz; by apply elem_of_nil in Hz.
    + intros i tup Hi. by apply elem_of_nil in Hi.
  - rewrite find_auto_scan_cons in H.
    assert (Hin' : forall j, j ∈ scan ->
               exists tup, pg_depend E !! j = Some tup /\
                           reference_matches object tup = true).
    { intros j Hj. apply Hin. by right. }
    assert (Hsame :
      find_auto_scan E recurse object scan okt st = Ok (okt', st') ->
      (forall tup, visible_tuple E st i = Some tup ->
                   deptype tup = DEPENDENCY_NORMAL) ->
      prescan_post E object okt st okt' st' /\
      (forall j tup, j ∈ i :: scan -> visible_tuple E st j = Some tup ->
         deptype tup <> DEPENDENCY_PIN /\
         (silent_deptype (deptype tup) ->
          object_address_present (depender tup) okt' = true))).
    { intros H' Hn. destruct (IH _ _ _ _ Hin' H') as [Hpost Hall].
      split; [done|]. intros j tup Hj Hv.
      apply elem_of_cons in Hj as [->|Hj]; [|eauto].
      rewrite (Hn _ Hv). split; [done|]. intros [?|?]; discriminate. }
    assert (Hsilent : forall tup,
      visible_tuple E st i = Some tup -> silent_deptype (deptype tup) ->
      (oktodelete' <- recurse (depender tup) okt ;;
       find_auto_scan E recurse object scan oktodelete') st = Ok (okt', st') ->
      prescan_post E object okt st okt' st' /\
      (forall j tup, j ∈ i :: scan -> visible_tuple E st j = Some tup ->
         deptype tup <> DEPENDENCY_PIN /\
         (silent_deptype (deptype tup) ->
          object_address_present (depender tup) okt' = true))).
    { intros tup Hv Ht H'.
      apply bind_Ok in H' as (okt1 & st1 & Hr & H').
      apply Hrec in Hr
        as [(Hd1 & Hp1 & Hdr1 & Had1 & Hs1 & added1 & -> & Hreach1 & Hcl1 & Hpin1)
            Hpres1].
      destruct (IH _ _ _ _ Hin' H')
        as [(Hd2 & Hp2 & Hdr2 & Had2 & Hs2 & added2 & -> & Hreach2 & Hcl2 & Hpin2)
            Hall].
      destruct (Hin i) as (tup' & Hi & Hm); [by left|].
      pose proof Hv as [Hnd Hi']%visible_tuple_Some.
      assert (tup' = tup) as -> by congruence.
      assert (Hstep : auto_reaches E (dead st) object (depender tup)).
      { eapply auto_reaches_step; eauto. constructor. }
      split.
      - split; [congruence|]. split; [congruence|]. split; [congruence|].
        split; [congruence|]. split; [lia|].
        exists (added1 ++ added2). split; [by rewrite app_assoc|].
        split; [|split].
        + intros z Hz. apply elem_of_app in Hz as [Hz|Hz].
          * eapply auto_reaches_trans; eauto.
          * rewrite <- Hd1. auto.
        + intros z Hz. apply elem_of_app in Hz as [Hz|Hz].
          * eapply silent_dependents_present_mono; [|eauto].
            apply sublist_subseteq, sublist_inserts_r. done.
          * rewrite <- Hd1. auto.
        + intros z Hz. apply elem_of_app in Hz as [Hz|Hz]; [auto|].
          rewrite <- (is_pinned_same_dead st st1 z Hd1). auto.
      - intros j tupj Hj Hvj. apply elem_of_cons in Hj as [->|Hj].
        + assert (tupj = tup) as -> by congruence. split.
          * destruct Ht as [Ht|Ht]; rewrite Ht; discriminate.
          * intros _. eapply present_mono; [|exact Hpres1].
            apply sublist_subseteq, sublist_inserts_r. done.
        + eapply Hall; eauto.
          by rewrite (visible_tuple_same_dead E st st1 j Hd1). }
    destruct (visible_tuple E st i) as [tup|] eqn:Hv.
    + destruct (deptype tup) eqn:Ht.
      * apply Hsame; [done|]. intros tup' Heq. congruence.
      * apply (Hsilent tup); [done| |done]. rewrite Ht. by left.
      * apply (Hsilent tup); [done| |done]. rewrite Ht. by right.
      * apply bind_Ok in H as (? & ? & _ & H). discriminate.
      * apply bind_Ok in H as (? & ? & _ & H). discriminate.
    + apply Hsame; [done|]. intros tup' Heq. discriminate.
Qed.

Lemma findAutoDeletableObjects_post fuel :
  forall object okt addself st okt' st',
  findAutoDeletableObjects E fuel object okt addself st = Ok (okt', st') ->
  prescan_post E object okt st okt' st' /\
  (addself = true -> object_address_present object okt' = true) /\
  (object_address_present object okt = false ->
   silent_dependents_present E (dead st) okt' object /\
   ~ is_pinned E st object).
Proof.
  induction fuel as [|fuel IH]; intros object okt addself st okt' st' H.
  - discriminate.
  - simpl in H. destruct (object_address_present object okt) eqn:Hp.
    + unfold ret in H. inversion H; subst. split; [|split].
      * repeat split; auto. exists []. rewrite app_nil_r.
        repeat split; auto; intros z Hz; by apply elem_of_nil in Hz.
      * done.
      * discriminate.
    + apply bind_Ok in H as (scan & st0 & Hscan & H).
      pose proof (fun i => elem_of_scan E _ _ _ _ _ i Hscan) as Hin.
      apply caql_beginscan_Ok in Hscan as (_ & Hd0 & Hp0 & Hdr0 & Hs0 & _ & Had0 & _).
      eapply find_auto_scan_post in H
        as [(Hd1 & Hp1 & Hdr1 & Had1 & Hs1 & added & -> & Hreach & Hcl & Hpin)
            Hall].
      2:{ intros other okt1 st1 okt2 st2 Hr. apply IH in Hr as (? & Hs & _).
          split; [done|]. by apply Hs. }
      2:{ intros i Hi. by apply Hin. }
      assert (Hobj : silent_dependents_present E (dead st)
                       ((if addself then add_exact_object_address object okt
                         else okt) ++ added) object).
      { intros i tup Hi Hn Hm Ht.
        apply (Hall i tup); [apply Hin; eauto| |done].
        apply visible_tuple_Some. by rewrite Hd0. }
      assert (Hnp : ~ is_pinned E st object).
      { intros (i & tup & Hv & Ht & Hm).
        destruct (Hall i tup) as [Hne _]; [| |done].
        - apply Hin. apply visible_tuple_Some in Hv as [_ Hv]. eauto.
        - by rewrite (visible_tuple_same_dead E st st0 i Hd0). }
      split; [|split; [|done]].
      * split; [congruence|]. split; [congruence|]. split; [congruence|].
        split; [congruence|]. split; [lia|].
        rewrite Hd0 in Hreach, Hcl.
        destruct addself.
        -- exists (object :: added). unfold add_exact_object_address in *.
           split; [by rewrite <- app_assoc|]. split; [|split].
           ++ intros z Hz. apply elem_of_cons in Hz as [->|Hz];
                [constructor|auto].
           ++ intros z Hz. apply elem_of_cons in Hz as [->|Hz]; [|auto].
              rewrite <- app_assoc. simpl. rewrite <- app_assoc in Hobj. done.
           ++ intros z Hz. apply elem_of_cons in Hz as [->|Hz]; [done|].
              rewrite <- (is_pinned_same_dead st st0 z Hd0). auto.
        -- exists added. split; [done|]. split; [done|]. split; [done|].
           intros z Hz. rewrite <- (is_pinned_same_dead st st0 z Hd0). auto.
      * intros ->. apply present_exact. unfold add_exact_object_address.
        apply elem_of_app. left. apply elem_of_app. right. by left.
Qed.

End PreScan.

(* ===================================================================== *)
(** * Part X.  PIN entries                                                *)
(* ===================================================================== *)

Section Pin.
Context (E : Catalog).

(** With only NORMAL and PIN tuples in its way, the pre-scan of a pinned
    object ends in the PIN error. *)
Lemma find_auto_scan_pinned recurse object d scan sa sb :
  getObjectDescription E object sa = Ok (d, sb) ->
  forall okt st,
  (exists i tup, i ∈ scan /\ visible_tuple E st i = Some tup /\
                 deptype tup = DEPENDENCY_PIN) ->
  (forall i tup, i ∈ scan -> visible_tuple E st i = Some tup ->
     deptype tup = DEPENDENCY_NORMAL \/ deptype tup = DEPENDENCY_PIN) ->
  find_auto_scan E recurse object scan okt st = Err (ERR_required_by_system d).
Proof.
  intros Hd. induction scan as [|j scan IH]; intros okt st Hpin Hall.
  - destruct Hpin as (i & tup & Hi & _). by apply elem_of_nil in Hi.
  - rewrite find_auto_scan_cons.
    assert (Hrest : visible_tuple E st j = None \/
                    (exists tup, visible_tuple E st j = Some tup /\
                                 deptype tup = DEPENDENCY_NORMAL) ->
            find_auto_scan E recurse object scan okt st
              = Err (ERR_required_by_system d)).
    { intros Hj. apply IH.
      - destruct Hpin as (i & tup & Hi & Hv & Ht).
        apply elem_of_cons in Hi as [->|Hi]; [|eauto].
        destruct Hj as [Hj|(tup' & Hj & Ht')]; congruence.
      - intros i tup Hi. apply Hall. by right. }
    destruct (visible_tuple E st j) as [tup|] eqn:Hv; [|auto].
    destruct (Hall j tup) as [Ht|Ht]; [by left|done| |]; rewrite Ht.
    + apply Hrest. eauto.
    + unfold bind, raise.
      by rewrite (getObjectDescription_anywhere E _ _ _ _ st Hd).
Qed.

Lemma performDeletion_Ok fuel object behavior st u st' :
  performDeletion E fuel object behavior st = Ok (u, st') ->
  exists d st0 okt st1 st2,
    getObjectDescription E object st = Ok (d, st0) /\
    findAutoDeletableObjects E fuel object new_object_addresses true st0
      = Ok (okt, st1) /\
    set_alreadyDeleted None st1 = Ok (tt, st2) /\
    recursiveDeletion E fuel object behavior NOTICE None okt st2
      = Ok (true, st').
Proof.
  unfold performDeletion. intros H.
  apply bind_Ok in H as (d & st_d & Hd & H).
  apply bind_Ok in H as (okt & st1 & Hfind & H).
  apply bind_Ok in H as ([] & st2 & Hset & H).
  apply bind_Ok in H as (ok & st3 & Hrec & H).
  destruct ok; [|discriminate]. unfold ret in H. inversion H; subst.
  eauto 10.
Qed.

Lemma set_alreadyDeleted_Ok l st u st' :
  set_alreadyDeleted l st = Ok (u, st') ->
  core st' = core st /\ alreadyDeleted st' = l.
Proof. unfold set_alreadyDeleted. intros H; inversion H; subst; done. Qed.

End Pin.

(** C3 (as amended).  PIN entries block deletion, for every drop
    behaviour, CASCADE included.
    (1) The pre-scan [findAutoDeletableObjects] and the scan of
        [deleteDependentObjects] raise DependentObjectsStillExist
        "cannot drop .. because it is required by the database system" as
        soon as they meet a visible PIN entry.
    (2) [performDeletion] of a pinned object never returns, and raises
        that error when the pinned object has only NORMAL dependents.
    (3) No run of [performDeletion] that returns has dropped an object
        that a PIN entry references. *)
Theorem pin_entries_block_deletion (E : Catalog) (st : DB) :
  pending st = ∅ ->
  (forall recurse object i scan okt tup d st0,
      visible_tuple E st i = Some tup -> deptype tup = DEPENDENCY_PIN ->
      getObjectDescription E object st = Ok (d, st0) ->
      find_auto_scan E recurse object (i :: scan) okt st
        = Err (ERR_required_by_system d)) /\
  (forall recurse object d behavior msglevel okt i scan ok tup,
      visible_tuple E st i = Some tup -> deptype tup = DEPENDENCY_PIN ->
      delete_dependents E recurse object d behavior msglevel okt
                        (i :: scan) ok st
        = Err (ERR_required_by_system d)) /\
  (forall d,
      errcode (ERR_required_by_system d)
        = ERRCODE_DEPENDENT_OBJECTS_STILL_EXIST) /\
  (forall fuel object behavior r,
      is_pinned E st object ->
      performDeletion E fuel object behavior st <> Ok r) /\
  (forall fuel object behavior d st0,
      is_pinned E st object ->
      getObjectDescription E object st = Ok (d, st0) ->
      (forall i tup,
          visible_tuple E st i = Some tup ->
          reference_matches object tup = true ->
          deptype tup = DEPENDENCY_NORMAL \/ deptype tup = DEPENDENCY_PIN) ->
      performDeletion E (S fuel) object behavior st
        = Err (ERR_required_by_system d)) /\
  (forall fuel object behavior u st',
      performDeletion E fuel object behavior st = Ok (u, st') ->
      exists new,
        drops st st' new /\ forall x, x ∈ new -> ~ is_pinned E st x).
Proof.
  intros Hp. split; [|split; [|split; [|split; [|split]]]].
  - intros recurse object i scan okt tup d st0 Hv Ht Hd.
    rewrite find_auto_scan_cons, Hv, Ht. unfold bind, raise.
    by rewrite Hd.
  - intros recurse object d behavior msglevel okt i scan ok tup Hv Ht.
    by rewrite delete_dependents_cons, Hv, Ht.
  - done.
  - intros fuel object behavior [u st'] Hpin H.
    apply performDeletion_Ok in H
      as (d & st0 & okt & st1 & st2 & Hd & Hfind & _).
    described Hd.
    apply findAutoDeletableObjects_post in Hfind as (_ & _ & Hnp).
    by destruct Hnp as [_ Hnp].
  - intros fuel object behavior d sd (i & tup & Hv & Ht & Hm) Hd Hall.
    unfold performDeletion.
    erewrite bind_of_Ok by exact Hd.
    unfold bind at 1.
    replace (findAutoDeletableObjects E (S fuel) object new_object_addresses
                                      true sd)
      with (@Err (ObjectAddresses * DB) (ERR_required_by_system d)); [done|].
    symmetry. simpl. unfold bind at 1.
    destruct (caql_beginscan E SCAN_BY_REFERENCE object sd)
      as [[scan st0]| |] eqn:Hscan; try discriminate.
    pose proof (fun i => elem_of_scan E _ _ _ _ _ i Hscan) as Hin.
    apply caql_beginscan_Ok in Hscan as (_ & Hd0 & _).
    pose proof Hd as Hd'. described Hd'. past_descriptions.
    eapply find_auto_scan_pinned; [exact Hd| |].
    + exists i, tup. split; [|split; [|done]].
      * apply Hin. apply visible_tuple_Some in Hv as [_ Hv]. eauto.
      * by rewrite (visible_tuple_same_dead E st st0 i Hd0).
    + intros j tupj Hj Hvj.
      rewrite (visible_tuple_same_dead E st st0 j Hd0) in Hvj.
      apply (Hall j tupj Hvj). apply Hin in Hj as (tup' & Hj & Hm').
      apply visible_tuple_Some in Hvj as [_ Hvj].
      assert (tup' = tupj) as -> by congruence. exact Hm'.
  - intros fuel object behavior u st' H.
    apply performDeletion_Ok in H
      as (d & st0 & okt & st1 & st2 & Hd & Hfind & Hset & Hrec).
    described Hd.
    apply findAutoDeletableObjects_post in Hfind
      as ((Hd1 & Hp1 & Hdr1 & _) & _).
    past_descriptions.
    apply set_alreadyDeleted_Ok in Hset as [Hcore _].
    apply core_eq in Hcore as (Hd2 & Hp2 & Hdr2 & _).
    apply recursiveDeletion_Deletes in Hrec.
    apply Deletes_frame in Hrec
      as (_ & _ & _ & Hnew & new & Hdrops & Hpin); [|congruence].
    exists new. split; [unfold drops in *; congruence|].
    intros x Hx (i & tup & Hv & Ht & Hm).
    apply visible_tuple_Some in Hv as [Hnd Hi].
    destruct (Hnew i) as [Hi'|(tup' & Hi' & Hdel)].
    + eapply Hpin; eauto.
    + apply Hnd. congruence.
    + assert (tup' = tup) as -> by congruence.
      destruct Hdel as [?|[?|?]]; congruence.
Qed.

(** Scenario 5: [performDeletion(int4, CASCADE)] is refused. *)
Lemma pin_entries_block_deletion_witness :
  pending initial_DB = ∅ /\
  is_pinned pinned_type_catalog initial_DB (type 23) /\
  forall fuel,
    performDeletion pinned_type_catalog (S fuel) (type 23) DROP_CASCADE
                    initial_DB
    = Err (ERR_required_by_system (Describe OCLASS_TYPE (type 23))).
Proof.
  assert (Hpin : is_pinned pinned_type_catalog initial_DB (type 23)).
  { exists 0, (pinned (type 23)). split; [reflexivity|]. split; reflexivity. }
  split; [reflexivity|]. split; [exact Hpin|]. intros fuel.
  apply (proj1 (proj2 (proj2 (proj2 (proj2
           (pin_entries_block_deletion pinned_type_catalog initial_DB
                                       eq_refl)))))
         fuel (type 23) DROP_CASCADE (Describe OCLASS_TYPE (type 23))
         initial_DB Hpin eq_refl).
  intros i tup Hv Hm.
  destruct i as [|[|i]]; vm_compute in Hv; inversion Hv; subst; auto.
Defined.

(** The claim as stated fails: function 3001 is pinned and depends on
    table 16400, so a PIN entry is reachable from the target, but dropping
    the table with CASCADE raises "cannot drop .. because .. requires it"
    (the table backs composite type 16402), not "required by the database
    system". *)
Lemma pin_reachable_but_other_error :
  reaches pinned_dependent_catalog ∅ (table 16400) (function 3001) /\
  is_pinned pinned_dependent_catalog initial_DB (function 3001) /\
  forall fuel,
    performDeletion pinned_dependent_catalog (S fuel) (table 16400)
                    DROP_CASCADE initial_DB
    = Err (ERR_requires_it (Describe OCLASS_CLASS (table 16400))
                           (Describe OCLASS_TYPE (type 16402))) /\
    forall d,
      performDeletion pinned_dependent_catalog (S fuel) (table 16400)
                      DROP_CASCADE initial_DB
      <> Err (ERR_required_by_system d).
Proof.
  split; [|split].
  - apply (reaches_step pinned_dependent_catalog ∅ (table 16400)
             (table 16400) 1
             (depends_on (function 3001) (table 16400) DEPENDENCY_NORMAL));
      [constructor|reflexivity|set_solver|reflexivity].
  - exists 2, (pinned (function 3001)).
    split; [reflexivity|]. split; reflexivity.
  - intros fuel.
    assert (Hrun :
      performDeletion pinned_dependent_catalog (S fuel) (table 16400)
                      DROP_CASCADE initial_DB
      = Err (ERR_requires_it (Describe OCLASS_CLASS (table 16400))
                             (Describe OCLASS_TYPE (type 16402)))).
    { vm_compute. reflexivity. }
    split; [exact Hrun|]. intros d. rewrite Hrun. discriminate.
Qed.

(* ===================================================================== *)
(** * Part XI.  Termination                                               *)
(* ===================================================================== *)

Section NoRedirection.
Context (E : Catalog).

(** If step 1 ends owned, it met an INTERNAL tuple that does not lead
    back to the caller. *)
Lemma sever_outgoing_owner_source d caller scan :
  forall owner st o st',
  sever_outgoing E d caller scan owner st = Ok (Some o, st') ->
  owner = Some o \/
  exists j tj c,
    j ∈ scan /\ pg_depend E !! j = Some tj /\
    deptype tj = DEPENDENCY_INTERNAL /\ caller = Some c /\
    called_from c (referenced tj) = false.
Proof.
  induction scan as [|i scan IH]; intros owner st o st' H.
  - simpl in H. unfold ret in H. inversion H. by left.
  - apply sever_outgoing_cons_Ok in H
      as [[_ H]|[(tup & st1 & _ & _ & _ & H)|(tup & c & Hv & Ht & Hc & Hcf & _ & H)]].
    + apply IH in H as [?|(j & tj & c & Hj & ?)]; [by left|].
      right. exists j, tj, c. split; [by right|done].
    + apply IH in H as [?|(j & tj & c & Hj & ?)]; [by left|].
      right. exists j, tj, c. split; [by right|done].
    + right. exists i, tup, c. apply visible_tuple_Some in Hv as [_ Hv].
      split; [by left|done].
Qed.

(** When INTERNAL dependents depend on nothing but their owner, a call
    that comes from the scan of the caller's incoming tuples is never
    redirected to an owner. *)
Lemma no_redirection d caller object scan st owner st' :
  internal_dependents_exclusive E ->
  arrives E caller object ->
  (forall i, i ∈ scan ->
     exists tup, pg_depend E !! i = Some tup /\
                 depender_matches object tup = true) ->
  sever_outgoing E d caller scan None st = Ok (owner, st') ->
  owner = None.
Proof.
  intros Hex Harr Hin H. destruct owner as [o|]; [exfalso|done].
  apply sever_outgoing_owner_source in H
    as [?|(j & tj & c & Hj & Htj & Ht & -> & Hcf)]; [discriminate|].
  destruct Harr as (i & ti & Hti & Hdep & Hm).
  destruct (Hin j Hj) as (tj' & Htj' & Hmj).
  assert (tj' = tj) as -> by congruence.
  apply depender_matches_covers in Hmj as (Hc & Ho & _).
  assert (j = i) as ->.
  { apply (Hex j i tj ti); auto.
    - rewrite <- Hdep in Hc. simpl in Hc. congruence.
    - rewrite <- Hdep in Ho. simpl in Ho. congruence. }
  assert (ti = tj) as -> by congruence.
  apply reference_matches_covers, called_from_covers in Hm. congruence.
Qed.

End NoRedirection.

Section NeverOutOfFuel.
Context (E : Catalog).

Lemma lift_not_OutOfFuel {A} (r : Res A) st :
  r <> OutOfFuel -> lift r st <> OutOfFuel.
Proof. unfold lift. by destruct r. Qed.

Lemma getObjectClass_not_OutOfFuel object :
  getObjectClass E object <> OutOfFuel.
Proof.
  unfold getObjectClass, Assert.
  destruct (List.find _ _) as [c|]; [|done].
  destruct (assert_checking E && negb (objectSubId object =? 0)%Z);
    by destruct c.
Qed.

(** The two levels of [getObjectDescription] are enough. *)
Lemma getObjectDescription_not_OutOfFuel object st :
  getObjectDescription E object st <> OutOfFuel.
Proof.
  rewrite getObjectDescription_eq.
  pose proof (getObjectClass_not_OutOfFuel object).
  destruct (getObjectClass E object) as [oclass| |]; [|done..].
  pose proof (description_lookups_not_OutOfFuel E oclass object).
  by destruct (description_lookups E oclass object) as [[]| |].
Qed.

Lemma ereport_not_OutOfFuel lvl m st : ereport lvl m st <> OutOfFuel.
Proof. unfold ereport. by destruct lvl. Qed.

Lemma complain_not_OutOfFuel other d behavior msglevel oktodelete st :
  complain E other d behavior msglevel oktodelete st <> OutOfFuel.
Proof.
  unfold complain, report_depends_on, report_drop_cascades_to, ret.
  intros H. apply bind_OutOfFuel in H as [H|(a & st1 & _ & H)].
  - revert H. apply getObjectDescription_not_OutOfFuel.
  - destruct (object_address_present other oktodelete).
    + apply bind_OutOfFuel in H as [H|(? & ? & _ & H)]; [|discriminate].
      by eapply ereport_not_OutOfFuel.
    + destruct behavior;
        (apply bind_OutOfFuel in H as [H|(? & ? & _ & H)]; [|discriminate]).
      * destruct (_ && _); by eapply ereport_not_OutOfFuel.
      * destruct (bool_decide _); by eapply ereport_not_OutOfFuel.
Qed.

Lemma sever_outgoing_not_OutOfFuel d caller scan :
  forall owner st, sever_outgoing E d caller scan owner st <> OutOfFuel.
Proof.
  induction scan as [|i scan IH]; intros owner st H.
  - discriminate.
  - rewrite sever_outgoing_cons in H.
    destruct (visible_tuple E st i) as [tup|]; [|by eapply IH].
    assert (Hdel :
      (caql_delete_current i ;; sever_outgoing E d caller scan owner) st
        <> OutOfFuel).
    { intros H'. apply bind_OutOfFuel in H' as [H'|(? & ? & _ & H')];
        [discriminate|by eapply IH]. }
    destruct (deptype tup); try done.
    destruct caller as [c|].
    + destruct (called_from c (referenced tup)); [done|].
      destruct owner; [discriminate|by eapply IH].
    + apply bind_OutOfFuel in H as [H|(? & ? & _ & H)]; [|discriminate].
      revert H. apply getObjectDescription_not_OutOfFuel.
Qed.

Lemma delete_object_itself_not_OutOfFuel object st :
  delete_object_itself E object st <> OutOfFuel.
Proof.
  unfold delete_object_itself. intros H.
  apply bind_OutOfFuel in H as [H|(? & ? & _ & H)].
  - unfold doDeletion in H.
    apply bind_OutOfFuel in H as [H|(oclass & ? & _ & H)].
    + revert H. apply lift_not_OutOfFuel, getObjectClass_not_OutOfFuel.
    + apply bind_OutOfFuel in H as [H|(? & ? & _ & H)]; [|discriminate].
      unfold doDeletion_dispatch in H.
      destruct oclass; try discriminate.
      destruct (rel_is_index E (objectId object)).
      * apply bind_OutOfFuel in H as [H|(? & ? & _ & H)]; [|discriminate].
        revert H. apply lift_not_OutOfFuel. unfold Assert.
        by destruct (_ && _).
      * destruct (negb _); discriminate.
  - apply bind_OutOfFuel in H as [H|(? & ? & _ & H)].
    + unfold save_deleted, get_alreadyDeleted, set_alreadyDeleted, bind, ret
        in H.
      destruct (alreadyDeleted _) as [l|];
        [destruct (object_address_present object l)|]; discriminate.
    + apply bind_OutOfFuel in H as [H|(? & ? & _ & H)]; [discriminate|].
      apply bind_OutOfFuel in H as [H|(? & ? & _ & H)]; [|discriminate].
      destruct (objectSubId object =? 0)%Z; discriminate.
Qed.

End NeverOutOfFuel.

Section Termination.
Context (E : Catalog).

Lemma elem_of_alive st i :
  i ∈ alive E st <-> i < length (pg_depend E) /\ i ∉ dead st.
Proof.
  unfold alive. rewrite elem_of_difference, elem_of_list_to_set, elem_of_seq.
  split; intros [? ?]; split; auto; lia.
Qed.

Lemma visible_alive st i tup :
  visible_tuple E st i = Some tup -> i ∈ alive E st.
Proof.
  intros [Hn Hi]%visible_tuple_Some. apply elem_of_alive. split; [|done].
  by apply lookup_lt_Some in Hi.
Qed.

Lemma alive_mono st st' :
  dead st ⊆ dead st' -> alive E st' ⊆ alive E st.
Proof. unfold alive. set_solver. Qed.

Lemma alive_same_dead st st' :
  dead st' = dead st -> alive E st' = alive E st.
Proof. unfold alive. by intros ->. Qed.

Context (behavior : DropBehavior) (msglevel : elevel)
        (oktodelete : ObjectAddresses).

Lemma delete_dependents_terminates recurse object d f :
  (forall other st,
      pending st = ∅ -> arrives E (Some object) other ->
      size (alive E st ∖ tuples_of E SCAN_BY_DEPENDER other) < f ->
      recurse other (Some object) st <> OutOfFuel) ->
  (forall other st r st',
      recurse other (Some object) st = Ok (r, st') ->
      Deletes E behavior msglevel oktodelete other (Some object) st r st') ->
  forall scan ok st,
  pending st = ∅ ->
  (forall i, i ∈ scan ->
     exists tup, pg_depend E !! i = Some tup /\
                 reference_matches object tup = true) ->
  size (alive E st) <= f ->
  delete_dependents E recurse object d behavior msglevel oktodelete
                    scan ok st <> OutOfFuel.
Proof.
  intros Hrec Hrel. induction scan as [|i scan IH]; intros ok st Hp Hin Hsz H.
  - discriminate.
  - rewrite delete_dependents_cons in H.
    assert (Hin' : forall j, j ∈ scan ->
               exists tup, pg_depend E !! j = Some tup /\
                           reference_matches object tup = true).
    { intros j Hj. apply Hin. by right. }
    destruct (visible_tuple E st i) as [tup|] eqn:Hv; [|by eapply IH].
    assert (Hcall : forall st1 ok1,
      core st1 = core st ->
      (done <- recurse (depender tup) (Some object) ;;
       delete_dependents E recurse object d behavior msglevel oktodelete
                         scan (ok1 && done)) st1 <> OutOfFuel).
    { intros st1 ok1 Hcore H'.
      apply core_eq in Hcore as (Hd1 & Hp1 & _).
      destruct (Hin i) as (tup' & Hi & Hm); [by left|].
      pose proof Hv as [Hnd Hi']%visible_tuple_Some.
      assert (tup' = tup) as -> by congruence.
      apply bind_OutOfFuel in H' as [H'|(r & st2 & Hr & H')].
      - revert H'. apply Hrec.
        + congruence.
        + exists i, tup. auto.
        + eapply Nat.lt_le_trans; [|exact Hsz].
          rewrite (alive_same_dead st st1 Hd1).
          apply subset_size. apply strict_spec_alt. split; [set_solver|].
          intros Heq.
          assert (i ∈ alive E st ∖ tuples_of E SCAN_BY_DEPENDER (depender tup))
            as Hi2.
          { rewrite Heq. eapply visible_alive; eauto. }
          apply elem_of_difference in Hi2 as [_ Hi2]. apply Hi2.
          apply elem_of_tuples_of. exists tup. split; [done|].
          apply depender_matches_covers, covers_refl.
      - apply Hrel in Hr.
        apply (proj1 (Deletes_frame E behavior msglevel oktodelete)) in Hr
          as (Hp2 & Hsub2 & _); [|congruence].
        revert H'. apply IH; auto.
        etrans; [|exact Hsz]. apply subseteq_size.
        rewrite <- (alive_same_dead st st1 Hd1). by apply alive_mono. }
    destruct (deptype tup); try discriminate.
    + apply bind_OutOfFuel in H as [H|(quiet & st1 & Hq & H)];
        [by eapply complain_not_OutOfFuel|].
      apply complain_Ok in Hq as (Hcore & _).
      revert H. by apply Hcall.
    + apply bind_OutOfFuel in H as [H|(od & st_d & Hod & H)].
      { revert H.
        apply getObjectDescription_not_OutOfFuel. }
      described Hod.
      apply bind_OutOfFuel in H as [H|(u & st1 & Hlog & H)];
        [by eapply ereport_not_OutOfFuel|].
      apply ereport_Ok in Hlog as (_ & Hcore & _).
      revert H. by apply Hcall.
    + apply bind_OutOfFuel in H as [H|(od & st_d & Hod & H)].
      { revert H.
        apply getObjectDescription_not_OutOfFuel. }
      described Hod.
      apply bind_OutOfFuel in H as [H|(u & st1 & Hlog & H)];
        [by eapply ereport_not_OutOfFuel|].
      apply ereport_Ok in Hlog as (_ & Hcore & _).
      revert H. by apply Hcall.
Qed.

(** With enough fuel for the tuples still alive, [recursiveDeletion]
    does not run out of fuel. *)
Lemma recursiveDeletion_terminates fuel :
  internal_dependents_exclusive E ->
  forall object caller st,
  pending st = ∅ -> arrives E caller object ->
  size (alive E st ∖ tuples_of E SCAN_BY_DEPENDER object) < fuel ->
  recursiveDeletion E fuel object behavior msglevel caller oktodelete st
    <> OutOfFuel.
Proof.
  intros Hex. induction fuel as [|f IH]; intros object caller st Hp Harr Hsz H.
  - lia.
  - simpl in H.
    apply bind_OutOfFuel in H as [H|(d & st_d & Hd & H)].
    { revert H. apply getObjectDescription_not_OutOfFuel. }
    pose proof Hd as Hd'. described Hd'.
    apply bind_OutOfFuel in H as [H|(scan & st0 & Hscan & H)]; [discriminate|].
    apply bind_OutOfFuel in H as [H|(owner & st1 & Hsever & H)];
      [by eapply sever_outgoing_not_OutOfFuel|].
    apply bind_OutOfFuel in H as [H|(u & st2 & Hcci & H)]; [discriminate|].
    assert (owner = None) as ->.
    { eapply no_redirection; eauto.
      intros i Hi. by apply (elem_of_scan E _ _ _ _ _ i Hscan). }
    destruct (step1_Ok E _ _ _ _ _ _ _ _ _ _ Hscan Hsever Hcci Hp)
      as (Hp2 & _ & _ & Hsub2 & _ & Hout).
    past_descriptions.
    apply bind_OutOfFuel in H as [H|(ok & st4 & _ & H)].
    + unfold deleteDependentObjects_with in H.
      apply bind_OutOfFuel in H as [H|(scan' & st3 & Hscan' & H)];
        [discriminate|].
      pose proof (fun i => elem_of_scan E _ _ _ _ _ i Hscan') as Hin.
      apply caql_beginscan_Ok in Hscan' as (_ & Hd3 & Hp3 & _).
      revert H. apply (delete_dependents_terminates _ object d f).
      * intros other st5 Hp5 Harr5 Hsz5. by apply IH.
      * intros other st5 r st6 Hr. simpl in Hr.
        by eapply recursiveDeletion_Deletes.
      * congruence.
      * intros i Hi. by apply Hin.
      * apply Nat.lt_succ_r. eapply Nat.le_lt_trans; [|exact Hsz].
        apply subseteq_size. rewrite (alive_same_dead st2 st3 Hd3).
        specialize (Hout eq_refl). unfold alive. set_solver.
    + apply bind_OutOfFuel in H as [H|(? & ? & _ & H)]; [|discriminate].
      by eapply delete_object_itself_not_OutOfFuel.
Qed.

End Termination.

Section ScanCount.
Context (E : Catalog) (behavior : DropBehavior) (msglevel : elevel)
        (oktodelete : ObjectAddresses).

(** Every call but the first pays for its two scans with a tuple that its
    step 1 deletes. *)
Lemma Deletes_scans :
  internal_dependents_exclusive E ->
  (forall object caller st ok st',
      Deletes E behavior msglevel oktodelete object caller st ok st' ->
      pending st = ∅ -> arrives E caller object ->
      scans st' + 2 * size (dead st ∪ tuples_of E SCAN_BY_DEPENDER object)
      <= scans st + 2 + 2 * size (dead st')) /\
  (forall object d scan ok st ok' st',
      DeletesDependents E behavior msglevel oktodelete object d scan ok st
                        ok' st' ->
      pending st = ∅ ->
      (forall i, i ∈ scan ->
         exists tup, pg_depend E !! i = Some tup /\
                     reference_matches object tup = true) ->
      scans st' + 2 * size (dead st) <= scans st + 2 * size (dead st')).
Proof.
  intros Hex. apply Deletes_mutind.
  - (* owner: excluded *)
    intros object caller st d sd scan st0 owningObject st1 u st2 quiet st3 r
           st4
           Hd Hscan Hsever Hcci Hquiet _ _ Hp Harr.
    pose proof Hd as Hd'. described Hd'.
    exfalso.
    assert (Some owningObject = None); [|discriminate].
    eapply no_redirection; eauto.
    intros i Hi. by apply (elem_of_scan E _ _ _ _ _ i Hscan).
  - (* itself *)
    intros object caller st d sd scan st0 st1 u st2 scan' st3 ok st4 u'
           st5
           Hd Hscan Hsever Hcci Hscan' Hdeps IH Hself Hp Harr.
    pose proof Hd as Hd'. described Hd'.
    destruct (step1_Ok E _ _ _ _ _ _ _ _ _ _ Hscan Hsever Hcci Hp)
      as (Hp2 & _ & Hs2 & Hsub2 & _ & Hout).
    past_descriptions.
    specialize (Hout eq_refl).
    pose proof (fun i => elem_of_scan E _ _ _ _ _ i Hscan') as Hin.
    apply caql_beginscan_Ok in Hscan' as (_ & Hd3 & Hp3 & _ & Hs3 & _).
    assert (Hp3' : pending st3 = ∅) by congruence.
    pose proof (proj2 (Deletes_frame E behavior msglevel oktodelete)
                  _ _ _ _ _ _ _ Hdeps Hp3') as (Hp4 & _).
    apply delete_object_itself_Ok in Hself as (Hd5 & _ & _ & Hs5).
    rewrite Hp4, union_empty_l_L in Hd5.
    assert (size (dead st ∪ tuples_of E SCAN_BY_DEPENDER object)
            <= size (dead st3)).
    { apply subseteq_size. rewrite Hd3. set_solver. }
    specialize (IH Hp3' (fun i Hi => proj1 (Hin i) Hi)).
    rewrite Hs5, Hd5. lia.
  - intros. lia.
  - intros object d i scan ok st ok' st' Hv _ IH Hp Hin.
    apply IH; auto. intros j Hj. apply Hin. by right.
  - (* normal *)
    intros object d i scan ok st tup quiet st1 r st2 ok' st'
           Hv Ht Hquiet Hsub IH1 _ IH2 Hp Hin.
    apply complain_Ok in Hquiet as (Hcore & _).
    apply core_eq in Hcore as (Hd1 & Hp1 & _ & Hs1).
    assert (Hp1' : pending st1 = ∅) by congruence.
    pose proof (proj1 (Deletes_frame E behavior msglevel oktodelete)
                  _ _ _ _ _ Hsub Hp1') as (Hp2 & _).
    destruct (Hin i) as (tup' & Hi & Hm); [by left|].
    pose proof Hv as [Hnd Hi']%visible_tuple_Some.
    assert (tup' = tup) as -> by congruence.
    assert (Harr : arrives E (Some object) (depender tup))
      by (exists i, tup; auto).
    specialize (IH1 Hp1' Harr).
    assert (IH2' := IH2 Hp2 (fun j Hj => Hin j (list_elem_of_further _ _ _ Hj))).
    assert (S (size (dead st))
            <= size (dead st1 ∪ tuples_of E SCAN_BY_DEPENDER (depender tup))).
    { rewrite Hd1.
      assert (i ∈ tuples_of E SCAN_BY_DEPENDER (depender tup)).
      { apply elem_of_tuples_of. exists tup. split; [done|].
        apply depender_matches_covers, covers_refl. }
      replace (S (size (dead st))) with (size ({[ i ]} ∪ dead st)).
      - apply subseteq_size. set_solver.
      - rewrite size_union by set_solver. rewrite size_singleton. lia. }
    lia.
  - (* silent *)
    intros object d i scan ok st tup od sd u st1 r st2 ok' st'
           Hv Ht Hod Hlog Hsub IH1 _ IH2 Hp Hin.
    pose proof Hod as Hod'. described Hod'.
    apply ereport_Ok in Hlog as (_ & Hcore & _).
    apply core_eq in Hcore as (Hd1 & Hp1 & _ & Hs1).
    past_descriptions.
    assert (Hp1' : pending st1 = ∅) by congruence.
    pose proof (proj1 (Deletes_frame E behavior msglevel oktodelete)
                  _ _ _ _ _ Hsub Hp1') as (Hp2 & _).
    destruct (Hin i) as (tup' & Hi & Hm); [by left|].
    pose proof Hv as [Hnd Hi']%visible_tuple_Some.
    assert (tup' = tup) as -> by congruence.
    assert (Harr : arrives E (Some object) (depender tup))
      by (exists i, tup; auto).
    specialize (IH1 Hp1' Harr).
    assert (IH2' := IH2 Hp2 (fun j Hj => Hin j (list_elem_of_further _ _ _ Hj))).
    assert (S (size (dead st))
            <= size (dead st1 ∪ tuples_of E SCAN_BY_DEPENDER (depender tup))).
    { rewrite Hd1.
      assert (i ∈ tuples_of E SCAN_BY_DEPENDER (depender tup)).
      { apply elem_of_tuples_of. exists tup. split; [done|].
        apply depender_matches_covers, covers_refl. }
      replace (S (size (dead st))) with (size ({[ i ]} ∪ dead st)).
      - apply subseteq_size. set_solver.
      - rewrite size_union by set_solver. rewrite size_singleton. lia. }
    lia.
Qed.

End ScanCount.

Section PreScanTermination.
Context (E : Catalog).

Lemma filter_length_le {A} (P Q : A -> Prop)
    `{forall x, Decision (P x)} `{forall x, Decision (Q x)} (l : list A) :
  (forall x, x ∈ l -> Q x -> P x) ->
  length (filter Q l) <= length (filter P l).
Proof.
  induction l as [|a l IH]; intros HPQ; [done|].
  rewrite !filter_cons.
  assert (length (filter Q l) <= length (filter P l)).
  { apply IH. intros x Hx. apply HPQ. by right. }
  destruct (decide (Q a)) as [Hq|Hq].
  - rewrite decide_True by (apply HPQ; [by left|done]). simpl. lia.
  - destruct (decide (P a)); simpl; lia.
Qed.

Lemma filter_length_lt {A} (P Q : A -> Prop)
    `{forall x, Decision (P x)} `{forall x, Decision (Q x)} (l : list A) a :
  (forall x, x ∈ l -> Q x -> P x) -> a ∈ l -> P a -> ~ Q a ->
  length (filter Q l) < length (filter P l).
Proof.
  induction l as [|b l IH]; intros HPQ Ha HP HQ.
  - by apply elem_of_nil in Ha.
  - rewrite !filter_cons.
    assert (Hle : length (filter Q l) <= length (filter P l)).
    { apply filter_length_le. intros x Hx. apply HPQ. by right. }
    apply elem_of_cons in Ha as [->|Ha].
    + destruct (decide (Q b)); [done|].
      destruct (decide (P b)); [|done]. simpl. lia.
    + assert (length (filter Q l) < length (filter P l)).
      { apply IH; auto. intros x Hx. apply HPQ. by right. }
      destruct (decide (Q b)) as [Hq|Hq].
      * rewrite decide_True by (apply HPQ; [by left|done]). simpl. lia.
      * destruct (decide (P b)); simpl; lia.
Qed.

Lemma unlisted_mono okt okt' :
  okt ⊆ okt' -> unlisted E okt' <= unlisted E okt.
Proof.
  intros Hsub. unfold unlisted. apply filter_length_le.
  intros x _ Hx Hin. by apply Hx, Hsub.
Qed.

Lemma unlisted_add okt object :
  object ∈ dependers E -> object ∉ okt ->
  unlisted E (add_exact_object_address object okt) < unlisted E okt.
Proof.
  intros Hd Hn. unfold unlisted, add_exact_object_address.
  apply (filter_length_lt _ _ _ object); auto.
  - intros x _ Hx Hin. apply Hx. apply elem_of_app. by left.
  - intros Hx. apply Hx. apply elem_of_app. right. by left.
Qed.

Lemma unlisted_le okt : unlisted E okt <= length (pg_depend E).
Proof.
  unfold unlisted, dependers.
  etrans; [apply length_filter|]. by rewrite length_fmap.
Qed.

Lemma depender_in_dependers i tup :
  pg_depend E !! i = Some tup -> depender tup ∈ dependers E.
Proof.
  intros Hi. unfold dependers. apply list_elem_of_fmap.
  exists tup. split; [done|]. eapply list_elem_of_lookup_2; eauto.
Qed.

Lemma not_present_not_elem object okt :
  object_address_present object okt = false -> object ∉ okt.
Proof.
  intros Hp Hin.
  apply (proj1 (not_present_iff _ _) Hp object Hin), covers_refl.
Qed.

Lemma find_auto_scan_terminates recurse object f :
  (forall other okt st,
      other ∈ dependers E -> unlisted E okt < f ->
      recurse other okt st <> OutOfFuel) ->
  (forall other okt st okt' st',
      recurse other okt st = Ok (okt', st') -> okt ⊆ okt') ->
  forall scan okt st,
  unlisted E okt < f ->
  find_auto_scan E recurse object scan okt st <> OutOfFuel.
Proof.
  intros Hrec Hext. induction scan as [|i scan IH]; intros okt st Hsz H.
  - discriminate.
  - rewrite find_auto_scan_cons in H.
    destruct (visible_tuple E st i) as [tup|] eqn:Hv; [|by eapply IH].
    assert (Hcall :
      (oktodelete' <- recurse (depender tup) okt ;;
       find_auto_scan E recurse object scan oktodelete') st <> OutOfFuel).
    { intros H'. apply bind_OutOfFuel in H' as [H'|(okt1 & st1 & Hr & H')].
      - revert H'. apply Hrec; [|done].
        apply visible_tuple_Some in Hv as [_ Hv].
        by eapply depender_in_dependers.
      - revert H'. apply IH. apply Hext in Hr.
        eapply Nat.le_lt_trans; [by apply unlisted_mono|done]. }
    destruct (deptype tup); try done; try (by eapply IH).
    + apply bind_OutOfFuel in H as [H|(? & ? & _ & H)]; [|discriminate].
      revert H. apply getObjectDescription_not_OutOfFuel.
    + apply bind_OutOfFuel in H as [H|(? & ? & _ & H)]; [|discriminate].
      revert H. apply getObjectDescription_not_OutOfFuel.
Qed.

Lemma prescan_post_subseteq object okt st okt' st' :
  prescan_post E object okt st okt' st' -> okt ⊆ okt'.
Proof.
  intros (_ & _ & _ & _ & _ & added & -> & _).
  intros x Hx. apply elem_of_app. by left.
Qed.

(** With one unit of fuel per depender not yet listed (and one more when
    the target itself is not such a depender to be listed), the pre-scan
    does not run out of fuel. *)
Lemma findAutoDeletableObjects_terminates fuel :
  forall object okt addself st,
  unlisted E okt
    + (if addself && bool_decide (object ∈ dependers E) then 0 else 1)
    < fuel ->
  findAutoDeletableObjects E fuel object okt addself st <> OutOfFuel.
Proof.
  induction fuel as [|f IH]; intros object okt addself st Hsz H; [lia|].
  simpl in H. destruct (object_address_present object okt) eqn:Hp;
    [discriminate|].
  apply bind_OutOfFuel in H as [H|(scan & st0 & _ & H)]; [discriminate|].
  revert H. apply (find_auto_scan_terminates _ object f).
  - intros other okt1 st1 Hother Hsz1. apply IH.
    rewrite bool_decide_eq_true_2 by done. simpl. lia.
  - intros other okt1 st1 okt2 st2 Hr.
    apply findAutoDeletableObjects_post in Hr as (Hpost & _).
    by eapply prescan_post_subseteq.
  - destruct addself; simpl in *.
    + case_bool_decide as Hd.
      * eapply Nat.lt_le_trans;
          [apply unlisted_add; [done|by apply not_present_not_elem]|lia].
      * eapply Nat.le_lt_trans; [apply unlisted_mono|];
          [|instantiate (1 := okt); lia].
        intros x Hx. apply elem_of_app. by left.
    + lia.
Qed.

Lemma find_auto_scan_count recurse object :
  (forall other okt st okt' st',
      other ∈ dependers E ->
      recurse other okt st = Ok (okt', st') ->
      prescan_count E other true okt st okt' st') ->
  forall scan okt st okt' st',
  find_auto_scan E recurse object scan okt st = Ok (okt', st') ->
  exists added,
    okt' = okt ++ added /\
    scans st' <= scans st + length added /\
    NoDup added /\
    forall z, z ∈ added -> (z ∉ okt) /\ z ∈ dependers E.
Proof.
  intros Hrec. induction scan as [|i scan IH]; intros okt st okt' st' H.
  - simpl in H. unfold ret in H. inversion H; subst.
    exists []. rewrite app_nil_r. split; [done|]. split; [simpl; lia|].
    split; [constructor|]. intros z Hz. by apply elem_of_nil in Hz.
  - rewrite find_auto_scan_cons in H.
    destruct (visible_tuple E st i) as [tup|] eqn:Hv; [|eauto].
    assert (Hcall :
      (oktodelete' <- recurse (depender tup) okt ;;
       find_auto_scan E recurse object scan oktodelete') st = Ok (okt', st') ->
      exists added,
        okt' = okt ++ added /\
        scans st' <= scans st + length added /\
        NoDup added /\
        forall z, z ∈ added -> (z ∉ okt) /\ z ∈ dependers E).
    { intros H'. apply bind_Ok in H' as (okt1 & st1 & Hr & H').
      assert (Hdep : depender tup ∈ dependers E).
      { apply visible_tuple_Some in Hv as [_ Hv].
        by eapply depender_in_dependers. }
      apply Hrec in Hr as (added1 & -> & Hs1 & Hnd1 & Hel1); [|done].
      apply IH in H' as (added2 & -> & Hs2 & Hnd2 & Hel2).
      exists (added1 ++ added2). split; [by rewrite app_assoc|].
      split; [rewrite length_app; lia|]. split.
      - apply NoDup_app. split; [done|]. split; [|done].
        intros z Hz1 Hz2. apply Hel2 in Hz2 as [Hn _]. apply Hn.
        apply elem_of_app. by right.
      - intros z Hz. apply elem_of_app in Hz as [Hz|Hz].
        + destruct (Hel1 z Hz) as [? [->|?]]; auto.
        + destruct (Hel2 z Hz) as [Hn ?]. split; [|done].
          intros Hin. apply Hn. apply elem_of_app. by left. }
    destruct (deptype tup); try discriminate; eauto.
    + apply bind_Ok in H as (? & ? & _ & H). discriminate.
    + apply bind_Ok in H as (? & ? & _ & H). discriminate.
Qed.

Lemma findAutoDeletableObjects_count fuel :
  forall object okt addself st okt' st',
  findAutoDeletableObjects E fuel object okt addself st = Ok (okt', st') ->
  prescan_count E object addself okt st okt' st'.
Proof.
  induction fuel as [|f IH]; intros object okt addself st okt' st' H;
    [discriminate|].
  simpl in H. destruct (object_address_present object okt) eqn:Hp.
  - unfold ret in H. inversion H; subst.
    exists []. rewrite app_nil_r. split; [done|]. split; [simpl; lia|].
    split; [constructor|]. intros z Hz. by apply elem_of_nil in Hz.
  - apply bind_Ok in H as (scan & st0 & Hscan & H).
    apply caql_beginscan_Ok in Hscan as (_ & _ & _ & _ & Hs0 & _).
    apply find_auto_scan_count in H as (added & -> & Hs & Hnd & Hel).
    2:{ intros other okt1 st1 okt2 st2 _ Hr. by apply IH. }
    apply not_present_not_elem in Hp.
    destruct addself.
    + exists (object :: added). unfold add_exact_object_address.
      split; [by rewrite <- app_assoc|]. split; [simpl; lia|]. split.
      * apply NoDup_cons. split; [|done]. intros Hin.
        apply Hel in Hin as [Hn _]. apply Hn.
        apply elem_of_app. right. by left.
      * intros z Hz. apply elem_of_cons in Hz as [->|Hz]; [auto|].
        destruct (Hel z Hz) as [Hn ?]. split; [|auto].
        intros Hin. apply Hn. apply elem_of_app. by left.
    + exists added. split; [done|]. split; [lia|]. split; [done|].
      intros z Hz. destruct (Hel z Hz). auto.
Qed.

Lemma prescan_count_bound object addself okt st okt' st' :
  prescan_count E object addself okt st okt' st' ->
  scans st' <= scans st + length (pg_depend E) + 1
               + (if addself then 0 else 1).
Proof.
  intros (added & -> & Hs & Hnd & Hel).
  assert (length added <= length (object :: dependers E)).
  { apply submseteq_length, NoDup_submseteq; [done|].
    intros z Hz. destruct (Hel z Hz) as [_ [->|?]]; [by left|by right]. }
  simpl in *. unfold dependers in *. rewrite length_fmap in *.
  destruct addself; lia.
Qed.

End PreScanTermination.

Section RankedTermination.
Context (E : Catalog).

(** If step 1 ends owned, the owner is the referenced object of an
    INTERNAL tuple of the scan. *)
Lemma sever_outgoing_owner_tuple d caller scan :
  forall owner st o st',
  sever_outgoing E d caller scan owner st = Ok (Some o, st') ->
  owner = Some o \/
  exists j tj,
    j ∈ scan /\ pg_depend E !! j = Some tj /\
    deptype tj = DEPENDENCY_INTERNAL /\ o = referenced tj.
Proof.
  induction scan as [|i scan IH]; intros owner st o st' H.
  - simpl in H. unfold ret in H. inversion H. by left.
  - apply sever_outgoing_cons_Ok in H
      as [[_ H]|[(tup & st1 & _ & _ & _ & H)|(tup & c & Hv & Ht & _ & _ & _ & H)]].
    + apply IH in H as [?|(j & tj & Hj & ?)]; [by left|].
      right. exists j, tj. split; [by right|done].
    + apply IH in H as [?|(j & tj & Hj & ?)]; [by left|].
      right. exists j, tj. split; [by right|done].
    + right. exists i, tup. apply visible_tuple_Some in Hv as [_ Hv].
      apply sever_outgoing_stays_owned in H. inversion H; subst.
      split; [by left|done].
Qed.

(** Step 1 deletes the tuple through which the caller found the object,
    whether it ends owned or not. *)
Lemma sever_outgoing_kills_arrival d c scan :
  forall owner st owner' st' i tup,
  sever_outgoing E d (Some c) scan owner st = Ok (owner', st') ->
  i ∈ scan -> visible_tuple E st i = Some tup ->
  reference_matches c tup = true ->
  i ∈ pending st'.
Proof.
  induction scan as [|j scan IH]; intros owner st owner' st' i tup H Hi Hv Hm.
  - by apply elem_of_nil in Hi.
  - apply sever_outgoing_cons_Ok in H
      as [[Hvj H]|[(tj & st1 & Hvj & _ & Hdel & H)|(tj & c' & Hvj & _ & Hc & Hcf & _ & H)]].
    + apply elem_of_cons in Hi as [->|Hi]; [congruence|]. eauto.
    + apply caql_delete_current_Ok in Hdel as (Hd & Hp & _).
      apply elem_of_cons in Hi as [->|Hi].
      * apply sever_outgoing_frame in H as (_ & _ & _ & Hsub).
        apply Hsub. rewrite Hp. set_solver.
      * eapply IH; eauto. by rewrite (visible_tuple_same_dead E st st1).
    + apply elem_of_cons in Hi as [->|Hi]; [|eauto].
      assert (tj = tup) as -> by congruence.
      inversion Hc; subst c'.
      apply reference_matches_covers, called_from_covers in Hm. congruence.
Qed.

Context (h : ObjectAddress -> nat) (K : nat).
Context (behavior : DropBehavior) (msglevel : elevel)
        (oktodelete : ObjectAddresses).
Context (Hrank : internal_rank E h K).

Lemma delete_dependents_terminates_ranked recurse object d f :
  (forall other st,
      pending st = ∅ ->
      (exists i tup, visible_tuple E st i = Some tup /\
                     depender_matches other tup = true /\
                     reference_matches object tup = true) ->
      2 * size (alive E st) * (K + 1) + h other < f ->
      recurse other (Some object) st <> OutOfFuel) ->
  (forall other st r st',
      recurse other (Some object) st = Ok (r, st') ->
      Deletes E behavior msglevel oktodelete other (Some object) st r st') ->
  forall scan ok st,
  pending st = ∅ ->
  (forall i, i ∈ scan ->
     exists tup, pg_depend E !! i = Some tup /\
                 reference_matches object tup = true) ->
  2 * size (alive E st) * (K + 1) + K < f ->
  delete_dependents E recurse object d behavior msglevel oktodelete
                    scan ok st <> OutOfFuel.
Proof using Hrank.
  intros Hrec Hrel. induction scan as [|i scan IH]; intros ok st Hp Hin Hsz H.
  - discriminate.
  - rewrite delete_dependents_cons in H.
    assert (Hin' : forall j, j ∈ scan ->
               exists tup, pg_depend E !! j = Some tup /\
                           reference_matches object tup = true).
    { intros j Hj. apply Hin. by right. }
    destruct (visible_tuple E st i) as [tup|] eqn:Hv; [|by eapply IH].
    assert (Hcall : forall st1 ok1,
      core st1 = core st ->
      (done <- recurse (depender tup) (Some object) ;;
       delete_dependents E recurse object d behavior msglevel oktodelete
                         scan (ok1 && done)) st1 <> OutOfFuel).
    { intros st1 ok1 Hcore H'.
      apply core_eq in Hcore as (Hd1 & Hp1 & _).
      destruct (Hin i) as (tup' & Hi & Hm); [by left|].
      pose proof Hv as [Hnd Hi']%visible_tuple_Some.
      assert (tup' = tup) as -> by congruence.
      apply bind_OutOfFuel in H' as [H'|(r & st2 & Hr & H')].
      - revert H'. apply Hrec.
        + congruence.
        + exists i, tup. rewrite (visible_tuple_same_dead E st st1 i Hd1).
          split; [done|]. split; [|done].
          apply depender_matches_covers, covers_refl.
        + rewrite (alive_same_dead E st st1 Hd1).
          destruct Hrank as [Hb _]. specialize (Hb (depender tup)). lia.
      - apply Hrel in Hr.
        apply (proj1 (Deletes_frame E behavior msglevel oktodelete)) in Hr
          as (Hp2 & Hsub2 & _); [|congruence].
        revert H'. apply IH; auto.
        assert (size (alive E st2) <= size (alive E st)).
        { apply subseteq_size.
          rewrite <- (alive_same_dead E st st1 Hd1). by apply alive_mono. }
        nia. }
    destruct (deptype tup); try discriminate.
    + apply bind_OutOfFuel in H as [H|(quiet & st1 & Hq & H)];
        [by eapply complain_not_OutOfFuel|].
      apply complain_Ok in Hq as (Hcore & _).
      revert H. by apply Hcall.
    + apply bind_OutOfFuel in H as [H|(od & st_d & Hod & H)].
      { revert H.
        apply getObjectDescription_not_OutOfFuel. }
      described Hod.
      apply bind_OutOfFuel in H as [H|(u & st1 & Hlog & H)];
        [by eapply ereport_not_OutOfFuel|].
      apply ereport_Ok in Hlog as (_ & Hcore & _).
      revert H. by apply Hcall.
    + apply bind_OutOfFuel in H as [H|(od & st_d & Hod & H)].
      { revert H.
        apply getObjectDescription_not_OutOfFuel. }
      described Hod.
      apply bind_OutOfFuel in H as [H|(u & st1 & Hlog & H)];
        [by eapply ereport_not_OutOfFuel|].
      apply ereport_Ok in Hlog as (_ & Hcore & _).
      revert H. by apply Hcall.
Qed.

(** A call found through a tuple [k = 0] deletes that tuple in its step 1;
    a call made for an owner, or the first call, [k = 1] goes to an object
    of lower rank or deletes dependents found through tuples. *)
Lemma recursiveDeletion_terminates_ranked fuel :
  forall object caller st k,
  pending st = ∅ ->
  (k = 0 ->
   exists c i tup, caller = Some c /\ visible_tuple E st i = Some tup /\
                   depender_matches object tup = true /\
                   reference_matches c tup = true) ->
  k <= 1 ->
  (2 * size (alive E st) + k) * (K + 1) + h object < fuel ->
  recursiveDeletion E fuel object behavior msglevel caller oktodelete st
    <> OutOfFuel.
Proof using Hrank.
  induction fuel as [|f IH]; intros object caller st k Hp Hk Hk1 Hsz H.
  - lia.
  - simpl in H.
    apply bind_OutOfFuel in H as [H|(d & st_d & Hd & H)].
    { revert H. apply getObjectDescription_not_OutOfFuel. }
    pose proof Hd as Hd'. described Hd'.
    apply bind_OutOfFuel in H as [H|(scan & st0 & Hscan & H)]; [discriminate|].
    apply bind_OutOfFuel in H as [H|(owner & st1 & Hsever & H)];
      [by eapply sever_outgoing_not_OutOfFuel|].
    apply bind_OutOfFuel in H as [H|(u & st2 & Hcci & H)]; [discriminate|].
    destruct (step1_Ok E _ _ _ _ _ _ _ _ _ _ Hscan Hsever Hcci Hp)
      as (Hp2 & _ & _ & Hsub2 & _ & Hout).
    past_descriptions.
    pose proof (fun i => elem_of_scan E _ _ _ _ _ i Hscan) as Hin.
    assert (Halive : size (alive E st2) + (1 - k) <= size (alive E st)).
    { destruct k as [|k].
      - destruct (Hk eq_refl) as (c & i & tup & -> & Hv & Hdm & Hrm).
        pose proof Hscan as (_ & Hd0 & _)%caql_beginscan_Ok.
        assert (i ∈ pending st1) as Hi1.
        { eapply sever_outgoing_kills_arrival; eauto.
          - apply Hin. apply visible_tuple_Some in Hv as [_ Hv]. eauto.
          - by rewrite (visible_tuple_same_dead E st st0). }
        apply CommandCounterIncrement_Ok in Hcci as (Hd2 & _).
        assert (size (alive E st2) < size (alive E st)); [|lia].
        apply subset_size, strict_spec_alt. split; [by apply alive_mono|].
        intros Heq. apply visible_alive in Hv. rewrite <- Heq in Hv.
        apply elem_of_alive in Hv as [_ Hv]. apply Hv. rewrite Hd2.
        set_solver.
      - assert (size (alive E st2) <= size (alive E st)); [|lia].
        by apply subseteq_size, alive_mono. }
    destruct Hrank as [Hb Hlt].
    pose proof (Hb object) as Hbo.
    destruct owner as [o|].
    + apply bind_OutOfFuel in H as [H|(quiet & st3 & Hq & H)];
        [by eapply complain_not_OutOfFuel|].
      apply complain_Ok in Hq as (Hcore & _).
      apply core_eq in Hcore as (Hd3 & Hp3 & _).
      apply bind_OutOfFuel in H as [H|(? & ? & _ & H)]; [|discriminate].
      revert H. apply (IH _ _ _ 1); [congruence|discriminate|lia|].
      rewrite (alive_same_dead E st2 st3 Hd3).
      assert (h o < h object).
      { apply sever_outgoing_owner_tuple in Hsever
          as [?|(j & tj & Hj & Htj & Hint & ->)]; [discriminate|].
        apply Hin in Hj as (tj' & Htj' & Hmj).
        assert (tj' = tj) as -> by congruence.
        eapply Hlt; eauto. }
      destruct k as [|[|k]]; [nia|nia|lia].
    + apply bind_OutOfFuel in H as [H|(ok & st4 & _ & H)].
      * unfold deleteDependentObjects_with in H.
        apply bind_OutOfFuel in H as [H|(scan' & st3 & Hscan' & H)];
          [discriminate|].
        pose proof (fun i => elem_of_scan E _ _ _ _ _ i Hscan') as Hin'.
        apply caql_beginscan_Ok in Hscan' as (_ & Hd3 & Hp3 & _).
        revert H. apply (delete_dependents_terminates_ranked _ object d f).
        -- intros other st5 Hp5 (i & tup & Hv & Hdm & Hrm) Hsz5.
           apply (IH _ _ _ 0); [done| |lia|lia].
           intros _. exists object, i, tup. auto.
        -- intros other st5 r st6 Hr. simpl in Hr.
           by eapply recursiveDeletion_Deletes.
        -- congruence.
        -- intros i Hi. by apply Hin'.
        -- rewrite (alive_same_dead E st2 st3 Hd3).
           destruct k as [|[|k]]; [nia|nia|lia].
      * apply bind_OutOfFuel in H as [H|(? & ? & _ & H)]; [|discriminate].
        by eapply delete_object_itself_not_OutOfFuel.
Qed.

End RankedTermination.

Lemma alive_size (E : Catalog) st : size (alive E st) <= length (pg_depend E).
Proof.
  unfold alive.
  etrans; [apply (subseteq_size _ (list_to_set (seq 0 (length (pg_depend E)))));
           set_solver|].
  rewrite size_list_to_set by apply NoDup_seq. by rewrite length_seq.
Qed.

Lemma performDeletion_not_OutOfFuel (E : Catalog) fuel object behavior st :
  pending st = ∅ ->
  length (pg_depend E) + 2 <= fuel ->
  (forall okt st2,
      pending st2 = ∅ ->
      recursiveDeletion E fuel object behavior NOTICE None okt st2
        <> OutOfFuel) ->
  performDeletion E fuel object behavior st <> OutOfFuel.
Proof.
  intros Hp Hfuel Hrec. unfold performDeletion. intros H.
  apply bind_OutOfFuel in H as [H|(d & st_d & Hd & H)].
  { revert H. apply getObjectDescription_not_OutOfFuel. }
  pose proof Hd as Hd'. described Hd'.
  apply bind_OutOfFuel in H as [H|(okt & st1 & Hfind & H)].
  { revert H. apply findAutoDeletableObjects_terminates.
    pose proof (unlisted_le E new_object_addresses).
    destruct (true && _); lia. }
  apply findAutoDeletableObjects_post in Hfind as ((Hd1 & Hp1 & _) & _).
  apply bind_OutOfFuel in H as [H|(u & st2 & Hset & H)]; [discriminate|].
  apply set_alreadyDeleted_Ok in Hset as [Hcore _].
  apply core_eq in Hcore as (Hd2 & Hp2 & _).
  past_descriptions.
  apply bind_OutOfFuel in H as [H|(ok & st3 & _ & H)].
  - revert H. apply Hrec. congruence.
  - by destruct ok.
Qed.

(** X20.  Termination when the INTERNAL dependencies form no cycle.  On
    every finite pg_depend, cycles through NORMAL and AUTO tuples
    included,
    (1) step 1 followed by [CommandCounterIncrement] leaves none of the
        object's outgoing tuples visible to later scans;
    (2) if the INTERNAL dependencies have no cycle, that is, can be ranked
        by some [h] bounded by [K], [performDeletion] terminates: a fuel
        of [(2 |E| + 2) (K + 1)] is never exhausted, [|E|] being the
        number of tuples;
    (3) if INTERNAL dependents depend on nothing but their owner, a fuel
        of [|E| + 2] is never exhausted, and a [performDeletion] that
        returns has begun at most [3 (|E| + 1)] scans. *)
Theorem performDeletion_terminates
    (E : Catalog) (object : ObjectAddress) (behavior : DropBehavior)
    (st : DB) (h : ObjectAddress -> nat) (K fuel : nat) :
  pending st = ∅ ->
  internal_rank E h K ->
  (2 * length (pg_depend E) + 2) * (K + 1) <= fuel ->
  (forall object' d caller st1 scan st2 st3 u st4,
      pending st1 = ∅ ->
      caql_beginscan E SCAN_BY_DEPENDER object' st1 = Ok (scan, st2) ->
      sever_outgoing E d caller scan None st2 = Ok (None, st3) ->
      CommandCounterIncrement st3 = Ok (u, st4) ->
      forall i tup,
        pg_depend E !! i = Some tup ->
        depender_matches object' tup = true ->
        visible_tuple E st4 i = None) /\
  performDeletion E fuel object behavior st <> OutOfFuel /\
  (internal_dependents_exclusive E ->
   forall fuel',
     length (pg_depend E) + 2 <= fuel' ->
     performDeletion E fuel' object behavior st <> OutOfFuel /\
     forall u st',
       performDeletion E fuel' object behavior st = Ok (u, st') ->
       scans st' <= scans st + 3 * (length (pg_depend E) + 1)).
Proof.
  intros Hp Hrank Hfuel. split; [|split].
  - intros object' d caller st1 scan st2 st3 u st4 Hp1 Hscan Hsever Hcci
           i tup Hi Hm.
    destruct (step1_Ok E _ _ _ _ _ _ _ _ _ _ Hscan Hsever Hcci Hp1)
      as (_ & _ & _ & _ & _ & Hout).
    apply visible_tuple_None. left. apply (Hout eq_refl).
    apply elem_of_tuples_of. eauto.
  - apply performDeletion_not_OutOfFuel; [done|nia|].
    intros okt st2 Hp2.
    apply (recursiveDeletion_terminates_ranked E h K _ _ _ Hrank _ _ _ _ 1);
      [done|discriminate|lia|].
    pose proof (alive_size E st2). destruct Hrank as [Hb _].
    specialize (Hb object). nia.
  - intros Hex fuel' Hfuel'. split.
    { apply performDeletion_not_OutOfFuel; [done|done|].
      intros okt st2 Hp2.
      apply recursiveDeletion_terminates; [done|done|done|].
      pose proof (alive_size E st2).
      assert (size (alive E st2 ∖ tuples_of E SCAN_BY_DEPENDER object)
              <= size (alive E st2)) by (apply subseteq_size; set_solver).
      lia. }
    intros u st' H.
    apply performDeletion_Ok in H
      as (d & st0 & okt & st1 & st2 & Hd & Hfind & Hset & Hrec).
    described Hd.
    pose proof (findAutoDeletableObjects_post E _ _ _ _ _ _ _ Hfind)
      as ((Hd1 & Hp1 & _) & _).
    apply findAutoDeletableObjects_count, prescan_count_bound in Hfind.
    apply set_alreadyDeleted_Ok in Hset as [Hcore _].
    apply core_eq in Hcore as (Hd2 & Hp2 & _ & Hs2).
    past_descriptions.
    assert (Hp2' : pending st2 = ∅) by congruence.
    apply recursiveDeletion_Deletes in Hrec.
    pose proof (proj1 (Deletes_frame E behavior NOTICE okt) _ _ _ _ _ Hrec Hp2')
      as (_ & Hsub & _ & Hnew & _).
    apply (proj1 (Deletes_scans E behavior NOTICE okt Hex)) in Hrec;
      [|done|exact I].
    assert (size (dead st') <= size (dead st2) + length (pg_depend E)).
    { etrans; [apply (subseteq_size _
                 (dead st2 ∪ list_to_set (seq 0 (length (pg_depend E)))))|].
      - intros i Hi. apply Hnew in Hi as [Hi|(tup & Hi & _)]; [set_solver|].
        apply elem_of_union_r, elem_of_list_to_set, elem_of_seq.
        apply lookup_lt_Some in Hi. lia.
      - rewrite size_union_alt.
        assert (size (list_to_set (seq 0 (length (pg_depend E))) ∖ dead st2
                  : gset nat) <= length (pg_depend E)).
        { etrans; [apply (subseteq_size _
                     (list_to_set (seq 0 (length (pg_depend E)))));
                   set_solver|].
          rewrite size_list_to_set by apply NoDup_seq. by rewrite length_seq. }
        lia. }
    assert (size (dead st2)
            <= size (dead st2 ∪ tuples_of E SCAN_BY_DEPENDER object)).
    { apply subseteq_size. set_solver. }
    simpl in Hfind. lia.
Qed.

Lemma mutual_functions_rank :
  internal_rank mutual_functions_catalog relation_rank 1.
Proof.
  split.
  - intros x. unfold relation_rank. destruct (_ =? _)%Z; lia.
  - intros i tup x Hi Ht Hm.
    destruct i as [|[|[|[|i]]]]; simpl in Hi; inversion Hi; subst;
      try discriminate.
    apply depender_matches_covers in Hm as (Hc & _). simpl in Hc.
    unfold relation_rank. rewrite Hc. simpl. lia.
Qed.

Lemma mutual_functions_exclusive :
  internal_dependents_exclusive mutual_functions_catalog.
Proof.
  intros i j ti tj Hi Hj Ht Hc Ho.
  destruct i as [|[|[|[|i]]]]; simpl in Hi; inversion Hi; subst;
    try discriminate.
  destruct j as [|[|[|[|j]]]]; simpl in Hj; inversion Hj; subst;
    try discriminate; done.
Qed.

(** [DROP FUNCTION 1 CASCADE] where functions 1 and 2 call each other. *)
Lemma performDeletion_terminates_witness :
  pending initial_DB = ∅ /\
  internal_rank mutual_functions_catalog relation_rank 1 /\
  (2 * length (pg_depend mutual_functions_catalog) + 2) * (1 + 1) <= 20 /\
  internal_dependents_exclusive mutual_functions_catalog /\
  length (pg_depend mutual_functions_catalog) + 2 <= 6 /\
  performDeletion mutual_functions_catalog 20 (function 1) DROP_CASCADE
                  initial_DB <> OutOfFuel /\
  exists st',
    performDeletion mutual_functions_catalog 6 (function 1) DROP_CASCADE
                    initial_DB = Ok (tt, st') /\
    dropped st' = [function 1; type 16402; table 16400; function 2] /\
    scans st' <= 0 + 3 * (4 + 1).
Proof.
  pose proof (performDeletion_terminates mutual_functions_catalog
                (function 1) DROP_CASCADE initial_DB relation_rank 1 20
                eq_refl mutual_functions_rank) as H.
  split; [reflexivity|]. split; [exact mutual_functions_rank|].
  split; [simpl; lia|]. split; [exact mutual_functions_exclusive|].
  split; [simpl; lia|].
  destruct H as (_ & Hterm & Hcount); [simpl; lia|].
  split; [exact Hterm|].
  destruct (Hcount mutual_functions_exclusive 6) as [_ Hscans]; [simpl; lia|].
  eexists. split; [vm_compute; reflexivity|]. split; [reflexivity|].
  eapply Hscans. vm_compute. reflexivity.
Defined.

(** ** Unrolling one call *)

Lemma recursiveDeletion_owned_eq (E : Catalog) f object behavior msglevel
    caller okt st d sd scan st0 o st1 st2 :
  getObjectDescription E object st = Ok (d, sd) ->
  caql_beginscan E SCAN_BY_DEPENDER object sd = Ok (scan, st0) ->
  sever_outgoing E d caller scan None st0 = Ok (Some o, st1) ->
  CommandCounterIncrement st1 = Ok (tt, st2) ->
  recursiveDeletion E (S f) object behavior msglevel caller okt st =
  (quiet <- complain E o d behavior msglevel okt ;;
   done <- recursiveDeletion E f o behavior msglevel (Some object) okt ;;
   ret (quiet && done)) st2.
Proof.
  intros Hd Hscan Hsever Hcci. simpl.
  erewrite bind_of_Ok by exact Hd.
  erewrite bind_of_Ok by exact Hscan.
  erewrite bind_of_Ok by exact Hsever.
  erewrite bind_of_Ok by exact Hcci. reflexivity.
Qed.

Lemma recursiveDeletion_unowned_eq (E : Catalog) f object behavior msglevel
    caller okt st d sd scan st0 st1 st2 :
  getObjectDescription E object st = Ok (d, sd) ->
  caql_beginscan E SCAN_BY_DEPENDER object sd = Ok (scan, st0) ->
  sever_outgoing E d caller scan None st0 = Ok (None, st1) ->
  CommandCounterIncrement st1 = Ok (tt, st2) ->
  recursiveDeletion E (S f) object behavior msglevel caller okt st =
  (ok <- deleteDependentObjects E f object d behavior msglevel okt ;;
   delete_object_itself E object ;;
   ret ok) st2.
Proof.
  intros Hd Hscan Hsever Hcci. simpl.
  erewrite bind_of_Ok by exact Hd.
  erewrite bind_of_Ok by exact Hscan.
  erewrite bind_of_Ok by exact Hsever.
  erewrite bind_of_Ok by exact Hcci. reflexivity.
Qed.

Ltac redirect_step :=
  erewrite recursiveDeletion_owned_eq;
    [|vm_compute; reflexivity|vm_compute; reflexivity
     |vm_compute; reflexivity|vm_compute; reflexivity];
  erewrite bind_of_Ok by (vm_compute; reflexivity);
  apply bind_OutOfFuel; left.

(** Once tuple 0 is gone, the three functions of the circle hand the
    deletion on to one another for ever. *)
Lemma internal_cycle_loops fuel :
  forall dr ex ms ad sc,
  let st := mkDB {[0]} ∅ dr ex ms ad sc in
  recursiveDeletion internal_cycle_catalog fuel (function 1) DROP_CASCADE
                    NOTICE (Some (function 3)) [function 9] st = OutOfFuel /\
  recursiveDeletion internal_cycle_catalog fuel (function 2) DROP_CASCADE
                    NOTICE (Some (function 1)) [function 9] st = OutOfFuel /\
  recursiveDeletion internal_cycle_catalog fuel (function 3) DROP_CASCADE
                    NOTICE (Some (function 2)) [function 9] st = OutOfFuel.
Proof.
  induction fuel as [|f IH]; intros dr ex ms ad sc st; [done|].
  subst st. split; [|split]; redirect_step; apply IH.
Qed.

(** C5.  [performDeletion] on a cycle of INTERNAL dependencies.  The
    comments of [recursiveDeletion] say that a dependency loop is legal
    and that deleting the outgoing tuples first prevents infinite
    recursion.  The code does otherwise on a pg_depend of four tuples:
    functions 1, 2 and 3 are INTERNAL dependents of one another in a
    circle and function 1 is a NORMAL dependent of function 9.  Step 1 of
    a function reached from somewhere else than its owner keeps the
    INTERNAL tuple and hands the deletion to the owner, which is done for
    1, 2, 3, 1, .. without an end: [DROP FUNCTION 9 CASCADE] exhausts
    every fuel. *)
Theorem internal_cycle_never_returns :
  length (pg_depend internal_cycle_catalog) = 4 /\
  forall fuel,
    performDeletion internal_cycle_catalog fuel (function 9) DROP_CASCADE
                    initial_DB = OutOfFuel.
Proof.
  split; [reflexivity|].
  intros [|[|[|f]]]; [vm_compute; reflexivity..|].
  unfold performDeletion.
  erewrite bind_of_Ok by (vm_compute; reflexivity).
  erewrite bind_of_Ok by (vm_compute; reflexivity).
  erewrite bind_of_Ok by (vm_compute; reflexivity).
  apply bind_OutOfFuel; left.
  erewrite recursiveDeletion_unowned_eq;
    [|vm_compute; reflexivity|vm_compute; reflexivity
     |vm_compute; reflexivity|vm_compute; reflexivity].
  apply bind_OutOfFuel; left.
  unfold deleteDependentObjects, deleteDependentObjects_with.
  erewrite bind_of_Ok by (vm_compute; reflexivity).
  rewrite delete_dependents_cons.
  set (v := visible_tuple _ _ _). vm_compute in v. subst v.
  cbn [deptype depender classid objid objsubid].
  erewrite bind_of_Ok by (vm_compute; reflexivity).
  apply bind_OutOfFuel; left.
  redirect_step. apply internal_cycle_loops.
Qed.

(* ===================================================================== *)
(** * Part XII.  performMultipleDeletions                                 *)
(* ===================================================================== *)

Section Multiple.
Context (E : Catalog).

(** The deletion pass skips a target that [alreadyDeleted] or [implicit]
    holds. *)
Lemma delete_each_skips fuel obj objects implicit behavior st :
  object_address_present obj (default [] (alreadyDeleted st)) = true \/
  object_address_present obj implicit = true ->
  delete_each E fuel (obj :: objects) implicit behavior st
  = delete_each E fuel objects implicit behavior st.
Proof.
  intros H. simpl. unfold bind at 1, get_alreadyDeleted.
  destruct (object_address_present obj (default [] (alreadyDeleted st)));
    [done|].
  destruct H as [H|H]; [discriminate|]. by rewrite H.
Qed.

End Multiple.

(** C8 (evaluation at the failing input).  [DROP VIEW 16500 CASCADE]
    through [performMultipleDeletions] hands the view to [doDeletion]
    twice: the rule of the view, found from function 3001, asks the view
    to delete itself while the view is in the middle of deleting its
    dependents.  And when two targets are AUTO dependents of each other,
    the deletion pass skips both, so that neither is dropped. *)
Theorem performMultipleDeletions_drops_twice :
  (exists st',
      performMultipleDeletions view_rule_catalog 10 [table 16500]
                               DROP_CASCADE initial_DB = Ok (tt, st') /\
      rev (dropped st')
      = [rule 16504; table 16500; function 3001; type 16502; table 16500] /\
      alreadyDeleted st'
      = Some [rule 16504; table 16500; function 3001; type 16502] /\
      ~ NoDup (dropped st')) /\
  (exists st',
      performMultipleDeletions auto_cycle_catalog 10
                               [table 16600; table 16700]
                               DROP_CASCADE initial_DB = Ok (tt, st') /\
      dropped st' = []).
Proof.
  split.
  - eexists. split; [vm_compute; reflexivity|].
    split; [reflexivity|]. split; [reflexivity|].
    simpl. intros Hnd. apply NoDup_cons in Hnd as [Hin _].
    apply Hin. set_solver.
  - eexists. split; [vm_compute; reflexivity|]. reflexivity.
Qed.

(* ===================================================================== *)
(** * Part XIII.  The order of the scans                                  *)
(* ===================================================================== *)

Lemma covers_whole (y x : ObjectAddress) :
  covers y x -> objectSubId x = 0%Z -> y = x.
Proof.
  destruct y as [cy oy sy], x as [cx ox sx]. unfold covers. simpl.
  intros (-> & -> & Hs) ->. destruct Hs as [->| ->]; done.
Qed.

Section Step1Again.
Context (E : Catalog).

(** How a tuple comes to be deleted by step 1: it is NORMAL or AUTO, or
    it is the INTERNAL tuple that leads back to the caller. *)
Lemma sever_outgoing_deleted_how d caller scan :
  forall owner st owner' st' j,
  sever_outgoing E d caller scan owner st = Ok (owner', st') ->
  j ∈ pending st' ->
  j ∈ pending st \/
  exists tup,
    visible_tuple E st j = Some tup /\
    (deptype tup = DEPENDENCY_NORMAL \/ deptype tup = DEPENDENCY_AUTO \/
     (deptype tup = DEPENDENCY_INTERNAL /\
      exists c, caller = Some c /\ called_from c (referenced tup) = true)).
Proof.
  induction scan as [|i scan IH]; intros owner st owner' st' j H Hj.
  - simpl in H. unfold ret in H. inversion H; subst. by left.
  - apply sever_outgoing_cons_Ok in H
      as [[_ H]|[(tup & st1 & Hv & Ht & Hdel & H)|(tup & c & _ & _ & _ & _ & _ & H)]].
    + eauto.
    + apply caql_delete_current_Ok in Hdel as (Hd & Hp & _).
      destruct (IH _ _ _ _ _ H Hj) as [Hj'|(tup' & Hv' & Ht')].
      * rewrite Hp in Hj'. apply elem_of_union in Hj' as [Hj'|?]; [|by left].
        apply elem_of_singleton in Hj' as ->. right. eauto.
      * right. exists tup'.
        by rewrite <- (visible_tuple_same_dead E st st1 j Hd).
    + eauto.
Qed.

(** If step 1 ends owned, the INTERNAL tuple that names the owner is
    still there. *)
Lemma sever_outgoing_owner_alive d caller scan :
  forall owner st o st',
  sever_outgoing E d caller scan owner st = Ok (Some o, st') ->
  owner = Some o \/
  exists j tj c,
    j ∈ scan /\ visible_tuple E st j = Some tj /\
    deptype tj = DEPENDENCY_INTERNAL /\ o = referenced tj /\
    caller = Some c /\ called_from c (referenced tj) = false /\
    (j ∉ pending st -> j ∉ pending st').
Proof.
  induction scan as [|i scan IH]; intros owner st o st' H.
  - simpl in H. unfold ret in H. inversion H. by left.
  - apply sever_outgoing_cons_Ok in H
      as [[_ H]|[(tup & st1 & Hv & Ht & Hdel & H)|(tup & c & Hv & Ht & Hc & Hcf & _ & H)]].
    + apply IH in H as [?|(j & tj & c & Hj & ?)]; [by left|].
      right. exists j, tj, c. split; [by right|done].
    + apply caql_delete_current_Ok in Hdel as (Hd & Hp & _).
      apply IH in H as [?|(j & tj & c & Hj & Hvj & Htj & Ho & Hc & Hcf & Hn)];
        [by left|].
      right. exists j, tj, c.
      rewrite (visible_tuple_same_dead E st st1 j Hd) in Hvj.
      split; [by right|]. do 5 (split; [done|]).
      intros Hnj. apply Hn. rewrite Hp. intros Hj'.
      apply elem_of_union in Hj' as [Hj'|?]; [|done].
      apply elem_of_singleton in Hj' as ->.
      assert (tj = tup) as -> by congruence.
      destruct Ht as [?|[?|(_ & c' & Hc' & Hcf')]]; [congruence..|].
      congruence.
    + right. exists i, tup, c.
      pose proof (sever_outgoing_stays_owned E _ _ _ _ _ _ _ H) as Ho.
      inversion Ho; subst o.
      split; [by left|]. do 5 (split; [done|]).
      intros Hn Hi.
      eapply sever_outgoing_deleted_how in Hi as [?|(tup' & Hv' & Ht')];
        [done| |exact H].
      assert (tup' = tup) as -> by congruence.
      destruct Ht' as [?|[?|(_ & c' & Hc' & Hcf')]]; congruence.
Qed.

Lemma involves_mono D D' x y :
  D ⊆ D' -> involves E D' x y -> involves E D x y.
Proof.
  intros Hsub. induction 1; [constructor| |].
  - eapply involves_dependent; eauto.
  - eapply involves_owner; eauto.
Qed.

Lemma involves_trans D x y z :
  involves E D x y -> involves E D y z -> involves E D x z.
Proof.
  intros Hxy Hyz. induction Hyz; [done| |].
  - eapply involves_dependent; eauto.
  - eapply involves_owner; eauto.
Qed.

(** What step 1 and the barrier after it have done to [dead]. *)
Lemma step1_dead object d caller st scan st0 owner st1 u st2 :
  caql_beginscan E SCAN_BY_DEPENDER object st = Ok (scan, st0) ->
  sever_outgoing E d caller scan None st0 = Ok (owner, st1) ->
  CommandCounterIncrement st1 = Ok (u, st2) ->
  pending st = ∅ ->
  forall i tup,
    i ∈ dead st2 -> i ∉ dead st -> pg_depend E !! i = Some tup ->
    deptype tup = DEPENDENCY_INTERNAL ->
    exists c, caller = Some c /\ covers c (referenced tup).
Proof.
  intros Hscan Hsever Hcci Hp i tup Hi Hn Hlook Ht.
  apply caql_beginscan_Ok in Hscan as (_ & Hd0 & Hp0 & _).
  past_descriptions.
  pose proof (sever_outgoing_frame E _ _ _ _ _ _ _ Hsever) as (Hd1 & _).
  apply CommandCounterIncrement_Ok in Hcci as (Hd2 & _).
  rewrite Hd2, Hd1, Hd0 in Hi. apply elem_of_union in Hi as [Hi|?]; [|done].
  eapply sever_outgoing_deleted_how in Hi as [Hi|(tup' & Hv & Ht')];
    [| |exact Hsever].
  - rewrite Hp0, Hp in Hi. set_solver.
  - apply visible_tuple_Some in Hv as [_ Hv].
    assert (tup' = tup) as -> by congruence.
    destruct Ht' as [?|[?|(_ & c & Hc & Hcf)]]; [congruence..|].
    exists c. split; [done|]. by apply called_from_covers.
Qed.

End Step1Again.

Section WhatIsDeleted.
Context (E : Catalog) (behavior : DropBehavior) (msglevel : elevel)
        (oktodelete : ObjectAddresses).
Context (Hwhole : internal_dependers_whole E).

(** What a run that returns has dropped and deleted, whatever the order
    of its scans: the target is dropped; the objects dropped are involved
    in the deletion of the target; all their tuples are dead; every tuple
    deleted is a tuple of an object dropped; and every INTERNAL tuple
    deleted led to the caller or to an object dropped. *)
Lemma Deletes_involves :
  (forall object caller st ok st',
      Deletes E behavior msglevel oktodelete object caller st ok st' ->
      pending st = ∅ ->
      exists new,
        drops st st' new /\ object ∈ new /\
        (forall x, x ∈ new -> involves E (dead st) object x) /\
        (forall x i tup,
            x ∈ new -> pg_depend E !! i = Some tup ->
            depender_matches x tup = true \/ reference_matches x tup = true ->
            i ∈ dead st') /\
        (forall i, i ∈ dead st' ->
           i ∈ dead st \/
           exists x tup, x ∈ new /\ pg_depend E !! i = Some tup /\
                         depender_matches x tup = true) /\
        (forall i tup,
            i ∈ dead st' -> i ∉ dead st -> pg_depend E !! i = Some tup ->
            deptype tup = DEPENDENCY_INTERNAL ->
            exists c, (c ∈ new \/ caller = Some c) /\
                      covers c (referenced tup))) /\
  (forall object d scan ok st ok' st',
      DeletesDependents E behavior msglevel oktodelete object d scan ok st
                        ok' st' ->
      pending st = ∅ ->
      (forall i, i ∈ scan ->
         exists tup, pg_depend E !! i = Some tup /\
                     reference_matches object tup = true) ->
      exists new,
        drops st st' new /\
        (forall x, x ∈ new -> involves E (dead st) object x) /\
        (forall x i tup,
            x ∈ new -> pg_depend E !! i = Some tup ->
            depender_matches x tup = true \/ reference_matches x tup = true ->
            i ∈ dead st') /\
        (forall i tup, i ∈ scan -> pg_depend E !! i = Some tup ->
                       i ∈ dead st') /\
        (forall i, i ∈ dead st' ->
           i ∈ dead st \/
           exists x tup, x ∈ new /\ pg_depend E !! i = Some tup /\
                         depender_matches x tup = true) /\
        (forall i tup,
            i ∈ dead st' -> i ∉ dead st -> pg_depend E !! i = Some tup ->
            deptype tup = DEPENDENCY_INTERNAL ->
            exists c, (c ∈ new \/ c = object) /\
                      covers c (referenced tup))).
Proof using Hwhole.
  apply Deletes_mutind.
  - (* owner *)
    intros object caller st d sd scan st0 owningObject st1 u st2 quiet st3 r
           st4
           Hd Hscan Hsever Hcci Hquiet Hcall IH Hp.
    pose proof Hd as Hd'. described Hd'.
    destruct (step1_Ok E _ _ _ _ _ _ _ _ _ _ Hscan Hsever Hcci Hp)
      as (Hp2 & Hdr2 & Hs2 & Hsub2 & Hnew2 & _).
    past_descriptions.
    pose proof (step1_dead E _ _ _ _ _ _ _ _ _ _ Hscan Hsever Hcci Hp)
      as Hint2.
    pose proof (fun i => elem_of_scan E _ _ _ _ _ i Hscan) as Hin.
    apply complain_Ok in Hquiet as (Hcore & _).
    apply core_eq in Hcore as (Hd3 & Hp3 & Hdr3 & Hs3).
    destruct IH as (new & Hdrops & Hown & Hinv & Hdead & Hnew & Hint);
      [congruence|].
    (* the tuple that names the owner *)
    pose proof (sever_outgoing_frame E _ _ _ _ _ _ _ Hsever) as (Hd1 & _).
    apply sever_outgoing_owner_alive in Hsever
      as [?|(j & tj & c & Hj & Hvj & Htj & -> & Hc & Hcf & Hnp)];
      [discriminate|].
    pose proof Hscan as (_ & Hd0 & Hp0 & _)%caql_beginscan_Ok.
    past_descriptions.
    pose proof Hvj as [Hnd Hlook]%visible_tuple_Some.
    apply Hin in Hj as (tj' & Hlook' & Hmj).
    assert (tj' = tj) as -> by congruence.
    assert (Hj2 : j ∉ dead st2).
    { apply CommandCounterIncrement_Ok in Hcci as (Hd2 & _).
      rewrite Hd2. intros [Hj2|Hj2]%elem_of_union.
      - revert Hj2. apply Hnp. rewrite Hp0, Hp. set_solver.
      - apply Hnd. by rewrite <- Hd1. }
    assert (Hself : object ∈ new).
    { assert (Hj4 : j ∈ dead st4).
      { apply (Hdead (referenced tj) j tj Hown Hlook). right.
        apply reference_matches_covers, covers_refl. }
      apply Hnew in Hj4 as [Hj4|(w & tw & Hw & Hlw & Hmw)];
        [rewrite Hd3 in Hj4; done|].
      assert (tw = tj) as -> by congruence.
      assert (Hz : objectSubId (depender tj) = 0%Z)
        by (simpl; eauto).
      apply depender_matches_covers in Hmw, Hmj.
      rewrite (covers_whole _ _ Hmj Hz).
      by rewrite <- (covers_whole _ _ Hmw Hz). }
    assert (Hstep : involves E (dead st) object (referenced tj)).
    { apply (involves_owner E (dead st) object object j tj);
        [constructor|done|by rewrite <- Hd0|done|done]. }
    exists new. split; [unfold drops in *; congruence|]. split; [done|].
    split; [|split; [|split]].
    + intros x Hx. eapply involves_trans; [exact Hstep|].
      apply (involves_mono E (dead st) (dead st3)); [|auto].
      by rewrite Hd3.
    + done.
    + intros i Hi. apply Hnew in Hi as [Hi|?]; [|by right].
      rewrite Hd3 in Hi. apply Hnew2 in Hi as [?|(Hi & _)]; [by left|].
      right. apply elem_of_tuples_of in Hi as (tup & Hi & Hm).
      exists object, tup. done.
    + intros i tup Hi Hn Hlk Ht.
      destruct (decide (i ∈ dead st2)) as [Hi2|Hi2].
      * destruct (Hint2 i tup Hi2 Hn Hlk Ht) as (c' & Hc' & Hcov).
        exists c'. split; [by right|done].
      * destruct (Hint i tup Hi) as (c' & [Hc'|Hc'] & Hcov);
          [by rewrite Hd3|done|done| |].
        -- exists c'. split; [by left|done].
        -- inversion Hc'; subst c'. exists object. split; [by left|done].
  - (* itself *)
    intros object caller st d sd scan st0 st1 u st2 scan' st3 ok st4 u'
           st5
           Hd Hscan Hsever Hcci Hscan' Hloop IH Hself Hp.
    pose proof Hd as Hd'. described Hd'.
    destruct (step1_Ok E _ _ _ _ _ _ _ _ _ _ Hscan Hsever Hcci Hp)
      as (Hp2 & Hdr2 & Hs2 & Hsub2 & Hnew2 & Hout).
    past_descriptions.
    pose proof (step1_dead E _ _ _ _ _ _ _ _ _ _ Hscan Hsever Hcci Hp)
      as Hint2.
    specialize (Hout eq_refl).
    pose proof (fun i => elem_of_scan E _ _ _ _ _ i Hscan') as Hin.
    apply caql_beginscan_Ok in Hscan' as (_ & Hd3 & Hp3 & Hdr3 & Hs3 & _).
    assert (Hp3' : pending st3 = ∅) by congruence.
    destruct (proj2 (Deletes_frame E behavior msglevel oktodelete)
                _ _ _ _ _ _ _ Hloop Hp3') as (Hp4 & Hsub4 & _).
    destruct IH as (new & Hdrops & Hinv & Hdead & Hscanned & Hnew & Hint);
      [done|by intros i Hi; apply Hin|].
    apply delete_object_itself_Ok in Hself as (Hd5 & Hp5 & Hdr5 & Hs5).
    rewrite Hp4 in Hd5. rewrite union_empty_l_L in Hd5.
    exists (object :: new). split; [|split; [by left|]].
    { unfold drops in *. rewrite Hdr5, Hdrops. simpl. congruence. }
    split; [|split; [|split]].
    + intros x Hx. apply elem_of_cons in Hx as [->|Hx]; [constructor|].
      apply (involves_mono E (dead st) (dead st3)); [|auto].
      rewrite Hd3. done.
    + intros x i tup Hx Hi Hm. rewrite Hd5.
      apply elem_of_cons in Hx as [->|Hx]; [|eauto].
      destruct Hm as [Hm|Hm].
      * apply Hsub4. rewrite Hd3. apply Hout.
        apply elem_of_tuples_of. eauto.
      * eapply Hscanned; eauto. apply Hin. eauto.
    + intros i Hi. rewrite Hd5 in Hi.
      apply Hnew in Hi as [Hi|(x & tup & Hx & Hi & Hm)].
      * rewrite Hd3 in Hi. apply Hnew2 in Hi as [?|(Hi & _)]; [by left|].
        right. apply elem_of_tuples_of in Hi as (tup & Hi & Hm).
        exists object, tup. split; [by left|done].
      * right. exists x, tup. split; [by right|done].
    + intros i tup Hi Hn Hlk Ht. rewrite Hd5 in Hi.
      destruct (decide (i ∈ dead st2)) as [Hi2|Hi2].
      * destruct (Hint2 i tup Hi2 Hn Hlk Ht) as (c' & Hc' & Hcov).
        exists c'. split; [by right|done].
      * destruct (Hint i tup Hi) as (c' & [Hc'|Hc'] & Hcov);
          [by rewrite Hd3|done|done| |].
        -- exists c'. split; [left; by right|done].
        -- subst c'. exists object. split; [left; by left|done].
  - (* done *)
    intros object d ok st Hp Hin. exists []. split; [done|].
    split; [intros x Hx; by apply elem_of_nil in Hx|].
    split; [intros x i tup Hx; by apply elem_of_nil in Hx|].
    split; [intros i tup Hi; by apply elem_of_nil in Hi|].
    split; [intros i Hi; by left|].
    intros i tup Hi Hn. done.
  - (* skip *)
    intros object d i scan ok st ok' st' Hv Hloop IH Hp Hin.
    destruct (proj2 (Deletes_frame E behavior msglevel oktodelete)
                _ _ _ _ _ _ _ Hloop Hp) as (_ & Hsub & _).
    destruct IH as (new & Hdrops & Hinv & Hdead & Hscanned & Hnew & Hint);
      [done|by intros j Hj; apply Hin; right|].
    exists new. split; [done|]. split; [done|]. split; [done|].
    split; [|done].
    intros j tup Hj Hjt. apply elem_of_cons in Hj as [->|Hj]; [|eauto].
    apply visible_tuple_None in Hv as [Hv|Hv]; [auto|congruence].
  - (* normal *)
    intros object d i scan ok st tup quiet st1 r st2 ok' st'
           Hv Ht Hquiet Hcall IH1 Hloop IH2 Hp Hin.
    apply complain_Ok in Hquiet as (Hcore & _).
    apply core_eq in Hcore as (Hd1 & Hp1 & Hdr1 & Hs1).
    assert (Hp1' : pending st1 = ∅) by congruence.
    destruct (proj1 (Deletes_frame E behavior msglevel oktodelete)
                _ _ _ _ _ Hcall Hp1') as (Hp2 & Hsub2 & _).
    destruct (proj2 (Deletes_frame E behavior msglevel oktodelete)
                _ _ _ _ _ _ _ Hloop Hp2) as (_ & Hsub' & _).
    pose proof Hv as [Hnd Hi]%visible_tuple_Some.
    destruct (Hin i) as (tup' & Hi' & Hm); [by left|].
    assert (tup' = tup) as -> by congruence.
    destruct IH1 as (new1 & Hdrops1 & Hself1 & Hinv1 & Hdead1 & Hnew1 & Hint1);
      [done|].
    destruct IH2
      as (new2 & Hdrops2 & Hinv2 & Hdead2 & Hscanned2 & Hnew2 & Hint2);
      [done|by intros j Hj; apply Hin; right|].
    assert (Hstep : involves E (dead st) object (depender tup)).
    { eapply involves_dependent; eauto. constructor. }
    exists (new2 ++ new1). split; [|split; [|split; [|split; [|split]]]].
    + unfold drops in *. rewrite Hdrops2, Hdrops1, Hdr1.
      by rewrite <- app_assoc.
    + intros x Hx. apply elem_of_app in Hx as [Hx|Hx].
      * apply (involves_mono E (dead st) (dead st2)); [|auto].
        rewrite <- Hd1. done.
      * eapply involves_trans; [exact Hstep|]. rewrite <- Hd1. auto.
    + intros x j tj Hx Hj Hmj. apply elem_of_app in Hx as [Hx|Hx]; [eauto|].
      apply Hsub'. eauto.
    + intros j tj Hj Hjt. apply elem_of_cons in Hj as [->|Hj]; [|eauto].
      apply Hsub'. apply (Hdead1 (depender tup) i tup); [done|done|].
      left. apply depender_matches_covers, covers_refl.
    + intros j Hj. apply Hnew2 in Hj as [Hj|(x & tj & Hx & Hj & Hmj)].
      * apply Hnew1 in Hj as [Hj|(x & tj & Hx & Hj & Hmj)].
        -- left. by rewrite <- Hd1.
        -- right. exists x, tj. split; [|done].
           apply elem_of_app. by right.
      * right. exists x, tj. split; [|done]. apply elem_of_app. by left.
    + intros j tj Hj Hn Hlk Htj.
      destruct (decide (j ∈ dead st2)) as [Hj2|Hj2].
      * destruct (Hint1 j tj Hj2) as (c' & [Hc'|Hc'] & Hcov);
          [by rewrite Hd1|done|done| |].
        -- exists c'. split; [|done]. left. apply elem_of_app. by right.
        -- inversion Hc'; subst c'. exists object. split; [by right|done].
      * destruct (Hint2 j tj Hj Hj2 Hlk Htj) as (c' & [Hc'|Hc'] & Hcov).
        -- exists c'. split; [|done]. left. apply elem_of_app. by left.
        -- exists c'. split; [by right|done].
  - (* silent *)
    intros object d i scan ok st tup od sd u st1 r st2 ok' st'
           Hv Ht Hod Hlog Hcall IH1 Hloop IH2 Hp Hin.
    pose proof Hod as Hod'. described Hod'.
    apply ereport_Ok in Hlog as (_ & Hcore & _).
    apply core_eq in Hcore as (Hd1 & Hp1 & Hdr1 & Hs1).
    past_descriptions.
    assert (Hp1' : pending st1 = ∅) by congruence.
    destruct (proj1 (Deletes_frame E behavior msglevel oktodelete)
                _ _ _ _ _ Hcall Hp1') as (Hp2 & Hsub2 & _).
    destruct (proj2 (Deletes_frame E behavior msglevel oktodelete)
                _ _ _ _ _ _ _ Hloop Hp2) as (_ & Hsub' & _).
    pose proof Hv as [Hnd Hi]%visible_tuple_Some.
    destruct (Hin i) as (tup' & Hi' & Hm); [by left|].
    assert (tup' = tup) as -> by congruence.
    destruct IH1 as (new1 & Hdrops1 & Hself1 & Hinv1 & Hdead1 & Hnew1 & Hint1);
      [done|].
    destruct IH2
      as (new2 & Hdrops2 & Hinv2 & Hdead2 & Hscanned2 & Hnew2 & Hint2);
      [done|by intros j Hj; apply Hin; right|].
    assert (Hstep : involves E (dead st) object (depender tup)).
    { eapply involves_dependent; eauto. constructor. }
    exists (new2 ++ new1). split; [|split; [|split; [|split; [|split]]]].
    + unfold drops in *. rewrite Hdrops2, Hdrops1, Hdr1.
      by rewrite <- app_assoc.
    + intros x Hx. apply elem_of_app in Hx as [Hx|Hx].
      * apply (involves_mono E (dead st) (dead st2)); [|auto].
        rewrite <- Hd1. done.
      * eapply involves_trans; [exact Hstep|]. rewrite <- Hd1. auto.
    + intros x j tj Hx Hj Hmj. apply elem_of_app in Hx as [Hx|Hx]; [eauto|].
      apply Hsub'. eauto.
    + intros j tj Hj Hjt. apply elem_of_cons in Hj as [->|Hj]; [|eauto].
      apply Hsub'. apply (Hdead1 (depender tup) i tup); [done|done|].
      left. apply depender_matches_covers, covers_refl.
    + intros j Hj. apply Hnew2 in Hj as [Hj|(x & tj & Hx & Hj & Hmj)].
      * apply Hnew1 in Hj as [Hj|(x & tj & Hx & Hj & Hmj)].
        -- left. by rewrite <- Hd1.
        -- right. exists x, tj. split; [|done].
           apply elem_of_app. by right.
      * right. exists x, tj. split; [|done]. apply elem_of_app. by left.
    + intros j tj Hj Hn Hlk Htj.
      destruct (decide (j ∈ dead st2)) as [Hj2|Hj2].
      * destruct (Hint1 j tj Hj2) as (c' & [Hc'|Hc'] & Hcov);
          [by rewrite Hd1|done|done| |].
        -- exists c'. split; [|done]. left. apply elem_of_app. by right.
        -- inversion Hc'; subst c'. exists object. split; [by right|done].
      * destruct (Hint2 j tj Hj Hj2 Hlk Htj) as (c' & [Hc'|Hc'] & Hcov).
        -- exists c'. split; [|done]. left. apply elem_of_app. by left.
        -- exists c'. split; [by right|done].
Qed.

End WhatIsDeleted.

Section Verdict.
Context (E : Catalog) (behavior : DropBehavior) (msglevel : elevel)
        (oktodelete : ObjectAddresses) (D0 : gset nat).
Context (Hwhole : internal_dependers_whole E).
Context (Hclosed : auto_closed E D0 oktodelete).

(** The AUTO and INTERNAL dependents of an object that [oktodelete]
    answers for are answered for as well. *)
Lemma closed_present object i tup :
  object_address_present object oktodelete = true ->
  pg_depend E !! i = Some tup -> i ∉ D0 ->
  reference_matches object tup = true ->
  silent_deptype (deptype tup) ->
  object_address_present (depender tup) oktodelete = true.
Proof using Hclosed.
  intros (z & Hz & Hc)%present_iff Hi Hn Hm Ht.
  apply (Hclosed z Hz i tup); auto.
  apply reference_matches_covers. eapply covers_trans; [exact Hc|].
  by apply reference_matches_covers.
Qed.

(** The value returned: [true] exactly when the objects dropped are
    answered for by [oktodelete], or the behavior is CASCADE. *)
Lemma Deletes_verdict :
  (forall object caller st ok st',
      Deletes E behavior msglevel oktodelete object caller st ok st' ->
      pending st = ∅ -> D0 ⊆ dead st ->
      exists new,
        drops st st' new /\
        (ok = true -> behavior = DROP_RESTRICT ->
         object_address_present object oktodelete = true ->
         all_present new oktodelete) /\
        (ok = false ->
         behavior = DROP_RESTRICT /\
         exists x, x ∈ new /\ object_address_present x oktodelete = false)) /\
  (forall object d scan ok st ok' st',
      DeletesDependents E behavior msglevel oktodelete object d scan ok st
                        ok' st' ->
      pending st = ∅ ->
      (forall i, i ∈ scan ->
         exists tup, pg_depend E !! i = Some tup /\
                     reference_matches object tup = true) ->
      D0 ⊆ dead st ->
      exists new,
        drops st st' new /\
        (ok' = true ->
         ok = true /\
         (behavior = DROP_RESTRICT ->
          object_address_present object oktodelete = true ->
          all_present new oktodelete)) /\
        (ok' = false ->
         ok = false \/
         (behavior = DROP_RESTRICT /\
          exists x, x ∈ new /\ object_address_present x oktodelete = false))).
Proof using Hwhole Hclosed.
  apply Deletes_mutind.
  - (* owner *)
    intros object caller st d sd scan st0 owningObject st1 u st2 quiet st3 r
           st4
           Hd Hscan Hsever Hcci Hquiet Hcall IH Hp HD.
    pose proof Hd as Hd'. described Hd'.
    destruct (step1_Ok E _ _ _ _ _ _ _ _ _ _ Hscan Hsever Hcci Hp)
      as (Hp2 & Hdr2 & Hs2 & Hsub2 & _).
    past_descriptions.
    apply complain_Ok in Hquiet as (Hcore & _ & _ & _ & Hq).
    apply core_eq in Hcore as (Hd3 & Hp3 & Hdr3 & Hs3).
    assert (Hp3' : pending st3 = ∅) by congruence.
    destruct (proj1 (Deletes_involves E behavior msglevel oktodelete Hwhole)
                _ _ _ _ _ Hcall Hp3') as (new_ & Hdrops_ & Hown & _).
    destruct IH as (new & Hdrops & Htrue & Hfalse);
      [done|rewrite Hd3; set_solver|].
    assert (new_ = new) as ->.
    { unfold drops in *. rewrite Hdrops in Hdrops_.
      by apply app_inv_tail in Hdrops_. }
    exists new. split; [unfold drops in *; congruence|]. split.
    + intros Hok Hb Hpres.
      apply andb_true_iff in Hok as [Hquiet ->].
      apply Htrue; [done|done|].
      rewrite Hq, Hb in Hquiet.
      rewrite bool_decide_eq_false_2 in Hquiet by done.
      by rewrite orb_false_r in Hquiet.
    + intros Hok. apply andb_false_iff in Hok as [Hquiet|Hr]; [|auto].
      rewrite Hq in Hquiet. apply orb_false_iff in Hquiet as [Hn Hb].
      apply bool_decide_eq_false in Hb.
      split; [by destruct behavior|]. eauto.
  - (* itself *)
    intros object caller st d sd scan st0 st1 u st2 scan' st3 ok st4 u'
           st5
           Hd Hscan Hsever Hcci Hscan' Hloop IH Hself Hp HD.
    pose proof Hd as Hd'. described Hd'.
    destruct (step1_Ok E _ _ _ _ _ _ _ _ _ _ Hscan Hsever Hcci Hp)
      as (Hp2 & Hdr2 & Hs2 & Hsub2 & _).
    past_descriptions.
    pose proof (fun i => elem_of_scan E _ _ _ _ _ i Hscan') as Hin.
    apply caql_beginscan_Ok in Hscan' as (_ & Hd3 & Hp3 & Hdr3 & Hs3 & _).
    destruct IH as (new & Hdrops & Htrue & Hfalse);
      [congruence|by intros i Hi; apply Hin|rewrite Hd3; set_solver|].
    apply delete_object_itself_Ok in Hself as (Hd5 & Hp5 & Hdr5 & Hs5).
    exists (object :: new). split; [|split].
    + unfold drops in *. rewrite Hdr5, Hdrops. simpl. congruence.
    + intros Hok Hb Hpres x Hx. destruct (Htrue Hok) as [_ Hall].
      apply elem_of_cons in Hx as [->|Hx]; [done|]. by apply Hall.
    + intros Hok. destruct (Hfalse Hok) as [?|(Hb & x & Hx & Hn)]; [done|].
      split; [done|]. exists x. split; [by right|done].
  - (* done *)
    intros object d ok st Hp Hin HD. exists []. split; [done|]. split.
    + intros Hok. split; [done|]. intros _ _ x Hx. by apply elem_of_nil in Hx.
    + intros Hok. by left.
  - (* skip *)
    intros object d i scan ok st ok' st' Hv Hloop IH Hp Hin HD.
    apply IH; auto. intros j Hj. apply Hin. by right.
  - (* normal *)
    intros object d i scan ok st tup quiet st1 r st2 ok' st'
           Hv Ht Hquiet Hcall IH1 Hloop IH2 Hp Hin HD.
    apply complain_Ok in Hquiet as (Hcore & _ & _ & _ & Hq).
    apply core_eq in Hcore as (Hd1 & Hp1 & Hdr1 & Hs1).
    assert (Hp1' : pending st1 = ∅) by congruence.
    destruct (proj1 (Deletes_frame E behavior msglevel oktodelete)
                _ _ _ _ _ Hcall Hp1') as (Hp2 & Hsub2 & _).
    destruct (proj1 (Deletes_involves E behavior msglevel oktodelete Hwhole)
                _ _ _ _ _ Hcall Hp1') as (new_ & Hdrops_ & Hown & _).
    pose proof Hv as [Hnd Hi]%visible_tuple_Some.
    destruct (Hin i) as (tup' & Hi' & Hm); [by left|].
    assert (tup' = tup) as -> by congruence.
    destruct IH1 as (new1 & Hdrops1 & Htrue1 & Hfalse1);
      [done|by rewrite Hd1|].
    assert (new_ = new1) as ->.
    { unfold drops in *. rewrite Hdrops1 in Hdrops_.
      by apply app_inv_tail in Hdrops_. }
    destruct IH2 as (new2 & Hdrops2 & Htrue2 & Hfalse2);
      [done|by intros j Hj; apply Hin; right|
       rewrite Hd1 in Hsub2; set_solver|].
    exists (new2 ++ new1). split; [|split].
    + unfold drops in *. rewrite Hdrops2, Hdrops1, Hdr1.
      by rewrite <- app_assoc.
    + intros Hok. destruct (Htrue2 Hok) as [Hall Hnew2].
      apply andb_true_iff in Hall as [Hall ->].
      apply andb_true_iff in Hall as [-> Hquiet].
      split; [done|]. intros Hb Hpres x Hx.
      assert (Hdep : object_address_present (depender tup) oktodelete = true).
      { rewrite Hq in Hquiet. rewrite Hb in Hquiet.
        rewrite bool_decide_eq_false_2 in Hquiet by done.
        by rewrite orb_false_r in Hquiet. }
      apply elem_of_app in Hx as [Hx|Hx]; [by apply Hnew2|].
      by apply Htrue1.
    + intros Hok. destruct (Hfalse2 Hok) as [Hall|(Hb & x & Hx & Hn)].
      * apply andb_false_iff in Hall as [Hall|Hr].
        -- apply andb_false_iff in Hall as [?|Hquiet]; [by left|].
           right. rewrite Hq in Hquiet.
           apply orb_false_iff in Hquiet as [Hn Hb].
           apply bool_decide_eq_false in Hb.
           split; [by destruct behavior|].
           exists (depender tup). split; [|done].
           apply elem_of_app. by right.
        -- right. destruct (Hfalse1 Hr) as (Hb & x & Hx & Hn).
           split; [done|]. exists x. split; [|done].
           apply elem_of_app. by right.
      * right. split; [done|]. exists x. split; [|done].
        apply elem_of_app. by left.
  - (* silent *)
    intros object d i scan ok st tup od sd u st1 r st2 ok' st'
           Hv Ht Hod Hlog Hcall IH1 Hloop IH2 Hp Hin HD.
    pose proof Hod as Hod'. described Hod'.
    apply ereport_Ok in Hlog as (_ & Hcore & _).
    apply core_eq in Hcore as (Hd1 & Hp1 & Hdr1 & Hs1).
    past_descriptions.
    assert (Hp1' : pending st1 = ∅) by congruence.
    destruct (proj1 (Deletes_frame E behavior msglevel oktodelete)
                _ _ _ _ _ Hcall Hp1') as (Hp2 & Hsub2 & _).
    pose proof Hv as [Hnd Hi]%visible_tuple_Some.
    destruct (Hin i) as (tup' & Hi' & Hm); [by left|].
    assert (tup' = tup) as -> by congruence.
    destruct IH1 as (new1 & Hdrops1 & Htrue1 & Hfalse1);
      [done|by rewrite Hd1|].
    destruct IH2 as (new2 & Hdrops2 & Htrue2 & Hfalse2);
      [done|by intros j Hj; apply Hin; right|
       rewrite Hd1 in Hsub2; set_solver|].
    exists (new2 ++ new1). split; [|split].
    + unfold drops in *. rewrite Hdrops2, Hdrops1, Hdr1.
      by rewrite <- app_assoc.
    + intros Hok. destruct (Htrue2 Hok) as [Hall Hnew2].
      apply andb_true_iff in Hall as [-> ->].
      split; [done|]. intros Hb Hpres x Hx.
      assert (Hdep : object_address_present (depender tup) oktodelete = true).
      { eapply closed_present; eauto. }
      apply elem_of_app in Hx as [Hx|Hx]; [by apply Hnew2|].
      by apply Htrue1.
    + intros Hok. destruct (Hfalse2 Hok) as [Hall|(Hb & x & Hx & Hn)].
      * apply andb_false_iff in Hall as [?|Hr]; [by left|].
        right. destruct (Hfalse1 Hr) as (Hb & x & Hx & Hn).
        split; [done|]. exists x. split; [|done].
        apply elem_of_app. by right.
      * right. split; [done|]. exists x. split; [|done].
        apply elem_of_app. by left.
Qed.

End Verdict.

Section Reorder.
Context (E : Catalog) (rank' : ScanKey -> ObjectAddress -> nat -> nat).

Lemma auto_reaches_reorder D root x :
  auto_reaches (reorder E rank') D root x <-> auto_reaches E D root x.
Proof.
  split; (induction 1; [constructor|]); eapply auto_reaches_step; eauto.
Qed.

Lemma involves_reorder D root x :
  involves (reorder E rank') D root x <-> involves E D root x.
Proof.
  split; (induction 1; [constructor| |]);
    solve [eapply involves_dependent; eauto
          |eapply involves_owner; eauto].
Qed.

Lemma internal_dependers_whole_reorder :
  internal_dependers_whole E ->
  internal_dependers_whole (reorder E rank').
Proof. intros Hw i tup. apply (Hw i tup). Qed.

End Reorder.

Section Characterisation.
Context (E : Catalog).

(** Every object that the deletion of the target involves is answered
    for by an object dropped, when the tuples of the objects dropped are
    dead, the tuples deleted are tuples of objects dropped, and the
    INTERNAL tuples deleted led to objects dropped. *)
Lemma involves_dropped (D D' : gset nat) object (new : list ObjectAddress) :
  object ∈ new ->
  (forall x i tup,
      x ∈ new -> pg_depend E !! i = Some tup ->
      depender_matches x tup = true \/ reference_matches x tup = true ->
      i ∈ D') ->
  (forall i, i ∈ D' ->
     i ∈ D \/
     exists x tup, x ∈ new /\ pg_depend E !! i = Some tup /\
                   depender_matches x tup = true) ->
  (forall i tup,
      i ∈ D' -> i ∉ D -> pg_depend E !! i = Some tup ->
      deptype tup = DEPENDENCY_INTERNAL ->
      exists c, (c ∈ new \/ @None ObjectAddress = Some c) /\
                covers c (referenced tup)) ->
  forall x, involves E D object x -> exists y, y ∈ new /\ covers y x.
Proof.
  intros Hroot Hdead Hnew Hint x Hx.
  induction Hx as [|x i tup Hx IH Hi Hn Hm|x i tup Hx IH Hi Hn Ht Hm].
  - exists object. split; [done|apply covers_refl].
  - destruct IH as (y & Hy & Hc).
    assert (Hd : i ∈ D').
    { apply (Hdead y i tup Hy Hi). right.
      apply reference_matches_covers. eapply covers_trans; [exact Hc|].
      by apply reference_matches_covers. }
    apply Hnew in Hd as [?|(z & tz & Hz & Hiz & Hmz)]; [done|].
    assert (tz = tup) as -> by congruence.
    exists z. split; [done|]. by apply depender_matches_covers.
  - destruct IH as (y & Hy & Hc).
    assert (Hd : i ∈ D').
    { apply (Hdead y i tup Hy Hi). left.
      apply depender_matches_covers. eapply covers_trans; [exact Hc|].
      by apply depender_matches_covers. }
    destruct (Hint i tup Hd Hn Hi Ht) as (c & [Hc'|Hc'] & Hcov);
      [|discriminate].
    exists c. done.
Qed.

(** An object that depends on the target through AUTO and INTERNAL
    tuples is answered for by every closed list that answers for the
    target. *)
Lemma auto_reaches_present D okt object x :
  auto_closed E D okt ->
  object_address_present object okt = true ->
  auto_reaches E D object x ->
  object_address_present x okt = true.
Proof.
  intros Hclosed Hroot Hx. induction Hx as [|x i tup Hx IH Hi Hn Hm Ht].
  - done.
  - eapply closed_present; eauto.
Qed.

End Characterisation.

Section PrescanErrors.
Context (E : Catalog).

Lemma find_auto_scan_Err recurse object :
  (forall other okt st e, recurse other okt st = Err e -> raised_inside e) ->
  forall scan okt st e,
  find_auto_scan E recurse object scan okt st = Err e -> raised_inside e.
Proof.
  intros Hrec. induction scan as [|i scan IH]; intros okt st e H.
  - discriminate.
  - rewrite find_auto_scan_cons in H.
    destruct (visible_tuple E st i) as [tup|]; [|eauto].
    destruct (deptype tup); eauto.
    + apply bind_Err in H as [H|(? & ? & _ & H)]; eauto.
    + apply bind_Err in H as [H|(? & ? & _ & H)]; eauto.
    + apply bind_Err in H as [H|(? & ? & _ & H)].
      * by eapply getObjectDescription_Err.
      * inversion H. exact I.
    + apply bind_Err in H as [H|(? & ? & _ & H)].
      * by eapply getObjectDescription_Err.
      * inversion H. exact I.
Qed.

Lemma findAutoDeletableObjects_Err fuel :
  forall object okt addself st e,
  findAutoDeletableObjects E fuel object okt addself st = Err e ->
  raised_inside e.
Proof.
  induction fuel as [|f IH]; intros object okt addself st e H.
  - discriminate.
  - simpl in H. destruct (object_address_present object okt); [discriminate|].
    apply bind_Err in H as [H|(? & ? & _ & H)]; [discriminate|].
    eapply find_auto_scan_Err; [|exact H]. intros other okt0 st0 e0 H0.
    simpl in H0. eauto.
Qed.

(** [performDeletion] refuses with "other objects depend on it" only
    after the pass has returned [false]. *)
Lemma performDeletion_refused fuel object behavior st d :
  performDeletion E fuel object behavior st
    = Err (ERR_other_objects_depend d) ->
  exists sd okt st1 st2 st3,
    getObjectDescription E object st = Ok (d, sd) /\
    findAutoDeletableObjects E fuel object new_object_addresses true sd
      = Ok (okt, st1) /\
    set_alreadyDeleted None st1 = Ok (tt, st2) /\
    recursiveDeletion E fuel object behavior NOTICE None okt st2
      = Ok (false, st3).
Proof.
  unfold performDeletion. intros H.
  apply bind_Err in H as [H|(d' & st_d & Hd & H)].
  { apply getObjectDescription_Err in H. destruct H. }
  apply bind_Err in H as [H|(okt & st1 & Hfind & H)].
  { apply findAutoDeletableObjects_Err in H. destruct H. }
  apply bind_Err in H as [H|([] & st2 & Hset & H)]; [discriminate|].
  apply bind_Err in H as [H|(ok & st3 & Hrec & H)].
  { apply recursiveDeletion_Err in H. destruct H. }
  destruct ok; [discriminate|]. unfold raise in H. inversion H; subst.
  eauto 10.
Qed.

End PrescanErrors.

Section TwoOrders.
Context (E : Catalog) (rank' : ScanKey -> ObjectAddress -> nat -> nat).
Context (Hwhole : internal_dependers_whole E).

(** The pre-scan and the deletion pass in two scan orders, from the same
    state. *)
Lemma two_orders object behavior st fuel fuel' okt okt' stp stp' stq stq'
    ok ok' st1 st1' :
  pending st = ∅ ->
  findAutoDeletableObjects E fuel object new_object_addresses true st
    = Ok (okt, stp) ->
  findAutoDeletableObjects (reorder E rank') fuel' object
                           new_object_addresses true st
    = Ok (okt', stp') ->
  core stq = core stp -> core stq' = core stp' ->
  recursiveDeletion E fuel object behavior NOTICE None okt stq
    = Ok (ok, st1) ->
  recursiveDeletion (reorder E rank') fuel' object behavior NOTICE None
                    okt' stq' = Ok (ok', st1') ->
  (forall x, object_address_present x okt = object_address_present x okt') /\
  ok = ok' /\
  dead st1 = dead st1' /\
  exists new new',
    drops st st1 new /\ drops st st1' new' /\
    all_present new new' /\ all_present new' new /\
    forall x, objectSubId x = 0%Z -> (x ∈ new <-> x ∈ new').
Proof using Hwhole.
  intros Hp Hfind Hfind' Hcore Hcore' Hrec Hrec'.
  pose proof (internal_dependers_whole_reorder E rank' Hwhole) as Hwhole'.
  apply findAutoDeletableObjects_post in Hfind
    as ((Hdp & Hpp & Hdrp & _ & _ & added & Hokt & Hauto & Hsilent & _)
        & Hself & _).
  apply findAutoDeletableObjects_post in Hfind'
    as ((Hdp' & Hpp' & Hdrp' & _ & _ & added' & Hokt' & Hauto' & Hsilent' & _)
        & Hself' & _).
  specialize (Hself eq_refl). specialize (Hself' eq_refl).
  simpl in Hokt, Hokt'. subst added added'.
  apply core_eq in Hcore as (Hdq & Hpq & Hdrq & _).
  apply core_eq in Hcore' as (Hdq' & Hpq' & Hdrq' & _).
  assert (Hclosed : auto_closed E (dead st) okt) by exact Hsilent.
  assert (Hclosed' : auto_closed (reorder E rank') (dead st) okt')
    by exact Hsilent'.
  assert (Hclosed_ : auto_closed E (dead st) okt') by exact Hsilent'.
  (* the two lists answer for the same addresses *)
  assert (Hsame : forall x, object_address_present x okt
                            = object_address_present x okt').
  { assert (Hto : forall x, object_address_present x okt = true ->
                            object_address_present x okt' = true).
    { intros x (z & Hz & Hc)%present_iff.
      apply (present_covered z x); [done|].
      apply (auto_reaches_present E (dead st) okt' object); auto. }
    assert (Hfrom : forall x, object_address_present x okt' = true ->
                              object_address_present x okt = true).
    { intros x (z & Hz & Hc)%present_iff.
      apply (present_covered z x); [done|].
      apply (auto_reaches_present E (dead st) okt object); auto.
      apply (auto_reaches_reorder E rank'). auto. }
    intros x. destruct (object_address_present x okt) eqn:H1.
    - symmetry. auto.
    - destruct (object_address_present x okt') eqn:H2; [|done].
      apply Hfrom in H2. congruence. }
  (* the two runs *)
  apply recursiveDeletion_Deletes in Hrec.
  apply recursiveDeletion_Deletes in Hrec'.
  assert (Hpq0 : pending stq = ∅) by congruence.
  assert (Hpq0' : pending stq' = ∅) by congruence.
  destruct (proj1 (Deletes_frame E behavior NOTICE okt)
              _ _ _ _ _ Hrec Hpq0) as (_ & Hmono & _).
  destruct (proj1 (Deletes_frame (reorder E rank') behavior NOTICE okt')
              _ _ _ _ _ Hrec' Hpq0') as (_ & Hmono' & _).
  destruct (proj1 (Deletes_involves E behavior NOTICE okt Hwhole)
              _ _ _ _ _ Hrec Hpq0)
    as (new & Hdrops & Hroot & Hinv & Hdead & Hnew & Hint).
  destruct (proj1 (Deletes_involves (reorder E rank') behavior NOTICE okt'
                     Hwhole') _ _ _ _ _ Hrec' Hpq0')
    as (new' & Hdrops' & Hroot' & Hinv' & Hdead' & Hnew' & Hint').
  destruct (proj1 (Deletes_verdict E behavior NOTICE okt (dead st) Hwhole
                     Hclosed) _ _ _ _ _ Hrec Hpq0)
    as (new_ & Hdrops_ & Htrue & Hfalse); [by rewrite Hdq, Hdp|].
  destruct (proj1 (Deletes_verdict (reorder E rank') behavior NOTICE okt'
                     (dead st) Hwhole' Hclosed') _ _ _ _ _ Hrec' Hpq0')
    as (new_' & Hdrops_' & Htrue' & Hfalse'); [by rewrite Hdq', Hdp'|].
  assert (new_ = new) as ->.
  { unfold drops in *. rewrite Hdrops in Hdrops_.
    by apply app_inv_tail in Hdrops_. }
  assert (new_' = new') as ->.
  { unfold drops in *. rewrite Hdrops' in Hdrops_'.
    by apply app_inv_tail in Hdrops_'. }
  simpl in Hdead', Hnew', Hint'.
  (* either set of objects answers for the other *)
  assert (Hcov : forall x, x ∈ new -> exists y, y ∈ new' /\ covers y x).
  { intros x Hx.
    apply (involves_dropped E (dead stq') (dead st1') object);
      [done|exact Hdead'|exact Hnew'|exact Hint'|].
    rewrite Hdq', Hdp', <- Hdp, <- Hdq. auto. }
  assert (Hcov' : forall x, x ∈ new' -> exists y, y ∈ new /\ covers y x).
  { intros x Hx.
    apply (involves_dropped E (dead stq) (dead st1) object);
      [done|exact Hdead|exact Hnew|exact Hint|].
    rewrite Hdq, Hdp, <- Hdp', <- Hdq'.
    apply (involves_reorder E rank'). auto. }
  split; [exact Hsame|]. split; [|split].
  - (* the value *)
    destruct ok, ok'; try done.
    + destruct (Hfalse' eq_refl) as (Hb & x & Hx & Hn).
      destruct (Hcov' x Hx) as (y & Hy & Hc).
      rewrite <- Hsame in Hn.
      assert (object_address_present y okt = true) by (by apply Htrue).
      apply (present_covered y x) in H; [congruence|done].
    + destruct (Hfalse eq_refl) as (Hb & x & Hx & Hn).
      destruct (Hcov x Hx) as (y & Hy & Hc).
      rewrite Hsame in Hn.
      assert (object_address_present y okt' = true) by (by apply Htrue').
      apply (present_covered y x) in H; [congruence|done].
  - (* the tuples deleted *)
    apply set_eq. intros i. split; intros Hi.
    + apply Hnew in Hi as [Hi|(x & tup & Hx & Hi & Hm)].
      * apply Hmono'. rewrite Hdq', Hdp', <- Hdp, <- Hdq. done.
      * destruct (Hcov x Hx) as (y & Hy & Hc).
        apply (Hdead' y i tup Hy Hi). left.
        apply depender_matches_covers. eapply covers_trans; [exact Hc|].
        by apply depender_matches_covers.
    + apply Hnew' in Hi as [Hi|(x & tup & Hx & Hi & Hm)].
      * apply Hmono. rewrite Hdq, Hdp, <- Hdp', <- Hdq'. done.
      * destruct (Hcov' x Hx) as (y & Hy & Hc).
        apply (Hdead y i tup Hy Hi). left.
        apply depender_matches_covers. eapply covers_trans; [exact Hc|].
        by apply depender_matches_covers.
  - exists new, new'.
    split; [unfold drops in *; congruence|].
    split; [unfold drops in *; congruence|].
    split; [|split].
    + intros x Hx. apply present_iff. by apply Hcov.
    + intros x Hx. apply present_iff. by apply Hcov'.
    + intros x Hz. split; intros Hx.
      * destruct (Hcov x Hx) as (y & Hy & Hc).
        by rewrite <- (covers_whole y x Hc Hz).
      * destruct (Hcov' x Hx) as (y & Hy & Hc).
        by rewrite <- (covers_whole y x Hc Hz).
Qed.

End TwoOrders.

(** C1 (as amended).  Let the dependers of the INTERNAL tuples be whole
    objects, and take the pre-scan and the deletion pass in two scan orders
    from the same state.
    (1) When both passes return: the two [oktodelete] lists answer for
        the same addresses, the passes return the same value, delete the
        same pg_depend tuples and drop the same whole objects; a
        sub-object dropped in one order is dropped in the other, or the
        object it belongs to is.
    (2) The same for two [performDeletion] that return.
    (3) [performDeletion] does not return in one order and refuse with
        "other objects depend on it" in the other. *)
Theorem deletion_order_independent
    (E : Catalog) (rank' : ScanKey -> ObjectAddress -> nat -> nat)
    (object : ObjectAddress) (behavior : DropBehavior) (st : DB)
    (fuel fuel' : nat) :
  internal_dependers_whole E ->
  pending st = ∅ ->
  (forall okt okt' stp stp' ok ok' st1 st1',
      findAutoDeletableObjects E fuel object new_object_addresses true st
        = Ok (okt, stp) ->
      findAutoDeletableObjects (reorder E rank') fuel' object
                               new_object_addresses true st
        = Ok (okt', stp') ->
      recursiveDeletion E fuel object behavior NOTICE None okt stp
        = Ok (ok, st1) ->
      recursiveDeletion (reorder E rank') fuel' object behavior NOTICE None
                        okt' stp' = Ok (ok', st1') ->
      (forall x, object_address_present x okt
                 = object_address_present x okt') /\
      ok = ok' /\
      dead st1 = dead st1' /\
      exists new new',
        drops st st1 new /\ drops st st1' new' /\
        all_present new new' /\ all_present new' new /\
        forall x, objectSubId x = 0%Z -> (x ∈ new <-> x ∈ new')) /\
  (forall u u' st1 st1',
      performDeletion E fuel object behavior st = Ok (u, st1) ->
      performDeletion (reorder E rank') fuel' object behavior st
        = Ok (u', st1') ->
      dead st1 = dead st1' /\
      exists new new',
        drops st st1 new /\ drops st st1' new' /\
        all_present new new' /\ all_present new' new /\
        forall x, objectSubId x = 0%Z -> (x ∈ new <-> x ∈ new')) /\
  (forall u st1 d,
      (performDeletion E fuel object behavior st = Ok (u, st1) ->
       performDeletion (reorder E rank') fuel' object behavior st
         <> Err (ERR_other_objects_depend d)) /\
      (performDeletion (reorder E rank') fuel' object behavior st
         = Ok (u, st1) ->
       performDeletion E fuel object behavior st
         <> Err (ERR_other_objects_depend d))).
Proof.
  intros Hex Hp. split; [|split].
  - intros okt okt' stp stp' ok ok' st1 st1' Hfind Hfind' Hrec Hrec'.
    by apply (two_orders E rank' Hex object behavior st fuel fuel'
                okt okt' stp stp' stp stp' ok ok' st1 st1').
  - intros u u' st1 st1' Hrun Hrun'.
    apply performDeletion_Ok in Hrun
      as (d & sd & okt & stp & stq & Hd & Hfind & Hset & Hrec).
    apply performDeletion_Ok in Hrun'
      as (d' & sd' & okt' & stp' & stq' & Hd' & Hfind' & Hset' & Hrec').
    change (getObjectDescription E object st = Ok (d', sd')) in Hd'.
    rewrite Hd in Hd'. injection Hd' as <- <-. described Hd.
    apply set_alreadyDeleted_Ok in Hset as [Hcore _].
    apply set_alreadyDeleted_Ok in Hset' as [Hcore' _].
    by destruct (two_orders E rank' Hex object behavior
                   (described_in (described_class d) st) fuel fuel'
                   okt okt' stp stp' stq stq' true true st1 st1')
      as (_ & _ & ? & ?).
  - intros u st1 d. split; intros Hrun Hrun'.
    + apply performDeletion_Ok in Hrun
        as (d0 & sd & okt & stp & stq & Hd & Hfind & Hset & Hrec).
      apply performDeletion_refused in Hrun'
        as (sd' & okt' & stp' & stq' & st1' & Hd' & Hfind' & Hset' & Hrec').
      change (getObjectDescription E object st = Ok (d, sd')) in Hd'.
      rewrite Hd in Hd'. injection Hd' as <- <-. described Hd.
      apply set_alreadyDeleted_Ok in Hset as [Hcore _].
      apply set_alreadyDeleted_Ok in Hset' as [Hcore' _].
      by destruct (two_orders E rank' Hex object behavior
                     (described_in (described_class d0) st) fuel fuel'
                     okt okt' stp stp' stq stq' true false st1 st1')
        as (_ & ? & _).
    + apply performDeletion_Ok in Hrun
        as (d0 & sd' & okt' & stp' & stq' & Hd' & Hfind' & Hset' & Hrec').
      apply performDeletion_refused in Hrun'
        as (sd & okt & stp & stq & st0 & Hd & Hfind & Hset & Hrec).
      change (getObjectDescription E object st = Ok (d0, sd')) in Hd'.
      rewrite Hd in Hd'. injection Hd' as <- <-. described Hd.
      apply set_alreadyDeleted_Ok in Hset as [Hcore _].
      apply set_alreadyDeleted_Ok in Hset' as [Hcore' _].
      by destruct (two_orders E rank' Hex object behavior
                     (described_in (described_class d) st) fuel fuel'
                     okt okt' stp stp' stq stq' false true st0 st1)
        as (_ & ? & _).
Qed.

Lemma foreign_key_whole : internal_dependers_whole foreign_key_catalog.
Proof.
  intros i tup Hi Ht.
  destruct i as [|[|[|i]]]; simpl in Hi; inversion Hi; subst; discriminate.
Qed.

Lemma view_rule_whole : internal_dependers_whole view_rule_catalog.
Proof.
  intros i tup Hi Ht.
  destruct i as [|[|[|[|i]]]]; simpl in Hi; inversion Hi; subst;
    done || discriminate.
Qed.

(** [DROP VIEW 16500 CASCADE] in heap order and in the reverse order: the
    first hands the view to [doDeletion] twice, the second once. *)
Lemma deletion_order_independent_witness :
  internal_dependers_whole view_rule_catalog /\
  pending initial_DB = ∅ /\
  exists st1 st1',
    performDeletion view_rule_catalog 10 (table 16500) DROP_CASCADE
                    initial_DB = Ok (tt, st1) /\
    performDeletion (reorder view_rule_catalog reverse_heap_order) 10
                    (table 16500) DROP_CASCADE initial_DB = Ok (tt, st1') /\
    dropped st1
    = [table 16500; type 16502; function 3001; table 16500; rule 16504] /\
    dropped st1'
    = [table 16500; type 16502; function 3001; rule 16504] /\
    dead st1 = dead st1' /\
    exists new new',
      drops initial_DB st1 new /\ drops initial_DB st1' new' /\
      all_present new new' /\ all_present new' new /\
      forall x, objectSubId x = 0%Z -> (x ∈ new <-> x ∈ new').
Proof.
  split; [exact view_rule_whole|]. split; [reflexivity|].
  eexists. eexists.
  split; [vm_compute; reflexivity|]. split; [vm_compute; reflexivity|].
  split; [reflexivity|]. split; [reflexivity|].
  eapply (proj1 (proj2 (deletion_order_independent
                          view_rule_catalog reverse_heap_order
                          (table 16500) DROP_CASCADE initial_DB 10 10
                          view_rule_whole eq_refl)));
    vm_compute; reflexivity.
Defined.

(** The claim as stated fails for the violations reported: under
    RESTRICT, the pass that visits table 16500 first reports it alone, its
    constraint 16600 going with it silently; the pass that visits the
    constraint first reports both.  The objects dropped are the same.
    (When a column is an INTERNAL dependent, the objects dropped depend on
    the order as well: [DROP TYPE 16402 CASCADE] drops table 16384 in one
    order and leaves it in the other.) *)
Lemma violations_depend_on_order :
  internal_dependers_whole foreign_key_catalog /\
  (exists stp stp' st1 st1',
    findAutoDeletableObjects foreign_key_catalog 10 (table 16384)
                             new_object_addresses true initial_DB
      = Ok ([table 16384], stp) /\
    findAutoDeletableObjects (reorder foreign_key_catalog reverse_heap_order)
                             10 (table 16384) new_object_addresses true
                             initial_DB
      = Ok ([table 16384], stp') /\
    recursiveDeletion foreign_key_catalog 10 (table 16384) DROP_RESTRICT
                      NOTICE None [table 16384] stp = Ok (false, st1) /\
    recursiveDeletion (reorder foreign_key_catalog reverse_heap_order) 10
                      (table 16384) DROP_RESTRICT NOTICE None [table 16384]
                      stp' = Ok (false, st1') /\
    dropped st1 = dropped st1' /\
    violations st1 = [table 16500] /\
    violations st1' = [table 16500; constraint 16600] /\
    ~ (forall x, x ∈ violations st1 <-> x ∈ violations st1')) /\
  exists st2 st2',
    performDeletion column_owner_catalog 10 (type 16402) DROP_CASCADE
                    initial_DB = Ok (tt, st2) /\
    performDeletion (reorder column_owner_catalog reverse_heap_order) 10
                    (type 16402) DROP_CASCADE initial_DB = Ok (tt, st2') /\
    dropped st2 = [type 16402; function 3001; column 16384 3] /\
    dropped st2'
    = [type 16402; table 16384; function 3001; column 16384 3].
Proof.
  split; [exact foreign_key_whole|].
  split;
    [|do 2 eexists;
      split; [vm_compute; reflexivity|]; split; [vm_compute; reflexivity|];
      split; reflexivity].
  do 4 eexists.
  split; [vm_compute; reflexivity|]. split; [vm_compute; reflexivity|].
  split; [vm_compute; reflexivity|]. split; [vm_compute; reflexivity|].
  split; [reflexivity|]. split; [reflexivity|]. split; [reflexivity|].
  intros H. specialize (H (constraint 16600)).
  assert (Hin : constraint 16600 ∈ [table 16500; constraint 16600])
    by set_solver.
  apply H in Hin. apply list_elem_of_singleton in Hin. discriminate.
Qed.

(* ===================================================================== *)
(** * Part XIV.  More on address lists                                    *)
(* ===================================================================== *)

(** ** The comparator as an argument of [qsort] *)

Lemma comparator_values a b :
  object_address_comparator a b = (-1)%Z \/
  object_address_comparator a b = 0%Z \/
  object_address_comparator a b = 1%Z.
Proof.
  unfold object_address_comparator.
  repeat match goal with
         | |- context [if ?c then _ else _] => destruct c
         end; auto.
Qed.

Lemma comparator_flip a b :
  object_address_comparator b a = (- object_address_comparator a b)%Z.
Proof.
  unfold object_address_comparator. rewrite !Z.gtb_ltb.
  repeat match goal with
         | |- context [(?x <? ?y)%Z] => destruct (Z.ltb_spec x y)
         end; lia.
Qed.

(** X1.  The comparator is a three-way comparison of a total order: it
    returns -1, 0 or 1; swapping the arguments negates the result; "not
    after" is transitive; and on 32-bit sub-ids it returns 0 for equal
    addresses only. *)
Theorem object_address_comparator_total_order (a b c : ObjectAddress) :
  is_int32 (objectSubId a) -> is_int32 (objectSubId b) ->
  (object_address_comparator a b = (-1)%Z \/
   object_address_comparator a b = 0%Z \/
   object_address_comparator a b = 1%Z) /\
  object_address_comparator b a = (- object_address_comparator a b)%Z /\
  (object_address_comparator a b = 0%Z <-> a = b) /\
  ((object_address_comparator a b <= 0)%Z ->
   (object_address_comparator b c <= 0)%Z ->
   (object_address_comparator a c <= 0)%Z) /\
  ((object_address_comparator a b < 0)%Z ->
   (object_address_comparator b c <= 0)%Z ->
   (object_address_comparator a c < 0)%Z).
Proof.
  intros Ha Hb. split; [apply comparator_values|].
  split; [apply comparator_flip|]. split; [|split].
  - rewrite comparator_zero_iff. split.
    + intros (Hc & Ho & Hs). destruct a, b; simpl in *. subst.
      f_equal. by apply to_unsigned_inj.
    + by intros ->.
  - intros Hab Hbc.
    apply (comparator_le_trans a b c); done.
  - intros Hab Hbc.
    assert (Hac : comparator_le object_address_comparator a c).
    { apply (comparator_le_trans a b c); [unfold comparator_le; lia|done]. }
    assert (Hne : object_address_comparator a c <> 0%Z).
    { intros Hz. apply comparator_zero_iff in Hz as (Hc & Ho & Hs).
      assert (Hca : comparator_le object_address_comparator c a).
      { apply comparator_le_iff. unfold addr_le. lia. }
      assert (Hba : comparator_le object_address_comparator b a).
      { apply (comparator_le_trans b c a); done. }
      unfold comparator_le in Hba. rewrite comparator_flip in Hba. lia. }
    unfold comparator_le in Hac. lia.
Qed.

Lemma object_address_comparator_total_order_witness :
  is_int32 (objectSubId (table 16384)) /\
  is_int32 (objectSubId (column 16384 (-1))) /\
  object_address_comparator (table 16384) (column 16384 (-1)) = (-1)%Z /\
  object_address_comparator (column 16384 (-1)) (table 16384) = 1%Z.
Proof.
  assert (H1 : is_int32 (objectSubId (table 16384)))
    by (unfold is_int32; simpl; lia).
  assert (H2 : is_int32 (objectSubId (column 16384 (-1))))
    by (unfold is_int32; simpl; lia).
  split; [exact H1|]. split; [exact H2|].
  destruct (object_address_comparator_total_order
              (table 16384) (column 16384 (-1)) (table 16384) H1 H2)
    as (_ & Hflip & _).
  split; [reflexivity|]. rewrite Hflip. reflexivity.
Defined.

(** ** The output of [eliminate_duplicate_dependencies] *)

Lemma remove_dups_sublist rest :
  forall p, remove_dups p rest `sublist_of` p :: rest.
Proof.
  induction rest as [|t rest IH]; intros p; simpl; [done|].
  destruct ((classId p =? classId t)%Z && (objectId p =? objectId t)%Z)
    eqn:Hco.
  - apply andb_true_iff in Hco as [Hc Ho]. apply Z.eqb_eq in Hc, Ho.
    destruct (objectSubId p =? objectSubId t)%Z eqn:Hsub.
    + etrans; [apply IH|]. by apply sublist_skip, sublist_cons.
    + destruct (objectSubId p =? 0)%Z.
      * rewrite (same_fields_eq p t Hc Ho). by apply sublist_cons.
      * by apply sublist_skip.
  - by apply sublist_skip.
Qed.

Lemma StronglySorted_sublist {A} (R : relation A) l1 l2 :
  l1 `sublist_of` l2 -> StronglySorted R l2 -> StronglySorted R l1.
Proof.
  induction 1 as [|x l1 l2 Hs IH|x l1 l2 Hs IH]; intros Hsorted.
  - constructor.
  - apply StronglySorted_inv in Hsorted as [Hl2 Hx]. constructor; auto.
    apply Forall_forall. intros y Hy.
    apply (proj1 (Forall_forall _ _) Hx). eapply elem_of_sublist; eauto.
  - apply StronglySorted_inv in Hsorted as [Hl2 _]. auto.
Qed.

Lemma eliminate_duplicate_dependencies_sublist S :
  eliminate_duplicate_dependencies S
    `sublist_of` qsort object_address_comparator S.
Proof.
  unfold eliminate_duplicate_dependencies.
  destruct (Nat.leb_spec (length S) 1) as [Hlen|Hlen].
  - destruct S as [|a [|b S]]; simpl in Hlen; try lia; done.
  - destruct (qsort object_address_comparator S) as [|first others];
      [done|apply remove_dups_sublist].
Qed.

Lemma eliminate_duplicate_dependencies_int32 S :
  int32_subids S -> int32_subids (eliminate_duplicate_dependencies S).
Proof.
  intros H32. apply Forall_forall. intros x Hx.
  apply eliminate_duplicate_dependencies_elem in Hx as [Hx _]; [|done].
  by eapply int32_subids_elem.
Qed.

Lemma eliminate_duplicate_dependencies_sorted S :
  StronglySorted addr_le (eliminate_duplicate_dependencies S).
Proof.
  eapply StronglySorted_sublist;
    [apply eliminate_duplicate_dependencies_sublist|apply qsort_sorted].
Qed.

Lemma eliminate_duplicate_dependencies_perm S S' :
  int32_subids S -> S ≡ₚ S' ->
  eliminate_duplicate_dependencies S' = eliminate_duplicate_dependencies S.
Proof.
  intros H32 Hp. unfold eliminate_duplicate_dependencies.
  rewrite <- (Permutation_length Hp).
  destruct (Nat.leb_spec (length S) 1) as [Hlen|Hlen].
  - destruct S as [|a [|b S]]; simpl in Hlen; try lia.
    + by apply Permutation_nil_l in Hp.
    + by apply Permutation_singleton_l in Hp.
  - assert (qsort object_address_comparator S'
            = qsort object_address_comparator S) as ->; [|done].
    apply sorted_array_unique; try apply qsort_sorted.
    + unfold int32_subids. by rewrite qsort_perm, <- Hp.
    + by rewrite !qsort_perm.
Qed.

(** X2.  The order in which references were collected does not matter, the
    output is sorted strictly by the comparator, it is never longer than
    the input, and a second pass changes nothing. *)
Theorem eliminate_duplicate_dependencies_canonical (S : ObjectAddresses) :
  int32_subids S ->
  (forall S', S ≡ₚ S' ->
     eliminate_duplicate_dependencies S'
     = eliminate_duplicate_dependencies S) /\
  StronglySorted (fun a b => object_address_comparator a b = (-1)%Z)
                 (eliminate_duplicate_dependencies S) /\
  length (eliminate_duplicate_dependencies S) <= length S /\
  eliminate_duplicate_dependencies (eliminate_duplicate_dependencies S)
  = eliminate_duplicate_dependencies S.
Proof.
  intros H32.
  pose proof (eliminate_duplicate_dependencies_int32 S H32) as H32'.
  pose proof (eliminate_duplicate_dependencies_NoDup S H32) as Hnd.
  pose proof (eliminate_duplicate_dependencies_sorted S) as Hsorted.
  split; [intros S' Hp; by apply eliminate_duplicate_dependencies_perm|].
  split; [|split].
  - revert H32' Hnd Hsorted.
    generalize (eliminate_duplicate_dependencies S) as l.
    induction l as [|a l IH]; intros H32' Hnd Hs; [constructor|].
    apply StronglySorted_inv in Hs as [Hs Ha].
    apply NoDup_cons in Hnd as [Hna Hnd].
    apply Forall_cons in H32' as [Ha32 Hl32].
    constructor; [by apply IH|].
    apply Forall_forall. intros b Hb.
    pose proof (proj1 (Forall_forall _ _) Ha b Hb) as Hle.
    pose proof (proj1 (Forall_forall _ _) Hl32 b Hb) as Hb32.
    apply comparator_le_iff in Hle. unfold comparator_le in Hle.
    destruct (comparator_values a b) as [?|[Hz|?]]; [done| |lia].
    exfalso. apply Hna.
    destruct (object_address_comparator_total_order a b a Ha32 Hb32)
      as (_ & _ & Heq & _).
    apply Heq in Hz. by subst.
  - etrans; [apply sublist_length,
             eliminate_duplicate_dependencies_sublist|].
    by rewrite qsort_perm.
  - apply sorted_array_unique; auto.
    + by apply eliminate_duplicate_dependencies_int32.
    + apply NoDup_Permutation; auto.
      * by apply eliminate_duplicate_dependencies_NoDup.
      * intros x.
        rewrite (eliminate_duplicate_dependencies_elem _ x H32').
        split; [by intros [? _]|]. intros Hx. split; [done|].
        intros Hz b Hb Hc Ho.
        apply eliminate_duplicate_dependencies_elem in Hx as [_ Hw];
          [|done].
        apply eliminate_duplicate_dependencies_elem in Hb as [Hb _];
          [|done].
        by apply Hw.
    + apply eliminate_duplicate_dependencies_sorted.
Qed.

(** The references of a rule that reads columns 2 and -1 of table 16384
    and calls function 3001, collected in two orders. *)
Lemma eliminate_duplicate_dependencies_canonical_witness :
  int32_subids [column 16384 2; table 16384; function 3001;
                column 16384 (-1); column 16384 2] /\
  eliminate_duplicate_dependencies
    [function 3001; column 16384 2; column 16384 2; column 16384 (-1);
     table 16384]
  = eliminate_duplicate_dependencies
      [column 16384 2; table 16384; function 3001;
       column 16384 (-1); column 16384 2].
Proof.
  assert (H : int32_subids [column 16384 2; table 16384; function 3001;
                            column 16384 (-1); column 16384 2]).
  { unfold int32_subids, is_int32. repeat constructor; simpl; lia. }
  split; [exact H|].
  apply (proj1 (eliminate_duplicate_dependencies_canonical _ H)).
  apply (bool_decide_unpack (_ ≡ₚ _)). vm_compute. exact I.
Defined.

(* ===================================================================== *)
(** * Part XV.  More on the deletion pass                                 *)
(* ===================================================================== *)

(** ** CASCADE *)

Section Cascade.
Context (E : Catalog) (msglevel : elevel) (oktodelete : ObjectAddresses).

Lemma Deletes_cascade :
  (forall object caller st ok st',
      Deletes E DROP_CASCADE msglevel oktodelete object caller st ok st' ->
      ok = true) /\
  (forall object d scan ok st ok' st',
      DeletesDependents E DROP_CASCADE msglevel oktodelete object d scan ok
                        st ok' st' ->
      ok' = ok).
Proof.
  apply Deletes_mutind.
  - intros object caller st d sd scan st0 owningObject st1 u st2 quiet st3 r
           st4
           _ _ _ _ Hquiet _ ->.
    apply complain_Ok in Hquiet as (_ & _ & _ & _ & ->).
    by rewrite orb_true_r.
  - intros object caller st d sd scan st0 st1 u st2 scan' st3 ok st4 u'
           st5
           _ _ _ _ _ _ -> _. done.
  - done.
  - done.
  - intros object d i scan ok st tup quiet st1 r st2 ok' st'
           _ _ Hquiet _ -> _ ->.
    apply complain_Ok in Hquiet as (_ & _ & _ & _ & ->).
    by rewrite orb_true_r, !andb_true_r.
  - intros object d i scan ok st tup od sd u st1 r st2 ok' st'
           _ _ _ _ _ -> _ ->. by rewrite andb_true_r.
Qed.

End Cascade.

Section CascadeEntries.
Context (E : Catalog).

Lemma recursiveDeletion_cascade fuel object msglevel caller oktodelete st
    ok st' :
  recursiveDeletion E fuel object DROP_CASCADE msglevel caller oktodelete st
    = Ok (ok, st') ->
  ok = true.
Proof.
  intros H%recursiveDeletion_Deletes.
  by apply (proj1 (Deletes_cascade E msglevel oktodelete)) in H.
Qed.

Lemma deleteDependentObjects_cascade fuel object d msglevel oktodelete st
    ok st' :
  deleteDependentObjects E fuel object d DROP_CASCADE msglevel oktodelete st
    = Ok (ok, st') ->
  ok = true.
Proof.
  intros (scan & st0 & _ & H)%deleteDependentObjects_Deletes.
  by apply (proj2 (Deletes_cascade E msglevel oktodelete)) in H.
Qed.

Lemma performDeletionWithList_cascade_Err fuel object oktodelete st e :
  performDeletionWithList E fuel object oktodelete DROP_CASCADE st = Err e ->
  raised_inside e.
Proof.
  unfold performDeletionWithList. intros H.
  apply bind_Err in H as [H|(d & st_d & Hd & H)].
  { by eapply getObjectDescription_Err. }
  apply bind_Err in H as [H|(okt & st1 & _ & H)].
  { by eapply findAutoDeletableObjects_Err. }
  apply bind_Err in H as [H|(ok & st2 & Hrec & H)].
  { by eapply recursiveDeletion_Err. }
  apply recursiveDeletion_cascade in Hrec as ->. discriminate.
Qed.

Lemma collect_implicit_Err fuel objects :
  forall implicit st e,
  collect_implicit E fuel objects implicit st = Err e -> raised_inside e.
Proof.
  induction objects as [|obj objects IH]; intros implicit st e H.
  - discriminate.
  - simpl in H. destruct (object_address_present obj implicit); [eauto|].
    apply bind_Err in H as [H|(? & ? & _ & H)]; [|eauto].
    by eapply findAutoDeletableObjects_Err.
Qed.

Lemma delete_each_cascade_Err fuel objects :
  forall implicit st e,
  delete_each E fuel objects implicit DROP_CASCADE st = Err e ->
  raised_inside e.
Proof.
  induction objects as [|obj objects IH]; intros implicit st e H.
  - discriminate.
  - simpl in H. unfold bind at 1, get_alreadyDeleted in H.
    destruct (object_address_present obj (default [] (alreadyDeleted st)));
      [eauto|].
    destruct (object_address_present obj implicit); [eauto|].
    apply bind_Err in H as [H|(? & ? & _ & H)]; [|eauto].
    by eapply performDeletionWithList_cascade_Err.
Qed.

End CascadeEntries.

(** X3.  Under CASCADE the pass never returns [false]: whatever the message
    level, the list [oktodelete] and the catalog, [recursiveDeletion] and
    [deleteDependentObjects] return [true] when they return.  So no entry
    point raises "cannot drop .. because other objects depend on it" when
    asked to cascade, and [deleteWhatDependsOn] never raises "failed to
    drop all objects depending on ..": their errors are those raised
    inside the pass. *)
Theorem cascade_never_refuses (E : Catalog) :
  (forall fuel object msglevel caller oktodelete st ok st',
      recursiveDeletion E fuel object DROP_CASCADE msglevel caller
                        oktodelete st = Ok (ok, st') ->
      ok = true) /\
  (forall fuel object d msglevel oktodelete st ok st',
      deleteDependentObjects E fuel object d DROP_CASCADE msglevel
                             oktodelete st = Ok (ok, st') ->
      ok = true) /\
  (forall fuel object st e d,
      performDeletion E fuel object DROP_CASCADE st = Err e ->
      e <> ERR_other_objects_depend d) /\
  (forall fuel object oktodelete st e d,
      performDeletionWithList E fuel object oktodelete DROP_CASCADE st
        = Err e ->
      e <> ERR_other_objects_depend d) /\
  (forall fuel objects st e d,
      performMultipleDeletions E fuel objects DROP_CASCADE st = Err e ->
      e <> ERR_other_objects_depend d) /\
  (forall fuel object showNotices st e d,
      deleteWhatDependsOn E fuel object showNotices st = Err e ->
      e <> ERR_failed_to_drop_all d /\ e <> ERR_other_objects_depend d).
Proof.
  split; [intros; by eapply recursiveDeletion_cascade|].
  split; [intros; by eapply deleteDependentObjects_cascade|].
  split; [|split; [|split]].
  - intros fuel object st e d H ->.
    apply performDeletion_refused in H
      as (sd & okt & st1 & st2 & st3 & _ & _ & _ & H).
    by apply recursiveDeletion_cascade in H.
  - intros fuel object oktodelete st e d H.
    apply raised_inside_not_depend.
    by eapply performDeletionWithList_cascade_Err.
  - intros fuel objects st e d H. apply raised_inside_not_depend.
    unfold performMultipleDeletions in H.
    apply bind_Err in H as [H|(? & ? & _ & H)]; [discriminate|].
    apply bind_Err in H as [H|(? & ? & _ & H)].
    + by eapply collect_implicit_Err.
    + by eapply delete_each_cascade_Err.
  - intros fuel object showNotices st e d H.
    assert (raised_inside e) as Hin.
    { unfold deleteWhatDependsOn in H.
      apply bind_Err in H as [H|(d' & st_d & Hd & H)].
      { by eapply getObjectDescription_Err. }
      apply bind_Err in H as [H|(okt & st1 & _ & H)].
      { by eapply findAutoDeletableObjects_Err. }
      apply bind_Err in H as [H|(? & st2 & _ & H)]; [discriminate|].
      apply bind_Err in H as [H|(ok & st3 & Hrec & H)].
      { by eapply deleteDependentObjects_Err. }
      apply deleteDependentObjects_cascade in Hrec as ->. discriminate. }
    split; intros ->; destruct Hin.
Qed.

(** [DROP TABLE 16384 CASCADE] when view 16500 reads the table. *)
Lemma cascade_never_refuses_witness :
  exists ok st',
    recursiveDeletion view_on_table_catalog 5 (table 16384) DROP_CASCADE
                      NOTICE None [table 16384] initial_DB = Ok (ok, st') /\
    dropped st' = [table 16384; table 16500] /\
    ok = true.
Proof.
  do 2 eexists. split; [vm_compute; reflexivity|]. split; [reflexivity|].
  eapply (proj1 (cascade_never_refuses view_on_table_catalog)
            5 (table 16384) NOTICE None [table 16384] initial_DB).
  vm_compute. reflexivity.
Defined.

(* ===================================================================== *)
(** * Part XVI.  What the drop behaviour changes, and what it does not    *)
(* ===================================================================== *)

(** ** Runs with the same effects *)

Lemma follows_bind {A B} (R : A -> A -> Prop) (R' : B -> B -> Prop)
    (m1 m2 : M A) (k1 k2 : A -> M B) :
  follows R m1 m2 ->
  (forall a1 a2, R a1 a2 -> follows R' (k1 a1) (k2 a2)) ->
  follows R' (bind m1 k1) (bind m2 k2).
Proof.
  intros Hm Hk st1 st2 b1 st1' Heff H.
  apply bind_Ok in H as (a1 & st1m & H1 & H2).
  destruct (Hm _ _ _ _ Heff H1) as (a2 & st2m & H1' & Ha & Heff').
  destruct (Hk _ _ Ha _ _ _ _ Heff' H2) as (b2 & st2' & H2' & Hb & Heff'').
  exists b2, st2'. split; [|done].
  by rewrite (bind_of_Ok _ _ _ _ _ H1').
Qed.

Lemma follows_ret {A} (R : A -> A -> Prop) (a1 a2 : A) :
  R a1 a2 -> follows R (ret a1) (ret a2).
Proof.
  intros Ha st1 st2 b st1' Heff [= <- <-]. exists a2, st2. by repeat split.
Qed.

Lemma follows_raise {A} (R : A -> A -> Prop) e (m2 : M A) :
  follows R (raise e) m2.
Proof. intros ? ? ? ? _ H. discriminate H. Qed.

Lemma follows_lift {A} (r : Res A) : follows eq (lift r) (lift r).
Proof.
  intros st1 st2 a st1' Heff [-> ->]%lift_Ok. exists a, st2.
  by rewrite lift_of_Ok.
Qed.

Lemma follows_weaken {A} (R R' : A -> A -> Prop) (m1 m2 : M A) :
  (forall a1 a2, R a1 a2 -> R' a1 a2) ->
  follows R m1 m2 -> follows R' m1 m2.
Proof.
  intros HR H st1 st2 a1 st1' Heff Hrun.
  destruct (H _ _ _ _ Heff Hrun) as (a2 & st2' & ? & ? & ?). eauto 10.
Qed.

(** A step that reads the effects only. *)
Ltac follows_primitive :=
  let st1 := fresh "st1" in
  let st2 := fresh "st2" in
  let Heff := fresh "Heff" in
  let H := fresh "H" in
  intros st1 st2 ? ? Heff H;
  destruct st1, st2; unfold effects in Heff; simpl in Heff;
  injection Heff as -> -> -> -> -> ->;
  unfold effects; cbv beta delta [caql_delete_current CommandCounterIncrement
    call note_dropped set_alreadyDeleted get_alreadyDeleted caql_beginscan
    caql_getnext visible_tuple] in *;
  simpl in *; injection H as <- <-; eauto.

Lemma follows_caql_delete_current i :
  follows eq (caql_delete_current i) (caql_delete_current i).
Proof. follows_primitive. Qed.

Lemma follows_CommandCounterIncrement :
  follows eq CommandCounterIncrement CommandCounterIncrement.
Proof. follows_primitive. Qed.

Lemma follows_call c : follows eq (call c) (call c).
Proof. follows_primitive. Qed.

Lemma follows_note_dropped x : follows eq (note_dropped x) (note_dropped x).
Proof. follows_primitive. Qed.

Lemma follows_set_alreadyDeleted l :
  follows eq (set_alreadyDeleted l) (set_alreadyDeleted l).
Proof. follows_primitive. Qed.

Lemma follows_get_alreadyDeleted :
  follows eq get_alreadyDeleted get_alreadyDeleted.
Proof. follows_primitive. Qed.

Lemma follows_ereport lvl1 m1 lvl2 m2 :
  lvl2 <> ERROR -> follows eq (ereport lvl1 m1) (ereport lvl2 m2).
Proof.
  intros Hl st1 st2 [] st1' Heff H.
  apply ereport_Ok in H as (_ & Hc & He & Ha & _).
  destruct (ereport_not_ERROR lvl2 m2 st2 Hl) as (st2' & -> & Hc' & He' & Ha' & _).
  exists tt, st2'. split; [done|]. split; [done|].
  apply core_eq in Hc as (? & ? & ? & ?).
  apply core_eq in Hc' as (? & ? & ? & ?).
  unfold effects in *. congruence.
Qed.

Section SameEffects.
Context (E : Catalog).

Lemma follows_caql_beginscan key object :
  follows eq (caql_beginscan E key object) (caql_beginscan E key object).
Proof. follows_primitive. Qed.

Lemma follows_caql_getnext i :
  follows eq (caql_getnext E i) (caql_getnext E i).
Proof. follows_primitive. Qed.

Lemma follows_getObjectDescription object :
  follows eq (getObjectDescription E object) (getObjectDescription E object).
Proof.
  intros st1 st2 d st1' Heff H.
  rewrite (getObjectDescription_anywhere E _ _ _ _ st2 H).
  described H. exists d, (described_in (described_class d) st2).
  split; [done|]. split; [done|]. exact Heff.
Qed.

Lemma follows_sever_outgoing d caller scan :
  forall owner,
  follows eq (sever_outgoing E d caller scan owner)
             (sever_outgoing E d caller scan owner).
Proof.
  induction scan as [|i scan IH]; intros owner; simpl.
  - by apply follows_ret.
  - eapply follows_bind; [apply follows_caql_getnext|].
    intros tup ? <-. destruct tup as [foundDep|]; [|apply IH].
    destruct (deptype foundDep).
    + eapply follows_bind; [apply follows_caql_delete_current|]. intros; apply IH.
    + eapply follows_bind; [apply follows_caql_delete_current|]. intros; apply IH.
    + destruct caller as [c|].
      * destruct (called_from c (referenced foundDep)).
        -- eapply follows_bind; [apply follows_caql_delete_current|].
           intros; apply IH.
        -- destruct owner; [|apply IH]. intros ? ? ? ? _ [=].
      * eapply follows_bind; [apply follows_getObjectDescription|]. intros ? ? _ ? ? ? ? _ [=].
    + intros ? ? ? ? _ [=].
    + intros ? ? ? ? _ [=].
Qed.

Lemma follows_complain other d b1 m1 okt1 b2 m2 okt2 :
  m2 <> ERROR ->
  follows any_value (complain E other d b1 m1 okt1)
                    (complain E other d b2 m2 okt2).
Proof.
  intros Hl. unfold complain.
  eapply follows_bind; [apply follows_getObjectDescription|]. intros otherDesc ? <-.
  assert (forall lvl1 msg1 (q1 : bool) lvl2 msg2 (q2 : bool),
             lvl2 <> ERROR ->
             follows any_value (ereport lvl1 msg1 ;; ret q1)
                               (ereport lvl2 msg2 ;; ret q2)) as Hrep.
  { intros. eapply follows_bind; [by apply follows_ereport|].
    intros. by apply follows_ret. }
  assert (forall lvl msg (q : bool),
             follows any_value (ereport lvl msg ;; ret q)
                     (report_depends_on E m2 otherDesc d ;; ret false)) as H1.
  { intros. unfold report_depends_on. destruct (_ && _); by apply Hrep. }
  assert (forall lvl msg (q : bool),
             follows any_value (ereport lvl msg ;; ret q)
                     (report_drop_cascades_to E m2 otherDesc ;; ret true))
    as H2.
  { intros. unfold report_drop_cascades_to. destruct (bool_decide _);
      by apply Hrep. }
  assert (forall lvl msg (q : bool),
             follows any_value (ereport lvl msg ;; ret q)
               (if object_address_present other okt2
                then ereport DEBUG2 (MSG_drop_auto_cascades_to otherDesc) ;;
                     ret true
                else match b2 with
                     | DROP_RESTRICT =>
                         report_depends_on E m2 otherDesc d ;; ret false
                     | DROP_CASCADE =>
                         report_drop_cascades_to E m2 otherDesc ;; ret true
                     end)) as H3.
  { intros. destruct (object_address_present other okt2);
      [by apply Hrep|]. destruct b2; [apply H1|apply H2]. }
  destruct (object_address_present other okt1); [apply H3|].
  destruct b1.
  - unfold report_depends_on at 1. destruct (_ && _); apply H3.
  - unfold report_drop_cascades_to at 1. destruct (bool_decide _); apply H3.
Qed.

Lemma follows_doDeletion object :
  follows eq (doDeletion E object) (doDeletion E object).
Proof.
  unfold doDeletion.
  eapply follows_bind; [apply follows_lift|]. intros oclass ? <-.
  apply (follows_bind eq); [|intros; apply follows_note_dropped].
  destruct oclass; cbn [doDeletion_dispatch];
    try apply follows_call;
    try (by apply follows_ereport);
    try apply follows_raise.
  destruct (rel_is_index E (objectId object)).
  - eapply follows_bind; [apply follows_lift|]. intros; apply follows_call.
  - destruct (negb _); apply follows_call.
Qed.

Lemma follows_save_deleted object :
  follows eq (save_deleted object) (save_deleted object).
Proof.
  unfold save_deleted.
  eapply follows_bind; [apply follows_get_alreadyDeleted|]. intros l ? <-.
  destruct l as [deleted|]; [|by apply follows_ret].
  destruct (object_address_present object deleted);
    [by apply follows_ret|apply follows_set_alreadyDeleted].
Qed.

Lemma follows_delete_object_itself object :
  follows eq (delete_object_itself E object) (delete_object_itself E object).
Proof.
  unfold delete_object_itself.
  eapply follows_bind; [apply follows_doDeletion|]. intros _ _ _.
  eapply follows_bind; [apply follows_save_deleted|]. intros _ _ _.
  eapply follows_bind; [apply follows_call|]. intros _ _ _.
  apply (follows_bind eq); [|intros; apply follows_CommandCounterIncrement].
  destruct (_ =? _)%Z; [apply follows_call|by apply follows_ret].
Qed.

Lemma follows_delete_dependents recurse1 recurse2 object d b1 m1 okt1
    b2 m2 okt2 :
  m2 <> ERROR ->
  (forall other caller,
      follows any_value (recurse1 other caller) (recurse2 other caller)) ->
  forall scan ok1 ok2,
  follows any_value
    (delete_dependents E recurse1 object d b1 m1 okt1 scan ok1)
    (delete_dependents E recurse2 object d b2 m2 okt2 scan ok2).
Proof.
  intros Hl Hrec. induction scan as [|i scan IH]; intros ok1 ok2; simpl.
  - by apply follows_ret.
  - eapply follows_bind; [apply follows_caql_getnext|].
    intros tup ? <-. destruct tup as [foundDep|]; [|apply IH].
    destruct (deptype foundDep).
    + eapply follows_bind; [by apply follows_complain|]. intros q1 q2 _.
      eapply follows_bind; [apply Hrec|]. intros; apply IH.
    + eapply follows_bind; [apply follows_getObjectDescription|]. intros od ? <-.
      eapply follows_bind; [by apply follows_ereport|]. intros _ _ _.
      eapply follows_bind; [apply Hrec|]. intros; apply IH.
    + eapply follows_bind; [apply follows_getObjectDescription|]. intros od ? <-.
      eapply follows_bind; [by apply follows_ereport|]. intros _ _ _.
      eapply follows_bind; [apply Hrec|]. intros; apply IH.
    + intros ? ? ? ? _ [=].
    + intros ? ? ? ? _ [=].
Qed.

Lemma follows_recursiveDeletion fuel b1 m1 okt1 b2 m2 okt2 :
  m2 <> ERROR ->
  forall object caller,
  follows any_value (recursiveDeletion E fuel object b1 m1 caller okt1)
                    (recursiveDeletion E fuel object b2 m2 caller okt2).
Proof.
  intros Hl. induction fuel as [|fuel IH]; intros object caller; simpl.
  - intros ? ? ? ? _ [=].
  - eapply follows_bind; [apply follows_getObjectDescription|]. intros d ? <-.
    eapply follows_bind; [apply follows_caql_beginscan|]. intros scan ? <-.
    eapply follows_bind; [apply follows_sever_outgoing|]. intros owner ? <-.
    eapply follows_bind; [apply follows_CommandCounterIncrement|].
    intros _ _ _. destruct owner as [owningObject|].
    + eapply follows_bind; [by apply follows_complain|]. intros q1 q2 _.
      eapply follows_bind; [apply IH|]. intros. by apply follows_ret.
    + eapply follows_bind.
      * unfold deleteDependentObjects_with.
        eapply follows_bind; [apply follows_caql_beginscan|].
        intros scan' ? <-. by apply follows_delete_dependents.
      * intros ok1 ok2 _.
        eapply follows_bind;
          [eapply follows_weaken; [|apply follows_delete_object_itself]; done|].
        intros. by apply follows_ret.
Qed.

(** ** A RESTRICT pass that finds no violation *)

Lemma complain_quiet other d msglevel oktodelete st st' behavior :
  complain E other d DROP_RESTRICT msglevel oktodelete st = Ok (true, st') ->
  complain E other d behavior msglevel oktodelete st = Ok (true, st').
Proof.
  unfold complain. intros H.
  apply bind_Ok in H as (od & st1 & H1 & H).
  rewrite (bind_of_Ok _ _ _ _ _ H1).
  destruct (object_address_present other oktodelete); [done|].
  apply bind_Ok in H as (? & ? & _ & [=]).
Qed.

Lemma delete_dependents_quiet recurse1 recurse2 object d msglevel oktodelete
    behavior :
  (forall other caller st st',
      recurse1 other caller st = Ok (true, st') ->
      recurse2 other caller st = Ok (true, st')) ->
  forall scan ok st st',
  delete_dependents E recurse1 object d DROP_RESTRICT msglevel oktodelete
                    scan ok st = Ok (true, st') ->
  delete_dependents E recurse2 object d behavior msglevel oktodelete
                    scan ok st = Ok (true, st').
Proof.
  intros Hrec. induction scan as [|i scan IH]; intros ok st st' H.
  - done.
  - rewrite delete_dependents_cons in *.
    destruct (visible_tuple E st i) as [foundDep|]; [|by apply IH].
    destruct (deptype foundDep); try done.
    + apply bind_Ok in H as (quiet & st1 & H1 & H).
      apply bind_Ok in H as (r & st2 & H2 & H).
      destruct (ok && quiet && r) eqn:Hacc.
      2:{ by apply delete_dependents_false in H. }
      apply andb_prop in Hacc as [[-> ->]%andb_prop ->].
      rewrite (bind_of_Ok _ _ _ _ _ (complain_quiet _ _ _ _ _ _ behavior H1)).
      rewrite (bind_of_Ok _ _ _ _ _ (Hrec _ _ _ _ H2)). by apply IH.
    + apply bind_Ok in H as (od & st0 & H0 & H).
      apply bind_Ok in H as (u & st1 & H1 & H).
      apply bind_Ok in H as (r & st2 & H2 & H).
      destruct (ok && r) eqn:Hacc.
      2:{ by apply delete_dependents_false in H. }
      apply andb_prop in Hacc as [-> ->].
      rewrite (bind_of_Ok _ _ _ _ _ H0), (bind_of_Ok _ _ _ _ _ H1).
      rewrite (bind_of_Ok _ _ _ _ _ (Hrec _ _ _ _ H2)). by apply IH.
    + apply bind_Ok in H as (od & st0 & H0 & H).
      apply bind_Ok in H as (u & st1 & H1 & H).
      apply bind_Ok in H as (r & st2 & H2 & H).
      destruct (ok && r) eqn:Hacc.
      2:{ by apply delete_dependents_false in H. }
      apply andb_prop in Hacc as [-> ->].
      rewrite (bind_of_Ok _ _ _ _ _ H0), (bind_of_Ok _ _ _ _ _ H1).
      rewrite (bind_of_Ok _ _ _ _ _ (Hrec _ _ _ _ H2)). by apply IH.
Qed.

Lemma recursiveDeletion_quiet fuel behavior msglevel oktodelete :
  forall object caller st st',
  recursiveDeletion E fuel object DROP_RESTRICT msglevel caller oktodelete st
    = Ok (true, st') ->
  recursiveDeletion E fuel object behavior msglevel caller oktodelete st
    = Ok (true, st').
Proof.
  induction fuel as [|fuel IH]; intros object caller st st' H; [done|].
  simpl in *.
  apply bind_Ok in H as (d & st0 & H0 & H).
  rewrite (bind_of_Ok _ _ _ _ _ H0).
  apply bind_Ok in H as (scan & st1 & H1 & H).
  rewrite (bind_of_Ok _ _ _ _ _ H1).
  apply bind_Ok in H as (owner & st2 & H2 & H).
  rewrite (bind_of_Ok _ _ _ _ _ H2).
  apply bind_Ok in H as (u & st3 & H3 & H).
  rewrite (bind_of_Ok _ _ _ _ _ H3).
  destruct owner as [owningObject|].
  - apply bind_Ok in H as (quiet & st4 & H4 & H).
    apply bind_Ok in H as (r & st5 & H5 & H).
    injection H as Hq <-. apply andb_prop in Hq as [-> ->].
    rewrite (bind_of_Ok _ _ _ _ _ (complain_quiet _ _ _ _ _ _ behavior H4)).
    by rewrite (bind_of_Ok _ _ _ _ _ (IH _ _ _ _ H5)).
  - apply bind_Ok in H as (ok & st4 & H4 & H).
    apply bind_Ok in H as (u' & st5 & H5 & H).
    injection H as -> <-.
    erewrite bind_of_Ok; [by rewrite (bind_of_Ok _ _ _ _ _ H5)|].
    unfold deleteDependentObjects_with in *.
    apply bind_Ok in H4 as (scan' & st6 & H6 & H4).
    rewrite (bind_of_Ok _ _ _ _ _ H6).
    eapply delete_dependents_quiet; [|exact H4]. intros; by apply IH.
Qed.

End SameEffects.

(** X4.  The drop behaviour, the message level and the list [oktodelete] decide
    what a pass reports and the value it returns, not what it does:
    (1) wherever a pass of [recursiveDeletion] returns, the pass with any
        other behaviour, message level below ERROR and list [oktodelete]
        returns too, and the two leave the same tuples deleted, the same
        objects dropped in the same order, the same external calls, the
        same [alreadyDeleted] list and the same number of scans;
    (2) so what DROP ... RESTRICT refuses, DROP ... CASCADE does;
    (3) and where DROP ... RESTRICT goes through, DROP ... CASCADE does
        exactly the same, messages included. *)
Theorem drop_behavior_only_affects_reports (E : Catalog) :
  (forall fuel object caller b1 m1 okt1 b2 m2 okt2 st1 st2 ok1 st1',
      m2 <> ERROR ->
      effects st1 = effects st2 ->
      recursiveDeletion E fuel object b1 m1 caller okt1 st1 = Ok (ok1, st1') ->
      exists ok2 st2',
        recursiveDeletion E fuel object b2 m2 caller okt2 st2
          = Ok (ok2, st2') /\
        effects st2' = effects st1') /\
  (forall fuel object st d,
      performDeletion E fuel object DROP_RESTRICT st
        = Err (ERR_other_objects_depend d) ->
      exists st', performDeletion E fuel object DROP_CASCADE st
                  = Ok (tt, st')) /\
  (forall fuel object st r,
      performDeletion E fuel object DROP_RESTRICT st = Ok r ->
      performDeletion E fuel object DROP_CASCADE st = Ok r).
Proof.
  split; [|split].
  - intros fuel object caller b1 m1 okt1 b2 m2 okt2 st1 st2 ok1 st1' Hl Heff H.
    destruct (follows_recursiveDeletion E fuel b1 m1 okt1 b2 m2 okt2 Hl
                object caller _ _ _ _ Heff H) as (ok2 & st2' & ? & _ & ?).
    eauto.
  - intros fuel object st d H.
    apply performDeletion_refused in H
      as (sd & okt & st1 & st2 & st3 & Hd & H1 & H2 & H3).
    destruct (follows_recursiveDeletion E fuel DROP_RESTRICT NOTICE okt
                DROP_CASCADE NOTICE okt ltac:(done) object None
                st2 st2 _ _ eq_refl H3) as (ok2 & st' & H4 & _ & _).
    pose proof H4 as ->%recursiveDeletion_cascade.
    exists st'. unfold performDeletion.
    rewrite (bind_of_Ok _ _ _ _ _ Hd).
    rewrite (bind_of_Ok _ _ _ _ _ H1), (bind_of_Ok _ _ _ _ _ H2).
    by rewrite (bind_of_Ok _ _ _ _ _ H4).
  - intros fuel object st [[] st'] H.
    apply performDeletion_Ok in H
      as (d & sd & okt & st1 & st2 & Hd & H1 & H2 & H3).
    unfold performDeletion.
    rewrite (bind_of_Ok _ _ _ _ _ Hd).
    rewrite (bind_of_Ok _ _ _ _ _ H1), (bind_of_Ok _ _ _ _ _ H2).
    by rewrite (bind_of_Ok _ _ _ _ _
                  (recursiveDeletion_quiet E _ DROP_CASCADE _ _ _ _ _ _ H3)).
Qed.

(** [DROP TABLE 16384] when view 16500 reads the table: refused under
    RESTRICT, carried out under CASCADE. *)
Lemma drop_behavior_only_affects_reports_witness :
  performDeletion view_on_table_catalog 5 (table 16384) DROP_RESTRICT
                  initial_DB
  = Err (ERR_other_objects_depend (Describe OCLASS_CLASS (table 16384))) /\
  exists st',
    performDeletion view_on_table_catalog 5 (table 16384) DROP_CASCADE
                    initial_DB = Ok (tt, st').
Proof.
  split; [vm_compute; reflexivity|].
  eapply (proj1 (proj2 (drop_behavior_only_affects_reports
                          view_on_table_catalog))).
  vm_compute. reflexivity.
Defined.

(* ===================================================================== *)
(** * Part XVII.  The log of a run                                        *)
(* ===================================================================== *)

Lemma logged_quiet (E : Catalog) st st' :
  dropped st' = dropped st -> external st' = external st ->
  alreadyDeleted st' = alreadyDeleted st ->
  logged E st [] st'.
Proof.
  intros Hd He Ha. unfold logged, drops. simpl. rewrite Ha.
  repeat split; try done. by destruct (alreadyDeleted st).
Qed.

Lemma logged_drops (E : Catalog) st new st' :
  logged E st new st' -> drops st st' new.
Proof. by intros (? & _). Qed.

Lemma logged_trans (E : Catalog) st new1 st1 new2 st2 :
  logged E st new1 st1 -> logged E st1 new2 st2 ->
  logged E st (new2 ++ new1) st2.
Proof.
  unfold logged, drops. intros (Hd1 & He1 & Ha1 & Hf1) (Hd2 & He2 & Ha2 & Hf2).
  rewrite Hd2, Hd1, He2, He1, Ha2, Ha1, flat_map_app, !app_assoc.
  repeat split.
  - destruct (alreadyDeleted st); simpl; [|done]. by rewrite foldr_app.
  - by apply Forall_app.
Qed.

Lemma logged_cons (E : Catalog) st st1 x st2 :
  logged E st [] st1 -> logged E st1 [x] st2 -> logged E st [x] st2.
Proof. intros H1 H2. apply (logged_trans E _ _ _ _ _ H1 H2). Qed.

Lemma logged_nil_l (E : Catalog) st st1 new st2 :
  logged E st [] st1 -> logged E st1 new st2 -> logged E st new st2.
Proof.
  intros H1 H2. pose proof (logged_trans E _ _ _ _ _ H1 H2) as H.
  by rewrite app_nil_r in H.
Qed.

Lemma logged_nil_r (E : Catalog) st st1 new st2 :
  logged E st new st1 -> logged E st1 [] st2 -> logged E st new st2.
Proof. intros H1 H2. apply (logged_trans E _ _ _ _ _ H1 H2). Qed.

Section Log.
Context (E : Catalog).

Lemma sever_outgoing_quiet d caller scan :
  forall owner st owner' st',
  sever_outgoing E d caller scan owner st = Ok (owner', st') ->
  external st' = external st /\ alreadyDeleted st' = alreadyDeleted st.
Proof.
  induction scan as [|i scan IH]; intros owner st owner' st' H.
  - by injection H as <- <-.
  - apply sever_outgoing_cons_Ok in H
      as [[_ H]|[(tup & st1 & _ & _ & Hdel & H)|(tup & c & _ & _ & _ & _ & _ & H)]];
      [by eapply IH| |by eapply IH].
    apply caql_delete_current_Ok in Hdel as (_ & _ & _ & _ & He & Ha & _).
    apply IH in H as [-> ->]. done.
Qed.

Lemma step1_quiet object d caller st scan st0 owner st1 u st2 :
  caql_beginscan E SCAN_BY_DEPENDER object st = Ok (scan, st0) ->
  sever_outgoing E d caller scan None st0 = Ok (owner, st1) ->
  CommandCounterIncrement st1 = Ok (u, st2) ->
  logged E st [] st2.
Proof.
  intros Hscan Hsever Hcci.
  apply caql_beginscan_Ok in Hscan as (_ & _ & _ & Hdr0 & _ & He0 & Ha0 & _).
  pose proof (sever_outgoing_frame _ _ _ _ _ _ _ _ Hsever) as (_ & Hdr1 & _).
  apply sever_outgoing_quiet in Hsever as (He1 & Ha1).
  apply CommandCounterIncrement_Ok in Hcci as (_ & _ & Hdr2 & _ & He2 & Ha2 & _).
  apply logged_quiet; congruence.
Qed.

Lemma complain_quiet_step other d behavior msglevel oktodelete st quiet st' :
  complain E other d behavior msglevel oktodelete st = Ok (quiet, st') ->
  logged E st [] st'.
Proof.
  intros (Hc & He & Ha & _)%complain_Ok.
  apply core_eq in Hc as (_ & _ & Hd & _). by apply logged_quiet.
Qed.

Lemma ereport_quiet_step lvl m st u st' :
  ereport lvl m st = Ok (u, st') -> logged E st [] st'.
Proof.
  intros (_ & Hc & He & Ha & _)%ereport_Ok.
  apply core_eq in Hc as (_ & _ & Hd & _). by apply logged_quiet.
Qed.

Lemma getObjectDescription_quiet_step object st d st' :
  getObjectDescription E object st = Ok (d, st') -> logged E st [] st'.
Proof. intros H. described H. by apply logged_quiet. Qed.

Lemma caql_beginscan_quiet_step key object st scan st' :
  caql_beginscan E key object st = Ok (scan, st') -> logged E st [] st'.
Proof.
  intros (_ & _ & _ & Hdr0 & _ & He0 & Ha0 & _)%caql_beginscan_Ok.
  by apply logged_quiet.
Qed.

(** The switch of [doDeletion] makes the same calls in every state. *)
Lemma doDeletion_dispatch_anywhere oclass object st u st' :
  doDeletion_dispatch E oclass object st = Ok (u, st') ->
  shared_class oclass = false /\
  exists destructor,
    length destructor <= 1 /\
    forall st0, exists st0',
      doDeletion_dispatch E oclass object st0 = Ok (tt, st0') /\
      core st0' = core st0 /\ external st0' = destructor ++ external st0 /\
      alreadyDeleted st0' = alreadyDeleted st0.
Proof.
  assert (forall c, exists destructor,
             length destructor <= 1 /\
             forall st0, exists st0',
               call c st0 = Ok (tt, st0') /\
               core st0' = core st0 /\
               external st0' = destructor ++ external st0 /\
               alreadyDeleted st0' = alreadyDeleted st0) as Hcall.
  { intros c. exists [c]. split; [done|]. intros st0. eexists.
    split; [reflexivity|]. done. }
  intros H. destruct oclass; cbn [doDeletion_dispatch] in H;
    try discriminate H; (split; [done|]); cbn [doDeletion_dispatch];
    try apply Hcall.
  - destruct (rel_is_index E (objectId object)).
    + apply bind_Ok in H as (? & ? & [Ha ->]%lift_Ok & _).
      destruct (Hcall (index_drop (objectId object)))
        as (destructor & Hlen & Hany).
      exists destructor. split; [done|]. intros st0.
      destruct (Hany st0) as (st0' & ? & ?). exists st0'. split; [|done].
      rewrite Ha. by rewrite (bind_of_Ok _ _ _ _ _ (lift_of_Ok _ _)).
    + destruct (negb _); apply Hcall.
  - exists []. split; [simpl; lia|]. intros st0. eexists.
    split; [reflexivity|]. done.
Qed.

Lemma save_deleted_anywhere object st :
  exists st',
    save_deleted object st = Ok (tt, st') /\
    core st' = core st /\ external st' = external st /\
    alreadyDeleted st' = remember_deleted object <$> alreadyDeleted st.
Proof.
  unfold save_deleted, bind, get_alreadyDeleted, remember_deleted.
  destruct (alreadyDeleted st) as [deleted|] eqn:Hal; simpl.
  - destruct (object_address_present object deleted).
    + exists st. by rewrite Hal.
    + eexists. split; [reflexivity|]. done.
  - exists st. by rewrite Hal.
Qed.

(** Step 3 on [object]: the calls made are the same in every state. *)
Lemma delete_object_itself_anywhere object st u st' :
  delete_object_itself E object st = Ok (u, st') ->
  (exists oclass, getObjectClass E object = Ok oclass /\
                  shared_class oclass = false) /\
  exists destructor,
    length destructor <= 1 /\
    forall st0, exists st0',
      delete_object_itself E object st0 = Ok (tt, st0') /\
      dropped st0' = object :: dropped st0 /\
      external st0'
        = ((if (objectSubId object =? 0)%Z
            then [deleteSharedDependencyRecordsFor (classId object)
                                                   (objectId object)]
            else [])
           ++ DeleteComments (objectId object) (classId object)
                             (objectSubId object) :: destructor)
          ++ external st0 /\
      alreadyDeleted st0' = remember_deleted object <$> alreadyDeleted st0.
Proof.
  unfold delete_object_itself at 1. intros H.
  apply bind_Ok in H as (? & st1 & Hdo & _). unfold doDeletion in Hdo.
  apply bind_Ok in Hdo as (oclass & ? & [Hc ->]%lift_Ok & Hdo).
  apply bind_Ok in Hdo as (? & ? & Hdisp & _).
  apply doDeletion_dispatch_anywhere in Hdisp as (Hsh & destructor & Hlen & Hany).
  split; [eauto|]. exists destructor. split; [done|]. intros st0.
  destruct (Hany st0) as (sta & Ha & Hca & Hea & Hada).
  apply core_eq in Hca as (_ & _ & Hdra & _).
  destruct (save_deleted_anywhere object
              {| dead := dead sta; pending := pending sta;
                 dropped := object :: dropped sta; external := external sta;
                 messages := messages sta;
                 alreadyDeleted := alreadyDeleted sta; scans := scans sta |})
    as (stb & Hb & Hcb & Heb & Hadb).
  apply core_eq in Hcb as (_ & _ & Hdrb & _). simpl in *.
  unfold delete_object_itself, doDeletion.
  rewrite Hc.
  erewrite bind_of_Ok.
  2:{ rewrite (bind_of_Ok _ _ _ _ _ (lift_of_Ok _ _)).
      rewrite (bind_of_Ok _ _ _ _ _ Ha). reflexivity. }
  rewrite (bind_of_Ok _ _ _ _ _ Hb).
  unfold bind at 1. unfold call at 1.
  destruct (objectSubId object =? 0)%Z.
  - eexists. split; [reflexivity|]. simpl.
    rewrite Hdrb, Heb, Hea, Hadb, Hdra, Hada. done.
  - eexists. split; [reflexivity|]. simpl.
    rewrite Hdrb, Heb, Hea, Hadb, Hdra, Hada. done.
Qed.

Lemma calls_of_drop_eq object st u st' :
  delete_object_itself E object st = Ok (u, st') ->
  exists destructor,
    length destructor <= 1 /\
    calls_of_drop E object
    = (if (objectSubId object =? 0)%Z
       then [deleteSharedDependencyRecordsFor (classId object)
                                              (objectId object)]
       else [])
      ++ DeleteComments (objectId object) (classId object)
                        (objectSubId object) :: destructor.
Proof.
  intros (_ & destructor & Hlen & Hany)%delete_object_itself_anywhere.
  exists destructor. split; [done|].
  destruct (Hany initial_DB) as (st0' & H0 & _ & He & _).
  unfold calls_of_drop. rewrite H0, He. simpl. by rewrite app_nil_r.
Qed.

Lemma delete_object_itself_logged object st u st' :
  delete_object_itself E object st = Ok (u, st') ->
  logged E st [object] st'.
Proof.
  intros H. pose proof H as (destructor & _ & Hcalls)%calls_of_drop_eq.
  pose proof H as (_ & destructor' & _ & Hany)%delete_object_itself_anywhere.
  destruct (Hany initial_DB) as (st0' & H0 & _ & He0 & _).
  destruct (Hany st) as (st'' & H1 & Hdr & He & Ha).
  rewrite H in H1. injection H1 as _ <-.
  assert (calls_of_drop E object
          = (if (objectSubId object =? 0)%Z
             then [deleteSharedDependencyRecordsFor (classId object)
                                                    (objectId object)]
             else [])
            ++ DeleteComments (objectId object) (classId object)
                              (objectSubId object) :: destructor') as Hc.
  { unfold calls_of_drop. rewrite H0, He0. simpl. by rewrite app_nil_r. }
  unfold logged, drops. simpl. rewrite app_nil_r, Hc.
  split; [done|]. split; [done|]. split.
  - rewrite Ha. by destruct (alreadyDeleted st).
  - apply Forall_singleton. eauto.
Qed.

Context (behavior : DropBehavior) (msglevel : elevel)
        (oktodelete : ObjectAddresses).

(** Every run that returns is logged. *)
Lemma Deletes_logged :
  (forall object caller st ok st',
      Deletes E behavior msglevel oktodelete object caller st ok st' ->
      exists new, logged E st new st') /\
  (forall object d scan ok st ok' st',
      DeletesDependents E behavior msglevel oktodelete object d scan ok st
                        ok' st' ->
      exists new, logged E st new st').
Proof.
  apply Deletes_mutind.
  - intros object caller st d sd scan st0 owningObject st1 u st2 quiet st3 r
           st4
           Hd Hscan Hsever Hcci Hquiet _ (new & IH).
    exists new. eapply logged_nil_l; [|exact IH].
    eapply logged_nil_l; [by eapply getObjectDescription_quiet_step|].
    eapply logged_nil_l; [by eapply step1_quiet|].
    by eapply complain_quiet_step.
  - intros object caller st d sd scan st0 st1 u st2 scan' st3 ok st4 u'
           st5
           Hd Hscan Hsever Hcci Hscan' _ (new & IH) Hself.
    exists (object :: new).
    apply (logged_trans E st new st4 [object] st5);
      [|by eapply delete_object_itself_logged].
    eapply logged_nil_l; [|exact IH].
    eapply logged_nil_l; [by eapply getObjectDescription_quiet_step|].
    eapply logged_nil_l; [by eapply step1_quiet|].
    by eapply caql_beginscan_quiet_step.
  - intros. exists []. by apply logged_quiet.
  - intros object d i scan ok st ok' st' _ _ IH. exact IH.
  - intros object d i scan ok st tup quiet st1 r st2 ok' st'
           _ _ Hquiet _ (new1 & IH1) _ (new2 & IH2).
    exists (new2 ++ new1). eapply logged_trans; [|exact IH2].
    eapply logged_nil_l; [|exact IH1]. by eapply complain_quiet_step.
  - intros object d i scan ok st tup od sd u st1 r st2 ok' st'
           _ _ Hod Hlog _ (new1 & IH1) _ (new2 & IH2).
    exists (new2 ++ new1). eapply logged_trans; [|exact IH2].
    eapply logged_nil_l; [|exact IH1].
    eapply logged_nil_l; [by eapply getObjectDescription_quiet_step|].
    by eapply ereport_quiet_step.
Qed.

End Log.

Section LogOfEntries.
Context (E : Catalog).

Lemma find_auto_scan_external recurse object :
  (forall other okt st okt' st',
      recurse other okt st = Ok (okt', st') -> external st' = external st) ->
  forall scan okt st okt' st',
  find_auto_scan E recurse object scan okt st = Ok (okt', st') ->
  external st' = external st.
Proof.
  intros Hrec. induction scan as [|i scan IH]; intros okt st okt' st' H.
  - by injection H as _ <-.
  - rewrite find_auto_scan_cons in H.
    destruct (visible_tuple E st i) as [foundDep|]; [|by eapply IH].
    destruct (deptype foundDep).
    + by eapply IH.
    + apply bind_Ok in H as (okt1 & st1 & H1 & H).
      apply Hrec in H1. apply IH in H. congruence.
    + apply bind_Ok in H as (okt1 & st1 & H1 & H).
      apply Hrec in H1. apply IH in H. congruence.
    + by apply bind_Ok in H as (? & ? & _ & [=]).
    + by apply bind_Ok in H as (? & ? & _ & [=]).
Qed.

Lemma findAutoDeletableObjects_external fuel :
  forall object okt addself st okt' st',
  findAutoDeletableObjects E fuel object okt addself st = Ok (okt', st') ->
  external st' = external st.
Proof.
  induction fuel as [|fuel IH]; intros object okt addself st okt' st' H;
    [done|].
  simpl in H. destruct (object_address_present object okt).
  - by injection H as _ <-.
  - apply bind_Ok in H as (scan & st0 & H0 & H).
    apply caql_beginscan_Ok in H0 as (_ & _ & _ & _ & _ & He & _).
    eapply find_auto_scan_external in H; [congruence|].
    intros. by eapply IH.
Qed.

Lemma findAutoDeletableObjects_quiet fuel object okt addself st okt' st' :
  findAutoDeletableObjects E fuel object okt addself st = Ok (okt', st') ->
  logged E st [] st'.
Proof.
  intros H. pose proof (findAutoDeletableObjects_external _ _ _ _ _ _ _ H).
  apply findAutoDeletableObjects_post in H as ((_ & _ & ? & ? & _) & _).
  by apply logged_quiet.
Qed.

Lemma recursiveDeletion_logged fuel object behavior msglevel caller
    oktodelete st ok st' :
  recursiveDeletion E fuel object behavior msglevel caller oktodelete st
    = Ok (ok, st') ->
  exists new, logged E st new st'.
Proof.
  intros H%recursiveDeletion_Deletes.
  by apply (proj1 (Deletes_logged E behavior msglevel oktodelete)) in H.
Qed.

Lemma deleteDependentObjects_logged fuel object d behavior msglevel
    oktodelete st ok st' :
  deleteDependentObjects E fuel object d behavior msglevel oktodelete st
    = Ok (ok, st') ->
  exists new, logged E st new st'.
Proof.
  intros (scan & st0 & Hscan & H)%deleteDependentObjects_Deletes.
  apply (proj2 (Deletes_logged E behavior msglevel oktodelete)) in H
    as (new & H).
  exists new. eapply logged_nil_l; [|exact H].
  by eapply caql_beginscan_quiet_step.
Qed.

Lemma performDeletion_logged fuel object behavior st u st' :
  performDeletion E fuel object behavior st = Ok (u, st') ->
  exists st2 new,
    dropped st2 = dropped st /\ external st2 = external st /\
    alreadyDeleted st2 = None /\ logged E st2 new st'.
Proof.
  intros (d & sd & okt & st1 & st2 & Hd & H1 & H2 & H3)%performDeletion_Ok.
  described Hd.
  pose proof (findAutoDeletableObjects_external _ _ _ _ _ _ _ H1) as He.
  apply findAutoDeletableObjects_post in H1 as ((_ & _ & Hdr & _) & _).
  apply recursiveDeletion_logged in H3 as (new & H3).
  exists st2, new. unfold set_alreadyDeleted in H2. injection H2 as <-.
  simpl. done.
Qed.

Lemma deleteWhatDependsOn_logged fuel object showNotices st u st' :
  deleteWhatDependsOn E fuel object showNotices st = Ok (u, st') ->
  exists st2 new,
    dropped st2 = dropped st /\ external st2 = external st /\
    alreadyDeleted st2 = None /\ logged E st2 new st'.
Proof.
  unfold deleteWhatDependsOn. intros H.
  apply bind_Ok in H as (d & sd & Hd & H). described Hd.
  apply bind_Ok in H as (okt & st1 & H1 & H).
  apply bind_Ok in H as (? & st2 & H2 & H).
  apply bind_Ok in H as (ok & st3 & H3 & H).
  destruct ok; [|done]. injection H as _ <-.
  pose proof (findAutoDeletableObjects_external _ _ _ _ _ _ _ H1) as He.
  apply findAutoDeletableObjects_post in H1 as ((_ & _ & Hdr & _) & _).
  apply deleteDependentObjects_logged in H3 as (new & H3).
  exists st2, new. unfold set_alreadyDeleted in H2. injection H2 as _ <-.
  simpl. done.
Qed.

Lemma performDeletionWithList_logged fuel object oktodelete behavior st
    okt' st' :
  performDeletionWithList E fuel object oktodelete behavior st
    = Ok (okt', st') ->
  exists new, logged E st new st'.
Proof.
  unfold performDeletionWithList. intros H.
  apply bind_Ok in H as (d & sd & Hd & H).
  apply getObjectDescription_quiet_step in Hd.
  apply bind_Ok in H as (okt & st1 & H1 & H).
  apply bind_Ok in H as (ok & st3 & H3 & H).
  destruct ok; [|done]. injection H as _ <-.
  apply findAutoDeletableObjects_quiet in H1.
  apply recursiveDeletion_logged in H3 as (new & H3).
  exists new. eapply logged_nil_l; [exact Hd|]. by eapply logged_nil_l.
Qed.

Lemma collect_implicit_quiet fuel objects :
  forall implicit st implicit' st',
  collect_implicit E fuel objects implicit st = Ok (implicit', st') ->
  logged E st [] st'.
Proof.
  induction objects as [|obj objects IH]; intros implicit st implicit' st' H.
  - injection H as _ <-. by apply logged_quiet.
  - simpl in H. destruct (object_address_present obj implicit); [eauto|].
    apply bind_Ok in H as (okt & st1 & H1 & H).
    apply findAutoDeletableObjects_quiet in H1. apply IH in H.
    by eapply logged_nil_l.
Qed.

Lemma delete_each_logged fuel objects behavior :
  forall implicit st u st',
  delete_each E fuel objects implicit behavior st = Ok (u, st') ->
  exists new, logged E st new st'.
Proof.
  induction objects as [|obj objects IH]; intros implicit st u st' H.
  - injection H as _ <-. exists []. by apply logged_quiet.
  - simpl in H. unfold bind at 1, get_alreadyDeleted in H.
    destruct (object_address_present obj (default [] (alreadyDeleted st)));
      [eauto|].
    destruct (object_address_present obj implicit); [eauto|].
    apply bind_Ok in H as (okt & st1 & H1 & H).
    apply performDeletionWithList_logged in H1 as (new1 & H1).
    apply IH in H as (new2 & H).
    exists (new2 ++ new1). by eapply logged_trans.
Qed.

Lemma performMultipleDeletions_logged fuel objects behavior st u st' :
  performMultipleDeletions E fuel objects behavior st = Ok (u, st') ->
  exists st0 new,
    dropped st0 = dropped st /\ external st0 = external st /\
    alreadyDeleted st0 = Some [] /\ logged E st0 new st'.
Proof.
  unfold performMultipleDeletions. intros H.
  apply bind_Ok in H as (? & st0 & H0 & H).
  apply bind_Ok in H as (implicit & st1 & H1 & H).
  apply collect_implicit_quiet in H1.
  apply delete_each_logged in H as (new & H).
  exists st0, new. unfold set_alreadyDeleted in H0. injection H0 as _ <-.
  simpl. split; [done|]. split; [done|]. split; [done|].
  by eapply logged_nil_l.
Qed.

Lemma logged_calls st0 st new st' :
  dropped st0 = dropped st -> external st0 = external st ->
  logged E st0 new st' -> calls_follow_drops E st st'.
Proof.
  intros Hdr He (Hd & Hx & _ & Hall). exists new.
  unfold drops in *. rewrite <- Hdr, <- He. split; [done|]. split; [done|].
  intros x Hin. rewrite Forall_forall in Hall.
  destruct (Hall x Hin) as (sta & [v stb] & Hrun).
  split.
  - by apply delete_object_itself_anywhere in Hrun as (? & _).
  - by apply calls_of_drop_eq in Hrun.
Qed.

End LogOfEntries.

(** ** What [save_deleted] has entered *)

Lemma remember_deleted_all (deleted : ObjectAddresses)
    (new : list ObjectAddress) :
  exists added,
    foldr remember_deleted deleted new = deleted ++ added /\
    (forall x, x ∈ new ->
       object_address_present x (deleted ++ added) = true) /\
    (forall x, x ∈ added ->
       x ∈ new /\ object_address_present x deleted = false) /\
    NoDup added.
Proof.
  induction new as [|x new (added & Heq & Hall & Hnew & Hnd)].
  - exists []. rewrite app_nil_r. split; [done|]. split; [|split].
    + intros x Hx. by apply elem_of_nil in Hx.
    + intros x Hx. by apply elem_of_nil in Hx.
    + constructor.
  - simpl. rewrite Heq. unfold remember_deleted.
    destruct (object_address_present x (deleted ++ added)) eqn:Hp.
    + exists added. split; [done|]. split; [|split; [|done]].
      * intros y [->|Hy]%elem_of_cons; auto.
      * intros y Hy. destruct (Hnew y Hy). split; [by right|done].
    + exists (added ++ [x]). unfold add_exact_object_address.
      split; [by rewrite app_assoc|]. split; [|split].
      * intros y Hy. rewrite app_assoc.
        apply (present_add y x (deleted ++ added)).
        apply elem_of_cons in Hy as [->|Hy]; [left; apply covers_refl|auto].
      * intros y [Hy|Hy]%elem_of_app.
        -- destruct (Hnew y Hy). split; [by right|done].
        -- apply list_elem_of_singleton in Hy as ->. split; [by left|].
           destruct (object_address_present x deleted) eqn:Hpd; [|done].
           rewrite (present_mono x deleted (deleted ++ added)) in Hp;
             [done| |done].
           intros z Hz. apply elem_of_app. by left.
      * apply NoDup_app. split; [done|]. split; [|apply NoDup_singleton].
        intros y Hy ->%list_elem_of_singleton.
        apply not_present_not_elem in Hp. apply Hp, elem_of_app. by right.
Qed.

(** X5.  External calls are made for drops only: between the state in which
    [recursiveDeletion], [performDeletion], [performMultipleDeletions] or
    [deleteWhatDependsOn] starts and the state in which it returns, the
    calls that leave dependency.c are those of step 3 for the objects
    dropped, in the order of the drops.  Each drop is of an object whose
    class [doDeletion] handles (never a role, a database or a tablespace)
    and calls [DeleteComments] once, after the destructor of the class and,
    for a whole object, before [deleteSharedDependencyRecordsFor]. *)
Theorem external_calls_follow_drops (E : Catalog) :
  (forall fuel object behavior msglevel caller oktodelete st ok st',
      recursiveDeletion E fuel object behavior msglevel caller oktodelete st
        = Ok (ok, st') ->
      calls_follow_drops E st st') /\
  (forall fuel object behavior st u st',
      performDeletion E fuel object behavior st = Ok (u, st') ->
      calls_follow_drops E st st') /\
  (forall fuel objects behavior st u st',
      performMultipleDeletions E fuel objects behavior st = Ok (u, st') ->
      calls_follow_drops E st st') /\
  (forall fuel object showNotices st u st',
      deleteWhatDependsOn E fuel object showNotices st = Ok (u, st') ->
      calls_follow_drops E st st').
Proof.
  split; [|split; [|split]].
  - intros fuel object behavior msglevel caller oktodelete st ok st'
           (new & H)%recursiveDeletion_logged.
    by eapply logged_calls.
  - intros fuel object behavior st u st'
           (st2 & new & ? & ? & _ & H)%performDeletion_logged.
    by eapply logged_calls.
  - intros fuel objects behavior st u st'
           (st2 & new & ? & ? & _ & H)%performMultipleDeletions_logged.
    by eapply logged_calls.
  - intros fuel object showNotices st u st'
           (st2 & new & ? & ? & _ & H)%deleteWhatDependsOn_logged.
    by eapply logged_calls.
Qed.

(** Dropping column 1 of table 16384, a [serial] column, with its
    sequence and its default. *)
Lemma external_calls_follow_drops_witness :
  exists st',
    performDeletion serial_column_catalog 10 (column 16384 1) DROP_RESTRICT
                    initial_DB = Ok (tt, st') /\
    dropped st'
    = [column 16384 1; sequence 16390; mkObjectAddress 2604 16392 0] /\
    external st'
    = [DeleteComments 16384 1259 1; RemoveAttributeById 16384 1;
       deleteSharedDependencyRecordsFor 1259 16390;
       DeleteComments 16390 1259 0; heap_drop_with_catalog 16390;
       deleteSharedDependencyRecordsFor 2604 16392;
       DeleteComments 16392 2604 0; RemoveAttrDefaultById 16392] /\
    calls_follow_drops serial_column_catalog initial_DB st'.
Proof.
  eexists. split; [vm_compute; reflexivity|].
  split; [reflexivity|]. split; [reflexivity|].
  eapply (proj1 (proj2 (external_calls_follow_drops serial_column_catalog))
            10 (column 16384 1) DROP_RESTRICT initial_DB tt).
  vm_compute. reflexivity.
Defined.

(** X6.  The list behind [alreadyDeleted] holds the objects dropped:
    (1) when a pass of [recursiveDeletion] that is given a list returns,
        the list has grown by entries that are objects the pass dropped,
        that the list did not answer for, and that are pairwise distinct,
        and it answers for every object the pass dropped;
    (2) without a list there is none afterwards;
    (3) when [performMultipleDeletions] is done, its list holds only
        objects that it dropped, none twice, and answers for every object
        it dropped. *)
Theorem alreadyDeleted_lists_the_drops (E : Catalog) :
  (forall fuel object behavior msglevel caller oktodelete st ok st' deleted,
      alreadyDeleted st = Some deleted ->
      recursiveDeletion E fuel object behavior msglevel caller oktodelete st
        = Ok (ok, st') ->
      exists new added,
        drops st st' new /\
        alreadyDeleted st' = Some (deleted ++ added) /\
        (forall x, x ∈ new ->
           object_address_present x (deleted ++ added) = true) /\
        (forall x, x ∈ added ->
           x ∈ new /\ object_address_present x deleted = false) /\
        NoDup added) /\
  (forall fuel object behavior msglevel caller oktodelete st ok st',
      alreadyDeleted st = None ->
      recursiveDeletion E fuel object behavior msglevel caller oktodelete st
        = Ok (ok, st') ->
      alreadyDeleted st' = None) /\
  (forall fuel objects behavior st u st',
      performMultipleDeletions E fuel objects behavior st = Ok (u, st') ->
      exists new deleted,
        drops st st' new /\
        alreadyDeleted st' = Some deleted /\
        (forall x, x ∈ new -> object_address_present x deleted = true) /\
        (forall x, x ∈ deleted -> x ∈ new) /\
        NoDup deleted).
Proof.
  split; [|split].
  - intros fuel object behavior msglevel caller oktodelete st ok st' deleted
           Hal (new & Hd & _ & Ha & _)%recursiveDeletion_logged.
    destruct (remember_deleted_all deleted new) as (added & Heq & ? & ? & ?).
    exists new, added. rewrite Ha, Hal. simpl. by rewrite Heq.
  - intros fuel object behavior msglevel caller oktodelete st ok st'
           Hal (new & _ & _ & Ha & _)%recursiveDeletion_logged.
    by rewrite Ha, Hal.
  - intros fuel objects behavior st u st'
           (st0 & new & Hdr & _ & Hal & Hd & _ & Ha & _)%performMultipleDeletions_logged.
    destruct (remember_deleted_all [] new) as (added & Heq & Hall & Hnew & Hnd).
    exists new, added. unfold drops in *. rewrite <- Hdr, Ha, Hal. simpl.
    rewrite Heq. repeat split; try done. intros x Hx. by apply Hnew.
Qed.

(** [DROP TABLE 16384, 16500 CASCADE] where table 16500 inherits from
    table 16384 and has a foreign key to it. *)
Lemma alreadyDeleted_lists_the_drops_witness :
  exists st',
    performMultipleDeletions foreign_key_catalog 10
      [table 16384; table 16500] DROP_CASCADE initial_DB = Ok (tt, st') /\
    exists new deleted,
      drops initial_DB st' new /\
      alreadyDeleted st' = Some deleted /\
      (forall x, x ∈ new -> object_address_present x deleted = true) /\
      (forall x, x ∈ deleted -> x ∈ new) /\
      NoDup deleted.
Proof.
  eexists. split; [vm_compute; reflexivity|].
  eapply (proj2 (proj2 (alreadyDeleted_lists_the_drops foreign_key_catalog))
            10 [table 16384; table 16500] DROP_CASCADE initial_DB tt).
  vm_compute. reflexivity.
Defined.

(* ===================================================================== *)
(** * Part XVIII.  What the entry points leave behind                     *)
(* ===================================================================== *)

Lemma drops_unique st st' new new' :
  drops st st' new -> drops st st' new' -> new = new'.
Proof.
  unfold drops. intros H1 H2. rewrite H1 in H2. by apply app_inv_tail in H2.
Qed.

Section Reached.
Context (E : Catalog).

Lemma can_be_reached_mono D D' x :
  D ⊆ D' -> can_be_reached E D' x -> can_be_reached E D x.
Proof.
  intros Hsub (i & tup & Hi & Hn & H). exists i, tup.
  split; [done|]. split; [|done]. intros Hd. by apply Hn, Hsub.
Qed.

Lemma depender_matches_own tup : depender_matches (depender tup) tup = true.
Proof. apply depender_matches_covers, covers_refl. Qed.

Context (behavior : DropBehavior) (msglevel : elevel)
        (oktodelete : ObjectAddresses).

(** A nested call deletes the tuple it was reached through, and the
    objects that a call drops, other than its own, are dependers of
    tuples, or owners in INTERNAL tuples, that the call could see. *)
Lemma Deletes_reached :
  (forall object caller st ok st',
      Deletes E behavior msglevel oktodelete object caller st ok st' ->
      pending st = ∅ ->
      (forall c i tup,
          caller = Some c -> visible_tuple E st i = Some tup ->
          depender_matches object tup = true ->
          reference_matches c tup = true -> i ∈ dead st') /\
      exists new,
        drops st st' new /\
        forall x, x ∈ new -> x = object \/ can_be_reached E (dead st) x) /\
  (forall object d scan ok st ok' st',
      DeletesDependents E behavior msglevel oktodelete object d scan ok st
                        ok' st' ->
      pending st = ∅ ->
      (forall i, i ∈ scan ->
         exists tup, pg_depend E !! i = Some tup /\
                     reference_matches object tup = true) ->
      (forall i, i ∈ scan -> i ∈ dead st') /\
      exists new,
        drops st st' new /\
        forall x, x ∈ new -> can_be_reached E (dead st) x).
Proof.
  apply Deletes_mutind.
  - (* owner *)
    intros object caller st d sd scan st0 owningObject st1 u st2 quiet st3 r
           st4
           Hd Hscan Hsever Hcci Hquiet Hrun IH Hp.
    pose proof Hd as Hd'. described Hd'.
    destruct (step1_Ok E _ _ _ _ _ _ _ _ _ _ Hscan Hsever Hcci Hp)
      as (Hp2 & Hdr2 & _ & Hsub2 & _ & _).
    past_descriptions.
    pose proof (fun i => elem_of_scan E _ _ _ _ _ i Hscan) as Hin.
    pose proof Hscan as (_ & Hd0 & Hp0 & _)%caql_beginscan_Ok.
    past_descriptions.
    pose proof Hcci as (Hd2 & _)%CommandCounterIncrement_Ok.
    pose proof Hquiet as (Hcore & _)%complain_Ok.
    apply core_eq in Hcore as (Hd3 & Hp3 & Hdr3 & _).
    destruct (proj1 (Deletes_frame E behavior msglevel oktodelete)
                _ _ _ _ _ Hrun ltac:(congruence)) as (_ & Hsub4 & _).
    destruct IH as (_ & new & Hdrops & Hnew); [congruence|].
    split.
    + intros c i tup -> Hv Hm Hr.
      apply Hsub4. rewrite Hd3, Hd2. apply elem_of_union. left.
      eapply sever_outgoing_kills_arrival; [exact Hsever| | |exact Hr].
      * apply Hin. apply visible_tuple_Some in Hv as [_ Hv]. eauto.
      * by rewrite (visible_tuple_same_dead E st st0 i Hd0).
    + exists new. split; [unfold drops in *; congruence|].
      intros x Hx. right. apply Hnew in Hx as [->|Hx].
      * apply sever_outgoing_owner_alive in Hsever
          as [[=]|(j & tj & c & _ & Hvj & Htj & -> & _)].
        apply visible_tuple_Some in Hvj as [Hnj Hj].
        exists j, tj. rewrite <- Hd0. auto.
      * eapply can_be_reached_mono; [|exact Hx]. by rewrite Hd3.
  - (* itself *)
    intros object caller st d sd scan st0 st1 u st2 scan' st3 ok st4 u'
           st5
           Hd Hscan Hsever Hcci Hscan' Hrun IH Hself Hp.
    pose proof Hd as Hd'. described Hd'.
    destruct (step1_Ok E _ _ _ _ _ _ _ _ _ _ Hscan Hsever Hcci Hp)
      as (Hp2 & Hdr2 & _ & Hsub2 & _ & Hall).
    past_descriptions.
    pose proof (fun i => elem_of_scan E _ _ _ _ _ i Hscan') as Hin'.
    pose proof Hscan' as (_ & Hd3 & Hp3 & Hdr3 & _)%caql_beginscan_Ok.
    destruct (proj2 (Deletes_frame E behavior msglevel oktodelete)
                _ _ _ _ _ _ _ Hrun ltac:(congruence)) as (Hp4 & Hsub4 & _).
    destruct IH as (_ & new & Hdrops & Hnew); [congruence| |].
    { intros i Hi. by apply Hin'. }
    apply delete_object_itself_Ok in Hself as (Hd5 & _ & Hdr5 & _).
    rewrite Hp4, union_empty_l_L in Hd5.
    split.
    + intros c i tup -> Hv Hm Hr. rewrite Hd5. apply Hsub4. rewrite Hd3.
      apply Hall; [done|]. apply elem_of_tuples_of.
      apply visible_tuple_Some in Hv as [_ Hv]. eauto.
    + exists (object :: new). split.
      * unfold drops in *. rewrite Hdr5, Hdrops. simpl. congruence.
      * intros x [->|Hx]%elem_of_cons; [by left|]. right.
        eapply can_be_reached_mono; [|exact (Hnew x Hx)]. by rewrite Hd3.
  - (* done *)
    intros object d ok st Hp Hin. split.
    + intros i Hi. by apply elem_of_nil in Hi.
    + exists []. split; [done|]. intros x Hx. by apply elem_of_nil in Hx.
  - (* skip *)
    intros object d i scan ok st ok' st' Hv Hrun IH Hp Hin.
    destruct (proj2 (Deletes_frame E behavior msglevel oktodelete)
                _ _ _ _ _ _ _ Hrun Hp) as (_ & Hsub & _).
    destruct (IH Hp) as (Hall & new & Hnew).
    { intros j Hj. apply Hin. by right. }
    split; [|eauto].
    intros j [->|Hj]%elem_of_cons; [|auto].
    apply Hsub. apply visible_tuple_None in Hv as [Hv|Hv]; [done|].
    destruct (Hin i) as (tup & Hj & _); [by left|congruence].
  - (* normal *)
    intros object d i scan ok st tup quiet st1 r st2 ok' st'
           Hv Ht Hquiet Hrun1 IH1 Hrun2 IH2 Hp Hin.
    pose proof Hquiet as (Hcore & _)%complain_Ok.
    apply core_eq in Hcore as (Hd1 & Hp1 & Hdr1 & _).
    destruct (proj1 (Deletes_frame E behavior msglevel oktodelete)
                _ _ _ _ _ Hrun1 ltac:(congruence)) as (Hp2 & Hsub2 & _).
    destruct (proj2 (Deletes_frame E behavior msglevel oktodelete)
                _ _ _ _ _ _ _ Hrun2 Hp2) as (_ & Hsub' & _).
    destruct IH1 as (Hkill & new1 & Hdrops1 & Hnew1); [congruence|].
    destruct (IH2 Hp2) as (Hall & new2 & Hdrops2 & Hnew2).
    { intros j Hj. apply Hin. by right. }
    destruct (Hin i) as (tup' & Hi & Hr); [by left|].
    pose proof Hv as [Hni Hi']%visible_tuple_Some.
    assert (tup' = tup) as -> by congruence.
    split.
    + intros j [->|Hj]%elem_of_cons; [|auto]. apply Hsub'.
      apply (Hkill object i tup); [done| |apply depender_matches_own|done].
      by rewrite (visible_tuple_same_dead E st st1 i Hd1).
    + exists (new2 ++ new1). split.
      * unfold drops in *. rewrite Hdrops2, Hdrops1, Hdr1. by rewrite app_assoc.
      * intros x [Hx|Hx]%elem_of_app.
        -- eapply can_be_reached_mono; [|exact (Hnew2 x Hx)].
           rewrite <- Hd1. done.
        -- apply Hnew1 in Hx as [->|Hx].
           ++ exists i, tup. auto.
           ++ by rewrite Hd1 in Hx.
  - (* silent *)
    intros object d i scan ok st tup od sd u st1 r st2 ok' st'
           Hv Ht Hod Hlog Hrun1 IH1 Hrun2 IH2 Hp Hin.
    pose proof Hod as Hod'. described Hod'.
    pose proof Hlog as (_ & Hcore & _)%ereport_Ok.
    apply core_eq in Hcore as (Hd1 & Hp1 & Hdr1 & _).
    past_descriptions.
    destruct (proj1 (Deletes_frame E behavior msglevel oktodelete)
                _ _ _ _ _ Hrun1 ltac:(congruence)) as (Hp2 & Hsub2 & _).
    destruct (proj2 (Deletes_frame E behavior msglevel oktodelete)
                _ _ _ _ _ _ _ Hrun2 Hp2) as (_ & Hsub' & _).
    destruct IH1 as (Hkill & new1 & Hdrops1 & Hnew1); [congruence|].
    destruct (IH2 Hp2) as (Hall & new2 & Hdrops2 & Hnew2).
    { intros j Hj. apply Hin. by right. }
    destruct (Hin i) as (tup' & Hi & Hr); [by left|].
    pose proof Hv as [Hni Hi']%visible_tuple_Some.
    assert (tup' = tup) as -> by congruence.
    split.
    + intros j [->|Hj]%elem_of_cons; [|auto]. apply Hsub'.
      apply (Hkill object i tup); [done| |apply depender_matches_own|done].
      by rewrite (visible_tuple_same_dead E st st1 i Hd1).
    + exists (new2 ++ new1). split.
      * unfold drops in *. rewrite Hdrops2, Hdrops1, Hdr1. by rewrite app_assoc.
      * intros x [Hx|Hx]%elem_of_app.
        -- eapply can_be_reached_mono; [|exact (Hnew2 x Hx)].
           rewrite <- Hd1. done.
        -- apply Hnew1 in Hx as [->|Hx].
           ++ exists i, tup. auto.
           ++ by rewrite Hd1 in Hx.
Qed.

End Reached.

(** X7.  [deleteWhatDependsOn] empties the object of its dependents and leaves
    the object.  From a state with no deletion pending, when it returns:
    no pg_depend tuple that refers to the object (or, for a whole object,
    to one of its sub-objects) is left; no deletion is pending and there
    is no [alreadyDeleted] list; and if the object was the depender of no
    tuple, and the owner in no INTERNAL tuple, that a scan could see, the
    object itself has not been dropped. *)
Theorem deleteWhatDependsOn_spares_the_object
    (E : Catalog) (fuel : nat) (object : ObjectAddress) (showNotices : bool)
    (st st' : DB) :
  pending st = ∅ ->
  deleteWhatDependsOn E fuel object showNotices st = Ok (tt, st') ->
  (forall i tup,
      pg_depend E !! i = Some tup -> reference_matches object tup = true ->
      i ∈ dead st') /\
  pending st' = ∅ /\ alreadyDeleted st' = None /\
  exists new,
    drops st st' new /\
    (forall x, x ∈ new -> can_be_reached E (dead st) x) /\
    ((forall i tup,
         visible_tuple E st i = Some tup ->
         depender tup <> object /\
         (deptype tup = DEPENDENCY_INTERNAL -> referenced tup <> object)) ->
     object ∉ new).
Proof.
  intros Hp H.
  pose proof H as (sta & newa & _ & _ & Hala & (Hda & _ & Hal & _))%deleteWhatDependsOn_logged.
  unfold deleteWhatDependsOn in H.
  apply bind_Ok in H as (d & sd & Hd & H). described Hd.
  apply bind_Ok in H as (okt & st1 & H1 & H).
  apply bind_Ok in H as (? & st2 & H2 & H).
  apply bind_Ok in H as (ok & st3 & H3 & H).
  destruct ok; [|done]. injection H as <-.
  apply findAutoDeletableObjects_post in H1 as ((Hd1 & Hp1 & Hdr1 & _) & _).
  apply set_alreadyDeleted_Ok in H2 as [Hcore _].
  apply core_eq in Hcore as (Hd2 & Hp2 & Hdr2 & _).
  apply deleteDependentObjects_Deletes in H3 as (scan & st0 & Hscan & Hrun).
  pose proof (fun i => elem_of_scan E _ _ _ _ _ i Hscan) as Hin.
  apply caql_beginscan_Ok in Hscan as (_ & Hd0 & Hp0 & Hdr0 & _).
  past_descriptions.
  destruct (proj2 (Deletes_frame E _ _ _) _ _ _ _ _ _ _ Hrun
              ltac:(congruence)) as (Hp' & _).
  destruct (proj2 (Deletes_reached E _ _ _) _ _ _ _ _ _ _ Hrun
              ltac:(congruence)) as (Hall & new & Hdrops & Hnew).
  { intros i Hi. by apply Hin. }
  split; [|split; [done|split]].
  - intros i tup Hi Hr. apply Hall, Hin. eauto.
  - rewrite Hal, Hala. done.
  - assert (dead st0 = dead st) as Hdd by congruence.
    exists new. split; [unfold drops in *; congruence|]. split.
    + intros z Hz. rewrite <- Hdd. auto.
    + intros Hfree Hx. apply Hnew in Hx as (i & tup & Hi & Hni & Hx).
      rewrite Hdd in Hni.
      destruct (Hfree i tup) as [Hdep Hown];
        [by apply visible_tuple_Some|].
      destruct Hx as [Hx|[Ht Hx]]; [by apply Hdep|by apply Hown].
Qed.

(** Emptying the temporary schema 16700. *)
Lemma deleteWhatDependsOn_spares_the_object_witness :
  pending initial_DB = ∅ /\
  exists st',
    deleteWhatDependsOn temp_schema_catalog 10 (namespace 16700) false
                        initial_DB = Ok (tt, st') /\
    dropped st'
    = [table 16710; table 16720; rule 16724; type 16722; type 16712] /\
    (forall i tup,
        pg_depend temp_schema_catalog !! i = Some tup ->
        reference_matches (namespace 16700) tup = true -> i ∈ dead st') /\
    namespace 16700 ∉ dropped st'.
Proof.
  split; [reflexivity|]. eexists.
  split; [vm_compute; reflexivity|]. split; [reflexivity|].
  match goal with
  | |- context [dead ?s] => set (st' := s)
  end.
  destruct (deleteWhatDependsOn_spares_the_object
              temp_schema_catalog 10 (namespace 16700) false initial_DB st'
              eq_refl)
    as (Hall & _ & _ & new & Hdrops & _ & Hspare);
    [vm_compute; reflexivity|].
  split; [exact Hall|].
  unfold drops in Hdrops. rewrite Hdrops, app_nil_r. apply Hspare.
  intros i tup Hv. apply visible_tuple_Some in Hv as [_ Hi].
  destruct i as [|[|[|[|[|[|i]]]]]]; simpl in Hi; inversion Hi; subst;
    split; done.
Defined.

(** X8.  What [performDeletion] has done when it returns, in a catalog whose
    INTERNAL dependers are whole objects and from a state with no deletion
    pending: the target has been dropped; every object dropped is involved
    in the deletion of the target (it depends on an object involved, or an
    object involved is an INTERNAL dependent of it) and every object
    involved has been dropped, itself or as part of the whole object; no
    pg_depend tuple mentions a dropped object, as depender or as
    referenced object, and a tuple has been deleted only if its depender
    was dropped. *)
Theorem performDeletion_postcondition
    (E : Catalog) (fuel : nat) (object : ObjectAddress)
    (behavior : DropBehavior) (st st' : DB) :
  internal_dependers_whole E ->
  pending st = ∅ ->
  performDeletion E fuel object behavior st = Ok (tt, st') ->
  pending st' = ∅ /\ alreadyDeleted st' = None /\
  exists new,
    drops st st' new /\ object ∈ new /\
    (forall x, x ∈ new -> involves E (dead st) object x) /\
    (forall x, involves E (dead st) object x ->
       exists y, y ∈ new /\ covers y x) /\
    (forall x i tup,
        x ∈ new -> pg_depend E !! i = Some tup ->
        depender_matches x tup = true \/ reference_matches x tup = true ->
        i ∈ dead st') /\
    (forall i, i ∈ dead st' ->
       i ∈ dead st \/
       exists x tup, x ∈ new /\ pg_depend E !! i = Some tup /\
                     depender_matches x tup = true).
Proof.
  intros Hwhole Hp H.
  pose proof H as (sta & newa & _ & _ & Hala & (_ & _ & Hal & _))%performDeletion_logged.
  apply performDeletion_Ok in H
    as (d & sd & okt & st1 & st2 & Hd & H1 & H2 & H3).
  described Hd.
  apply findAutoDeletableObjects_post in H1 as ((Hd1 & Hp1 & Hdr1 & _) & _).
  apply set_alreadyDeleted_Ok in H2 as [Hcore _].
  apply core_eq in Hcore as (Hd2 & Hp2 & Hdr2 & _).
  past_descriptions.
  apply recursiveDeletion_Deletes in H3.
  destruct (proj1 (Deletes_frame E _ _ _) _ _ _ _ _ H3 ltac:(congruence))
    as (Hp' & _).
  destruct (proj1 (Deletes_involves E _ _ _ Hwhole) _ _ _ _ _ H3
              ltac:(congruence))
    as (new & Hdrops & Hobj & Hinv & Hdead & Hnew & Hint).
  assert (dead st2 = dead st) as Hdd by congruence.
  rewrite Hdd in *.
  split; [done|]. split; [by rewrite Hal, Hala|].
  exists new. split; [unfold drops in *; congruence|].
  split; [done|]. split; [done|]. split; [|split; [done|done]].
  by apply (involves_dropped E (dead st) (dead st') object new).
Qed.

(** [DROP VIEW 16500 CASCADE]. *)
Lemma performDeletion_postcondition_witness :
  internal_dependers_whole view_rule_catalog /\
  pending initial_DB = ∅ /\
  exists st',
    performDeletion view_rule_catalog 10 (table 16500) DROP_CASCADE
                    initial_DB = Ok (tt, st') /\
    dropped st'
    = [table 16500; type 16502; function 3001; table 16500; rule 16504] /\
    forall x, involves view_rule_catalog ∅ (table 16500) x ->
              exists y, y ∈ dropped st' /\ covers y x.
Proof.
  split; [exact view_rule_whole|]. split; [reflexivity|]. eexists.
  split; [vm_compute; reflexivity|]. split; [reflexivity|].
  match goal with
  | |- context [dropped ?s] => set (st' := s)
  end.
  destruct (performDeletion_postcondition
              view_rule_catalog 10 (table 16500) DROP_CASCADE initial_DB st'
              view_rule_whole eq_refl)
    as (_ & _ & new & Hdrops & _ & _ & Hcov & _);
    [vm_compute; reflexivity|].
  unfold drops in Hdrops. rewrite Hdrops, app_nil_r. exact Hcov.
Defined.

(* ===================================================================== *)
(** * Part XIX.  The expansible array and the list that stands for it     *)
(* ===================================================================== *)

Ltac bool_lia :=
  repeat match goal with
  | H : (_ <=? _)%Z = true |- _ => apply Z.leb_le in H
  | H : (_ <=? _)%Z = false |- _ => apply Z.leb_gt in H
  | H : (_ <? _)%Z = true |- _ => apply Z.ltb_lt in H
  | H : (_ <? _)%Z = false |- _ => apply Z.ltb_ge in H
  | H : (_ >=? _)%Z = _ |- _ => rewrite Z.geb_leb in H
  | H : (_ && _) = true |- _ => apply andb_true_iff in H as [? ?]
  | H : (_ && _) = false |- _ => apply andb_false_iff in H as [?|?]
  end; lia.

Ltac list_len :=
  repeat (rewrite ?length_app, ?length_fmap, ?length_drop, ?length_replicate;
          cbn [length]);
  lia.

Lemma load_middle (A : list (option ObjectAddress)) c B i :
  i = Z.of_nat (length A) -> load (A ++ c :: B) i = c.
Proof.
  intros ->. unfold load.
  destruct (0 <=? Z.of_nat (length A))%Z eqn:H; [|bool_lia].
  rewrite Nat2Z.id, list_lookup_middle by done. done.
Qed.

Lemma store_middle (A : list (option ObjectAddress)) c B i v :
  i = Z.of_nat (length A) ->
  store (A ++ c :: B) i v = Some (A ++ Some v :: B).
Proof.
  intros ->. unfold store.
  destruct ((0 <=? Z.of_nat (length A))
            && (Z.of_nat (length A) <? Z.of_nat (length (A ++ c :: B))))%Z
    eqn:H.
  - rewrite Nat2Z.id. f_equal.
    rewrite insert_app_r_alt by lia. by rewrite Nat.sub_diag.
  - rewrite length_app in H. simpl in H. bool_lia.
Qed.

Lemma represents_cells addrs l :
  represents addrs l ->
  refs addrs = (Some <$> l) ++ drop (length l) (refs addrs) /\
  length l <= length (refs addrs).
Proof.
  intros (_ & _ & _ & Ht). split.
  - by rewrite <- Ht, take_drop.
  - apply (f_equal length) in Ht. rewrite length_take, length_fmap in Ht. lia.
Qed.

Lemma to_int_Some x : (- 2 ^ 31 <= x < 2 ^ 31)%Z -> to_int x = Some x.
Proof.
  intros H. unfold to_int.
  destruct ((- 2 ^ 31 <=? x) && (x <? 2 ^ 31))%Z eqn:Hb; [done|bool_lia].
Qed.

Lemma enlarge_if_needed_spec addrs l :
  represents addrs l ->
  (numrefs addrs < maxrefs addrs \/ maxrefs addrs < 2 ^ 30)%Z ->
  exists cell rest,
    enlarge_if_needed addrs
    = Some {| refs := (Some <$> l) ++ cell :: rest;
              numrefs := numrefs addrs;
              maxrefs := if (numrefs addrs <? maxrefs addrs)%Z
                         then maxrefs addrs else (2 * maxrefs addrs)%Z |} /\
    Z.of_nat (length ((Some <$> l) ++ cell :: rest))
    = (if (numrefs addrs <? maxrefs addrs)%Z
       then maxrefs addrs else 2 * maxrefs addrs)%Z.
Proof.
  intros Hr Hroom. pose proof Hr as (Hcells & Hlen)%represents_cells.
  destruct Hr as (Hn & Hm & Hpos & Ht). unfold enlarge_if_needed.
  destruct (numrefs addrs <? maxrefs addrs)%Z eqn:Hlt.
  - destruct (numrefs addrs >=? maxrefs addrs)%Z eqn:Hge; [bool_lia|].
    apply Z.ltb_lt in Hlt.
    destruct (drop (length l) (refs addrs)) as [|cell rest] eqn:Hdrop.
    { apply (f_equal length) in Hdrop. rewrite length_drop in Hdrop.
      simpl in Hdrop. lia. }
    exists cell, rest. rewrite <- Hcells. split; [by destruct addrs|done].
  - destruct (numrefs addrs >=? maxrefs addrs)%Z eqn:Hge; [|bool_lia].
    apply Z.ltb_ge in Hlt.
    assert (length l = length (refs addrs)) as Heq by lia.
    assert (refs addrs = Some <$> l) as Hall.
    { rewrite <- Ht, Heq. by rewrite take_ge. }
    rewrite to_int_Some by lia. simpl.
    destruct (length l) as [|n] eqn:Hl; [lia|].
    exists None, (replicate n None). split.
    + f_equal. unfold repalloc. rewrite take_ge by lia.
      rewrite <- Hall. f_equal.
      * replace (Z.to_nat (maxrefs addrs * 2) - length (refs addrs))
          with (S n) by lia.
        done.
      * lia.
    + rewrite length_app, length_fmap. simpl. rewrite length_replicate. lia.
Qed.

Lemma represents_snoc (l : list ObjectAddress) x rest n m :
  n = (Z.of_nat (length l) + 1)%Z ->
  m = Z.of_nat (length ((Some <$> l) ++ Some x :: rest)) ->
  (0 < m < 2 ^ 31)%Z ->
  represents {| refs := (Some <$> l) ++ Some x :: rest; numrefs := n;
                maxrefs := m |} (l ++ [x]).
Proof.
  intros -> -> Hm. unfold represents. simpl.
  rewrite length_app. simpl. split; [lia|]. split; [done|]. split; [done|].
  rewrite fmap_app. simpl.
  change ((Some <$> l) ++ Some x :: rest)
    with ((Some <$> l) ++ [Some x] ++ rest).
  rewrite app_assoc.
  replace (length l + 1) with (length ((Some <$> l) ++ [Some x]))
    by (rewrite length_app, length_fmap; done).
  by rewrite take_app_length.
Qed.

Lemma add_item_spec item addrs l :
  represents addrs l ->
  (numrefs addrs < maxrefs addrs \/ maxrefs addrs < 2 ^ 30)%Z ->
  exists addrs',
    (addrs ← enlarge_if_needed addrs;
     cells ← store (refs addrs) (numrefs addrs) item;
     n ← to_int (numrefs addrs + 1);
     Some {| refs := cells; numrefs := n; maxrefs := maxrefs addrs |})
    = Some addrs' /\
    represents addrs' (l ++ [item]) /\
    maxrefs addrs' = (if (numrefs addrs <? maxrefs addrs)%Z
                      then maxrefs addrs else 2 * maxrefs addrs)%Z.
Proof.
  intros Hr Hroom.
  destruct (enlarge_if_needed_spec addrs l Hr Hroom)
    as (cell & rest & -> & Hlen).
  pose proof Hr as (_ & Hle)%represents_cells.
  destruct Hr as (Hn & Hm & Hpos & Ht). simpl.
  rewrite (store_middle _ _ _ _ item) by (by rewrite length_fmap).
  simpl. rewrite to_int_Some by lia. simpl.
  eexists. split; [reflexivity|]. split; [|done].
  apply represents_snoc; [lia| |].
  - rewrite <- Hlen. rewrite !length_app. done.
  - destruct (numrefs addrs <? maxrefs addrs)%Z eqn:Hlt; bool_lia.
Qed.

Lemma object_address_present_down_spec object cells (l : list ObjectAddress) :
  take (length l) cells = Some <$> l ->
  forall n, n <= length l ->
  object_address_present_down object cells n
  = Some (object_address_present_loop object (reverse (take n l))).
Proof.
  intros Ht. induction n as [|i IH]; intros Hn; [done|].
  destruct (lookup_lt_is_Some_2 l i ltac:(lia)) as [x Hx].
  assert (load cells (Z.of_nat i) = Some x) as Hload.
  { unfold load. destruct (0 <=? Z.of_nat i)%Z eqn:H0; [|bool_lia].
    rewrite Nat2Z.id.
    rewrite <- (lookup_take_lt cells (length l) i) by lia.
    by rewrite Ht, list_lookup_fmap, Hx. }
  simpl. rewrite Hload. simpl.
  rewrite (take_S_r l i x Hx), reverse_app. simpl.
  rewrite IH by lia.
  destruct ((classId object =? classId x)%Z && (objectId object =? objectId x)%Z);
    [|done].
  by destruct ((objectSubId object =? objectSubId x)%Z || (objectSubId x =? 0)%Z).
Qed.

(** The loop of [eliminate_duplicate_dependencies] on the block: [out]
    are the cells below [priorobj], [gap] the cells between [priorobj] and
    [oldref], which are not read again. *)
Lemma remove_dups_array_spec (remaining : list ObjectAddress) :
  forall out prior gap rest cells oldref priorobj newrefs,
  cells = (Some <$> out) ++ Some prior :: gap ++ (Some <$> remaining) ++ rest ->
  oldref = Z.of_nat (length out + 1 + length gap) ->
  priorobj = Z.of_nat (length out) ->
  newrefs = Z.of_nat (length out + 1) ->
  exists tail,
    remove_dups_array (length remaining) oldref priorobj newrefs cells
    = Some (Z.of_nat (length (out ++ remove_dups prior remaining)),
            (Some <$> (out ++ remove_dups prior remaining)) ++ tail) /\
    length ((Some <$> (out ++ remove_dups prior remaining)) ++ tail)
    = length cells.
Proof.
  induction remaining as [|thisobj remaining IH];
    intros out prior gap rest cells oldref priorobj newrefs -> -> -> ->.
  - exists (gap ++ rest). simpl. rewrite length_app. simpl.
    rewrite fmap_app. simpl. rewrite <- app_assoc. simpl. done.
  - assert (load ((Some <$> out) ++ Some prior :: gap
                  ++ (Some <$> thisobj :: remaining) ++ rest)
                 (Z.of_nat (length out + 1 + length gap)) = Some thisobj)
      as Hthis.
    { replace ((Some <$> out) ++ Some prior :: gap
               ++ (Some <$> thisobj :: remaining) ++ rest)
        with (((Some <$> out) ++ Some prior :: gap)
              ++ Some thisobj :: (Some <$> remaining) ++ rest)
        by (rewrite <- app_assoc; done).
      apply load_middle. rewrite length_app, length_fmap. simpl. lia. }
    assert (load ((Some <$> out) ++ Some prior :: gap
                  ++ (Some <$> thisobj :: remaining) ++ rest)
                 (Z.of_nat (length out)) = Some prior) as Hprior.
    { apply load_middle. by rewrite length_fmap. }
    cbn [remove_dups_array length]. rewrite Hthis, Hprior.
    cbn [mbind option_bind].
    assert (forall prior',
      exists tail,
        remove_dups_array (length remaining)
          (Z.of_nat (length out + 1 + length gap) + 1) (Z.of_nat (length out))
          (Z.of_nat (length out + 1))
          ((Some <$> out) ++ Some prior' :: gap
           ++ (Some <$> thisobj :: remaining) ++ rest)
        = Some (Z.of_nat (length (out ++ remove_dups prior' remaining)),
                (Some <$> (out ++ remove_dups prior' remaining)) ++ tail) /\
        length ((Some <$> (out ++ remove_dups prior' remaining)) ++ tail)
        = length ((Some <$> out) ++ Some prior :: gap
                  ++ (Some <$> thisobj :: remaining) ++ rest)) as Hstay.
    { intros prior'.
      destruct (IH out prior' (gap ++ [Some thisobj]) rest _ _ _ _
                  eq_refl eq_refl eq_refl eq_refl) as (tail & Hrun & Hlen).
      exists tail. split.
      - rewrite <- Hrun. f_equal.
        + list_len.
        + rewrite <- !app_assoc. done.
      - rewrite Hlen. list_len. }
    assert (exists tail,
        (cells' ← store ((Some <$> out) ++ Some prior :: gap
                         ++ (Some <$> thisobj :: remaining) ++ rest)
                        (Z.of_nat (length out) + 1) thisobj;
         remove_dups_array (length remaining)
           (Z.of_nat (length out + 1 + length gap) + 1)
           (Z.of_nat (length out) + 1) (Z.of_nat (length out + 1) + 1) cells')
        = Some (Z.of_nat (length (out ++ prior
                                    :: remove_dups thisobj remaining)),
                (Some <$> (out ++ prior :: remove_dups thisobj remaining))
                ++ tail) /\
        length ((Some <$> (out ++ prior :: remove_dups thisobj remaining))
                ++ tail)
        = length ((Some <$> out) ++ Some prior :: gap
                  ++ (Some <$> thisobj :: remaining) ++ rest)) as Hadd.
    { destruct gap as [|g gap].
      - replace ((Some <$> out) ++ Some prior :: []
                 ++ (Some <$> thisobj :: remaining) ++ rest)
          with ((Some <$> (out ++ [prior]))
                ++ Some thisobj :: (Some <$> remaining) ++ rest)
          by (rewrite fmap_app, <- app_assoc; done).
        rewrite (store_middle _ _ _ _ thisobj)
          by list_len.
        cbn [mbind option_bind].
        destruct (IH (out ++ [prior]) thisobj [] rest _ _ _ _
                    eq_refl eq_refl eq_refl eq_refl) as (tail & Hrun & Hlen).
        exists tail. rewrite <- app_assoc in Hrun, Hlen. simpl in Hrun, Hlen.
        split; [|done]. rewrite <- Hrun. f_equal; list_len.
      - replace ((Some <$> out) ++ Some prior :: (g :: gap)
                 ++ (Some <$> thisobj :: remaining) ++ rest)
          with ((Some <$> (out ++ [prior]))
                ++ g :: gap ++ Some thisobj :: (Some <$> remaining) ++ rest)
          by (rewrite fmap_app, <- app_assoc; done).
        rewrite (store_middle _ _ _ _ thisobj)
          by list_len.
        cbn [mbind option_bind].
        destruct (IH (out ++ [prior]) thisobj (gap ++ [Some thisobj]) rest
                    _ _ _ _ eq_refl eq_refl eq_refl eq_refl)
          as (tail & Hrun & Hlen).
        exists tail. rewrite <- (app_assoc out) in Hrun, Hlen.
        simpl in Hrun, Hlen. split.
        + rewrite <- Hrun. f_equal; [list_len|list_len|list_len|].
          rewrite <- !app_assoc. done.
        + rewrite Hlen. list_len. }
    cbn [remove_dups].
    destruct ((classId prior =? classId thisobj)%Z
              && (objectId prior =? objectId thisobj)%Z); [|exact Hadd].
    destruct (objectSubId prior =? objectSubId thisobj)%Z; [apply Hstay|].
    destruct (objectSubId prior =? 0)%Z; [|exact Hadd].
    rewrite (store_middle _ _ _ _ _) by (by rewrite length_fmap).
    cbn [mbind option_bind].
    destruct (Hstay {| classId := classId prior; objectId := objectId prior;
                       objectSubId := objectSubId thisobj |})
      as (tail & Hrun & Hlen).
    exists tail. split; [|done]. rewrite <- Hrun. done.
Qed.

Lemma qsort_cells_spec cmp cells (l : list ObjectAddress) :
  take (length l) cells = Some <$> l ->
  qsort_cells cmp cells (Z.of_nat (length l))
  = Some ((Some <$> qsort cmp l) ++ drop (length l) cells).
Proof.
  intros Ht. unfold qsort_cells.
  assert (length l <= length cells) as Hle.
  { apply (f_equal length) in Ht. rewrite length_take, length_fmap in Ht. lia. }
  destruct ((0 <=? Z.of_nat (length l))
            && (Z.of_nat (length l) <=? Z.of_nat (length cells)))%Z eqn:Hb;
    [|lia].
  rewrite Nat2Z.id, Ht. by rewrite mapM_fmap_Some.
Qed.

Lemma eliminate_duplicate_dependencies_array_spec addrs l :
  represents addrs l ->
  exists addrs',
    eliminate_duplicate_dependencies_array addrs = Some addrs' /\
    represents addrs' (eliminate_duplicate_dependencies l) /\
    maxrefs addrs' = maxrefs addrs.
Proof.
  intros Hr. pose proof Hr as (Hn & Hm & Hpos & Ht).
  unfold eliminate_duplicate_dependencies_array,
    eliminate_duplicate_dependencies.
  destruct (length l <=? 1) eqn:Hshort.
  - apply Nat.leb_le in Hshort.
    destruct (numrefs addrs <=? 1)%Z eqn:Hz; [|bool_lia]. eauto.
  - apply Nat.leb_gt in Hshort.
    destruct (numrefs addrs <=? 1)%Z eqn:Hz; [bool_lia|].
    rewrite Hn, (qsort_cells_spec _ _ _ Ht). cbn [mbind option_bind].
    assert (length (qsort object_address_comparator l) = length l) as Hlen.
    { unfold qsort. by rewrite merge_sort_Permutation. }
    destruct (qsort object_address_comparator l) as [|first others];
      [simpl in Hlen; lia|].
    simpl in Hlen.
    destruct (remove_dups_array_spec others [] first []
                (drop (length l) (refs addrs))
                ((Some <$> first :: others) ++ drop (length l) (refs addrs))
                1 0 1)
      as (tail & Hrun & Hsize); try done.
    replace (Z.to_nat (Z.of_nat (length l) - 1)) with (length others) by lia.
    rewrite Hrun. cbn [mbind option_bind].
    assert (length ((Some <$> first :: others)
                    ++ drop (length l) (refs addrs))
            = length (refs addrs)) as Hsame.
    { pose proof (proj2 (represents_cells _ _ Hr)). list_len. }
    eexists. split; [reflexivity|]. split; [|done].
    unfold represents. cbn [refs numrefs maxrefs app].
    split; [done|]. split; [by rewrite Hm, <- Hsame, <- Hsize|].
    split; [done|].
    replace (length (remove_dups first others))
      with (length (Some <$> remove_dups first others))
      by apply length_fmap.
    by rewrite take_app_length.
Qed.

(** X9.  The operations on the expansible array do what the operations on the
    list of its live cells do.  If the block of [addrs] holds [l]:
    (1) [object_address_present] reads live cells only and answers as on
        [l];
    (2) [add_exact_object_address] and [add_object_address] write inside
        the block, which they double exactly when it is full, and the
        block then holds [l] with the new entry at the end (a block of
        2^30 cells that is full cannot be doubled: [maxrefs] would
        overflow). *)
Theorem object_addresses_array_is_its_list
    (addrs : ObjectAddressesArray) (l : ObjectAddresses) :
  represents addrs l ->
  (forall object,
      object_address_present_array object addrs
      = Some (object_address_present object l)) /\
  (forall object,
      (numrefs addrs < maxrefs addrs \/ maxrefs addrs < 2 ^ 30)%Z ->
      exists addrs',
        add_exact_object_address_array object addrs = Some addrs' /\
        represents addrs' (add_exact_object_address object l) /\
        maxrefs addrs' = (if (numrefs addrs <? maxrefs addrs)%Z
                          then maxrefs addrs else 2 * maxrefs addrs)%Z) /\
  (forall ids oclass objectId subId,
      (numrefs addrs < maxrefs addrs \/ maxrefs addrs < 2 ^ 30)%Z ->
      exists addrs',
        add_object_address_array ids oclass objectId subId addrs
          = Some addrs' /\
        represents addrs' (add_object_address ids oclass objectId subId l) /\
        maxrefs addrs' = (if (numrefs addrs <? maxrefs addrs)%Z
                          then maxrefs addrs else 2 * maxrefs addrs)%Z).
Proof.
  intros Hr. split; [|split].
  - intros object. destruct Hr as (Hn & _ & _ & Ht).
    unfold object_address_present_array, object_address_present.
    rewrite Hn, Nat2Z.id.
    rewrite (object_address_present_down_spec object _ l Ht) by lia.
    by rewrite take_ge.
  - intros object Hroom. by apply add_item_spec.
  - intros ids oclass objectId subId Hroom. by apply add_item_spec.
Qed.

Lemma object_addresses_array_is_its_list_witness :
  represents two_entries_array [table 16384; column 16384 3] /\
  represents full_array thirty_two_tables /\
  object_address_present_array (column 16384 7) two_entries_array
    = Some true /\
  (exists addrs',
      add_exact_object_address_array (function 3001) two_entries_array
        = Some addrs' /\
      represents addrs' [table 16384; column 16384 3; function 3001] /\
      maxrefs addrs' = 32%Z) /\
  exists addrs',
    add_exact_object_address_array (function 3001) full_array = Some addrs' /\
    represents addrs' (thirty_two_tables ++ [function 3001]) /\
    maxrefs addrs' = 64%Z.
Proof.
  assert (represents two_entries_array [table 16384; column 16384 3]) as H2.
  { unfold represents. simpl. repeat split; lia. }
  assert (represents full_array thirty_two_tables) as H32.
  { unfold represents. simpl. repeat split; lia. }
  split; [done|]. split; [done|].
  split.
  - apply (proj1 (object_addresses_array_is_its_list _ _ H2)).
  - split.
    + apply (proj1 (proj2 (object_addresses_array_is_its_list _ _ H2))
               (function 3001)).
      left. simpl. lia.
    + apply (proj1 (proj2 (object_addresses_array_is_its_list _ _ H32))
               (function 3001)).
      right. simpl. lia.
Defined.

(** X10.  [eliminate_duplicate_dependencies] works in place: if the block of
    [addrs] holds [l], the loop reads live cells only, writes at or below
    the cell it reads, and leaves a block of the same size that holds the
    list obtained from [l] by sorting and removing the duplicates. *)
Theorem eliminate_duplicate_dependencies_in_place
    (addrs : ObjectAddressesArray) (l : ObjectAddresses) :
  represents addrs l ->
  exists addrs',
    eliminate_duplicate_dependencies_array addrs = Some addrs' /\
    represents addrs' (eliminate_duplicate_dependencies l) /\
    maxrefs addrs' = maxrefs addrs /\
    length (refs addrs') = length (refs addrs).
Proof.
  intros Hr.
  destruct (eliminate_duplicate_dependencies_array_spec addrs l Hr)
    as (addrs' & Hrun & Hr' & Hmax).
  exists addrs'. split; [done|]. split; [done|]. split; [done|].
  destruct Hr as (_ & Hm & _). destruct Hr' as (_ & Hm' & _). lia.
Qed.

Lemma eliminate_duplicate_dependencies_in_place_witness :
  represents unsorted_array
    [column 16384 2; function 3001; table 16384; column 16384 2] /\
  exists addrs',
    eliminate_duplicate_dependencies_array unsorted_array = Some addrs' /\
    represents addrs' [function 3001; column 16384 2] /\
    numrefs addrs' = 2%Z /\ maxrefs addrs' = 8%Z.
Proof.
  assert (represents unsorted_array
            [column 16384 2; function 3001; table 16384; column 16384 2])
    as Hr.
  { unfold represents. simpl. repeat split; lia. }
  split; [done|].
  destruct (eliminate_duplicate_dependencies_in_place _ _ Hr)
    as (addrs' & Hrun & Hr' & Hmax & _).
  exists addrs'. split; [done|]. split; [exact Hr'|].
  split; [|exact Hmax]. by destruct Hr' as (-> & _).
Defined.

Lemma add_all_snoc l x addrs :
  add_all (l ++ [x]) addrs
  = add_all l addrs ≫= add_exact_object_address_array x.
Proof. unfold add_all. by rewrite foldl_app. Qed.

(** X11.  The block grows by doubling.  With an allocator that grants
    every block asked for ([palloc] and [repalloc] are not part of this
    file, and the model takes them to return), adding the objects of [l],
    at most 2^30 of them, one by one to a new array makes no access
    outside the block, reads no cell that was never written and overflows
    no [int]; the block then holds [l], and its size is 32 times a power
    of two, and less than twice the number of entries unless it is still
    the first block. *)
Theorem array_grows_by_doubling (l : list ObjectAddress) :
  (Z.of_nat (length l) <= 2 ^ 30)%Z ->
  exists addrs,
    add_all l new_object_addresses_array = Some addrs /\
    represents addrs l /\
    (exists k : nat, maxrefs addrs = 32 * 2 ^ Z.of_nat k)%Z /\
    (maxrefs addrs = 32 \/ maxrefs addrs < 2 * Z.of_nat (length l))%Z.
Proof.
  induction l as [|x l IH] using rev_ind; intros Hlen.
  - exists new_object_addresses_array. split; [done|].
    split; [unfold represents; simpl; repeat split; lia|].
    split; [by exists 0|by left].
  - rewrite length_app in Hlen. simpl in Hlen.
    destruct IH as (addrs & Hrun & Hr & (k & Hk) & Hsize); [lia|].
    pose proof Hr as (Hn & Hm & Hpos & _).
    pose proof (proj2 (represents_cells _ _ Hr)) as Hle.
    destruct (add_item_spec x addrs l Hr) as (addrs' & Hadd & Hr' & Hmax).
    { destruct (Z.lt_ge_cases (numrefs addrs) (maxrefs addrs)); [by left|].
      right. lia. }
    exists addrs'. rewrite add_all_snoc, Hrun. split; [exact Hadd|].
    split; [exact Hr'|]. rewrite Hmax, length_app. simpl.
    destruct (numrefs addrs <? maxrefs addrs)%Z eqn:Hlt.
    + split; [by exists k|]. lia.
    + apply Z.ltb_ge in Hlt. split.
      * exists (S k). rewrite Hk, Nat2Z.inj_succ, Z.pow_succ_r by lia. lia.
      * right. lia.
Qed.

Lemma array_grows_by_doubling_witness :
  (Z.of_nat (length (thirty_two_tables ++ [function 3001])) <= 2 ^ 30)%Z /\
  exists addrs,
    add_all (thirty_two_tables ++ [function 3001]) new_object_addresses_array
      = Some addrs /\
    numrefs addrs = 33%Z /\ maxrefs addrs = 64%Z.
Proof.
  assert (Z.of_nat (length (thirty_two_tables ++ [function 3001])) <= 2 ^ 30)%Z
    as Hlen by (simpl; lia).
  split; [done|].
  destruct (array_grows_by_doubling _ Hlen) as (addrs & Hrun & _ & _ & _).
  exists addrs. split; [exact Hrun|].
  vm_compute in Hrun. injection Hrun as <-. done.
Defined.

(* ===================================================================== *)
(** * Part XX.  The pre-scan                                              *)
(* ===================================================================== *)

Section PreScanReadsOnly.
Context (E : Catalog).

Lemma find_auto_scan_messages recurse object :
  (forall other okt st okt' st',
      recurse other okt st = Ok (okt', st') -> messages st' = messages st) ->
  forall scan okt st okt' st',
  find_auto_scan E recurse object scan okt st = Ok (okt', st') ->
  messages st' = messages st.
Proof.
  intros Hrec. induction scan as [|i scan IH]; intros okt st okt' st' H.
  - by injection H as _ <-.
  - rewrite find_auto_scan_cons in H.
    destruct (visible_tuple E st i) as [foundDep|]; [|by eapply IH].
    destruct (deptype foundDep).
    + by eapply IH.
    + apply bind_Ok in H as (okt1 & st1 & H1 & H).
      apply Hrec in H1. apply IH in H. congruence.
    + apply bind_Ok in H as (okt1 & st1 & H1 & H).
      apply Hrec in H1. apply IH in H. congruence.
    + by apply bind_Ok in H as (? & ? & _ & [=]).
    + by apply bind_Ok in H as (? & ? & _ & [=]).
Qed.

Lemma findAutoDeletableObjects_messages fuel :
  forall object okt addself st okt' st',
  findAutoDeletableObjects E fuel object okt addself st = Ok (okt', st') ->
  messages st' = messages st.
Proof.
  induction fuel as [|fuel IH]; intros object okt addself st okt' st' H;
    [done|].
  simpl in H. destruct (object_address_present object okt).
  - by injection H as _ <-.
  - apply bind_Ok in H as (scan & st0 & H0 & H).
    apply caql_beginscan_Ok in H0 as (_ & _ & _ & _ & _ & _ & _ & Hm).
    eapply find_auto_scan_messages in H; [congruence|].
    intros. by eapply IH.
Qed.

End PreScanReadsOnly.

(** X12.  [findAutoDeletableObjects] as [performDeletion] and
    [deleteWhatDependsOn] call it, on an empty list with [addself]:
    (1) a fuel of [|E| + 2] nested calls is never exhausted, [|E|] being
        the number of tuples of pg_depend;
    (2) when it returns, it has changed nothing but the count of scans,
        and has begun one scan for each entry of the list;
    (3) the entries of the list are pairwise distinct, none is pinned,
        and they are the target and objects that depend on the target
        through AUTO and INTERNAL tuples;
    (4) the list answers for every object that depends on the target
        through AUTO and INTERNAL tuples. *)
Theorem findAutoDeletableObjects_specification
    (E : Catalog) (fuel : nat) (object : ObjectAddress) (st : DB) :
  length (pg_depend E) + 2 <= fuel ->
  findAutoDeletableObjects E fuel object new_object_addresses true st
    <> OutOfFuel /\
  forall oktodelete st',
    findAutoDeletableObjects E fuel object new_object_addresses true st
      = Ok (oktodelete, st') ->
    st' = {| dead := dead st; pending := pending st; dropped := dropped st;
             external := external st; messages := messages st;
             alreadyDeleted := alreadyDeleted st; scans := scans st' |} /\
    scans st' <= scans st + length oktodelete /\
    NoDup oktodelete /\
    (forall x, x ∈ oktodelete ->
       auto_reaches E (dead st) object x /\ ~ is_pinned E st x) /\
    (forall x, auto_reaches E (dead st) object x ->
       object_address_present x oktodelete = true).
Proof.
  intros Hfuel. split.
  - apply findAutoDeletableObjects_terminates.
    pose proof (unlisted_le E new_object_addresses).
    destruct (_ && _); lia.
  - intros oktodelete st' H.
    pose proof (findAutoDeletableObjects_external E _ _ _ _ _ _ _ H) as He.
    pose proof (findAutoDeletableObjects_messages E _ _ _ _ _ _ _ H) as Hm.
    pose proof (findAutoDeletableObjects_count E _ _ _ _ _ _ _ H)
      as (added' & Heq' & Hscans & Hnd & _).
    apply findAutoDeletableObjects_post in H
      as ((Hd & Hp & Hdr & Ha & _ & added & Heq & Hreach & Hclosed & Hpin)
          & Hself & _).
    simpl in Heq, Heq'. subst added added'.
    split; [|split; [|split; [|split]]].
    + destruct st'. simpl in *. by subst.
    + lia.
    + done.
    + intros x Hx. split; [by apply Hreach|by apply Hpin].
    + intros x Hx. eapply auto_reaches_present; [|by apply Hself|exact Hx].
      intros z Hz. by apply Hclosed.
Qed.

(** The pre-scan for dropping column 1 of table 16384, a [serial]
    column. *)
Lemma findAutoDeletableObjects_specification_witness :
  length (pg_depend serial_column_catalog) + 2 <= 5 /\
  exists st',
    findAutoDeletableObjects serial_column_catalog 5 (column 16384 1)
                             new_object_addresses true initial_DB
    = Ok ([column 16384 1; sequence 16390; mkObjectAddress 2604 16392 0],
          st') /\
    scans st' <= 0 + 3 /\
    forall x, auto_reaches serial_column_catalog ∅ (column 16384 1) x ->
              object_address_present x
                [column 16384 1; sequence 16390; mkObjectAddress 2604 16392 0]
              = true.
Proof.
  split; [simpl; lia|]. eexists.
  split; [vm_compute; reflexivity|].
  match goal with
  | |- context [scans ?s] => set (st' := s)
  end.
  destruct (proj2 (findAutoDeletableObjects_specification
                     serial_column_catalog 5 (column 16384 1) initial_DB
                     ltac:(simpl; lia))
              [column 16384 1; sequence 16390; mkObjectAddress 2604 16392 0]
              st')
    as (_ & Hscans & _ & _ & Hall); [vm_compute; reflexivity|].
  split; [exact Hscans|exact Hall].
Defined.

(* ===================================================================== *)
(** * Part XXI.  Dependencies of expressions                              *)
(* ===================================================================== *)

Lemma wbind_Returned {A B} (m : W A) (k : A -> W B) ctx r :
  wbind m k ctx = Returned r <->
  exists a ctx1, m ctx = Returned (a, ctx1) /\ k a ctx1 = Returned r.
Proof.
  unfold wbind. split.
  - destruct (m ctx) as [[a ctx1]| |]; [eauto|done|done].
  - intros (a & ctx1 & -> & H). done.
Qed.

Section WalkerFacts.
Context (V : ExprEnv).

Lemma accumulated_refl ctx : accumulated V ctx ctx.
Proof. split; [done|]. exists []. by rewrite app_nil_r. Qed.

Lemma accumulated_trans ctx1 ctx2 ctx3 :
  accumulated V ctx1 ctx2 -> accumulated V ctx2 ctx3 ->
  accumulated V ctx1 ctx3.
Proof.
  intros (Hr1 & a1 & Ha1 & Hf1) (Hr2 & a2 & Ha2 & Hf2).
  split; [congruence|]. exists (a1 ++ a2).
  split; [by rewrite Ha2, Ha1, app_assoc|by apply Forall_app].
Qed.

Lemma add_to_context_accumulated oclass objectId subId ctx u ctx' :
  oclass ∈ referenceable_classes ->
  subId = 0%Z \/ oclass = OCLASS_CLASS ->
  add_to_context V oclass objectId subId ctx = Returned (u, ctx') ->
  accumulated V ctx ctx'.
Proof.
  intros Hc Hs [= <- <-]. split; [done|]. eexists. split; [reflexivity|].
  apply Forall_singleton. split; [eauto|]. simpl.
  intros Hn. destruct Hs as [?| ->]; done.
Qed.

Lemma add_each_accumulated oclass l :
  oclass ∈ referenceable_classes ->
  forall ctx u ctx',
  add_each V oclass l ctx = Returned (u, ctx') -> accumulated V ctx ctx'.
Proof.
  intros Hc. induction l as [|o l IH]; intros ctx u ctx' H.
  - injection H as _ <-. apply accumulated_refl.
  - simpl in H. apply wbind_Returned in H as (? & ctx1 & H1 & H).
    eapply accumulated_trans; [|by eapply IH].
    eapply add_to_context_accumulated; [done|by left|exact H1].
Qed.

Lemma reference_of_alias_constant_accumulated consttype objoid ctx u ctx' :
  reference_of_alias_constant V consttype objoid ctx = Returned (u, ctx') ->
  accumulated V ctx ctx'.
Proof.
  unfold reference_of_alias_constant. intros H.
  repeat match type of H with
         | (if ?b then _ else _) _ = _ => destruct b
         end;
    try (injection H as _ <-; apply accumulated_refl);
    (eapply add_to_context_accumulated; [|by left|exact H]);
    unfold referenceable_classes; set_solver.
Qed.

Lemma add_rtable_references_accumulated rtable :
  forall ctx u ctx',
  add_rtable_references V rtable ctx = Returned (u, ctx') ->
  accumulated V ctx ctx'.
Proof.
  induction rtable as [|rte rtable IH]; intros ctx u ctx' H.
  - injection H as _ <-. apply accumulated_refl.
  - simpl in H. apply wbind_Returned in H as (? & ctx1 & H1 & H).
    eapply accumulated_trans; [|by eapply IH].
    destruct (rtekind rte).
    + eapply add_to_context_accumulated; [|by left|exact H1].
      unfold referenceable_classes; set_solver.
    + injection H1 as _ <-. apply accumulated_refl.
    + eapply add_each_accumulated; [|exact H1].
      unfold referenceable_classes; set_solver.
    + eapply add_each_accumulated; [|exact H1].
      unfold referenceable_classes; set_solver.
    + injection H1 as _ <-. apply accumulated_refl.
Qed.

Lemma walk_children_accumulated (walker : Node -> W bool) children :
  (forall node ctx abort ctx',
      walker node ctx = Returned (abort, ctx') ->
      abort = false /\ accumulated V ctx ctx') ->
  forall ctx abort ctx',
  walk_children walker children ctx = Returned (abort, ctx') ->
  abort = false /\ accumulated V ctx ctx'.
Proof.
  intros Hw. induction children as [|child children IH];
    intros ctx abort ctx' H.
  - injection H as <- <-. split; [done|apply accumulated_refl].
  - simpl in H. apply wbind_Returned in H as (b & ctx1 & H1 & H).
    apply Hw in H1 as [-> H1]. apply IH in H as [-> H].
    split; [done|]. by eapply accumulated_trans.
Qed.

Lemma add_then_walk (m : W unit) (walker : Node -> W bool) children ctx
    abort ctx' :
  (forall ctx u ctx1, m ctx = Returned (u, ctx1) -> accumulated V ctx ctx1) ->
  (forall node ctx abort ctx',
      walker node ctx = Returned (abort, ctx') ->
      abort = false /\ accumulated V ctx ctx') ->
  (m ;;; walk_children walker children) ctx = Returned (abort, ctx') ->
  abort = false /\ accumulated V ctx ctx'.
Proof.
  intros Hm Hw H. apply wbind_Returned in H as (u & ctx1 & H1 & H).
  apply Hm in H1.
  apply (walk_children_accumulated walker children Hw) in H as [-> H].
  split; [done|]. by eapply accumulated_trans.
Qed.

Lemma find_expr_references_walker_accumulated fuel :
  forall node ctx abort ctx',
  find_expr_references_walker V fuel node ctx = Returned (abort, ctx') ->
  abort = false /\ accumulated V ctx ctx'.
Proof.
  induction fuel as [|fuel IH]; intros node ctx abort ctx' H; [done|].
  assert (forall oclass objectId ctx u ctx1,
             oclass ∈ referenceable_classes ->
             add_to_context V oclass objectId 0 ctx = Returned (u, ctx1) ->
             accumulated V ctx ctx1) as Hadd.
  { intros. eapply add_to_context_accumulated; [done|by left|done]. }
  destruct node; cbn [find_expr_references_walker] in H.
  - (* NULL *)
    injection H as <- <-. split; [done|apply accumulated_refl].
  - (* Var *)
    apply wbind_Returned in H as (context & ? & [= <- <-] & H).
    destruct (N.of_nat (length (rtables ctx)) <=? varlevelsup)%N; [done|].
    destruct (_ || _); [done|].
    destruct (_ !! N.to_nat (varno - 1)) as [rte|]; [|done].
    destruct (varattno =? 0)%Z.
    { injection H as <- <-. split; [done|apply accumulated_refl]. }
    destruct (rtekind rte).
    + apply wbind_Returned in H as (u & ctx1 & H1 & [= <- <-]).
      split; [done|].
      eapply add_to_context_accumulated; [|by right|exact H1].
      unfold referenceable_classes; set_solver.
    + apply wbind_Returned in H as (u & ctx1 & [= <- <-] & H).
      destruct (_ || _); [done|].
      apply wbind_Returned in H as (b & ctx2 & H2 & H).
      apply wbind_Returned in H as (u' & ctx3 & [= <- <-] & [= <- <-]).
      apply IH in H2 as (_ & _ & added & Hadded & Hall).
      split; [done|]. split; [done|]. simpl in *. eauto.
    + injection H as <- <-. split; [done|apply accumulated_refl].
    + injection H as <- <-. split; [done|apply accumulated_refl].
    + injection H as <- <-. split; [done|apply accumulated_refl].
  - (* Const *)
    apply wbind_Returned in H as (u & ctx1 & H1 & H).
    apply wbind_Returned in H as (u' & ctx2 & H2 & [= <- <-]).
    split; [done|].
    eapply accumulated_trans.
    + eapply Hadd; [|exact H1]. unfold referenceable_classes; set_solver.
    + destruct (negb constisnull).
      * by eapply reference_of_alias_constant_accumulated.
      * injection H2 as _ <-. apply accumulated_refl.
  - (* Param *)
    eapply add_then_walk; [|exact IH|exact H].
    intros. eapply Hadd; [|done]. unfold referenceable_classes; set_solver.
  - eapply add_then_walk; [|exact IH|exact H].
    intros. eapply Hadd; [|done]. unfold referenceable_classes; set_solver.
  - eapply add_then_walk; [|exact IH|exact H].
    intros. eapply Hadd; [|done]. unfold referenceable_classes; set_solver.
  - eapply add_then_walk; [|exact IH|exact H].
    intros. eapply Hadd; [|done]. unfold referenceable_classes; set_solver.
  - eapply add_then_walk; [|exact IH|exact H].
    intros. eapply Hadd; [|done]. unfold referenceable_classes; set_solver.
  - eapply add_then_walk; [|exact IH|exact H].
    intros. eapply Hadd; [|done]. unfold referenceable_classes; set_solver.
  - eapply add_then_walk; [|exact IH|exact H].
    intros. eapply Hadd; [|done]. unfold referenceable_classes; set_solver.
  - eapply add_then_walk; [|exact IH|exact H].
    intros. eapply Hadd; [|done]. unfold referenceable_classes; set_solver.
  - (* SubPlan *) done.
  - eapply add_then_walk; [|exact IH|exact H].
    intros. eapply Hadd; [|done]. unfold referenceable_classes; set_solver.
  - eapply add_then_walk; [|exact IH|exact H].
    intros. eapply Hadd; [|done]. unfold referenceable_classes; set_solver.
  - eapply add_then_walk; [|exact IH|exact H].
    intros. eapply Hadd; [|done]. unfold referenceable_classes; set_solver.
  - (* RowCompareExpr *)
    apply wbind_Returned in H as (u & ctx1 & H1 & H).
    apply add_each_accumulated in H1;
      [|unfold referenceable_classes; set_solver].
    eapply add_then_walk in H; [| |exact IH].
    + destruct H as [-> H]. split; [done|]. by eapply accumulated_trans.
    + intros ? ? ?. apply add_each_accumulated.
      unfold referenceable_classes; set_solver.
  - eapply add_then_walk; [|exact IH|exact H].
    intros. eapply Hadd; [|done]. unfold referenceable_classes; set_solver.
  - (* Query *)
    apply wbind_Returned in H as (u & ctx1 & H1 & H).
    apply add_rtable_references_accumulated in H1.
    apply wbind_Returned in H as (context & ? & [= <- <-] & H).
    apply wbind_Returned in H as (u' & ctx2 & [= <- <-] & H).
    apply wbind_Returned in H as (result & ctx3 & H3 & H).
    apply wbind_Returned in H as (context' & ? & [= <- <-] & H).
    apply wbind_Returned in H as (u'' & ctx4 & [= <- <-] & [= <- <-]).
    apply (walk_children_accumulated _ _ IH) in H3
      as (-> & Hr3 & added & Hadded & Hall).
    split; [done|]. eapply accumulated_trans; [exact H1|].
    split; [simpl in *; by rewrite Hr3|]. simpl in *. eauto.
  - (* any other node *)
    by eapply walk_children_accumulated.
Qed.

Lemma separate_self_dependencies_filter relId remaining :
  forall self_addrs kept,
  separate_self_dependencies V relId remaining self_addrs kept
  = (self_addrs ++ filter (fun a => is_self_reference V relId a = true)
                          remaining,
     kept ++ filter (fun a => is_self_reference V relId a <> true) remaining).
Proof.
  induction remaining as [|thisobj remaining IH]; intros self_addrs kept.
  - simpl. by rewrite !app_nil_r.
  - cbn [separate_self_dependencies]. rewrite !filter_cons.
    change ((classId thisobj =? RelationRelationId (class_oids V))%Z
            && (objectId thisobj =? relId)%Z)
      with (is_self_reference V relId thisobj).
    destruct (decide (is_self_reference V relId thisobj = true)) as [Hs|Hs];
      destruct (decide (is_self_reference V relId thisobj <> true))
        as [Hn|Hn]; try done.
    + rewrite Hs, IH. unfold add_object_address.
      apply andb_true_iff in Hs as [Hc%Z.eqb_eq Ho%Z.eqb_eq].
      rewrite <- app_assoc. simpl.
      do 3 f_equal. destruct thisobj; simpl in *. by subst.
    + apply not_true_is_false in Hs. rewrite Hs, IH.
      by rewrite <- app_assoc.
Qed.

End WalkerFacts.

(** X13.  [find_expr_references_walker] only adds references, and puts the
    range tables back.  When a call returns: it returns false (the walk is
    never abandoned); [context->rtables] is as it was; the array holds what
    it held, followed by the references found; and each of these is to a
    relation, a type, a function, an operator or an operator class, and to
    the whole object unless it is to a column of a relation. *)
Theorem find_expr_references_walker_accumulates
    (V : ExprEnv) (fuel : nat) (node : Node)
    (context context' : find_expr_references_context) (abort : bool) :
  find_expr_references_walker V fuel node context
    = Returned (abort, context') ->
  abort = false /\
  rtables context' = rtables context /\
  exists added,
    addrs context' = addrs context ++ added /\
    forall a, a ∈ added ->
      (exists oclass,
          oclass ∈ [OCLASS_CLASS; OCLASS_TYPE; OCLASS_PROC; OCLASS_OPERATOR;
                    OCLASS_OPCLASS] /\
          classId a = object_classes (class_oids V) oclass) /\
      (objectSubId a <> 0%Z ->
       classId a = RelationRelationId (class_oids V)).
Proof.
  intros (-> & Hr & added & Ha & Hall)%find_expr_references_walker_accumulated.
  split; [done|]. split; [done|]. exists added. split; [done|].
  intros a Hin. rewrite Forall_forall in Hall. by apply Hall.
Qed.

Lemma find_expr_references_walker_accumulates_witness :
  exists context',
    find_expr_references_walker sample_env 10 sample_check_expr
      {| addrs := [type 23];
         rtables := [[mkRangeTblEntry RTE_RELATION 16384 [] []]] |}
    = Returned (false, context') /\
    rtables context' = [[mkRangeTblEntry RTE_RELATION 16384 [] []]] /\
    exists added, addrs context' = [type 23] ++ added.
Proof.
  eexists. split; [vm_compute; reflexivity|].
  match goal with
  | |- context [rtables ?c] => set (context' := c)
  end.
  destruct (find_expr_references_walker_accumulates
              sample_env 10 sample_check_expr
              {| addrs := [type 23];
                 rtables := [[mkRangeTblEntry RTE_RELATION 16384 [] []]] |}
              context' false)
    as (_ & Hr & added & Ha & _); [vm_compute; reflexivity|].
  split; [exact Hr|]. exists added. exact Ha.
Defined.

(** X14.  [recordDependencyOnSingleRelExpr] records every reference once, the
    references to the relation and its columns apart from the others.
    When it returns, with [refs] the references that the walker found,
    sorted and without duplicates:
    (1) if [behavior] and [self_behavior] are the same, or there is no
        reference, it calls [recordMultipleDependencies] once, with
        [refs] and [behavior];
    (2) otherwise it calls it twice: with the references of [refs] to
        the relation [relId] and its columns, in the order of [refs], and
        [self_behavior], then with the other references of [refs], in
        their order, and [behavior]. *)
Theorem recordDependencyOnSingleRelExpr_separates
    (V : ExprEnv) (fuel : nat) (depender : ObjectAddress) (expr : Node)
    (relId : Oid) (behavior self_behavior : DependencyType)
    (calls : list RecordedDependencies) :
  recordDependencyOnSingleRelExpr V fuel depender expr relId behavior
                                  self_behavior = Returned calls ->
  exists context',
    find_expr_references_walker V fuel expr
      {| addrs := new_object_addresses;
         rtables := [[mkRangeTblEntry RTE_RELATION relId [] []]] |}
    = Returned (false, context') /\
    let refs := eliminate_duplicate_dependencies (addrs context') in
    (behavior = self_behavior \/ refs = [] ->
     calls = [mkRecorded depender refs behavior]) /\
    (behavior <> self_behavior -> refs <> [] ->
     calls
     = [mkRecorded depender
          (filter (fun a => is_self_reference V relId a = true) refs)
          self_behavior;
        mkRecorded depender
          (filter (fun a => is_self_reference V relId a <> true) refs)
          behavior]) /\
    filter (fun a => is_self_reference V relId a = true) refs
      ++ filter (fun a => is_self_reference V relId a <> true) refs
    ≡ₚ refs.
Proof.
  unfold recordDependencyOnSingleRelExpr. intros H.
  destruct (find_expr_references_walker V fuel expr _)
    as [[abort context']| |] eqn:Hwalk; [|done|done].
  pose proof Hwalk as [-> _]%find_expr_references_walker_accumulated.
  exists context'. split; [done|]. cbv zeta.
  set (refs := eliminate_duplicate_dependencies (addrs context')) in *.
  rewrite separate_self_dependencies_filter in H. simpl in H.
  split; [|split].
  - intros [->|Hnil].
    + rewrite bool_decide_eq_true_2 in H by done. simpl in H. congruence.
    + rewrite Hnil in *. simpl in H. rewrite andb_false_r in H. congruence.
  - intros Hne Hrefs. rewrite bool_decide_eq_false_2 in H by done.
    destruct refs; [done|]. simpl in H. by injection H as <-.
  - apply filter_app_complement.
Qed.

Lemma recordDependencyOnSingleRelExpr_separates_witness :
  recordDependencyOnSingleRelExpr sample_env 10 (constraint 16600)
    sample_check_expr 16384%Z DEPENDENCY_NORMAL DEPENDENCY_AUTO
  = Returned
      [mkRecorded (constraint 16600) [column 16384 2; column 16384 3]
                  DEPENDENCY_AUTO;
       mkRecorded (constraint 16600)
                  [type 23; function 3001; mkObjectAddress 2617 97 0;
                   mkObjectAddress 2617 521 0]
                  DEPENDENCY_NORMAL] /\
  exists context',
    find_expr_references_walker sample_env 10 sample_check_expr
      {| addrs := new_object_addresses;
         rtables := [[mkRangeTblEntry RTE_RELATION 16384 [] []]] |}
    = Returned (false, context').
Proof.
  split; [vm_compute; reflexivity|].
  destruct (recordDependencyOnSingleRelExpr_separates
              sample_env 10 (constraint 16600) sample_check_expr 16384%Z
              DEPENDENCY_NORMAL DEPENDENCY_AUTO _ eq_refl)
    as (context' & Hwalk & _).
  by exists context'.
Defined.

(* ===================================================================== *)
(** * Part XXII.  The other entry points terminate                        *)
(* ===================================================================== *)

Section EntriesTerminate.
Context (E : Catalog) (h : ObjectAddress -> nat) (K fuel : nat).
Context (Hrank : internal_rank E h K).
Context (Hfuel : (2 * length (pg_depend E) + 2) * (K + 1) <= fuel).

Lemma prescan_has_fuel object okt addself st :
  findAutoDeletableObjects E fuel object okt addself st <> OutOfFuel.
Proof using Hfuel.
  apply findAutoDeletableObjects_terminates.
  pose proof (unlisted_le E okt). destruct (_ && _); nia.
Qed.

Lemma outermost_has_fuel object behavior msglevel okt st :
  pending st = ∅ ->
  recursiveDeletion E fuel object behavior msglevel None okt st <> OutOfFuel.
Proof using Hrank Hfuel.
  intros Hp.
  apply (recursiveDeletion_terminates_ranked E h K _ _ _ Hrank _ _ _ _ 1);
    [done|discriminate|lia|].
  pose proof (alive_size E st). destruct Hrank as [Hb _].
  specialize (Hb object). nia.
Qed.

Lemma performDeletionWithList_has_fuel object okt behavior st :
  pending st = ∅ ->
  performDeletionWithList E fuel object okt behavior st <> OutOfFuel.
Proof using Hrank Hfuel.
  intros Hp. unfold performDeletionWithList. intros H.
  apply bind_OutOfFuel in H as [H|(d & st_d & Hd & H)].
  { revert H. apply getObjectDescription_not_OutOfFuel. }
  described Hd.
  apply bind_OutOfFuel in H as [H|(okt' & st1 & Hfind & H)].
  { revert H. apply prescan_has_fuel. }
  apply findAutoDeletableObjects_post in Hfind as ((Hd1 & Hp1 & _) & _).
  past_descriptions.
  apply bind_OutOfFuel in H as [H|(ok & st3 & _ & H)].
  - revert H. apply outermost_has_fuel. congruence.
  - by destruct ok.
Qed.

Lemma performDeletionWithList_pending object okt behavior st okt' st' :
  pending st = ∅ ->
  performDeletionWithList E fuel object okt behavior st = Ok (okt', st') ->
  pending st' = ∅.
Proof.
  intros Hp H. unfold performDeletionWithList in H.
  apply bind_Ok in H as (d & sd & Hd & H). described Hd.
  apply bind_Ok in H as (okt1 & st1 & H1 & H).
  apply bind_Ok in H as (ok & st3 & H3 & H).
  destruct ok; [|done]. injection H as ? <-.
  apply findAutoDeletableObjects_post in H1 as ((_ & Hp1 & _) & _).
  past_descriptions.
  apply recursiveDeletion_Deletes in H3.
  by apply (proj1 (Deletes_frame E _ _ _)) in H3 as (? & _); [|congruence].
Qed.

Lemma collect_implicit_has_fuel objects :
  forall implicit st,
  collect_implicit E fuel objects implicit st <> OutOfFuel.
Proof using Hfuel.
  induction objects as [|obj objects IH]; intros implicit st; [done|].
  simpl. destruct (object_address_present obj implicit); [apply IH|].
  intros H. apply bind_OutOfFuel in H as [H|(? & ? & _ & H)].
  - revert H. apply prescan_has_fuel.
  - revert H. apply IH.
Qed.

Lemma collect_implicit_pending objects :
  forall implicit st implicit' st',
  collect_implicit E fuel objects implicit st = Ok (implicit', st') ->
  pending st' = pending st.
Proof.
  induction objects as [|obj objects IH]; intros implicit st implicit' st' H.
  - by injection H as ? <-.
  - simpl in H. destruct (object_address_present obj implicit); [eauto|].
    apply bind_Ok in H as (okt & st1 & H1 & H).
    apply findAutoDeletableObjects_post in H1 as ((_ & Hp1 & _) & _).
    past_descriptions.
    apply IH in H. congruence.
Qed.

Lemma delete_each_has_fuel objects behavior :
  forall implicit st,
  pending st = ∅ ->
  delete_each E fuel objects implicit behavior st <> OutOfFuel.
Proof using Hrank Hfuel.
  induction objects as [|obj objects IH]; intros implicit st Hp; [done|].
  simpl. unfold bind at 1, get_alreadyDeleted.
  destruct (object_address_present obj (default [] (alreadyDeleted st)));
    [by apply IH|].
  destruct (object_address_present obj implicit); [by apply IH|].
  intros H. apply bind_OutOfFuel in H as [H|(okt & st1 & H1 & H)].
  - revert H. by apply performDeletionWithList_has_fuel.
  - revert H. apply IH. by eapply performDeletionWithList_pending.
Qed.

Lemma performMultipleDeletions_has_fuel objects behavior st :
  pending st = ∅ ->
  performMultipleDeletions E fuel objects behavior st <> OutOfFuel.
Proof using Hrank Hfuel.
  intros Hp. unfold performMultipleDeletions. intros H.
  apply bind_OutOfFuel in H as [H|(? & st0 & H0 & H)]; [done|].
  apply set_alreadyDeleted_Ok in H0 as [Hcore _].
  apply core_eq in Hcore as (_ & Hp0 & _).
  apply bind_OutOfFuel in H as [H|(implicit & st1 & H1 & H)].
  - revert H. apply collect_implicit_has_fuel.
  - revert H. apply delete_each_has_fuel.
    apply collect_implicit_pending in H1. congruence.
Qed.

Lemma deleteWhatDependsOn_has_fuel object showNotices st :
  pending st = ∅ ->
  deleteWhatDependsOn E fuel object showNotices st <> OutOfFuel.
Proof using Hrank Hfuel.
  intros Hp. unfold deleteWhatDependsOn. intros H.
  apply bind_OutOfFuel in H as [H|(d & st_d & Hd & H)].
  { revert H. apply getObjectDescription_not_OutOfFuel. }
  described Hd.
  apply bind_OutOfFuel in H as [H|(okt & st1 & Hfind & H)].
  { revert H. apply prescan_has_fuel. }
  apply findAutoDeletableObjects_post in Hfind as ((Hd1 & Hp1 & _) & _).
  past_descriptions.
  apply bind_OutOfFuel in H as [H|(? & st2 & Hset & H)]; [done|].
  apply set_alreadyDeleted_Ok in Hset as [Hcore _].
  apply core_eq in Hcore as (Hd2 & Hp2 & _).
  apply bind_OutOfFuel in H as [H|(ok & st3 & _ & H)]; [|by destruct ok].
  unfold deleteDependentObjects, deleteDependentObjects_with in H.
  apply bind_OutOfFuel in H as [H|(scan & st0 & Hscan & H)]; [done|].
  pose proof (fun i => elem_of_scan E _ _ _ _ _ i Hscan) as Hin.
  apply caql_beginscan_Ok in Hscan as (_ & Hd0 & Hp0 & _).
  revert H.
  apply (delete_dependents_terminates_ranked E h K _ _ _ Hrank _ _ _ fuel).
  - intros other st' Hp' Harr Hsize.
    apply (recursiveDeletion_terminates_ranked E h K _ _ _ Hrank _ _ _ _ 0);
      [done| |lia|lia].
    intros _. destruct Harr as (i & tup & ? & ? & ?). eauto 10.
  - intros other st' r st'' Hr. by apply recursiveDeletion_Deletes in Hr.
  - congruence.
  - intros i Hi. by apply Hin.
  - pose proof (alive_size E st0). nia.
Qed.

End EntriesTerminate.

(** X15.  Termination of the other entry points.  If the INTERNAL dependencies
    have no cycle (they can be ranked by some [h] bounded by [K]), then
    from a state with no deletion pending [performDeletionWithList],
    [performMultipleDeletions], whatever the number of targets, and
    [deleteWhatDependsOn] terminate: a fuel of [(2 |E| + 2) (K + 1)]
    nested calls is never exhausted, [|E|] being the number of tuples of
    pg_depend. *)
Theorem entry_points_terminate
    (E : Catalog) (st : DB) (h : ObjectAddress -> nat) (K fuel : nat) :
  pending st = ∅ ->
  internal_rank E h K ->
  (2 * length (pg_depend E) + 2) * (K + 1) <= fuel ->
  (forall object oktodelete behavior,
      performDeletionWithList E fuel object oktodelete behavior st
        <> OutOfFuel) /\
  (forall objects behavior,
      performMultipleDeletions E fuel objects behavior st <> OutOfFuel) /\
  (forall object showNotices,
      deleteWhatDependsOn E fuel object showNotices st <> OutOfFuel).
Proof.
  intros Hp Hrank Hfuel. split; [|split].
  - intros. by eapply performDeletionWithList_has_fuel.
  - intros. by eapply performMultipleDeletions_has_fuel.
  - intros. by eapply deleteWhatDependsOn_has_fuel.
Qed.

Lemma entry_points_terminate_witness :
  pending initial_DB = ∅ /\
  internal_rank mutual_functions_catalog relation_rank 1 /\
  (2 * length (pg_depend mutual_functions_catalog) + 2) * (1 + 1) <= 20 /\
  performMultipleDeletions mutual_functions_catalog 20
    [function 1; function 2] DROP_CASCADE initial_DB <> OutOfFuel /\
  deleteWhatDependsOn mutual_functions_catalog 20 (function 1) true
                      initial_DB <> OutOfFuel.
Proof.
  split; [reflexivity|]. split; [exact mutual_functions_rank|].
  split; [simpl; lia|].
  destruct (entry_points_terminate mutual_functions_catalog initial_DB
              relation_rank 1 20 eq_refl mutual_functions_rank
              ltac:(simpl; lia)) as (_ & Hmulti & Hwhat).
  split; [apply Hmulti|apply Hwhat].
Defined.

(* ===================================================================== *)
(** * Part XXIII.  The references recorded are addresses the deletion     *)
(** * machinery accepts                                                   *)
(* ===================================================================== *)

Section Classified.
Context (E : Catalog) (V : ExprEnv).
Context (Hoids : class_oids V = oids E).
Context (Hdistinct : distinct_case_labels (oids E)).

Lemma referenceable_classified a :
  referenceable V a ->
  exists oclass,
    oclass ∈ referenceable_classes /\ getObjectClass E a = Ok oclass /\
    shared_class oclass = false /\
    (forall st,
        getObjectDescription E a st = Ok (Describe oclass a, st) \/
        exists e, getObjectDescription E a st = Err e) /\
    (forall st d st',
        getObjectDescription E a st = Ok (d, st') ->
        d = Describe oclass a /\ st' = st) /\
    (forall st e,
        getObjectDescription E a st = Err e ->
        (oclass = OCLASS_CLASS /\
         has_tuple E pg_class (objectId a) = false /\
         e = ERR_cache_lookup_failed pg_class (objectId a)) \/
        (oclass = OCLASS_OPCLASS /\
         has_tuple E pg_opclass (objectId a) = false /\
         e = ERR_cache_lookup_failed pg_opclass (objectId a)) \/
        (oclass = OCLASS_OPCLASS /\
         has_tuple E pg_opclass (objectId a) = true /\
         has_tuple E pg_am (opcamid E (objectId a)) = false /\
         e = ERR_cache_lookup_failed pg_am (opcamid E (objectId a)))).
Proof using Hoids Hdistinct.
  intros ((oclass & Hin & Hc) & Hsub). rewrite Hoids in Hc, Hsub.
  exists oclass. split; [done|].
  assert (getObjectClass E a = Ok oclass) as Hclass.
  { destruct (decide (oclass = OCLASS_CLASS)) as [->|Hne].
    - by apply getObjectClass_relation.
    - rewrite (getObjectClass_other E a oclass Hdistinct Hc Hne).
      destruct (objectSubId a =? 0)%Z eqn:Hz.
      + by rewrite andb_false_r.
      + apply Z.eqb_neq in Hz. apply Hsub in Hz.
        destruct Hne.
        apply (object_classes_inj (oids E) oclass OCLASS_CLASS Hdistinct).
        by rewrite <- Hc, Hz. }
  split; [done|].
  unfold referenceable_classes in Hin.
  assert (oclass = OCLASS_CLASS \/ oclass = OCLASS_TYPE \/
          oclass = OCLASS_PROC \/ oclass = OCLASS_OPERATOR \/
          oclass = OCLASS_OPCLASS) as Hfive.
  { repeat (apply elem_of_cons in Hin as [->|Hin]; [auto 6|]).
    by apply elem_of_nil in Hin. }
  split; [by destruct Hfive as [->|[->|[->|[->| ->]]]]|].
  split; [|split].
  - intros st. rewrite getObjectDescription_eq, Hclass.
    pose proof (description_lookups_not_OutOfFuel E oclass a) as Hfuel.
    destruct (description_lookups E oclass a) as [[]|e|]; [|eauto|done].
    left. rewrite described_in_id; [done|].
    by destruct Hfive as [->|[->|[->|[->| ->]]]].
  - intros st d st' (Hd & Hcd & _ & ->)%getObjectDescription_Ok.
    rewrite Hclass in Hcd. injection Hcd as Hcd.
    destruct d as [c x]; simpl in *; subst. split; [done|].
    apply described_in_id.
    by destruct Hfive as [->|[->|[->|[->| ->]]]].
  - intros st e H. rewrite getObjectDescription_eq, Hclass in H.
    unfold description_lookups, getRelationDescription, lookup_or in H.
    destruct Hfive as [->|[->|[->|[->| ->]]]]; try discriminate.
    + destruct (has_tuple E pg_class (objectId a)) eqn:Ht; [done|].
      injection H as <-. auto.
    + destruct (has_tuple E pg_opclass (objectId a)) eqn:Ht.
      * destruct (has_tuple E pg_am (opcamid E (objectId a))) eqn:Ham;
          [done|].
        injection H as <-. auto 10.
      * injection H as <-. auto 10.
Qed.

Lemma walker_references_referenceable fuel expr rts abort context' :
  find_expr_references_walker V fuel expr
    {| addrs := new_object_addresses; rtables := rts |}
  = Returned (abort, context') ->
  Forall (referenceable V)
         (eliminate_duplicate_dependencies (addrs context')).
Proof.
  intros (_ & _ & added & Ha & Hall)%find_expr_references_walker_accumulated.
  simpl in Ha. rewrite Ha. apply Forall_forall. intros a Hin.
  rewrite Forall_forall in Hall. apply Hall.
  pose proof (eliminate_duplicate_dependencies_sublist added) as Hsub.
  apply (elem_of_sublist _ _ a Hin) in Hsub.
  by rewrite (qsort_perm added) in Hsub.
Qed.

End Classified.

(** X16.  What [recordDependencyOnExpr] and [recordDependencyOnSingleRelExpr]
    hand to [recordMultipleDependencies] are addresses that the deletion
    machinery accepts.  With the class OIDs of the catalog, pairwise
    distinct: for every reference recorded, [getObjectClass] returns one
    of the classes relation, type, function, operator and operator class
    (it neither raises "unrecognized object class" nor fails its
    assertion), and [doDeletion] has a branch for the class.
    [getObjectDescription] takes the case of that class and either
    returns or raises an error: when it returns, it has built the
    description of that case and emitted no notice; the only errors that
    it raises itself are "cache lookup failed" for a relation, an operator
    class or the access method of the class that is not, or no longer, in
    its catalog. *)
Theorem recorded_references_are_classified
    (E : Catalog) (V : ExprEnv) (fuel : nat) (depender : ObjectAddress)
    (expr : Node) :
  class_oids V = oids E ->
  distinct_case_labels (oids E) ->
  forall calls,
    (exists rtable behavior,
        recordDependencyOnExpr V fuel depender expr rtable behavior
          = Returned calls) \/
    (exists relId behavior self_behavior,
        recordDependencyOnSingleRelExpr V fuel depender expr relId behavior
                                        self_behavior = Returned calls) ->
    forall call a,
      call ∈ calls -> a ∈ recorded_refs call ->
      recorded_depender call = depender /\
      exists oclass,
        oclass ∈ [OCLASS_CLASS; OCLASS_TYPE; OCLASS_PROC; OCLASS_OPERATOR;
                  OCLASS_OPCLASS] /\
        getObjectClass E a = Ok oclass /\
        shared_class oclass = false /\
        (forall st,
            getObjectDescription E a st = Ok (Describe oclass a, st) \/
            exists e, getObjectDescription E a st = Err e) /\
        (forall st d st',
            getObjectDescription E a st = Ok (d, st') ->
            d = Describe oclass a /\ st' = st) /\
        (forall st e,
            getObjectDescription E a st = Err e ->
            (oclass = OCLASS_CLASS /\
             has_tuple E pg_class (objectId a) = false /\
             e = ERR_cache_lookup_failed pg_class (objectId a)) \/
            (oclass = OCLASS_OPCLASS /\
             has_tuple E pg_opclass (objectId a) = false /\
             e = ERR_cache_lookup_failed pg_opclass (objectId a)) \/
            (oclass = OCLASS_OPCLASS /\
             has_tuple E pg_opclass (objectId a) = true /\
             has_tuple E pg_am (opcamid E (objectId a)) = false /\
             e = ERR_cache_lookup_failed pg_am (opcamid E (objectId a)))).
Proof.
  intros Hoids Hdistinct calls Hrun call a Hcall Ha.
  assert (recorded_depender call = depender /\ referenceable V a) as [Hd Hr].
  { destruct Hrun as [(rtable & behavior & H)
                     |(relId & behavior & self_behavior & H)].
    - unfold recordDependencyOnExpr in H.
      destruct (find_expr_references_walker V fuel expr _)
        as [[abort context']| |] eqn:Hwalk; [|done|done].
      injection H as <-. apply list_elem_of_singleton in Hcall as ->.
      split; [done|].
      apply walker_references_referenceable in Hwalk.
      rewrite Forall_forall in Hwalk. by apply Hwalk.
    - unfold recordDependencyOnSingleRelExpr in H.
      destruct (find_expr_references_walker V fuel expr _)
        as [[abort context']| |] eqn:Hwalk; [|done|done].
      apply walker_references_referenceable in Hwalk.
      rewrite Forall_forall in Hwalk.
      rewrite separate_self_dependencies_filter in H.
      destruct (_ && _); injection H as <-.
      + apply elem_of_cons in Hcall as [->|Hcall];
          [|apply list_elem_of_singleton in Hcall as ->]; simpl in *.
        * apply list_elem_of_filter in Ha as [_ Ha]. auto.
        * apply list_elem_of_filter in Ha as [_ Ha]. auto.
      + apply list_elem_of_singleton in Hcall as ->. simpl in *. auto. }
  split; [done|]. by apply (referenceable_classified E V).
Qed.

(** The CHECK constraint 16600 of table 16384, recorded while the table
    is in pg_class and after its tuple has gone. *)
Lemma recorded_references_are_classified_witness :
  class_oids sample_env = oids view_on_table_catalog /\
  distinct_case_labels (oids view_on_table_catalog) /\
  exists calls,
    recordDependencyOnSingleRelExpr sample_env 10 (constraint 16600)
      sample_check_expr 16384%Z DEPENDENCY_NORMAL DEPENDENCY_AUTO
    = Returned calls /\
    (forall call a,
       call ∈ calls -> a ∈ recorded_refs call ->
       exists oclass, getObjectClass view_on_table_catalog a = Ok oclass) /\
    getObjectDescription view_on_table_catalog (column 16384 2) initial_DB
    = Ok (Describe OCLASS_CLASS (column 16384 2), initial_DB) /\
    getObjectDescription (without_tuples pg_class view_on_table_catalog)
                         (column 16384 2) initial_DB
    = Err (ERR_cache_lookup_failed pg_class 16384).
Proof.
  split; [reflexivity|]. split; [exact sample_oids_distinct|].
  eexists. split; [vm_compute; reflexivity|].
  split; [|split; vm_compute; reflexivity].
  intros call a Hcall Ha.
  destruct (recorded_references_are_classified
              view_on_table_catalog sample_env 10 (constraint 16600)
              sample_check_expr eq_refl sample_oids_distinct _
              (or_intror (ex_intro _ 16384%Z
                 (ex_intro _ DEPENDENCY_NORMAL
                    (ex_intro _ DEPENDENCY_AUTO eq_refl))))
              call a Hcall Ha)
    as (_ & oclass & _ & Hc & _).
  by exists oclass.
Defined.

(* ===================================================================== *)
(** * Part XXIV.  What performMultipleDeletions drops                     *)
(* ===================================================================== *)

Section MultipleTargets.
Context (E : Catalog) (fuel : nat) (behavior : DropBehavior).
Context (Hwhole : internal_dependers_whole E).

Lemma auto_reaches_involves D x y :
  auto_reaches E D x y -> involves E D x y.
Proof.
  induction 1 as [|z i tup _ IH Hi Hn Hm _]; [constructor|].
  by eapply involves_dependent.
Qed.

(** One target: what was added to [implicit] has been dropped, and the
    list of deleted objects answers for it. *)
Lemma performDeletionWithList_covers obj implicit st implicit' st' deleted :
  pending st = ∅ ->
  alreadyDeleted st = Some deleted ->
  performDeletionWithList E fuel obj implicit behavior st
    = Ok (implicit', st') ->
  exists deleted',
    alreadyDeleted st' = Some deleted' /\
    (forall x, object_address_present x deleted = true ->
               object_address_present x deleted' = true) /\
    object_address_present obj deleted' = true /\
    (forall x, object_address_present x implicit' = true ->
               object_address_present x implicit = true \/
               object_address_present x deleted' = true).
Proof using Hwhole.
  intros Hp Hal H. unfold performDeletionWithList in H.
  apply bind_Ok in H as (d & sd & Hd & H). described Hd.
  apply bind_Ok in H as (okt & sta & Hfind & H).
  apply bind_Ok in H as (ok & stb & Hrec & H).
  destruct ok; [|done]. injection H as <- <-.
  apply findAutoDeletableObjects_post in Hfind
    as ((Hda & Hpa & _ & Hala & _ & added & -> & Hreach & _) & _).
  past_descriptions.
  pose proof (recursiveDeletion_logged E _ _ _ _ _ _ _ _ _ Hrec)
    as (new & Hdrops & _ & Hal' & _).
  apply recursiveDeletion_Deletes in Hrec.
  destruct (proj1 (Deletes_involves E _ _ _ Hwhole) _ _ _ _ _ Hrec
              ltac:(congruence))
    as (new' & Hdrops' & Hobj & _ & Hdead & Hnew & Hint).
  assert (new' = new) as -> by (by eapply drops_unique).
  pose proof (involves_dropped E (dead sta) (dead stb) obj new
                Hobj Hdead Hnew Hint) as Hcov.
  destruct (remember_deleted_all deleted new)
    as (added_d & Heq & Hall & _ & _).
  exists (deleted ++ added_d).
  split; [by rewrite Hal', Hala, Hal; simpl; rewrite Heq|].
  split; [|split].
  - intros x Hx. eapply present_mono; [|exact Hx].
    intros z Hz. apply elem_of_app. by left.
  - by apply Hall.
  - intros x (a & Ha & Hax)%present_iff.
    apply elem_of_app in Ha as [Ha|Ha].
    + left. apply present_iff. eauto.
    + right. apply Hreach, auto_reaches_involves in Ha.
      rewrite <- Hda in Ha. apply Hcov in Ha as (y & Hy & Hya).
      apply Hall, present_iff in Hy as (w & Hw & Hwy).
      apply present_iff. exists w. split; [done|].
      eauto using covers_trans.
Qed.

Lemma delete_each_covers objects :
  forall implicit st u st' implicit0 deleted,
  pending st = ∅ ->
  alreadyDeleted st = Some deleted ->
  (forall x, object_address_present x implicit = true ->
             object_address_present x implicit0 = true \/
             object_address_present x deleted = true) ->
  delete_each E fuel objects implicit behavior st = Ok (u, st') ->
  exists deleted',
    alreadyDeleted st' = Some deleted' /\
    (forall x, object_address_present x deleted = true ->
               object_address_present x deleted' = true) /\
    forall obj, obj ∈ objects ->
                object_address_present obj implicit0 = false ->
                object_address_present obj deleted' = true.
Proof using Hwhole.
  induction objects as [|obj objects IH];
    intros implicit st u st' implicit0 deleted Hp Hal Hinv H.
  - injection H as <- <-. exists deleted. split; [done|]. split; [done|].
    intros obj Hobj. by apply elem_of_nil in Hobj.
  - simpl in H. unfold bind at 1, get_alreadyDeleted in H.
    rewrite Hal in H. simpl in H.
    destruct (object_address_present obj deleted) eqn:Hdel.
    { destruct (IH _ _ _ _ _ _ Hp Hal Hinv H) as (deleted' & ? & Hmono & Hall).
      exists deleted'. split; [done|]. split; [done|].
      intros o [->|Ho]%elem_of_cons; auto. }
    destruct (object_address_present obj implicit) eqn:Himp.
    { destruct (IH _ _ _ _ _ _ Hp Hal Hinv H) as (deleted' & ? & Hmono & Hall).
      exists deleted'. split; [done|]. split; [done|].
      intros o [->|Ho]%elem_of_cons Hno; [|auto].
      destruct (Hinv _ Himp) as [Hin|Hin]; congruence. }
    apply bind_Ok in H as (implicit' & st1 & H1 & H).
    pose proof (performDeletionWithList_pending E fuel _ _ _ _ _ _ Hp H1)
      as Hp1.
    destruct (performDeletionWithList_covers _ _ _ _ _ _ Hp Hal H1)
      as (deleted1 & Hal1 & Hmono1 & Hobj1 & Hinv1).
    assert (forall x, object_address_present x implicit' = true ->
                      object_address_present x implicit0 = true \/
                      object_address_present x deleted1 = true) as Hinv'.
    { intros x Hx. destruct (Hinv1 x Hx) as [Hx'|Hx']; [|by right].
      destruct (Hinv x Hx') as [?|?]; auto. }
    destruct (IH _ _ _ _ implicit0 _ Hp1 Hal1 Hinv' H)
      as (deleted' & ? & Hmono & Hall).
    exists deleted'. split; [done|]. split; [auto|].
    intros o [->|Ho]%elem_of_cons Hno; auto.
Qed.

Lemma collect_implicit_sound objects :
  forall implicit st implicit' st',
  collect_implicit E fuel objects implicit st = Ok (implicit', st') ->
  dead st' = dead st /\
  forall z, z ∈ implicit' ->
            z ∈ implicit \/
            exists target, target ∈ objects /\
                           auto_reaches E (dead st) target z.
Proof.
  induction objects as [|obj objects IH]; intros implicit st implicit' st' H.
  - injection H as <- <-. auto.
  - simpl in H. destruct (object_address_present obj implicit).
    + apply IH in H as [Hd Hz]. split; [done|]. intros z Hin.
      destruct (Hz z Hin) as [?|(t & ? & ?)]; [by left|].
      right. exists t. split; [by right|done].
    + apply bind_Ok in H as (okt & st1 & H1 & H).
      apply findAutoDeletableObjects_post in H1
        as ((Hd1 & _ & _ & _ & _ & added & -> & Hreach & _) & _).
      past_descriptions.
      apply IH in H as [Hd Hz]. split; [congruence|]. intros z Hin.
      destruct (Hz z Hin) as [Hin'|(t & ? & Ht)].
      * apply elem_of_app in Hin' as [?|Hadd]; [by left|].
        right. exists obj. split; [by left|auto].
      * right. exists t. split; [by right|]. by rewrite <- Hd1.
Qed.

End MultipleTargets.

(** X17.  What [performMultipleDeletions] has dropped when it returns, in a
    catalog whose INTERNAL dependers are whole objects and from a state
    with no deletion pending.  With [implicit] the list that its first
    loop collects: every entry of [implicit] depends on one of the targets
    through AUTO and INTERNAL tuples; and every target that [implicit]
    does not answer for has been dropped, itself or as part of the whole
    object.  (A target that [implicit] answers for is left to the
    deletion of the target it depends on.) *)
Theorem performMultipleDeletions_postcondition
    (E : Catalog) (fuel : nat) (objects : ObjectAddresses)
    (behavior : DropBehavior) (st st' : DB) :
  internal_dependers_whole E ->
  pending st = ∅ ->
  performMultipleDeletions E fuel objects behavior st = Ok (tt, st') ->
  exists st0 implicit st1 new,
    set_alreadyDeleted (Some new_object_addresses) st = Ok (tt, st0) /\
    collect_implicit E fuel objects new_object_addresses st0
      = Ok (implicit, st1) /\
    (forall z, z ∈ implicit ->
       exists target, target ∈ objects /\
                      auto_reaches E (dead st) target z) /\
    drops st st' new /\
    (forall obj, obj ∈ objects ->
       object_address_present obj implicit = false ->
       exists y, y ∈ new /\ covers y obj) /\
    pending st' = ∅.
Proof.
  intros Hwhole Hp H.
  pose proof H as (sta & new & Hdra & _ & Hala & (Hdrops & _ & Hal' & _))%performMultipleDeletions_logged.
  unfold performMultipleDeletions in H.
  apply bind_Ok in H as ([] & st0 & H0 & H).
  apply bind_Ok in H as (implicit & st1 & H1 & H).
  exists st0, implicit, st1, new. split; [done|]. split; [done|].
  pose proof H0 as [Hcore Hal0]%set_alreadyDeleted_Ok.
  apply core_eq in Hcore as (Hd0 & Hp0 & Hdr0 & _).
  pose proof (collect_implicit_pending E fuel _ _ _ _ _ H1) as Hp1.
  pose proof (collect_implicit_quiet E _ _ _ _ _ _ H1) as (_ & _ & Hal1 & _).
  rewrite Hal0 in Hal1. simpl in Hal1.
  destruct (collect_implicit_sound E fuel _ _ _ _ _ H1) as [Hd1 Hsound].
  assert (pending st1 = ∅) as Hq by congruence.
  destruct (delete_each_covers E fuel behavior Hwhole objects
              implicit st1 tt st' implicit [] Hq Hal1
              (fun x Hx => or_introl Hx) H)
    as (deleted' & Hal'' & _ & Hall).
  assert (pending st' = ∅) as Hp'.
  { clear -H Hq. revert implicit st1 H Hq.
    induction objects as [|obj objects IH]; intros implicit st1 H Hq.
    - by injection H as <-.
    - simpl in H. unfold bind at 1, get_alreadyDeleted in H.
      destruct (object_address_present obj _); [eauto|].
      destruct (object_address_present obj implicit); [eauto|].
      apply bind_Ok in H as (implicit' & st2 & H2 & H).
      apply performDeletionWithList_pending in H2; eauto. }
  split; [|split; [|split; [|done]]].
  - intros z Hz. destruct (Hsound z Hz) as [Hnil|(t & ? & Ht)].
    + by apply elem_of_nil in Hnil.
    + exists t. split; [done|]. by rewrite <- Hd0.
  - unfold drops in *. congruence.
  - intros obj Hobj Hno.
    specialize (Hall obj Hobj Hno).
    destruct (remember_deleted_all [] new) as (added & Heq & _ & Hnew & _).
    rewrite Hal', Hala in Hal''. simpl in Hal''. rewrite Heq in Hal''.
    injection Hal'' as <-. simpl in Hall.
    apply present_iff in Hall as (w & Hw & Hcov).
    exists w. split; [by apply Hnew|done].
Qed.

(** [DROP TABLE 16384, 16500 CASCADE] where table 16500 inherits from
    table 16384 and has a foreign key to it. *)
Lemma performMultipleDeletions_postcondition_witness :
  internal_dependers_whole foreign_key_catalog /\
  pending initial_DB = ∅ /\
  exists st',
    performMultipleDeletions foreign_key_catalog 10
      [table 16384; table 16500] DROP_CASCADE initial_DB = Ok (tt, st') /\
    dropped st' = [table 16384; table 16500; constraint 16600] /\
    exists implicit,
      (forall obj, obj ∈ [table 16384; table 16500] ->
         object_address_present obj implicit = false ->
         exists y, y ∈ dropped st' /\ covers y obj).
Proof.
  split; [exact foreign_key_whole|]. split; [reflexivity|]. eexists.
  split; [vm_compute; reflexivity|]. split; [reflexivity|].
  match goal with
  | |- context [dropped ?s] => set (st' := s)
  end.
  destruct (performMultipleDeletions_postcondition
              foreign_key_catalog 10 [table 16384; table 16500]
              DROP_CASCADE initial_DB st' foreign_key_whole eq_refl)
    as (st0 & implicit & st1 & new & _ & _ & _ & Hdrops & Hall & _);
    [vm_compute; reflexivity|].
  exists implicit. unfold drops in Hdrops.
  rewrite Hdrops, app_nil_r. exact Hall.
Defined.

(* ===================================================================== *)
(** * Part XXV.  When RESTRICT refuses                                    *)
(* ===================================================================== *)

Section RestrictVerdict.
Context (E : Catalog) (fuel : nat) (object : ObjectAddress).
Context (Hwhole : internal_dependers_whole E).

(** The pre-scan and the RESTRICT pass of [performDeletion]: the value of
    the pass, in terms of the objects involved and of the objects that
    depend on the target through AUTO and INTERNAL tuples. *)
Lemma restrict_pass st okt st1 st2 ok st' :
  pending st = ∅ ->
  findAutoDeletableObjects E fuel object new_object_addresses true st
    = Ok (okt, st1) ->
  core st2 = core st1 ->
  recursiveDeletion E fuel object DROP_RESTRICT NOTICE None okt st2
    = Ok (ok, st') ->
  if ok then
    forall x, involves E (dead st) object x ->
              exists y, auto_reaches E (dead st) object y /\ covers y x
  else
    exists x, involves E (dead st) object x /\
              forall y, auto_reaches E (dead st) object y -> ~ covers y x.
Proof using Hwhole.
  intros Hp Hfind Hcore Hrec.
  apply findAutoDeletableObjects_post in Hfind
    as ((Hd1 & Hp1 & _ & _ & _ & added & Hokt & Hauto & Hsilent & _)
        & Hself & _).
  past_descriptions.
  specialize (Hself eq_refl). simpl in Hokt. subst added.
  apply core_eq in Hcore as (Hd2 & Hp2 & _).
  assert (Hclosed : auto_closed E (dead st) okt) by exact Hsilent.
  assert (dead st2 = dead st) as Hdd by congruence.
  assert (pending st2 = ∅) as Hp0 by congruence.
  apply recursiveDeletion_Deletes in Hrec.
  destruct (proj1 (Deletes_involves E DROP_RESTRICT NOTICE okt Hwhole)
              _ _ _ _ _ Hrec Hp0)
    as (new & Hdrops & Hroot & Hinv & Hdead & Hnew & Hint).
  destruct (proj1 (Deletes_verdict E DROP_RESTRICT NOTICE okt (dead st)
                     Hwhole Hclosed) _ _ _ _ _ Hrec Hp0)
    as (new_ & Hdrops_ & Htrue & Hfalse); [by rewrite Hdd|].
  assert (new_ = new) as -> by (by eapply drops_unique).
  rewrite Hdd in *.
  destruct ok.
  - intros x Hx.
    destruct (involves_dropped E (dead st) (dead st') object new
                Hroot Hdead Hnew Hint x Hx) as (y & Hy & Hyx).
    apply (Htrue eq_refl eq_refl Hself), present_iff in Hy
      as (z & Hz & Hzy).
    exists z. split; [by apply Hauto|]. eauto using covers_trans.
  - destruct (Hfalse eq_refl) as (_ & x & Hx & Hn).
    exists x. split; [by apply Hinv|]. intros y Hy Hcov.
    apply (auto_reaches_present E (dead st) okt object y Hclosed Hself)
      in Hy.
    apply (present_covered y x) in Hy; [congruence|done].
Qed.

End RestrictVerdict.

(** X18.  When DROP ... RESTRICT goes through and when it is refused, in a
    catalog whose INTERNAL dependers are whole objects and from a state
    with no deletion pending.  An object is involved in the deletion of
    the target if it depends on an object involved, or an object involved
    is an INTERNAL dependent of it.
    (1) If [performDeletion] returns under RESTRICT, every object
        involved depends on the target through AUTO and INTERNAL tuples
        alone, or is part of an object that does.
    (2) If [performDeletion] raises "cannot drop .. because other objects
        depend on it", some object involved does not. *)
Theorem restrict_refuses_beyond_automatic_dependents
    (E : Catalog) (fuel : nat) (object : ObjectAddress) (st : DB) :
  internal_dependers_whole E ->
  pending st = ∅ ->
  (forall st',
      performDeletion E fuel object DROP_RESTRICT st = Ok (tt, st') ->
      forall x, involves E (dead st) object x ->
                exists y, auto_reaches E (dead st) object y /\ covers y x) /\
  (forall d,
      performDeletion E fuel object DROP_RESTRICT st
        = Err (ERR_other_objects_depend d) ->
      exists x, involves E (dead st) object x /\
                forall y, auto_reaches E (dead st) object y ->
                          ~ covers y x).
Proof.
  intros Hwhole Hp. split.
  - intros st' H.
    apply performDeletion_Ok in H
      as (d & sd & okt & st1 & st2 & Hd & H1 & H2 & H3).
    described Hd.
    apply set_alreadyDeleted_Ok in H2 as [Hcore _].
    exact (restrict_pass E fuel object Hwhole
             (described_in (described_class d) st) okt st1 st2 true st'
             Hp H1 Hcore H3).
  - intros d H.
    apply performDeletion_refused in H
      as (sd & okt & st1 & st2 & st3 & Hd & H1 & H2 & H3).
    described Hd.
    apply set_alreadyDeleted_Ok in H2 as [Hcore _].
    exact (restrict_pass E fuel object Hwhole
             (described_in (described_class d) st) okt st1 st2 false st3
             Hp H1 Hcore H3).
Qed.

(** [DROP TABLE 16384 RESTRICT] when table 16500 inherits from it. *)
Lemma restrict_refuses_beyond_automatic_dependents_witness :
  internal_dependers_whole foreign_key_catalog /\
  pending initial_DB = ∅ /\
  performDeletion foreign_key_catalog 10 (table 16384) DROP_RESTRICT
                  initial_DB
  = Err (ERR_other_objects_depend (Describe OCLASS_CLASS (table 16384))) /\
  exists x, involves foreign_key_catalog ∅ (table 16384) x /\
            forall y, auto_reaches foreign_key_catalog ∅ (table 16384) y ->
                      ~ covers y x.
Proof.
  split; [exact foreign_key_whole|]. split; [reflexivity|].
  split; [vm_compute; reflexivity|].
  apply (proj2 (restrict_refuses_beyond_automatic_dependents
                  foreign_key_catalog 10 (table 16384) initial_DB
                  foreign_key_whole eq_refl)
           (Describe OCLASS_CLASS (table 16384))).
  vm_compute. reflexivity.
Defined.

(** ** The list [oktodelete] matters through the addresses it answers for *)

Section Presence.
Context (E : Catalog).

Lemma complain_presence other d behavior msglevel okt okt' st :
  object_address_present other okt = object_address_present other okt' ->
  complain E other d behavior msglevel okt st
  = complain E other d behavior msglevel okt' st.
Proof. unfold complain. by intros ->. Qed.

Lemma bind_ext {A B} (m : M A) (k k' : A -> M B) st :
  (forall a st1, m st = Ok (a, st1) -> k a st1 = k' a st1) ->
  bind m k st = bind m k' st.
Proof.
  intros H. unfold bind. destruct (m st) as [[a st1]| |]; auto.
Qed.

Lemma delete_dependents_presence recurse recurse' object d behavior msglevel
    okt okt' :
  (forall x, object_address_present x okt = object_address_present x okt') ->
  (forall other caller st, recurse other caller st = recurse' other caller st) ->
  forall scan ok st,
  delete_dependents E recurse object d behavior msglevel okt scan ok st
  = delete_dependents E recurse' object d behavior msglevel okt' scan ok st.
Proof.
  intros Hsame Hrec. induction scan as [|i scan IH]; intros ok st; [done|].
  rewrite !delete_dependents_cons.
  destruct (visible_tuple E st i) as [foundDep|]; [|apply IH].
  destruct (deptype foundDep); try done.
  - unfold bind at 1 3.
    rewrite (complain_presence _ _ _ _ okt okt') by apply Hsame.
    destruct (complain E _ _ _ _ okt' st) as [[quiet st1]| |]; [|done|done].
    unfold bind. rewrite Hrec.
    destruct (recurse' _ _ st1) as [[r st2]| |]; [|done|done]. apply IH.
  - apply bind_ext. intros od st1 _. apply bind_ext. intros u st2 _.
    unfold bind. rewrite Hrec.
    destruct (recurse' _ _ st2) as [[r st3]| |]; [|done|done]. apply IH.
  - apply bind_ext. intros od st1 _. apply bind_ext. intros u st2 _.
    unfold bind. rewrite Hrec.
    destruct (recurse' _ _ st2) as [[r st3]| |]; [|done|done]. apply IH.
Qed.

Lemma recursiveDeletion_presence fuel behavior msglevel okt okt' :
  (forall x, object_address_present x okt = object_address_present x okt') ->
  forall object caller st,
  recursiveDeletion E fuel object behavior msglevel caller okt st
  = recursiveDeletion E fuel object behavior msglevel caller okt' st.
Proof.
  intros Hsame. induction fuel as [|fuel IH]; intros object caller st; [done|].
  simpl. apply bind_ext. intros d st0 _. apply bind_ext. intros scan st1 _.
  apply bind_ext. intros owner st2 _. apply bind_ext. intros u st3 _.
  destruct owner as [owningObject|].
  - unfold bind at 1 3.
    rewrite (complain_presence _ _ _ _ okt okt') by apply Hsame.
    destruct (complain E _ _ _ _ okt' st3) as [[quiet st4]| |]; [|done|done].
    unfold bind. by rewrite IH.
  - unfold bind at 1 3. unfold deleteDependentObjects_with.
    erewrite (bind_ext _ _ _ st3); [reflexivity|].
    intros scan' st4 _. by apply delete_dependents_presence.
Qed.

End Presence.

(** X19.  The list [oktodelete] matters only through the addresses it answers
    for: two lists for which [object_address_present] gives the same
    answers (the same entries in another order, or with duplicates, or with
    the columns of a table that is itself an entry) make
    [recursiveDeletion] and [deleteDependentObjects] do, report and return
    the same. *)
Theorem oktodelete_matters_through_presence
    (E : Catalog) (oktodelete oktodelete' : ObjectAddresses) :
  (forall x, object_address_present x oktodelete
             = object_address_present x oktodelete') ->
  (forall fuel object behavior msglevel caller st,
      recursiveDeletion E fuel object behavior msglevel caller oktodelete st
      = recursiveDeletion E fuel object behavior msglevel caller oktodelete'
                          st) /\
  (forall fuel object d behavior msglevel st,
      deleteDependentObjects E fuel object d behavior msglevel oktodelete st
      = deleteDependentObjects E fuel object d behavior msglevel oktodelete'
                               st).
Proof.
  intros Hsame. split.
  - intros. by apply recursiveDeletion_presence.
  - intros. unfold deleteDependentObjects, deleteDependentObjects_with.
    apply bind_ext. intros scan st1 _.
    apply delete_dependents_presence; [done|].
    intros. by apply recursiveDeletion_presence.
Qed.

Lemma oktodelete_matters_through_presence_witness :
  (forall x, object_address_present x [table 16384; table 16500]
             = object_address_present x
                 [table 16500; column 16384 3; table 16384; table 16500]) /\
  recursiveDeletion foreign_key_catalog 10 (table 16384) DROP_RESTRICT NOTICE
                    None [table 16384; table 16500] initial_DB
  = recursiveDeletion foreign_key_catalog 10 (table 16384) DROP_RESTRICT
                      NOTICE None
                      [table 16500; column 16384 3; table 16384; table 16500]
                      initial_DB.
Proof.
  assert (forall x, object_address_present x [table 16384; table 16500]
                    = object_address_present x
                        [table 16500; column 16384 3; table 16384;
                         table 16500]) as Hsame.
  { intros x. unfold object_address_present. simpl.
    rewrite !orb_true_r.
    destruct ((classId x =? 1259)%Z && (objectId x =? 16500)%Z); [done|].
    by destruct ((classId x =? 1259)%Z && (objectId x =? 16384)%Z). }
  split; [exact Hsame|].
  apply (proj1 (oktodelete_matters_through_presence foreign_key_catalog
                  _ _ Hsame)).
Defined.

(* ===================================================================== *)
(** * Part XXVI.  RESTRICT violations: reported, recorded, surfaced once  *)
(* ===================================================================== *)

(** ** The violations that a step reports *)




Section Violations.
Context (E : Catalog).








End Violations.

(** ** The value returned records the violations reported *)

Section ValueAndReports.
Context (E : Catalog) (behavior : DropBehavior) (msglevel : elevel)
        (oktodelete : ObjectAddresses).





End ValueAndReports.

(** ** The objects reported are dropped *)

Section ReportedAreDropped.
Context (E : Catalog) (behavior : DropBehavior) (msglevel : elevel)
        (oktodelete : ObjectAddresses).
Context (Hwhole : internal_dependers_whole E).



End ReportedAreDropped.

(** ** The destructor of an object dropped has been called *)

Section Destructors.
Context (E : Catalog).





End Destructors.

(** ** The pass as a whole *)

Section Pass.
Context (E : Catalog).







End Pass.



